(** * Beekeeper checks: address space, topology queries and the three
    verification protocols (smoke, pushsync light-node, chunk repair).

  The Go sources are embedded shallowly.  A Go [error] is its message
  (the code itself compares [err.Error()] with a string), a [[]byte] is
  a [list byte], a [*big.Int] holding a non-negative value is an [N],
  and a Go map that is ranged over is a [gmap] together with the order
  in which the runtime happens to enumerate it. *)

From Stdlib Require Import Strings.Byte Strings.Ascii Strings.String NArith ZArith Lia Sorted.
From stdpp Require Import base option list strings gmap.

Local Open Scope string_scope.
Local Open Scope list_scope.

(** ** Results of fallible calls *)

Inductive result (A : Type) : Type :=
| Ok (a : A)
| Err (msg : string).
Arguments Ok {A} a.
Arguments Err {A} msg.

(** ** AddressSpace: bytes and the XOR metric *)

Module AddressSpace.

Abbreviation Bytes := (list byte).

#[global] Instance byte_eq_decision : EqDecision byte := Byte.byte_eq_dec.

Definition bits8 : Type :=
  (bool * (bool * (bool * (bool * (bool * (bool * (bool * bool)))))))%type.

Definition xor_bits (p q : bits8) : bits8 :=
  let '(p0, (p1, (p2, (p3, (p4, (p5, (p6, p7))))))) := p in
  let '(q0, (q1, (q2, (q3, (q4, (q5, (q6, q7))))))) := q in
  (xorb p0 q0, (xorb p1 q1, (xorb p2 q2, (xorb p3 q3,
   (xorb p4 q4, (xorb p5 q5, (xorb p6 q6, xorb p7 q7))))))).

(** Go's [^] on two [byte] operands. *)
Definition byte_xor (a b : byte) : byte :=
  Byte.of_bits (xor_bits (Byte.to_bits a) (Byte.to_bits b)).

(** The loop [for i, addr := range x { c[i] = addr ^ y[i] }]; it is only
    entered when the two lengths agree. *)
Fixpoint xor_bytes (x y : Bytes) : Bytes :=
  match x, y with
  | a :: x', b :: y' => byte_xor a b :: xor_bytes x' y'
  | _, _ => []
  end.

Definition errAddressLength : string := "address length must match".

Definition distanceRaw (x y : Bytes) : result Bytes :=
  if Nat.eqb (length x) (length y)
  then Ok (xor_bytes x y)
  else Err errAddressLength.

(** [big.Int.SetBytes]: the bytes read as a big-endian unsigned integer. *)
Definition SetBytes (bs : Bytes) : N :=
  fold_left (fun acc b => (acc * 256 + Byte.to_N b)%N) bs 0%N.

(** [SetBytes] started from an accumulator, as the loop inside it runs. *)
Definition setBytes_from (acc : N) (bs : Bytes) : N :=
  fold_left (fun acc b => (acc * 256 + Byte.to_N b)%N) bs acc.

(** The value [distance] has on operands of one length. *)
Definition xorDistance (x y : Bytes) : N := SetBytes (xor_bytes x y).
Arguments xorDistance : simpl never.

Definition distance (x y : Bytes) : result N :=
  match distanceRaw x y with
  | Err e => Err e
  | Ok distanceBytes => Ok (SetBytes distanceBytes)
  end.

End AddressSpace.


(** ** Topology: overlay maps and the farthest-pair query (chunkrepair) *)

Module Topology.
Import AddressSpace.

(** [swarm.Address] wraps a byte slice; [Equal] is [bytes.Equal]. *)
Abbreviation Address := (list byte).

(** [swarm.ZeroAddress] is [NewAddress(nil)]; it is also the zero value
    of a declared and never assigned [swarm.Address]. *)
Definition ZeroAddress : Address := [].

(** One execution of [for k, v := range m]: the entries in the order the
    runtime enumerated them. *)
Definition Range (V : Type) : Type := list (string * V).

(** Go does not fix the order of a [range] over a map, and a second
    [range] over the same map need not repeat the first. *)
Definition enumerates {V} (m : gmap string V) (r : Range V) : Prop :=
  r ≡ₚ map_to_list m.

(** A [range] nested in another one over the same map: each entry the
    outer statement reaches, with the enumeration the inner statement
    produced in that round. *)
Definition NestedRange (V : Type) : Type := list ((string * V) * Range V).

Definition enumerates_nested {V} (m : gmap string V) (r : NestedRange V) : Prop :=
  enumerates m (r.*1) /\ Forall (fun round => enumerates m round.2) r.

(** A loop body that may leave the function with an error. *)
Fixpoint foldM {S B : Type} (f : S -> B -> result S) (l : list B) (s : S)
  : result S :=
  match l with
  | [] => Ok s
  | b :: l' =>
      match f s b with
      | Err e => Err e
      | Ok s' => foldM f l' s'
      end
  end.

(** The three locals of [findFarthestNodes]. *)
Record farthest : Type := Farthest {
  dist : N;
  overlayA : Address;
  overlayC : Address;
}.

Definition farthest_init : farthest :=
  {| dist := 0%N; overlayA := ZeroAddress; overlayC := ZeroAddress |}.

(** Body of the inner loop, for the outer address [a]. *)
Definition farthest_inner (a : Address) (st : farthest) (kc : string * Address)
  : result farthest :=
  let c := kc.2 in
  if bool_decide (a = c) then Ok st
  else
    match distance a c with
    | Err e => Err e
    | Ok currDist =>
        if (dist st <? currDist)%N
        then Ok {| dist := currDist; overlayA := a; overlayC := c |}
        else Ok st
    end.

Definition farthest_outer (st : farthest) (round : (string * Address) * Range Address)
  : result farthest :=
  foldM (farthest_inner round.1.2) round.2 st.

(** [findFarthestNodes]; on an error Go returns the two zero addresses
    next to it, which [Err] leaves implicit. *)
Definition findFarthestNodes (overlays : NestedRange Address)
  : result (Address * Address) :=
  match foldM farthest_outer overlays farthest_init with
  | Err e => Err e
  | Ok st => Ok (overlayA st, overlayC st)
  end.

(** The ordered pairs the two nested loops reach, in the order they reach
    them. *)
Definition visits {V} (r : NestedRange V) : list (V * V) :=
  flat_map (fun round : (string * V) * Range V =>
              map (fun kc : string * V => (round.1.2, kc.2)) round.2) r.

(** The inner body seen from the flattened sequence of pairs. *)
Definition farthest_step (st : farthest) (ac : Address * Address)
  : result farthest :=
  farthest_inner ac.1 st (EmptyString, ac.2).

(** What the three locals hold after the pairs [vis] have been reached:
    nothing yet when no reached pair had two different addresses, else the
    first reached pair whose distance no reached pair exceeds. *)
Definition scanned (vis : list (Address * Address)) (st : farthest) : Prop :=
  (st = farthest_init /\ Forall (fun ac => ac.1 = ac.2) vis) \/
  (exists pre post A C,
      vis = pre ++ (A, C) :: post /\ A <> C /\
      st = {| dist := xorDistance A C; overlayA := A; overlayC := C |} /\
      Forall (fun ac => (xorDistance ac.1 ac.2 < xorDistance A C)%N) pre /\
      Forall (fun ac => (xorDistance ac.1 ac.2 <= xorDistance A C)%N) post).

(** Brute-force reference: the largest distance over all ordered pairs of
    addresses of the snapshot (0 when there is no pair). *)
Definition pairDistances (vs : list Address) : list N :=
  omap (fun ac : Address * Address =>
          match distance ac.1 ac.2 with
          | Ok d => Some d
          | Err _ => None
          end) (list_prod vs vs).

Definition maxPairDistance (m : gmap string Address) : N :=
  foldr N.max 0%N (pairDistances (map_to_list m).*2).

Definition errEmptyCandidateSet : string := "EmptyCandidateSet".

(** One comparison of the closest-node scan: the candidate replaces the
    best so far only when it is strictly closer to the target. *)
Definition closer (target : Address) (best cand : string * Address)
  : result (string * Address) :=
  match distance cand.2 target, distance best.2 target with
  | Ok dc, Ok db => Ok (if (dc <? db)%N then cand else best)
  | Err e, _ => Err e
  | _, Err e => Err e
  end.

(** Modelled from the spec: [Chunk.ClosestNodeFromMap] (pkg/bee) is called
    by the checks but is not among the sources.  Section 4.2 of the
    specification: [closest(snapshot, target, excluded)] scans all
    (identifier, address) pairs not in [excluded], returns the one
    minimizing [distance(address, target)], ties broken by the iteration
    order over the snapshot, and fails with [EmptyCandidateSet] if every
    node is excluded; [distance] fails on operands of different lengths.
    The callers pass the exclusions as addresses. *)
Definition closest (snapshot : Range Address) (target : Address)
    (excluded : list Address) : result (string * Address) :=
  match filter (fun ka : string * Address => ka.2 ∉ excluded) snapshot with
  | [] => Err errEmptyCandidateSet
  | first :: rest =>
      match distance first.2 target with
      | Err e => Err e
      | Ok _ => foldM (closer target) rest first
      end
  end.

(** A snapshot of four one-byte overlays in which two disjoint pairs are
    at the largest distance 0xff, and two ways the runtime may enumerate
    it in [findFarthestNodes]. *)
Definition tieSnapshot : gmap string Address :=
  <["bee-0" := [x00]]> (<["bee-1" := [xff]]>
  (<["bee-2" := [x0f]]> (<["bee-3" := [xf0]]> ∅))).

Definition tieRange1 : Range Address :=
  [("bee-0", [x00]); ("bee-1", [xff]); ("bee-2", [x0f]); ("bee-3", [xf0])].

Definition tieRange2 : Range Address :=
  [("bee-2", [x0f]); ("bee-3", [xf0]); ("bee-0", [x00]); ("bee-1", [xff])].

Definition tieNested1 : NestedRange Address :=
  map (fun ka => (ka, tieRange1)) tieRange1.

Definition tieNested2 : NestedRange Address :=
  map (fun ka => (ka, tieRange2)) tieRange2.

End Topology.

(** ** Effects: calls into the cluster, early returns, panics *)

Module Effects.

(** How a piece of a Go function body ends: it falls through with a value,
    it executes [return r], the runtime panics, or (for a loop without a
    bound of its own) the budget of steps given to the model is used up
    while the loop is still running. *)
Inductive flow (R A : Type) : Type :=
| Next (a : A)
| Return (r : R)
| Panic (msg : string)
| Running.
Arguments Next {R A} a.
Arguments Return {R A} r.
Arguments Panic {R A} msg.
Arguments Running {R A}.

(** A computation over a world [W] that records the calls it makes as
    events [E], inside a function whose result type is [R]. *)
Definition M (W E R A : Type) : Type := W -> flow R A * W * list E.

Definition ret {W E R A} (a : A) : M W E R A :=
  fun w => (Next a, w, []).

Definition bind {W E R A B} (m : M W E R A) (f : A -> M W E R B) : M W E R B :=
  fun w =>
    match m w with
    | (Next a, w1, t1) => let '(o, w2, t2) := f a w1 in (o, w2, t1 ++ t2)
    | (Return r, w1, t1) => (Return r, w1, t1)
    | (Panic msg, w1, t1) => (Panic msg, w1, t1)
    | (Running, w1, t1) => (Running, w1, t1)
    end.

Definition returns {W E R A} (r : R) : M W E R A :=
  fun w => (Return r, w, []).

Definition panic {W E R A} (msg : string) : M W E R A :=
  fun w => (Panic msg, w, []).

Definition running {W E R A} : M W E R A :=
  fun w => (Running, w, []).

(** A call that leaves the program, recorded with what it answered. *)
Definition call {W E R A} (oracle : W -> A * W) (ev : A -> E) : M W E R A :=
  fun w => let '(a, w') := oracle w in (Next a, w', [ev a]).

(** A choice of the runtime that is not recorded. *)
Definition ask {W E R A} (oracle : W -> A * W) : M W E R A :=
  fun w => let '(a, w') := oracle w in (Next a, w', []).

Definition emit {W E R} (e : E) : M W E R unit :=
  fun w => (Next tt, w, [e]).

(** Calling a function of the program: its [return] ends the callee only. *)
Definition invoke {W E R R'} (body : M W E R' R') : M W E R R' :=
  fun w =>
    match body w with
    | (Next r, w1, t1) => (Next r, w1, t1)
    | (Return r, w1, t1) => (Next r, w1, t1)
    | (Panic msg, w1, t1) => (Panic msg, w1, t1)
    | (Running, w1, t1) => (Running, w1, t1)
    end.

(** [for _, x := range l { body x }] *)
Fixpoint forEach {W E R A} (l : list A) (body : A -> M W E R unit) : M W E R unit :=
  match l with
  | [] => ret tt
  | x :: l' => bind (body x) (fun _ => forEach l' body)
  end.

(** How a run ended, without the value it fell through with. *)
Inductive status (R : Type) : Type :=
| SNext
| SReturn (r : R)
| SPanic (msg : string)
| SRunning.
Arguments SNext {R}.
Arguments SReturn {R} r.
Arguments SPanic {R} msg.
Arguments SRunning {R}.

Definition status_of {R A} (o : flow R A) : status R :=
  match o with
  | Next _ => SNext
  | Return r => SReturn r
  | Panic msg => SPanic msg
  | Running => SRunning
  end.

(** [m] meets [Q] from every world: [Q] relates how the run ends to the
    events it leaves. *)
Definition meets {W E R A} (m : M W E R A) (Q : flow R A -> list E -> Prop) : Prop :=
  forall w, Q (m w).1.1 (m w).2.

(** An invariant of runs that does not look at fall-through values. *)
Definition keeps {W E R A} (I : status R -> list E -> Prop) (m : M W E R A) : Prop :=
  forall w, I (status_of (m w).1.1) (m w).2.

(** Invariants that survive sequencing. *)
Definition sequential {E R} (I : status R -> list E -> Prop) : Prop :=
  I SNext [] /\
  forall t1 s t2, I SNext t1 -> I s t2 -> I s (t1 ++ t2).

(** Every event [m] leaves satisfies [P], from every world. *)
Definition quiet {W E R A} (P : E -> Prop) (m : M W E R A) : Prop :=
  forall w, Forall P (m w).2.

(** A trace that opens with [e] and goes on with events of [P]. *)
Definition starts {E} (e : E) (P : E -> Prop) (t : list E) : Prop :=
  exists t', t = e :: t' /\ Forall P t'.

(** The parts of a run. *)
Definition outcome {W E R A} (x : flow R A * W * list E) : flow R A := x.1.1.

Definition trace {W E R A} (x : flow R A * W * list E) : list E := x.2.

End Effects.

Notation "'let*' x ':=' m 'in' k" := (Effects.bind m (fun x => k))
  (at level 10, x pattern, m at level 100, k at level 200).

(** ** The cluster as the checks see it *)

Module Bee.
Import AddressSpace Topology.

(** A [*bee.Client]; the nil pointer is [None] of [option Client]. *)
Definition Client : Type := string.

(** [bee.Chunk]: the content and the address derived from it. *)
Record Chunk : Type := {
  Data : Bytes;
  ChunkAddress : Address;
}.

(** [api.UploadOptions], the fields the checks set. *)
Record UploadOptions : Type := {
  Pin : bool;
  BatchID : string;
  Direct : bool;
}.

(** [time.Duration] counts nanoseconds. *)
Definition Millisecond : Z := 1000000.
Definition Second : Z := 1000 * Millisecond.

(** The three places where the smoke check looks at [ctx.Done()]. *)
Inductive CheckPoint : Type :=
| AtIteration
| InUploadRetry
| InDownloadRetry.

Inductive Event : Type :=
| EEnter (fn : string)
| ECtxDone (cp : CheckPoint) (fired : bool)
| ESleep (d : Z)
| EPerm (perm : list nat)
| ECryptoRead (n : Z) (r : result Bytes)
| ENewRandomChunk (r : result Chunk)
| ENodeGroup (name : string) (err : option string)
| EOverlays (r : result (gmap string Address))
| ESize (n : Z)
| ENodesClients (r : result (gmap string Client))
| EAddresses (node : Client) (r : result Address)
| EOverlay (node : Client) (r : result Address)
| ECreatePostageBatch (node : Client) (r : result string)
| EGetOrCreateBatch (node : Client) (r : result string)
| EUploadChunk (node : Client) (data : Bytes) (o : UploadOptions) (r : result Address)
| EUploadBytes (node : Client) (data : Bytes) (o : UploadOptions) (r : result Address)
| EDownloadBytes (node : Client) (a : Address) (r : result Bytes)
| EHasChunk (node : Client) (ref : Address) (r : result bool)
| EDownloadChunk (node : Client) (a : Address) (targets : string) (r : result Bytes)
| ERemoveChunk (node : Client) (a : Address) (err : option string)
| EPinRootHash (node : Client) (ref : Address) (err : option string).

(** Everything outside the checks: the Go runtime (map enumeration, the
    context, the clock, the system entropy source) and the orchestration
    and node clients.  Each answer may depend on, and change, the world.
    [rangeMap] is one [range] over a map.  [ctxDoneOrDefault] is
    [select { case <-ctx.Done(): ...; default: }] and [ctxDoneOrAfter d] is
    [select { case <-ctx.Done(): ...; case <-time.After(d): }]; both answer
    [true] when the select took the [ctx.Done()] case.  [cryptoRead n] is
    crypto/rand's [Read] on a buffer of [n] bytes.  The other fields are
    the methods of [orchestration.Cluster], [orchestration.NodeGroup] and
    [bee.Client] of the same names. *)
Record Env (W : Type) : Type := {
  rangeMap : forall V : Type, gmap string V -> W -> Range V * W;
  ctxDoneOrDefault : W -> bool * W;
  ctxDoneOrAfter : Z -> W -> bool * W;
  sleep : Z -> W -> unit * W;
  now : W -> Z * W;
  cryptoRead : Z -> W -> result Bytes * W;
  clusterNodeGroup : string -> W -> option string * W;
  ngOverlays : W -> result (gmap string Address) * W;
  ngSize : W -> Z * W;
  nodesClients : W -> result (gmap string Client) * W;
  flattenOverlays : list string -> W -> result (gmap string Address) * W;
  nodeAddresses : Client -> W -> result Address * W;
  nodeOverlay : Client -> W -> result Address * W;
  createPostageBatch : Client -> Z -> Z -> string -> string -> bool -> W -> result string * W;
  getOrCreateBatch : Client -> Z -> Z -> string -> string -> W -> result string * W;
  uploadChunk : Client -> Bytes -> UploadOptions -> W -> result Address * W;
  uploadBytes : Client -> Bytes -> UploadOptions -> W -> result Address * W;
  downloadBytes : Client -> Address -> W -> result Bytes * W;
  hasChunk : Client -> Address -> W -> result bool * W;
  downloadChunk : Client -> Address -> string -> W -> result Bytes * W;
  removeChunk : Client -> Address -> W -> option string * W;
  pinRootHash : Client -> Address -> W -> option string * W;
}.
Arguments rangeMap {W} _ {V}.
Arguments ctxDoneOrDefault {W}.
Arguments ctxDoneOrAfter {W}.
Arguments sleep {W}.
Arguments now {W}.
Arguments cryptoRead {W}.
Arguments clusterNodeGroup {W}.
Arguments ngOverlays {W}.
Arguments ngSize {W}.
Arguments nodesClients {W}.
Arguments flattenOverlays {W}.
Arguments nodeAddresses {W}.
Arguments nodeOverlay {W}.
Arguments createPostageBatch {W}.
Arguments getOrCreateBatch {W}.
Arguments uploadChunk {W}.
Arguments uploadBytes {W}.
Arguments downloadBytes {W}.
Arguments hasChunk {W}.
Arguments downloadChunk {W}.
Arguments removeChunk {W}.
Arguments pinRootHash {W}.

Definition isHasChunk (e : Event) : bool :=
  match e with EHasChunk _ _ _ => true | _ => false end.

Definition isSleep (d : Z) (e : Event) : bool :=
  match e with ESleep d' => Z.eqb d d' | _ => false end.

Definition isRemoveChunk (e : Event) : bool :=
  match e with ERemoveChunk _ _ _ => true | _ => false end.

Fixpoint countEvents (p : Event -> bool) (t : list Event) : nat :=
  match t with
  | [] => O
  | e :: t' => if p e then S (countEvents p t') else countEvents p t'
  end.

(** The chunks a run generated, in order, and the first [k] chunks a
    generator yields. *)
Definition drawn (e : Event) : option (result Chunk) :=
  match e with ENewRandomChunk r => Some r | _ => None end.



(** The same environment with another node-group overlay map, and with
    another system entropy source. *)
Definition withOverlays {W} (env : Env W)
    (f : W -> result (gmap string Address) * W) : Env W :=
  {| rangeMap := @rangeMap W env;
     ctxDoneOrDefault := ctxDoneOrDefault env;
     ctxDoneOrAfter := ctxDoneOrAfter env;
     sleep := sleep env;
     now := now env;
     cryptoRead := cryptoRead env;
     clusterNodeGroup := clusterNodeGroup env;
     ngOverlays := f;
     ngSize := ngSize env;
     nodesClients := nodesClients env;
     flattenOverlays := flattenOverlays env;
     nodeAddresses := nodeAddresses env;
     nodeOverlay := nodeOverlay env;
     createPostageBatch := createPostageBatch env;
     getOrCreateBatch := getOrCreateBatch env;
     uploadChunk := uploadChunk env;
     uploadBytes := uploadBytes env;
     downloadBytes := downloadBytes env;
     hasChunk := hasChunk env;
     downloadChunk := downloadChunk env;
     removeChunk := removeChunk env;
     pinRootHash := pinRootHash env |}.


(** The runtime enumerates every entry of a map exactly once. *)
Definition fair_ranges {W} (env : Env W) : Prop :=
  forall (V : Type) (m : gmap string V) (w : W),
    enumerates m (rangeMap env m w).1.

(** [hex.EncodeToString], which [swarm.Address.String] returns. *)
Definition hexDigit (n : N) : ascii :=
  match n with
  | 0 => "0" | 1 => "1" | 2 => "2" | 3 => "3" | 4 => "4" | 5 => "5"
  | 6 => "6" | 7 => "7" | 8 => "8" | 9 => "9" | 10 => "a" | 11 => "b"
  | 12 => "c" | 13 => "d" | 14 => "e" | _ => "f"
  end%N%char.

Fixpoint hex (bs : Bytes) : string :=
  match bs with
  | [] => EmptyString
  | b :: bs' =>
      String (hexDigit (Byte.to_N b / 16)) (String (hexDigit (Byte.to_N b mod 16)) (hex bs'))
  end.

End Bee.

(** ** The chunk-repair check (RecoveryCheck) *)

Module ChunkRepair.
Import AddressSpace Topology Effects Bee.

Definition maxIterations : nat := 10.
Definition minNodesRequired : Z := 3.

Definition errLessNodesForTest : string :=
  "node count is less than the minimum count required".

Record Options : Type := {
  GasPrice : string;
  NodeGroup : string;
  NumberOfChunksToRepair : Z;
  PostageAmount : Z;
  PostageLabel : string;
  Seed : Z;
}.

Definition NewDefaultOptions : Options :=
  {| GasPrice := "";
     NodeGroup := "bee";
     NumberOfChunksToRepair := 1;
     PostageAmount := 1;
     PostageLabel := "test-label";
     Seed := 0 |}.

Definition errNilPointer : string :=
  "invalid memory address or nil pointer dereference".

(** What [getNodes] hands back: the three clients (any of them may still
    be nil) and the chunk, or the error. *)
Definition Roles : Type :=
  (option Client * option Client * option Client * Chunk)%type.

Section Check.
Context {W : Type}.
Variable env : Env W.

(** [*rand.Rand] and the three library calls that consume it or build a
    chunk: [random.PseudoGenerators], [bee.NewRandomChunk] and
    [Chunk.SetAddress], none of them among the sources. *)
Variable Rand : Type.
Variable PseudoGenerators : Z -> Z -> list Rand.
Variable NewRandomChunk : Rand -> result Chunk * Rand.
Variable SetAddress : Chunk -> result Chunk.

(** [bee.MinimumBatchDepth] *)
Variable MinimumBatchDepth : Z.

(** A method call through a client pointer. *)
Definition deref {R} (c : option Client) : M W Event R Client :=
  match c with
  | Some node => ret node
  | None => panic errNilPointer
  end.

Definition range {R V} (m : gmap string V) : M W Event R (Range V) :=
  ask (rangeMap env m).

Fixpoint rounds {R V} (m : gmap string V) (outer : Range V)
  : M W Event R (NestedRange V) :=
  match outer with
  | [] => ret []
  | ka :: outer' =>
      let* inner := range m in
      let* rest := rounds m outer' in
      ret ((ka, inner) :: rest)
  end.

Definition nestedRange {R V} (m : gmap string V) : M W Event R (NestedRange V) :=
  let* outer := range m in
  rounds m outer.

Definition pause {R} (d : Z) : M W Event R unit :=
  call (sleep env d) (fun _ => ESleep d).

(** [getRandomChunkAndClosestNode]; the generator is a pointer in Go, so
    its new state is handed back next to the results. *)
Definition getRandomChunkAndClosestNode (overlays : gmap string Address)
    (rnd : Rand)
  : M W Event (result (Address * Chunk) * Rand) (result (Address * Chunk) * Rand) :=
  let rc := NewRandomChunk rnd in
  let* _ := emit (ENewRandomChunk rc.1) in
  match rc.1 with
  | Err e => returns (Err e, rc.2)
  | Ok chunk =>
      match SetAddress chunk with
      | Err e => returns (Err e, rc.2)
      | Ok chunk =>
          let* r := range overlays in
          match closest r (ChunkAddress chunk) [] with
          | Err e => returns (Err e, rc.2)
          | Ok (_, closestAddress) => returns (Ok (closestAddress, chunk), rc.2)
          end
      end
  end.

(** The unbounded [for] of [getNodes] that draws chunks until the closest
    overlay is neither A nor C. *)
Fixpoint pickB (fuel : nat) (overlays : gmap string Address)
    (overlayA overlayC : Address) (rnd : Rand)
  : M W Event (result Roles) (Address * Chunk) :=
  match fuel with
  | O => running
  | S fuel' =>
      let* (r, rnd') := invoke (getRandomChunkAndClosestNode overlays rnd) in
      match r with
      | Err e => returns (Err e)
      | Ok (closestOverlay, c) =>
          if bool_decide (closestOverlay = overlayA)
          then pickB fuel' overlays overlayA overlayC rnd'
          else if bool_decide (closestOverlay = overlayC)
          then pickB fuel' overlays overlayA overlayC rnd'
          else ret (closestOverlay, c)
      end
  end.

(** The loop of [getNodes] over the clients. *)
Fixpoint findClients (nodes : Range Client) (overlayA overlayB overlayC : Address)
    (nodeA nodeB nodeC : option Client)
  : M W Event (result Roles) (option Client * option Client * option Client) :=
  match nodes with
  | [] => ret (nodeA, nodeB, nodeC)
  | (_, node) :: rest =>
      let* r := call (nodeAddresses env node) (EAddresses node) in
      match r with
      | Err e => returns (Err e)
      | Ok overlay =>
          let nodeA := if bool_decide (overlay = overlayA) then Some node else nodeA in
          let nodeB := if bool_decide (overlay = overlayB) then Some node else nodeB in
          let nodeC := if bool_decide (overlay = overlayC) then Some node else nodeC in
          findClients rest overlayA overlayB overlayC nodeA nodeB nodeC
      end
  end.

(** [getNodes] from the choice of node B on, once A and C are known. *)
Definition assignRoles (fuel : nat) (overlays : gmap string Address)
    (overlayA overlayC : Address) (rnd : Rand)
  : M W Event (result Roles) (result Roles) :=
  let* (overlayB, chunk) := pickB fuel overlays overlayA overlayC rnd in
  let* rc := call (nodesClients env) ENodesClients in
  match rc with
  | Err e => returns (Err ("get nodes clients: " +:+ e))
  | Ok clients =>
      let* nodes := range clients in
      let* (nodeA, nodeB, nodeC) :=
        findClients nodes overlayA overlayB overlayC None None None in
      returns (Ok (nodeA, nodeB, nodeC, chunk))
  end.

Definition getNodes (fuel : nat) (rnd : Rand)
  : M W Event (result Roles) (result Roles) :=
  let* _ := emit (EEnter "getNodes") in
  let* ro := call (ngOverlays env) EOverlays in
  match ro with
  | Err e => returns (Err e)
  | Ok overlays =>
      let* size := call (ngSize env) ESize in
      if (size <? minNodesRequired)%Z then returns (Err errLessNodesForTest)
      else
        let* nr := nestedRange overlays in
        match findFarthestNodes nr with
        | Err e => returns (Err e)
        | Ok (overlayA, overlayC) => assignRoles fuel overlays overlayA overlayC rnd
        end
  end.

Definition uploadAndPinChunkToNode (node : option Client) (chunk : Chunk)
  : M W Event (option string) (option string) :=
  let* _ := emit (EEnter "uploadAndPinChunkToNode") in
  let* n := deref node in
  let o := {| Pin := false; BatchID := ""; Direct := false |} in
  let* r := call (uploadChunk env n (Data chunk) o) (EUploadChunk n (Data chunk) o) in
  match r with
  | Err e => returns (Some e)
  | Ok ref =>
      let* e := call (pinRootHash env n ref) (EPinRootHash n ref) in
      returns e
  end.

Definition deleteChunkFromAllNodes (chunk : Chunk)
  : M W Event (option string) (option string) :=
  let* _ := emit (EEnter "deleteChunkFromAllNodes") in
  let* rc := call (nodesClients env) ENodesClients in
  match rc with
  | Err e => returns (Some ("get nodes clients: " +:+ e))
  | Ok clients =>
      let* nodes := range clients in
      let* _ :=
        forEach nodes (fun kn =>
          let* e := call (removeChunk env kn.2 (ChunkAddress chunk))
                         (ERemoveChunk kn.2 (ChunkAddress chunk)) in
          match e with
          | Some e => returns (Some e)
          | None => ret tt
          end) in
      returns None
  end.

(** First polling loop of [Run]: wait until node B has the chunk. *)
Fixpoint pollPresentOnB (fuel : nat) (nodeB : option Client) (ref : Address)
    (count : nat) : M W Event (option string) unit :=
  match fuel with
  | O => running
  | S fuel' =>
      if (maxIterations <? count)%nat
      then returns (Some "could not get chunk even after several attempts")
      else
        let* b := deref nodeB in
        let* r := call (hasChunk env b ref) (EHasChunk b ref) in
        match r with
        | Err _ =>
            let* _ := pause (100 * Millisecond) in
            pollPresentOnB fuel' nodeB ref (S count)
        | Ok present =>
            if present then ret tt
            else pollPresentOnB fuel' nodeB ref count
        end
  end.

Definition errProperData : string :=
  "chunk downloaded in NodeC does not have proper data".

(** [errMessage]: the one error [Run] accepts from the download that is
    meant to trigger the repair of the chunk at [address]. *)
Definition errMessage (address : Address) : string :=
  "download chunk " +:+ hex address +:+ ": try again later".

(** [addressA.String()[0:2]] panics on a string shorter than two. *)
Definition targetsPrefix {R} (addressA : Address) : M W Event R string :=
  if (String.length (hex addressA) <? 2)%nat
  then panic "slice bounds out of range"
  else ret (substring 0 2 (hex addressA)).

(** The download from node C that is meant to start the repair. *)
Definition triggerRecovery (nodeC : option Client) (chunk : Chunk)
    (addressA : Address) : M W Event (option string) unit :=
  let* targets := targetsPrefix addressA in
  let* c := deref nodeC in
  let* r := call (downloadChunk env c (ChunkAddress chunk) targets)
                 (EDownloadChunk c (ChunkAddress chunk) targets) in
  match r with
  | Err e =>
      if bool_decide (e <> errMessage (ChunkAddress chunk))
      then returns (Some ("chunk recovery not triggered: " +:+ e))
      else ret tt
  | Ok _ => ret tt
  end.

(** Second polling loop of [Run]: download from C until it succeeds. *)
Fixpoint pollRepaired (fuel : nat) (nodeC : option Client) (chunk : Chunk)
    (count : nat) : M W Event (option string) unit :=
  match fuel with
  | O => running
  | S fuel' =>
      if (maxIterations <? count)%nat
      then returns (Some "could not download even after several attempts")
      else
        let* c := deref nodeC in
        let* r := call (downloadChunk env c (ChunkAddress chunk) "")
                       (EDownloadChunk c (ChunkAddress chunk) "") in
        match r with
        | Err _ =>
            let* _ := pause (1 * Second) in
            pollRepaired fuel' nodeC chunk (S count)
        | Ok data3 =>
            if bool_decide (data3 = Data chunk) then ret tt
            else returns (Some errProperData)
        end
  end.

(** The body of the [for i] loop of [Run] after [getNodes], cut at the
    calls of [deleteChunkFromAllNodes] and [uploadAndPinChunkToNode].
    First part: upload to A, wait for B, download from C and compare. *)
Definition uploadAndVerify (fuel : nat) (o : Options) (roles : Roles)
  : M W Event (option string) Address :=
  let '(nodeA, nodeB, nodeC, chunk) := roles in
  let* a := deref nodeA in
  let* rA := call (nodeOverlay env a) (EOverlay a) in
  match rA with
  | Err e => returns (Some e)
  | Ok addressA =>
  let* rb := call (createPostageBatch env a (PostageAmount o) MinimumBatchDepth
                     (GasPrice o) (PostageLabel o) false)
                  (ECreatePostageBatch a) in
  match rb with
  | Err e => returns (Some ("created batched id " +:+ e))
  | Ok batchID =>
  let up := {| Pin := false; BatchID := batchID; Direct := false |} in
  let* ru := call (uploadChunk env a (Data chunk) up) (EUploadChunk a (Data chunk) up) in
  match ru with
  | Err e => returns (Some e)
  | Ok ref =>
  let* _ := pollPresentOnB fuel nodeB ref 0 in
  let* c := deref nodeC in
  let* r1 := call (downloadChunk env c ref "") (EDownloadChunk c ref "") in
  match r1 with
  | Err e => returns (Some e)
  | Ok data1 =>
  if bool_decide (data1 <> Data chunk) then returns (Some errProperData)
  else ret addressA
  end end end end.

(** [err = deleteChunkFromAllNodes(ctx, ng, chunk); if err != nil { return err }] *)
Definition deleteEverywhere (chunk : Chunk) : M W Event (option string) unit :=
  let* del := invoke (deleteChunkFromAllNodes chunk) in
  match del with
  | Some e => returns (Some e)
  | None => ret tt
  end.

(** [err = uploadAndPinChunkToNode(ctx, nodeA, chunk); if err != nil { return err }] *)
Definition reupload (nodeA : option Client) (chunk : Chunk)
  : M W Event (option string) unit :=
  let* pin := invoke (uploadAndPinChunkToNode nodeA chunk) in
  match pin with
  | Some e => returns (Some e)
  | None => ret tt
  end.

Definition repair (fuel : nat) (o : Options) (roles : Roles)
  : M W Event (option string) unit :=
  let* addressA := uploadAndVerify fuel o roles in
  let* _ := deleteEverywhere roles.2 in
  let* _ := triggerRecovery roles.1.2 roles.2 addressA in
  let* _ := reupload roles.1.1.1 roles.2 in
  pollRepaired fuel roles.1.2 roles.2 0.

(** The events the parts of [repair] can leave. *)
Definition verifyEvent (e : Event) : bool :=
  match e with
  | EOverlay _ _ | ECreatePostageBatch _ _ | EUploadChunk _ _ _ _
  | EHasChunk _ _ _ | ESleep _ => true
  | EDownloadChunk _ _ targets _ => bool_decide (targets = "")
  | _ => false
  end.

Definition pinEvent (e : Event) : bool :=
  match e with
  | EUploadChunk _ _ _ _ | EPinRootHash _ _ _ => true
  | _ => false
  end.

Definition pollEvent (e : Event) : bool :=
  match e with
  | ESleep _ => true
  | EDownloadChunk _ _ targets _ => bool_decide (targets = "")
  | _ => false
  end.

Definition deleteEvent (e : Event) : bool :=
  match e with
  | EEnter fn => bool_decide (fn = "deleteChunkFromAllNodes")
  | ENodesClients _ | ERemoveChunk _ _ _ => true
  | _ => false
  end.

Definition enterReupload : Event := EEnter "uploadAndPinChunkToNode".

(** A successful [RemoveChunk] on the client of one entry. *)
Definition removed (a : Address) (kn : string * Client) : Event :=
  ERemoveChunk kn.2 a None.

Definition getNodesEvent (e : Event) : bool :=
  match e with
  | EEnter fn => bool_decide (fn = "getNodes")
  | EOverlays _ | ESize _ | ENewRandomChunk _ | ENodesClients _
  | EAddresses _ _ => true
  | _ => false
  end.

(** The download that is meant to trigger the repair is the only one
    that passes targets. *)
Definition isTrigger (e : Event) : bool :=
  match e with
  | EDownloadChunk _ _ targets _ => negb (bool_decide (targets = ""))
  | _ => false
  end.

(** What the download with targets decides, read off a run: after an
    error other than [errMessage] nothing follows and the run has
    returned the wrapped error; after success or [errMessage] the next
    thing is the call of [uploadAndPinChunkToNode]. *)
Definition triggerPolicy (s : status (option string)) (t : list Event) : Prop :=
  forall pre node a targets r post,
    t = pre ++ EDownloadChunk node a targets r :: post ->
    targets <> "" ->
    match r with
    | Err e =>
        if bool_decide (e = errMessage a)
        then exists post', post = enterReupload :: post'
        else post = [] /\
             s = SReturn (Some ("chunk recovery not triggered: " +:+ e))
    | Ok _ => exists post', post = enterReupload :: post'
    end.

Definition tailEvent (e : Event) : bool :=
  match e with
  | EEnter fn => bool_decide (fn = "uploadAndPinChunkToNode")
  | EDownloadChunk _ _ _ _ | EUploadChunk _ _ _ _ | EPinRootHash _ _ _
  | ESleep _ => true
  | _ => false
  end.

(** Neither a [RemoveChunk] nor the start of a new round. *)
Definition calm (e : Event) : Prop :=
  isRemoveChunk e = false /\ e <> EEnter "getNodes".

(** What a run shows about removal and re-upload: before every call of
    [uploadAndPinChunkToNode], and after the last [getNodes], the clients
    of the node group were fetched and [RemoveChunk] succeeded on each of
    them; a failed [RemoveChunk] is the last thing that happens, and its
    error is what the run returns. *)
Definition removalPolicy (s : status (option string)) (t : list Event) : Prop :=
  (forall pre post,
      t = pre ++ enterReupload :: post ->
      exists before clients nodes a after,
        pre = before ++ ENodesClients (Ok clients) :: map (removed a) nodes ++ after /\
        enumerates clients nodes /\
        Forall calm after) /\
  (forall pre node a e post,
      t = pre ++ ERemoveChunk node a (Some e) :: post ->
      post = [] /\ s = SReturn (Some e)).

Definition iteration (fuel : nat) (o : Options) (rnds : list Rand) (i : nat)
  : M W Event (option string) unit :=
  match rnds !! i with
  | None => panic "index out of range"
  | Some rnd =>
      let* g := invoke (getNodes fuel rnd) in
      match g with
      | Err e => returns (Some e)
      | Ok roles => repair fuel o roles
      end
  end.

(** [Run]; the options arrive already typed, so the failed type assertion
    has no counterpart. The logger and the metrics are never read back
    and are left out. *)
Definition Run (fuel : nat) (o : Options) : M W Event (option string) (option string) :=
  let rnds := PseudoGenerators (Seed o) (NumberOfChunksToRepair o) in
  let* e := call (clusterNodeGroup env (NodeGroup o)) (ENodeGroup (NodeGroup o)) in
  match e with
  | Some e => returns (Some e)
  | None =>
      let* _ := forEach (seq 0 (Z.to_nat (NumberOfChunksToRepair o)))
                        (iteration fuel o rnds) in
      returns None
  end.

End Check.
End ChunkRepair.

(** ** The light-node pushsync check (ReplicationCheck) *)

Module Pushsync.
Import AddressSpace Topology Effects Bee.

Record Options : Type := {
  ChunksPerNode : Z;
  ExcludeNodeGroups : list string;
  GasPrice : string;
  PostageAmount : Z;
  PostageDepth : Z;
  PostageLabel : string;
  RetryDelay : Z;
  Seed : Z;
  UploadNodeCount : Z;
}.

(** The three results of [chunk.ClosestNodeFromMap(overlays, skip...)] as
    the caller receives them; with an error come the zero values. *)
Definition ClosestNodeFromMap (overlays : Range Address) (chunk : Chunk)
    (skipPeers : list Address) : string * Address * option string :=
  match closest overlays (ChunkAddress chunk) skipPeers with
  | Ok (name, address) => (name, address, None)
  | Err e => (EmptyString, ZeroAddress, Some e)
  end.

(** One [HasChunk] call of the replica scan: the node it was made on,
    with its overlay and client, and what the node answered. *)
Record visit : Type := {
  vName : string;
  vAddress : Address;
  vClient : Client;
  vAnswer : result bool;
}.

Definition asked (ref : Address) (v : visit) : Event :=
  EHasChunk (vClient v) ref (vAnswer v).

(** Strictly ascending distance from the target. *)
Definition ascending (target : Address) (vs : list visit) : Prop :=
  StronglySorted
    (fun v1 v2 =>
       (xorDistance (vAddress v1) target < xorDistance (vAddress v2) target)%N)
    vs.

(** The entries of the snapshot the scan may still ask. *)
Definition candidates (overlays : gmap string Address) (skipPeers : list Address)
  : Range Address :=
  filter (fun ka : string * Address => ka.2 ∉ skipPeers) (map_to_list overlays).

Section Check.
Context {W : Type}.
Variable env : Env W.

(** [random.PseudoGenerators] and the one-argument [bee.NewRandomChunk]
    this check is written against; [cluster.LightNodeNames()]. *)
Variable Rand : Type.
Variable PseudoGenerators : Z -> Z -> list Rand.
Variable NewRandomChunk : Rand -> result Chunk * Rand.
Variable LightNodeNames : list string.

Definition deref {R} (c : option Client) : M W Event R Client :=
  match c with
  | Some node => ret node
  | None => panic "invalid memory address or nil pointer dereference"
  end.

Definition range {R V} (m : gmap string V) : M W Event R (Range V) :=
  ask (rangeMap env m).

Definition pause {R} (d : Z) : M W Event R unit :=
  call (sleep env d) (fun _ => ESleep d).

(** [for i := 0; i < 3; i++ { ref, err = UploadChunk(..); if err == nil
    { break }; time.Sleep(o.RetryDelay) }] *)
Fixpoint uploadRetry {R} (n : nat) (o : Options) (uploader : Client)
    (chunk : Chunk) (batchID : string) (last : result Address)
  : M W Event R (result Address) :=
  match n with
  | O => ret last
  | S n' =>
      let up := {| Pin := false; BatchID := batchID; Direct := false |} in
      let* r := call (uploadChunk env uploader (Data chunk) up)
                     (EUploadChunk uploader (Data chunk) up) in
      match r with
      | Ok ref => ret (Ok ref)
      | Err e =>
          let* _ := pause (RetryDelay o) in
          uploadRetry n' o uploader chunk batchID (Err e)
      end
  end.

(** [for i := 0; i < 3; i++ { synced, _ = HasChunk(..); if synced { break };
    time.Sleep(o.RetryDelay) }] *)
Fixpoint pollClosest {R} (n : nat) (o : Options) (node : option Client)
    (ref : Address) (synced : bool) : M W Event R bool :=
  match n with
  | O => ret synced
  | S n' =>
      let* c := deref node in
      let* r := call (hasChunk env c ref) (EHasChunk c ref) in
      let synced := match r with Ok b => b | Err _ => false end in
      if synced then ret true
      else
        let* _ := pause (RetryDelay o) in
        pollClosest n' o node ref synced
  end.

(** The loop [for range overlays] that looks for a second holder; [n]
    counts the rounds that are left.  [true] stands for
    [continue testCases], [false] for falling out of the loop. *)
Fixpoint replicaScan {R} (n : nat) (overlays : gmap string Address)
    (clients : gmap string Client) (chunk : Chunk) (ref : Address)
    (skipPeers : list Address) : M W Event R bool :=
  match n with
  | O => ret false
  | S n' =>
      let* r := range overlays in
      let '(name, address, err) := ClosestNodeFromMap r chunk skipPeers in
      let skipPeers := skipPeers ++ [address] in
      match err with
      | Some _ => replicaScan n' overlays clients chunk ref skipPeers
      | None =>
          let* node := deref (clients !! name) in
          let* s := call (hasChunk env node ref) (EHasChunk node ref) in
          match s with
          | Err _ => replicaScan n' overlays clients chunk ref skipPeers
          | Ok synced =>
              if synced then ret true
              else replicaScan n' overlays clients chunk ref skipPeers
          end
      end
  end.

(** Lines 88 to 108: the replication step of one test case. *)
Definition checkReplicated (overlays : gmap string Address)
    (clients : gmap string Client) (nodeName : string) (chunk : Chunk)
    (ref closestAddress : Address) : M W Event (option string) unit :=
  let* replicated :=
    replicaScan (size overlays) overlays clients chunk ref [closestAddress] in
  if replicated then ret tt
  else returns (Some ("node " +:+ nodeName +:+ " chunk " +:+ hex ref +:+ " not replicated")).

(** One round of the loop labelled [testCases]. *)
Definition testCase (o : Options) (overlays : gmap string Address)
    (clients : gmap string Client) (nodeName : string) (uploader : Client)
    (batchID : string) (rnd : Rand) : M W Event (option string) Rand :=
  let rc := NewRandomChunk rnd in
  let* _ := emit (ENewRandomChunk rc.1) in
  match rc.1 with
  | Err e => returns (Some ("node " +:+ nodeName +:+ ": " +:+ e))
  | Ok chunk =>
  let* ru := uploadRetry 3 o uploader chunk batchID (Ok ZeroAddress) in
  match ru with
  | Err e => returns (Some ("node " +:+ nodeName +:+ ": " +:+ e))
  | Ok ref =>
  let* _ := pause (RetryDelay o) in
  let* r := range overlays in
  let '(closestName, closestAddress, err) := ClosestNodeFromMap r chunk [] in
  match err with
  | Some e => returns (Some ("node " +:+ nodeName +:+ ": " +:+ e))
  | None =>
  let* synced := pollClosest 3 o (clients !! closestName) ref false in
  if negb synced
  then returns (Some ("node " +:+ nodeName +:+ " chunk " +:+ hex ref
                      +:+ " not found in the closest node " +:+ hex closestAddress))
  else
  let* _ := checkReplicated overlays clients nodeName chunk ref closestAddress in
  ret rc.2
  end end end.

Fixpoint testCases (n : nat) (o : Options) (overlays : gmap string Address)
    (clients : gmap string Client) (nodeName : string) (uploader : Client)
    (batchID : string) (rnd : Rand) : M W Event (option string) unit :=
  match n with
  | O => ret tt
  | S n' =>
      let* rnd' := testCase o overlays clients nodeName uploader batchID rnd in
      testCases n' o overlays clients nodeName uploader batchID rnd'
  end.

(** Body of [for i, nodeName := range cluster.LightNodeNames()]. *)
Definition uploadNode (o : Options) (rnds : list Rand)
    (overlays : gmap string Address) (clients : gmap string Client)
    (i : nat) (nodeName : string) : M W Event (option string) unit :=
  let* uploader := deref (clients !! nodeName) in
  let* rb := call (getOrCreateBatch env uploader (PostageAmount o) (PostageDepth o)
                     (GasPrice o) (PostageLabel o))
                  (EGetOrCreateBatch uploader) in
  match rb with
  | Err e => returns (Some ("node " +:+ nodeName +:+ ": batch id " +:+ e))
  | Ok batchID =>
      match rnds !! i with
      | None =>
          if (0 <? ChunksPerNode o)%Z then panic "index out of range" else ret tt
      | Some rnd =>
          testCases (Z.to_nat (ChunksPerNode o)) o overlays clients nodeName
            uploader batchID rnd
      end
  end.

Fixpoint uploadNodes (o : Options) (rnds : list Rand)
    (overlays : gmap string Address) (clients : gmap string Client)
    (i : nat) (names : list string) : M W Event (option string) unit :=
  match names with
  | [] => ret tt
  | nodeName :: names' =>
      if (UploadNodeCount o <=? Z.of_nat i)%Z then ret tt
      else
        let* _ := uploadNode o rnds overlays clients i nodeName in
        uploadNodes o rnds overlays clients (S i) names'
  end.

Definition checkLightChunks (o : Options)
  : M W Event (option string) (option string) :=
  let rnds := PseudoGenerators (Seed o) (UploadNodeCount o) in
  let* ro := call (flattenOverlays env (ExcludeNodeGroups o)) EOverlays in
  match ro with
  | Err e => returns (Some e)
  | Ok overlays =>
      let* rc := call (nodesClients env) ENodesClients in
      match rc with
      | Err e => returns (Some e)
      | Ok clients =>
          let* _ := uploadNodes o rnds overlays clients 0 LightNodeNames in
          returns None
      end
  end.

End Check.
End Pushsync.

(** ** The smoke check (RoundTripCheck) *)

Module Smoke.
Import AddressSpace Topology Effects Bee.

Record Options : Type := {
  ContentSize : Z;
  RndSeed : Z;
  PostageAmount : Z;
  PostageDepth : Z;
  TxOnErrWait : Z;
  RxOnErrWait : Z;
  NodesSyncWait : Z;
  Duration : Z;
  GasPrice : string;
}.

(** The events before which [Run] looks at the context: the draw of the
    permutation opens a round, [GetOrCreateBatch] opens an upload attempt
    and [DownloadBytes] is the download attempt. *)
Definition needsCheck (e : Event) : option CheckPoint :=
  match e with
  | EPerm _ => Some AtIteration
  | EGetOrCreateBatch _ _ => Some InUploadRetry
  | EDownloadBytes _ _ _ => Some InDownloadRetry
  | _ => None
  end.

Definition fired (e : Event) : Prop := exists cp, e = ECtxDone cp true.

(** An event that neither needs a check nor is a fired check. *)
Definition passive (e : Event) : Prop := needsCheck e = None /\ ~ fired e.

(** Traces in which each event that needs a check comes right after a
    look at the context, at its own check point, that found it not done. *)
Inductive guarded : list Event -> Prop :=
| guarded_nil : guarded []
| guarded_free (e : Event) (t : list Event) :
    needsCheck e = None -> guarded t -> guarded (e :: t)
| guarded_checked (cp : CheckPoint) (e : Event) (t : list Event) :
    needsCheck e = Some cp -> guarded t ->
    guarded (ECtxDone cp false :: e :: t).

(** A trace that is empty or opens with an event to be checked at [cp]
    and goes on with passive ones. *)
Definition opens (cp : CheckPoint) (t : list Event) : Prop :=
  t = [] \/
  exists e t', t = e :: t' /\ needsCheck e = Some cp /\ Forall passive t'.

Definition cancelPolicy (s : status (option string)) (t : list Event) : Prop :=
  guarded t /\
  forall pre cp post,
    t = pre ++ ECtxDone cp true :: post -> post = [] /\ s = SReturn None.

(** The only way out of the loop of [Run]: a run that has returned has
    returned nil, and the last thing it did was a look at the context
    that found it done. *)
Definition exitPolicy (s : status (option string)) (t : list Event) : Prop :=
  forall r, s = SReturn r ->
    r = None /\ exists pre cp, t = pre ++ [ECtxDone cp true].




Definition isPerm (e : Event) : bool :=
  match e with EPerm _ => true | _ => false end.

Definition isCryptoRead (e : Event) : bool :=
  match e with ECryptoRead _ _ => true | _ => false end.

(** [runtime.maxAlloc], the largest size the allocator accepts; on the
    64-bit platforms it is [1 << 48].  [make([]byte, n)] panics for [n]
    below zero and for [n] above it. *)
Definition maxAlloc : Z := 2 ^ 48.

Section Check.
Context {W : Type}.
Variable env : Env W.

(** [*rand.Rand] of math/rand with its [Intn], and the repository's
    [random.PseudoGenerator]. *)
Variable Rand : Type.
Variable Intn : Rand -> nat -> nat * Rand.
Variable PseudoGenerator : Z -> Rand.

(** [cluster.Size()] and [cluster.NodeNames()] *)
Variable Size : nat.
Variable NodeNames : list string.

(** The loop of math/rand's [Perm]:
    [for i := 0; i < n; i++ { j := r.Intn(i + 1); m[i] = m[j]; m[j] = i }];
    [k] counts the rounds that are left. *)
Fixpoint permLoop (k i : nat) (m : list nat) (r : Rand) : list nat * Rand :=
  match k with
  | O => (m, r)
  | S k' =>
      let '(j, r') := Intn r (i + 1) in
      let m := <[i := default 0%nat (m !! j)]> m in
      let m := <[j := i]> m in
      permLoop k' (S i) m r'
  end.

Definition Perm (r : Rand) (n : nat) : list nat * Rand :=
  permLoop n 0 (replicate n 0%nat) r.


Definition deref {R} (c : option Client) : M W Event R Client :=
  match c with
  | Some node => ret node
  | None => panic "invalid memory address or nil pointer dereference"
  end.

Definition pause {R} (d : Z) : M W Event R unit :=
  call (sleep env d) (fun _ => ESleep d).

(** [l[i]] on a slice *)
Definition index {R A} (l : list A) (i : nat) : M W Event R A :=
  match l !! i with
  | Some x => ret x
  | None => panic "index out of range"
  end.

(** [select { case <-ctx.Done(): return nil; default: }] *)
Definition checkDone (cp : CheckPoint) : M W Event (option string) unit :=
  let* fired := call (ctxDoneOrDefault env) (ECtxDone cp) in
  if fired then returns None else ret tt.

(** [select { case <-ctx.Done(): return nil; case <-time.After(d): }] *)
Definition checkDoneOrAfter (cp : CheckPoint) (d : Z) : M W Event (option string) unit :=
  let* fired := call (ctxDoneOrAfter env d) (ECtxDone cp) in
  if fired then returns None else ret tt.

(** [test.upload] *)
Definition upload (o : Options) (clients : gmap string Client) (cName : string)
    (data : Bytes)
  : M W Event (Address * Z * option string) (Address * Z * option string) :=
  let* client := deref (clients !! cName) in
  let* rb := call (getOrCreateBatch env client (PostageAmount o) (PostageDepth o)
                     (GasPrice o) "smoke-test")
                  (EGetOrCreateBatch client) in
  match rb with
  | Err e =>
      returns (ZeroAddress, 0%Z,
               Some ("node " +:+ cName +:+ ": unable to create batch id: " +:+ e))
  | Ok batchID =>
      let* start := ask (now env) in
      let up := {| Pin := false; BatchID := batchID; Direct := false |} in
      let* ra := call (uploadBytes env client data up) (EUploadBytes client data up) in
      match ra with
      | Err e =>
          returns (ZeroAddress, 0%Z,
                   Some ("upload to the node " +:+ cName +:+ ": " +:+ e))
      | Ok addr =>
          let* t := ask (now env) in
          returns (addr, (t - start)%Z, None)
      end
  end.

(** [test.download] *)
Definition download (clients : gmap string Client) (cName : string)
    (addr : Address)
  : M W Event (Bytes * Z * option string) (Bytes * Z * option string) :=
  let* client := deref (clients !! cName) in
  let* start := ask (now env) in
  let* rd := call (downloadBytes env client addr) (EDownloadBytes client addr) in
  match rd with
  | Err e =>
      returns ([], 0%Z, Some ("download from node " +:+ cName +:+ ": " +:+ e))
  | Ok data =>
      let* t := ask (now env) in
      returns (data, (t - start)%Z, None)
  end.

(** [for retries := 3; txDuration == 0 && retries > 0; retries--] *)
Fixpoint uploadRetries (retries : nat) (o : Options) (clients : gmap string Client)
    (txName : string) (txData : Bytes) (address : Address) (txDuration : Z)
  : M W Event (option string) (Address * Z) :=
  match retries with
  | O => ret (address, txDuration)
  | S retries' =>
      if (txDuration =? 0)%Z then
        let* _ := checkDone InUploadRetry in
        let* (address, txDuration, err) := invoke (upload o clients txName txData) in
        let* _ := match err with
                  | Some _ => pause (TxOnErrWait o)
                  | None => ret tt
                  end in
        uploadRetries retries' o clients txName txData address txDuration
      else ret (address, txDuration)
  end.

(** [for retries := 3; rxDuration == 0 && retries > 0; retries--]; what
    follows a mismatch only feeds the logger and the metrics. *)
Fixpoint downloadRetries (retries : nat) (o : Options) (clients : gmap string Client)
    (rxName : string) (address : Address) (txData : Bytes) (rxDuration : Z)
  : M W Event (option string) unit :=
  match retries with
  | O => ret tt
  | S retries' =>
      if (rxDuration =? 0)%Z then
        let* _ := checkDoneOrAfter InDownloadRetry (RxOnErrWait o) in
        let* (rxData, rxDuration, err) := invoke (download clients rxName address) in
        match err with
        | Some _ => downloadRetries retries' o clients rxName address txData rxDuration
        | None =>
            if (rxDuration =? 0)%Z
            then downloadRetries retries' o clients rxName address txData rxDuration
            else if bool_decide (rxData = txData) then ret tt
            else downloadRetries retries' o clients rxName address txData rxDuration
        end
      else ret tt
  end.

(** Body of [for i := 0; true; i++]; it hands back the generator, which
    only [Perm] advances. *)
Definition iteration (o : Options) (clients : gmap string Client) (rnd : Rand)
  : M W Event (option string) Rand :=
  let* _ := checkDone AtIteration in
  let '(perm, rnd') := Perm rnd Size in
  let* _ := emit (EPerm perm) in
  let* txIdx := index perm 0 in
  let* rxIdx := index perm 1 in
  if (txIdx =? rxIdx)%nat then ret rnd'
  else
    let* txName := index NodeNames txIdx in
    let* rxName := index NodeNames rxIdx in
    if (ContentSize o <? 0)%Z || (maxAlloc <? ContentSize o)%Z
    then panic "makeslice: len out of range"
    else
    let* rd := call (cryptoRead env (ContentSize o)) (ECryptoRead (ContentSize o)) in
    match rd with
    | Err _ => ret rnd'
    | Ok txData =>
        let* (address, txDuration) :=
          uploadRetries 3 o clients txName txData ZeroAddress 0 in
        if (txDuration =? 0)%Z then ret rnd'
        else
          let* _ := pause (NodesSyncWait o) in
          let* _ := downloadRetries 3 o clients rxName address txData 0 in
          ret rnd'
    end.

Fixpoint iterations (fuel : nat) (o : Options) (clients : gmap string Client)
    (rnd : Rand) : M W Event (option string) unit :=
  match fuel with
  | O => running
  | S fuel' =>
      let* rnd' := iteration o clients rnd in
      iterations fuel' o clients rnd'
  end.

(** [Run]; [fuel] bounds the number of rounds the model follows.  The
    options arrive already typed, the deadline [o.Duration] puts on the
    context is part of what the environment answers about [ctx.Done()],
    and the logger and the metrics, which are never read back, are left
    out. *)
Definition Run (fuel : nat) (o : Options) : M W Event (option string) (option string) :=
  let rnd := PseudoGenerator (RndSeed o) in
  let* rc := call (nodesClients env) ENodesClients in
  match rc with
  | Err e => returns (Some e)
  | Ok clients =>
      let* _ := pause (5 * Second) in
      let* _ := iterations fuel o clients rnd in
      returns None
  end.

End Check.
End Smoke.

(** ** What is counted and looked for in the traces of the checks *)

Module Observations.
Import AddressSpace Topology Effects Bee.

Definition isUploadBytes (e : Event) : bool :=
  match e with EUploadBytes _ _ _ _ => true | _ => false end.

Definition isDownloadBytes (e : Event) : bool :=
  match e with EDownloadBytes _ _ _ => true | _ => false end.

Definition isGetOrCreateBatch (e : Event) : bool :=
  match e with EGetOrCreateBatch _ _ => true | _ => false end.

Definition isNewRandomChunk (e : Event) : bool :=
  match e with ENewRandomChunk _ => true | _ => false end.

Definition isUploadChunk (e : Event) : bool :=
  match e with EUploadChunk _ _ _ _ => true | _ => false end.

Definition isOk {A} (r : result A) : bool :=
  match r with Ok _ => true | Err _ => false end.

(** A piece of a function body that does not execute [return]. *)
Definition fallsThrough {R : Type} (s : status R) (t : list Event) : Prop :=
  forall r, s <> SReturn r.

End Observations.

(** ** The rounds of the chunk-repair check, seen from outside *)

Module RepairRounds.
Import AddressSpace Topology Effects Bee ChunkRepair Observations.

(** Failed downloads of the second polling loop of [Run], each followed
    by the one-second sleep. *)
Definition failedDownloads (c : Client) (a : Address) (errs : list string)
  : list Event :=
  flat_map (fun e => [EDownloadChunk c a "" (Err e); ESleep (1 * Second)]) errs.

(** The client the loop of [getNodes] over [nodesClients] leaves in the
    variable for [overlay], given what the nodes answered to [Addresses]:
    the last enumerated node that reported the overlay, nil when none
    did. *)
Definition reporting (overlay : Address) (nodes : Range Client)
    (answers : list (result Address)) : option Client :=
  last (omap (fun na : (string * Client) * result Address =>
                match na.2 with
                | Ok a => if bool_decide (a = overlay) then Some na.1.2 else None
                | Err _ => None
                end) (zip nodes answers)).

(** What a run that has not failed shows after every call of
    [uploadAndPinChunkToNode]: the upload and the pin succeeded, and
    after at most [maxIterations] failed downloads a download returned
    the very data that was uploaded. *)
Definition repairedPolicy (s : status (option string)) (t : list Event) : Prop :=
  s = SNext \/ s = SReturn None ->
  forall pre post, t = pre ++ enterReupload :: post ->
    exists a data up ref c addr errs post',
      (length errs <= maxIterations)%nat /\
      post = EUploadChunk a data up (Ok ref) :: EPinRootHash a ref None
               :: failedDownloads c addr errs
               ++ EDownloadChunk c addr "" (Ok data) :: post'.

(** [HasChunk] calls of the first polling loop of [Run] that did not find
    the chunk: a failed call is followed by the sleep of 100 ms, an
    answer "no" by nothing. *)
Definition waitingPolls (b : Client) (ref : Address)
    (answers : list (result bool)) : list Event :=
  flat_map (fun r => match r with
                     | Err _ => [EHasChunk b ref r; ESleep (100 * Millisecond)]
                     | Ok _ => [EHasChunk b ref r]
                     end) answers.

Definition enterDelete : Event := EEnter "deleteChunkFromAllNodes".

(** What a run shows before every call of [deleteChunkFromAllNodes]: the
    chunk was uploaded, node B reported it present, and the download
    from node C returned the uploaded data. *)
Definition verifiedPolicy (s : status (option string)) (t : list Event) : Prop :=
  forall pre post, t = pre ++ enterDelete :: post ->
    exists before a data up ref b waits c,
      Forall (fun r => r <> Ok true) waits /\
      pre = before ++ EUploadChunk a data up (Ok ref)
              :: waitingPolls b ref waits
              ++ [EHasChunk b ref (Ok true); EDownloadChunk c ref "" (Ok data)].

(** The call of [uploadAndPinChunkToNode]. *)
Definition isReupload (e : Event) : bool :=
  match e with
  | EEnter fn => bool_decide (fn = "uploadAndPinChunkToNode")
  | _ => false
  end.

(** [api.UploadOptions{Pin: false}], the options of the re-upload. *)
Definition pinOptions : UploadOptions :=
  {| Pin := false; BatchID := ""; Direct := false |}.

(** What a round has done, after [getNodes], when it is about to call
    [uploadAndPinChunkToNode]. *)
Definition removedEverywhere (chunk : Chunk) (a b c : Client)
    (addressA : Address) (batchID : string) (ref : Address)
    (waits : list (result bool)) (clients : gmap string Client)
    (nodes : Range Client) (r : result Bytes) : list Event :=
  [EOverlay a (Ok addressA); ECreatePostageBatch a (Ok batchID);
   EUploadChunk a (Data chunk)
     {| Pin := false; BatchID := batchID; Direct := false |} (Ok ref)]
  ++ waitingPolls b ref waits
  ++ [EHasChunk b ref (Ok true); EDownloadChunk c ref "" (Ok (Data chunk));
      enterDelete; ENodesClients (Ok clients)]
  ++ map (removed (ChunkAddress chunk)) nodes
  ++ [EDownloadChunk c (ChunkAddress chunk) (substring 0 2 (hex addressA)) r].

(** What a run shows at every call of [uploadAndPinChunkToNode]: the
    round that makes it drew [chunk0] last, whose address [SetAddress]
    set; it uploaded the chunk to [a], saw it on [b] and downloaded it
    from [c]; it then fetched the clients and removed the address of the
    chunk from each of them without an error, and made the download with
    targets; and the call uploads the data of that chunk to [a] again. *)
Definition reuploadPolicy (SetAddress : Chunk -> result Chunk)
    (s : status (option string)) (t : list Event) : Prop :=
  forall pre post, t = pre ++ enterReupload :: post ->
    exists before chunk0 chunk picked a b c addressA batchID ref waits clients
           nodes r pin post',
      SetAddress chunk0 = Ok chunk /\
      Forall (fun e => isNewRandomChunk e = false) picked /\
      Forall (fun w => w <> Ok true) waits /\
      enumerates clients nodes /\
      pre = before ++ ENewRandomChunk (Ok chunk0) :: picked
              ++ removedEverywhere chunk a b c addressA batchID ref waits
                   clients nodes r /\
      post = EUploadChunk a (Data chunk) pinOptions pin :: post'.

(** A run that has not returned nil. *)
Definition notNil (s : status (option string)) (t : list Event) : Prop :=
  s <> SReturn None.

End RepairRounds.

(** ** The rounds of the smoke check, seen from outside *)

Module SmokeRounds.
Import AddressSpace Topology Effects Bee Smoke.

(** A run that has not returned an error. *)
Definition noFailure (s : status (option string)) (t : list Event) : Prop :=
  forall e, s <> SReturn (Some e).

(** The events of the download loop for [address]. *)
Definition downloadEvent (address : Address) (e : Event) : Prop :=
  match e with
  | ECtxDone cp _ => cp = InDownloadRetry
  | EDownloadBytes _ a _ => a = address
  | _ => False
  end.

(** The events of a round that go to a node, and the node they must go
    to: batches and uploads to the client registered under the name at
    index [perm[0]], downloads to the one under the name at [perm[1]]. *)
Definition roleEvent (clients : gmap string Client) (NodeNames : list string)
    (perm : list nat) (e : Event) : Prop :=
  match e with
  | EGetOrCreateBatch n _ | EUploadBytes n _ _ _ =>
      exists txIdx txName,
        perm !! 0%nat = Some txIdx /\ NodeNames !! txIdx = Some txName /\
        clients !! txName = Some n
  | EDownloadBytes n _ _ =>
      exists rxIdx rxName,
        perm !! 1%nat = Some rxIdx /\ NodeNames !! rxIdx = Some rxName /\
        clients !! rxName = Some n
  | _ => True
  end.

End SmokeRounds.

(** ** The uploads of the light-node pushsync check, seen from outside *)

Module LightNodes.
Import AddressSpace Topology Effects Bee Pushsync.

(** Failed uploads of the retry loop, each followed by the retry delay. *)
Definition failedUploads (uploader : Client) (data : Bytes) (up : UploadOptions)
    (delay : Z) (errs : list string) : list Event :=
  flat_map (fun e => [EUploadChunk uploader data up (Err e); ESleep delay]) errs.

(** A run that, if it returned an error, returned one that names one of
    the nodes [names]. *)
Definition namesNode (names : list string) (s : status (option string))
    (t : list Event) : Prop :=
  forall e, s = SReturn (Some e) ->
    exists nodeName rest, nodeName ∈ names /\ e = "node " +:+ nodeName +:+ rest.

(** Polls of the closest node that did not find the chunk, each followed
    by the retry delay. *)
Definition failedPolls (c : Client) (ref : Address) (delay : Z)
    (answers : list (result bool)) : list Event :=
  flat_map (fun r => [EHasChunk c ref r; ESleep delay]) answers.

(** The panic of a method call through a nil client. *)
Definition errNilClient : string :=
  "invalid memory address or nil pointer dereference".

(** The error of a test case that found no second holder. *)
Definition notReplicated (nodeName : string) (ref : Address) : string :=
  "node " +:+ nodeName +:+ " chunk " +:+ hex ref +:+ " not replicated".

(** A [HasChunk] call that reported the chunk present. *)
Definition confirms (e : Event) : Prop := exists n a, e = EHasChunk n a (Ok true).

(** The order of the scan for a second holder: the nodes asked are
    nodes of the snapshot whose overlays are not excluded, each asked
    through its own client, in strictly ascending distance from the
    target, and every overlay that was not asked for is farther from the
    target than all that were. *)
Definition scanOrder (overlays : gmap string Address)
    (clients : gmap string Client) (target : Address) (excluded : list Address)
    (vs : list visit) : Prop :=
  ascending target vs /\
  Forall (fun v => overlays !! vName v = Some (vAddress v) /\
                   clients !! vName v = Some (vClient v) /\
                   vAddress v ∉ excluded) vs /\
  forall k a,
    overlays !! k = Some a -> a ∉ excluded ->
    (forall v, v ∈ vs -> vAddress v <> a) ->
    forall v, v ∈ vs ->
      (xorDistance (vAddress v) target < xorDistance a target)%N.

(** How the scan ended, by what [replicaScan] hands back. *)
Definition scanResult {R} (overlays : gmap string Address)
    (clients : gmap string Client) (excluded : list Address) (vs : list visit)
    (out : flow R bool) : Prop :=
  match out with
  | Next true =>
      exists done v,
        vs = done ++ [v] /\ vAnswer v = Ok true /\
        Forall (fun u => vAnswer u <> Ok true) done
  | Next false =>
      Forall (fun u => vAnswer u <> Ok true) vs /\
      forall k a, overlays !! k = Some a -> a ∉ excluded ->
        exists v, v ∈ vs /\ vAddress v = a
  | Panic msg =>
      msg = errNilClient /\
      Forall (fun u => vAnswer u <> Ok true) vs /\
      exists k a,
        overlays !! k = Some a /\ (a ∉ excluded) /\ clients !! k = None
  | _ => False
  end.

(** What a run shows after every chunk it generated, on the overlays and
    clients it works with.  Either no [HasChunk] call reported the chunk
    present and the run has ended badly; or the chunk was uploaded
    within three attempts and confirmed within three polls by the client
    of the node whose overlay is nearest to the chunk address, and the
    scan that followed, with that overlay excluded, went in order and
    ended in one of three ways: a node answered "true" and the run went
    on; all other overlays were asked for in vain and the run returned
    the "not replicated" error; or the nearest node not yet asked had no
    client and the run panicked.  A run that has returned an error has
    done something. *)
Definition scanPolicy (overlays : gmap string Address)
    (clients : gmap string Client) (delay : Z)
    (s : status (option string)) (t : list Event) : Prop :=
  (forall e, s = SReturn (Some e) -> t <> []) /\
  forall pre chunk post, t = pre ++ ENewRandomChunk (Ok chunk) :: post ->
    (Forall (fun e => ~ confirms e) post /\ s <> SNext /\ s <> SReturn None) \/
    exists uploader up errs ref closestName closestAddress c misses vs post',
      ((length errs < 3)%nat /\ (length misses < 3)%nat /\
       Forall (fun r => r <> Ok true) misses) /\
      (overlays !! closestName = Some closestAddress /\
       clients !! closestName = Some c /\
       forall k a, overlays !! k = Some a ->
         (xorDistance closestAddress (ChunkAddress chunk)
          <= xorDistance a (ChunkAddress chunk))%N) /\
      post = failedUploads uploader (Data chunk) up delay errs
             ++ EUploadChunk uploader (Data chunk) up (Ok ref) :: ESleep delay
             :: failedPolls c ref delay misses ++ EHasChunk c ref (Ok true)
             :: map (asked ref) vs ++ post' /\
      scanOrder overlays clients (ChunkAddress chunk) [closestAddress] vs /\
      (((exists done v,
           vs = done ++ [v] /\ vAnswer v = Ok true /\
           Forall (fun u => vAnswer u <> Ok true) done) /\
        (post' = [] -> forall e, s <> SReturn (Some e))) \/
       (Forall (fun u => vAnswer u <> Ok true) vs /\
        (forall k a, overlays !! k = Some a -> a <> closestAddress ->
           exists v, v ∈ vs /\ vAddress v = a) /\
        post' = [] /\
        exists nodeName, s = SReturn (Some (notReplicated nodeName ref))) \/
       (Forall (fun u => vAnswer u <> Ok true) vs /\
        (exists k a,
           overlays !! k = Some a /\ a <> closestAddress /\ clients !! k = None) /\
        post' = [] /\ s = SPanic errNilClient)).

End LightNodes.

(** ** The Loki hook of the logger *)

Module Loki.
Import AddressSpace Effects.

Record LokiHook : Type := {
  hostname : string;
  lokiEndpoint : string;
}.

(** [newLoki]; the argument [osHostname] is what [os.Hostname()] returned. *)
Definition newLoki (osHostname : result string) (lokiEndpoint : string) : LokiHook :=
  let hostname := match osHostname with
                  | Ok hostname => hostname
                  | Err _ => "unknown"
                  end in
  {| hostname := hostname; lokiEndpoint := lokiEndpoint |}.

(** [*http.Response]: the status line; the body stays with the
    connection, outside the program. *)
Record Response : Type := {
  Status : string;
  StatusCode : Z;
}.

Definition StatusOK : Z := 200.
Definition StatusNoContent : Z := 204.

Definition errNilDereference : string :=
  "invalid memory address or nil pointer dereference".

(** What [executeHTTPRequest] does to the network. *)
Inductive HttpEvent (Request : Type) : Type :=
| EDo (req : Request) (r : result Response)
| EReadAll (resp : Response) (r : result Bytes)
| EClose (resp : Response).
Arguments EDo {Request} req r.
Arguments EReadAll {Request} resp r.
Arguments EClose {Request} resp.

(** [defer cleanup] at the head of [body]: the cleanup runs when the
    body is left, by [return], by falling off its end or by a panic. *)
Definition deferred {W E R} (cleanup : M W E R unit) (body : M W E R R)
  : M W E R R :=
  fun w =>
    match body w with
    | (Next r, w1, t1) | (Return r, w1, t1) =>
        let '(_, w2, t2) := cleanup w1 in (Return r, w2, t1 ++ t2)
    | (Panic msg, w1, t1) =>
        let '(_, w2, t2) := cleanup w1 in (Panic msg, w2, t1 ++ t2)
    | (Running, w1, t1) => (Running, w1, t1)
    end.

Section Hook.
Context {W : Type}.

(** The HTTP client: [client.Do], [ioutil.ReadAll] on the body of a
    response and [Body.Close]. *)
Variable Request : Type.
Variable clientDo : Request -> W -> result Response * W.
Variable readAll : Response -> W -> result Bytes * W.
Variable bodyClose : Response -> W -> unit * W.

(** [http.NewRequest] with a reader over the given bytes, and
    [req.Header.Set]. *)
Variable NewRequest : string -> string -> Bytes -> result Request.
Variable HeaderSet : Request -> string -> string -> Request.

(** [loki.Stream] and [loki.Batch] with their constructors and
    [json.Marshal] on a batch. *)
Variable Stream : Type.
Variable Batch : Type.
Variable Timestamp : Type.
Variable NewStream : Stream.
Variable AddEntry : Stream -> Timestamp -> string -> Stream.
Variable AddLabel : Stream -> string -> string -> Stream.
Variable NewBatch : Batch.
Variable AddStream : Batch -> Stream -> Batch.
Variable Marshal : Batch -> result Bytes.

(** A [logrus.Entry] with its fields [Time] and [Logger], a
    [logrus.Logger] with its field [Formatter], and the method [Format]
    of a [logrus.Formatter].  [Logger] is a pointer and [Formatter] an
    interface value: either may be nil, which is [None]. *)
Variable Entry : Type.
Variable Logger : Type.
Variable Formatter : Type.
Variable EntryTime : Entry -> Timestamp.
Variable EntryLogger : Entry -> option Logger.
Variable LoggerFormatter : Logger -> option Formatter.
Variable Format : Formatter -> Entry -> result Bytes.

(** [executeHTTPRequest] after [defer resp.Body.Close()]. *)
Definition checkResponse (resp : Response)
  : M W (HttpEvent Request) (option string) (option string) :=
  if (negb (StatusCode resp =? StatusOK)%Z)
     && (negb (StatusCode resp =? StatusNoContent)%Z)
  then
    let* rd := call (readAll resp) (EReadAll resp) in
    match rd with
    | Err e =>
        returns (Some ("error reading response (" +:+ Status resp +:+ "): " +:+ e))
    | Ok data =>
        returns (Some ("error posting loki batch (" +:+ Status resp +:+ "): "
                       +:+ string_of_list_byte data))
    end
  else returns None.

Definition executeHTTPRequest (l : LokiHook) (batch : Batch)
  : M W (HttpEvent Request) (option string) (option string) :=
  match Marshal batch with
  | Err e => returns (Some e)
  | Ok data =>
      match NewRequest "POST" (lokiEndpoint l) data with
      | Err e => returns (Some e)
      | Ok req =>
          let req := HeaderSet req "Content-Type" "application/json" in
          let* r := call (clientDo req) (EDo req) in
          match r with
          | Err e => returns (Some e)
          | Ok resp =>
              deferred (call (bodyClose resp) (fun _ => EClose resp))
                       (checkResponse resp)
          end
      end
  end.

(** The batch [Fire] builds for an entry whose formatter gave [msg]. *)
Definition batchOf (l : LokiHook) (entry : Entry) (msg : Bytes) : Batch :=
  let stream := NewStream in
  let stream := AddEntry stream (EntryTime entry) (string_of_list_byte msg) in
  let stream := AddLabel stream "hostname" (hostname l) in
  AddStream NewBatch stream.

(** [entry.Logger.Formatter]: the entry is a [*logrus.Entry], so the
    path goes through two pointers and ends on an interface value whose
    method is called; a nil on the way makes the runtime panic. *)
Definition entryFormatter {R} (entry : option Entry)
  : M W (HttpEvent Request) R (Entry * Formatter) :=
  match entry with
  | None => panic errNilDereference
  | Some en =>
      match EntryLogger en with
      | None => panic errNilDereference
      | Some logger =>
          match LoggerFormatter logger with
          | None => panic errNilDereference
          | Some formatter => ret (en, formatter)
          end
      end
  end.

Definition Fire (l : LokiHook) (entry : option Entry)
  : M W (HttpEvent Request) (option string) (option string) :=
  let* (en, formatter) := entryFormatter entry in
  match Format formatter en with
  | Err e => returns (Some ("loki format failed: " +:+ e))
  | Ok msg =>
      let* err := invoke (executeHTTPRequest l (batchOf l en msg)) in
      match err with
      | Some e => returns (Some ("loki request failed: " +:+ e))
      | None => returns None
      end
  end.

End Hook.
End Loki.

(** ** A small concrete cluster on which the statements are exercised *)

Module Lab.
Import AddressSpace Topology Effects Bee.

(** Three nodes with one-byte overlays; the world is a tick counter that
    every call advances. *)
Definition labOverlays : gmap string Address :=
  <["bee-0" := [x00]]> (<["bee-1" := [x80]]> (<["bee-2" := [xff]]> ∅)).

Definition labClients : gmap string Client :=
  <["bee-0" := "bee-0"]> (<["bee-1" := "bee-1"]> (<["bee-2" := "bee-2"]> ∅)).

Definition labOverlayOf (node : Client) : result Address :=
  match labOverlays !! node with
  | Some a => Ok a
  | None => Err "unknown node"
  end.

(** The environment is scripted by what the nodes answer to [HasChunk],
    [RemoveChunk] and [DownloadChunk], and by the tick at which the
    context is done. *)
Definition labEnv (has : Client -> Address -> nat -> result bool)
    (remove : Client -> option string)
    (fetch : Client -> Address -> string -> nat -> result Bytes)
    (deadline : nat) : Env nat :=
  {| rangeMap := fun V m w => (map_to_list m, w);
     ctxDoneOrDefault := fun w => ((deadline <=? w)%nat, S w);
     ctxDoneOrAfter := fun _ w => ((deadline <=? w)%nat, S w);
     sleep := fun _ w => (tt, S w);
     now := fun w => (Z.of_nat w, S w);
     cryptoRead := fun n w => (Ok (replicate (Z.to_nat n) x2a), S w);
     clusterNodeGroup := fun _ w => (None, S w);
     ngOverlays := fun w => (Ok labOverlays, S w);
     ngSize := fun w => (3%Z, S w);
     nodesClients := fun w => (Ok labClients, S w);
     flattenOverlays := fun _ w => (Ok labOverlays, S w);
     nodeAddresses := fun node w => (labOverlayOf node, S w);
     nodeOverlay := fun node w => (labOverlayOf node, S w);
     createPostageBatch := fun _ _ _ _ _ _ w => (Ok "batch-1", S w);
     getOrCreateBatch := fun _ _ _ _ _ w => (Ok "batch-1", S w);
     uploadChunk := fun _ data _ w => (Ok data, S w);
     uploadBytes := fun _ data _ w => (Ok data, S w);
     downloadBytes := fun node a w => (fetch node a "" w, S w);
     hasChunk := fun node ref w => (has node ref w, S w);
     downloadChunk := fun node a targets w => (fetch node a targets w, S w);
     removeChunk := fun node _ w => (remove node, S w);
     pinRootHash := fun _ _ w => (None, S w) |}.

(** A generator that hands out prepared chunk contents; the address of a
    lab chunk is its content. *)
Definition labRand : Type := list Bytes.

Definition labNewRandomChunk (r : labRand) : result Chunk * labRand :=
  match r with
  | d :: r' => (Ok {| Data := d; ChunkAddress := d |}, r')
  | [] => (Err "no more chunks", [])
  end.

Definition labSetAddress (c : Chunk) : result Chunk := Ok c.

Definition labPseudoGenerators (seed n : Z) : list labRand :=
  replicate (Z.to_nat n) [[x01]; [x81]; [x82]].

(** A counter as the generator of the smoke check. *)
Definition labIntn (r n : nat) : nat * nat := ((r mod n)%nat, S r).

Definition labPseudoGenerator (seed : Z) : nat := Z.to_nat seed.

Definition labNodeNames : list string := ["bee-0"; "bee-1"; "bee-2"].

Definition always {A B C} (c : C) : A -> B -> C := fun _ _ => c.

(** All nodes hold every chunk and every call succeeds. *)
Definition healthy (deadline : nat) : Env nat :=
  labEnv (fun _ _ _ => Ok true) (fun _ => None) (fun _ a _ _ => Ok a) deadline.

(** Node B never gets the chunk, and says so without an error. *)
Definition neverOnB : Env nat :=
  labEnv (fun _ _ _ => Ok false) (fun _ => None) (fun _ a _ _ => Ok a) 0.

(** Every [HasChunk] call fails. *)
Definition hasChunkFails : Env nat :=
  labEnv (fun _ _ _ => Err "connection refused") (fun _ => None)
         (fun _ a _ _ => Ok a) 0.

(** [RemoveChunk] fails on one node. *)
Definition removeFailsOn (bad : Client) : Env nat :=
  labEnv (fun _ _ _ => Ok true)
         (fun node => if bool_decide (node = bad) then Some "remove failed" else None)
         (fun _ a _ _ => Ok a) 0.

(** The download with targets fails with an error of its own. *)
Definition repairNotTriggered : Env nat :=
  labEnv (fun _ _ _ => Ok true) (fun _ => None)
         (fun _ a targets _ =>
            if bool_decide (targets = "") then Ok a
            else Err "context deadline exceeded")
         0.

(** Three nodes that all report the overlay 0x00. *)
Definition sameOverlays : gmap string Address :=
  <["bee-0" := [x00]]> (<["bee-1" := [x00]]> (<["bee-2" := [x00]]> ∅)).

Definition sameOverlayEnv : Env nat :=
  withOverlays (healthy 0) (fun w => (Ok sameOverlays, S w)).

Definition labChunk : Chunk := {| Data := [x81]; ChunkAddress := [x81] |}.

Definition labOptions : ChunkRepair.Options := ChunkRepair.NewDefaultOptions.

Definition labSmokeOptions : Smoke.Options :=
  {| Smoke.ContentSize := 4;
     Smoke.RndSeed := 7;
     Smoke.PostageAmount := 1000000;
     Smoke.PostageDepth := 20;
     Smoke.TxOnErrWait := 10 * Second;
     Smoke.RxOnErrWait := 10 * Second;
     Smoke.NodesSyncWait := 60 * Second;
     Smoke.Duration := 12 * 3600 * Second;
     Smoke.GasPrice := "100000000000" |}.

Definition labPushsyncOptions : Pushsync.Options :=
  {| Pushsync.ChunksPerNode := 2;
     Pushsync.ExcludeNodeGroups := [];
     Pushsync.GasPrice := "";
     Pushsync.PostageAmount := 1;
     Pushsync.PostageDepth := 16;
     Pushsync.PostageLabel := "test-label";
     Pushsync.RetryDelay := Second;
     Pushsync.Seed := 0;
     Pushsync.UploadNodeCount := 1 |}.



(** [Run] of the chunk-repair check in the lab. *)
Definition labRepair (env : Env nat) (fuel : nat)
  : flow (option string) (option string) * nat * list Event :=
  ChunkRepair.Run env labRand labPseudoGenerators labNewRandomChunk
    labSetAddress 17 fuel labOptions 0%nat.

(** Two nodes whose overlays differ in length. *)
Definition mixedOverlays : gmap string Address :=
  <["bee-0" := [x00]]> (<["bee-1" := [x80; x00]]> ∅).

Definition mixedNested : NestedRange Address :=
  map (fun ka => (ka, map_to_list mixedOverlays)) (map_to_list mixedOverlays).

(** Only one node holds the chunks, and all nodes say so truthfully. *)
Definition holds (holder : Client) : Env nat :=
  labEnv (fun node _ _ => Ok (bool_decide (node = holder))) (fun _ => None)
         (fun _ a _ _ => Ok a) 0.

(** Every download fails. *)
Definition downloadsFail : Env nat :=
  labEnv (fun _ _ _ => Ok true) (fun _ => None) (fun _ _ _ _ => Err "not found") 0.

End Lab.

(** ** Facts about the metric *)

Module AddressSpaceFacts.
Import AddressSpace.

Lemma xor_bits_comm p q : xor_bits p q = xor_bits q p.
Proof.
  destruct p as (p0&p1&p2&p3&p4&p5&p6&p7), q as (q0&q1&q2&q3&q4&q5&q6&q7).
  cbn. by rewrite !(xorb_comm p0), !(xorb_comm p1), !(xorb_comm p2),
    !(xorb_comm p3), !(xorb_comm p4), !(xorb_comm p5), !(xorb_comm p6),
    !(xorb_comm p7).
Qed.

Lemma xor_bits_diag p : xor_bits p p = Byte.to_bits x00.
Proof.
  destruct p as (p0&p1&p2&p3&p4&p5&p6&p7). cbn. by rewrite !xorb_nilpotent.
Qed.

Lemma xor_bits_zero p q : xor_bits p q = Byte.to_bits x00 -> p = q.
Proof.
  destruct p as (p0&p1&p2&p3&p4&p5&p6&p7), q as (q0&q1&q2&q3&q4&q5&q6&q7).
  cbn. intros H. injection H as H0 H1 H2 H3 H4 H5 H6 H7.
  repeat match goal with
         | E : xorb _ _ = false |- _ => apply xorb_eq in E
         end.
  congruence.
Qed.

Lemma byte_xor_comm a b : byte_xor a b = byte_xor b a.
Proof. unfold byte_xor. by rewrite xor_bits_comm. Qed.

Lemma byte_xor_diag a : byte_xor a a = x00.
Proof. unfold byte_xor. rewrite xor_bits_diag. apply Byte.of_bits_to_bits. Qed.

Lemma byte_xor_zero a b : byte_xor a b = x00 -> a = b.
Proof.
  unfold byte_xor. intros H.
  apply (f_equal Byte.to_bits) in H. rewrite Byte.to_bits_of_bits in H.
  apply xor_bits_zero in H.
  rewrite <- (Byte.of_bits_to_bits a), <- (Byte.of_bits_to_bits b).
  by rewrite H.
Qed.

(** XOR with a fixed byte is injective. *)
Lemma byte_xor_inj_l a b t : byte_xor a t = byte_xor b t -> a = b.
Proof.
  unfold byte_xor. intros H.
  apply (f_equal Byte.to_bits) in H. rewrite !Byte.to_bits_of_bits in H.
  rewrite <- (Byte.of_bits_to_bits a), <- (Byte.of_bits_to_bits b).
  f_equal.
  destruct (Byte.to_bits a) as (p0&p1&p2&p3&p4&p5&p6&p7).
  destruct (Byte.to_bits b) as (q0&q1&q2&q3&q4&q5&q6&q7).
  destruct (Byte.to_bits t) as (t0&t1&t2&t3&t4&t5&t6&t7).
  cbn in H. injection H as H0 H1 H2 H3 H4 H5 H6 H7.
  repeat match goal with
         | E : xorb _ ?t = xorb _ ?t |- _ =>
             apply (f_equal (fun v => xorb v t)) in E;
             rewrite !xorb_assoc, !xorb_nilpotent, !xorb_false_r in E
         end.
  congruence.
Qed.

Lemma xor_bytes_length x y :
  length x = length y -> length (xor_bytes x y) = length x.
Proof.
  revert y. induction x as [|a x IH]; intros [|b y] Hl; cbn in *; try done.
  f_equal. apply IH. lia.
Qed.

Lemma xor_bytes_comm x y : xor_bytes x y = xor_bytes y x.
Proof.
  revert y. induction x as [|a x IH]; intros [|b y]; cbn; try done.
  by rewrite byte_xor_comm, IH.
Qed.

Lemma xor_bytes_diag x : xor_bytes x x = replicate (length x) x00.
Proof. induction x as [|a x IH]; cbn; [done|]. by rewrite byte_xor_diag, IH. Qed.

Lemma xor_bytes_zero x y :
  length x = length y ->
  xor_bytes x y = replicate (length x) x00 -> x = y.
Proof.
  revert y. induction x as [|a x IH]; intros [|b y] Hl H; cbn in *; try done.
  injection H as Hb Hr. f_equal; [by apply byte_xor_zero|].
  apply IH; [lia|done].
Qed.

Lemma xor_bytes_inj_l x y t :
  length x = length t -> length y = length t ->
  xor_bytes x t = xor_bytes y t -> x = y.
Proof.
  revert y t. induction x as [|a x IH]; intros [|b y] [|c t] Hx Hy H;
    cbn in *; try done.
  injection H as Hb Hr. f_equal; [by eapply byte_xor_inj_l|].
  eapply IH; [| |done]; lia.
Qed.

Lemma setBytes_from_acc acc bs :
  setBytes_from acc bs = (acc * 256 ^ N.of_nat (length bs) + SetBytes bs)%N.
Proof.
  unfold SetBytes. fold (setBytes_from 0 bs).
  revert acc. induction bs as [|b bs IH]; intros acc.
  - cbn. lia.
  - change (setBytes_from acc (b :: bs))
      with (setBytes_from (acc * 256 + Byte.to_N b) bs).
    change (setBytes_from 0 (b :: bs))
      with (setBytes_from (0 * 256 + Byte.to_N b) bs).
    rewrite (IH (acc * 256 + Byte.to_N b)%N), (IH (0 * 256 + Byte.to_N b)%N).
    replace (N.of_nat (length (b :: bs))) with (N.succ (N.of_nat (length bs)))
      by (cbn [length]; lia).
    rewrite N.pow_succ_r'. lia.
Qed.

Lemma SetBytes_cons b bs :
  SetBytes (b :: bs) = (Byte.to_N b * 256 ^ N.of_nat (length bs) + SetBytes bs)%N.
Proof.
  unfold SetBytes at 1. cbn [fold_left].
  fold (setBytes_from (0 * 256 + Byte.to_N b) bs).
  rewrite setBytes_from_acc. lia.
Qed.

Lemma SetBytes_bound bs : (SetBytes bs < 256 ^ N.of_nat (length bs))%N.
Proof.
  induction bs as [|b bs IH]; [cbn; lia|].
  rewrite SetBytes_cons.
  replace (N.of_nat (length (b :: bs))) with (N.succ (N.of_nat (length bs)))
    by (cbn [length]; lia).
  rewrite N.pow_succ_r'.
  pose proof (Byte.to_N_bounded b). nia.
Qed.

Lemma to_N_inj a b : Byte.to_N a = Byte.to_N b -> a = b.
Proof.
  intros H. apply (f_equal Byte.of_N) in H.
  rewrite !Byte.of_to_N in H. congruence.
Qed.

(** Big-endian reading is injective on sequences of one length. *)
Lemma SetBytes_inj x y :
  length x = length y -> SetBytes x = SetBytes y -> x = y.
Proof.
  revert y. induction x as [|a x IH]; intros [|b y] Hl H; cbn in Hl; try done.
  rewrite !SetBytes_cons in H.
  assert (Hxy : length x = length y) by lia.
  pose proof (SetBytes_bound x) as Bx. pose proof (SetBytes_bound y) as By.
  rewrite Hxy in H, Bx.
  set (p := (256 ^ N.of_nat (length y))%N) in *.
  assert (Hab : Byte.to_N a = Byte.to_N b) by nia.
  rewrite Hab in H.
  f_equal; [by apply to_N_inj|]. apply IH; [done|lia].
Qed.

Lemma SetBytes_zeros n : SetBytes (replicate n x00) = 0%N.
Proof.
  induction n as [|n IH]; [done|].
  cbn [replicate]. rewrite SetBytes_cons, IH. cbn. lia.
Qed.

Lemma distance_Ok x y :
  length x = length y -> distance x y = Ok (SetBytes (xor_bytes x y)).
Proof.
  intros Hl. unfold distance, distanceRaw.
  by rewrite (proj2 (Nat.eqb_eq _ _) Hl).
Qed.

Lemma distance_Err x y :
  length x <> length y -> distance x y = Err errAddressLength.
Proof.
  intros Hl. unfold distance, distanceRaw.
  by rewrite (proj2 (Nat.eqb_neq _ _) Hl).
Qed.

Lemma distance_inj_l x y t d :
  length x = length t -> length y = length t ->
  distance x t = Ok d -> distance y t = Ok d -> x = y.
Proof.
  intros Hx Hy. rewrite !distance_Ok by done. intros [= <-] [= H].
  apply (xor_bytes_inj_l x y t); [done..|].
  apply SetBytes_inj; [|done].
  rewrite !xor_bytes_length by done. congruence.
Qed.


(** C5.  For byte sequences of equal length [distance] is symmetric, and
    it is zero only between equal sequences; the distance of a sequence
    to itself is zero; its value is the bytewise XOR read as a big-endian
    unsigned integer.  On sequences of different lengths it returns the
    length-mismatch error and no value. *)
Theorem distance_metric (x y : Bytes) :
  (length x = length y ->
   exists d : N,
     distance x y = Ok d /\
     distance y x = Ok d /\
     d = SetBytes (xor_bytes x y) /\
     (d = 0%N -> x = y)) /\
  distance x x = Ok 0%N /\
  (length x <> length y -> distance x y = Err errAddressLength).
Proof.
  split; [|split].
  - intros Hl. exists (SetBytes (xor_bytes x y)).
    rewrite (distance_Ok x y), (distance_Ok y x) by done.
    repeat split; [by rewrite xor_bytes_comm|].
    intros H0. apply xor_bytes_zero; [done|].
    apply SetBytes_inj.
    + by rewrite xor_bytes_length, length_replicate.
    + by rewrite SetBytes_zeros.
  - rewrite distance_Ok by done. by rewrite xor_bytes_diag, SetBytes_zeros.
  - apply distance_Err.
Qed.

Lemma distance_metric_witness :
  (exists d : N,
     distance [x12; x34] [x56; x78] = Ok d /\
     distance [x56; x78] [x12; x34] = Ok d /\
     d = SetBytes (xor_bytes [x12; x34] [x56; x78]) /\
     (d = 0%N -> [x12; x34] = [x56; x78])) /\
  distance [x12] [x56; x78] = Err errAddressLength.
Proof.
  split.
  - apply (distance_metric [x12; x34] [x56; x78]). reflexivity.
  - apply (distance_metric [x12] [x56; x78]). vm_compute. lia.
Defined.

End AddressSpaceFacts.

(** ** Facts about the farthest-pair query *)

Module TopologyFacts.
Import AddressSpace Topology AddressSpaceFacts.

Lemma foldM_app {S B} (f : S -> B -> result S) l1 l2 s :
  foldM f (l1 ++ l2) s =
  match foldM f l1 s with
  | Err e => Err e
  | Ok s' => foldM f l2 s'
  end.
Proof.
  revert s. induction l1 as [|b l1 IH]; intros s; cbn; [done|].
  destruct (f s b); [apply IH|done].
Qed.

Lemma foldM_outer_flat r st :
  foldM farthest_outer r st = foldM farthest_step (visits r) st.
Proof.
  revert st. induction r as [|[ka inner] r IH]; intros st; [done|].
  cbn [foldM visits flat_map]. rewrite foldM_app.
  unfold farthest_outer at 1. cbn [fst snd].
  assert (E : forall s, foldM (farthest_inner ka.2) inner s =
            foldM farthest_step (map (fun kc : string * Address => (ka.2, kc.2)) inner) s).
  { induction inner as [|kc inner IHi]; intros s; [done|].
    cbn [foldM map]. unfold farthest_step at 1. cbn [fst snd].
    unfold farthest_inner at 1 3. cbn [snd].
    repeat case_match; try done; apply IHi. }
  rewrite E. destruct (foldM farthest_step _ st); [apply IH|done].
Qed.

Lemma distance_xorDistance x y :
  length x = length y -> distance x y = Ok (xorDistance x y).
Proof. apply distance_Ok. Qed.

Lemma xorDistance_diag x : xorDistance x x = 0%N.
Proof. unfold xorDistance. by rewrite xor_bytes_diag, SetBytes_zeros. Qed.

Lemma xorDistance_pos x y :
  length x = length y -> x <> y -> (0 < xorDistance x y)%N.
Proof.
  intros Hl Hne. apply N.neq_0_lt_0. intros H0. apply Hne.
  apply xor_bytes_zero; [done|]. apply SetBytes_inj.
  - by rewrite xor_bytes_length, length_replicate.
  - by rewrite SetBytes_zeros.
Qed.

(** The scan over any sequence of pairs of one length never fails, and
    leaves the locals as [scanned] describes. *)
Lemma farthest_scan n (vis : list (Address * Address)) :
  Forall (fun ac => length ac.1 = n /\ length ac.2 = n) vis ->
  exists st, foldM farthest_step vis farthest_init = Ok st /\ scanned vis st.
Proof.
  induction vis as [|[a c] vis IH] using rev_ind; intros Hlen.
  - exists farthest_init. split; [done|]. left. by split.
  - apply Forall_app in Hlen as [Hvis Hac].
    apply Forall_cons in Hac as [[Ha Hc] _]. cbn in Ha, Hc.
    destruct (IH Hvis) as (st & Hrun & Hst).
    rewrite foldM_app, Hrun. cbn [foldM].
    unfold farthest_step, farthest_inner. cbn [fst snd].
    case_bool_decide as Hac.
    + (* the two loops stand on the same address *)
      subst c. exists st. split; [done|].
      destruct Hst as [[-> Hall]|(pre & post & A & C & -> & Hne & -> & Hpre & Hpost)].
      * left. split; [done|]. apply Forall_app. split; [done|]. by repeat constructor.
      * right. exists pre, (post ++ [(a, a)]), A, C.
        rewrite <- app_assoc. repeat split; try done.
        apply Forall_app. split; [done|]. repeat constructor. cbn.
        rewrite xorDistance_diag. lia.
    + rewrite distance_xorDistance by congruence.
      pose proof (xorDistance_pos a c ltac:(congruence) Hac) as Hpos.
      destruct (N.ltb_spec (dist st) (xorDistance a c)) as [Hlt|Hge].
      * eexists. split; [done|]. right.
        exists vis, [], a, c. repeat split; try done.
        destruct Hst as [[-> Hall]|(pre & post & A & C & -> & Hne & -> & Hpre & Hpost)].
        -- eapply Forall_impl; [exact Hall|]. intros [u v] Huv. cbn in *.
           subst v. rewrite xorDistance_diag. lia.
        -- cbn in Hlt. apply Forall_app. split.
           ++ eapply Forall_impl; [exact Hpre|]. intros [u v] Huv. cbn in *. lia.
           ++ constructor; [cbn; lia|].
              eapply Forall_impl; [exact Hpost|]. intros [u v] Huv. cbn in *. lia.
      * exists st. split; [done|].
        destruct Hst as [[-> Hall]|(pre & post & A & C & -> & Hne & -> & Hpre & Hpost)].
        -- cbn in Hge. lia.
        -- right. exists pre, (post ++ [(a, c)]), A, C.
           rewrite <- app_assoc. repeat split; try done.
           apply Forall_app. split; [done|]. by repeat constructor.
Qed.

Lemma maximum_unique (l : list N) (M : N) :
  Forall (fun x => (x <= M)%N) l ->
  M = 0%N \/ M ∈ l ->
  foldr N.max 0%N l = M.
Proof.
  intros Hub Hin.
  assert (Hle : (foldr N.max 0 l <= M)%N).
  { clear Hin. induction Hub as [|x l Hx _ IH]; cbn [foldr] in *; lia. }
  assert (Hge : (M <= foldr N.max 0 l)%N); [|lia].
  destruct Hin as [->|Hin]; [lia|].
  clear Hub Hle. induction Hin as [x l|x y l _ IH]; cbn [foldr]; lia.
Qed.

Section Snapshot.
Variable m : gmap string Address.
Variable r : NestedRange Address.
Hypothesis Hr : enumerates_nested m r.

Lemma visits_values a c :
  (a, c) ∈ visits r <-> a ∈ (map_to_list m).*2 /\ c ∈ (map_to_list m).*2.
Proof.
  destruct Hr as [Houter Hinner]. unfold enumerates in Houter.
  rewrite list_elem_of_In. unfold visits. rewrite in_flat_map.
  rewrite Forall_forall in Hinner. split.
  - intros ([ka inner] & Hround & Hin). cbn in Hin.
    apply in_map_iff in Hin as (kc & [= <- <-] & Hkc).
    apply list_elem_of_In in Hround, Hkc. split.
    + apply list_elem_of_fmap. exists ka. split; [done|].
      rewrite <- Houter. apply list_elem_of_fmap. by exists (ka, inner).
    + apply list_elem_of_fmap. exists kc. split; [done|].
      specialize (Hinner _ Hround). unfold enumerates in Hinner. cbn in Hinner.
      by rewrite <- Hinner.
  - intros [Ha Hc].
    apply list_elem_of_fmap in Ha as (ka & -> & Hka).
    apply list_elem_of_fmap in Hc as (kc & -> & Hkc).
    rewrite <- Houter in Hka.
    apply list_elem_of_fmap in Hka as ([ka' inner] & -> & Hround). cbn.
    exists (ka', inner). split; [by apply list_elem_of_In|]. cbn.
    apply in_map_iff. exists kc. split; [done|].
    apply list_elem_of_In. specialize (Hinner _ Hround).
    unfold enumerates in Hinner. cbn in Hinner. by rewrite Hinner.
Qed.

Lemma value_lookup a :
  a ∈ (map_to_list m).*2 <-> exists k, m !! k = Some a.
Proof.
  rewrite list_elem_of_fmap. split.
  - intros ([k a'] & -> & Hin). exists k. by apply elem_of_map_to_list.
  - intros (k & Hk). exists (k, a). split; [done|]. by apply elem_of_map_to_list.
Qed.

Variable n : nat.
Hypothesis Hlen : map_Forall (fun _ a => length a = n) m.

Lemma visits_lengths :
  Forall (fun ac : Address * Address => length ac.1 = n /\ length ac.2 = n)
    (visits r).
Proof.
  apply Forall_forall. intros [a c] Hin.
  apply visits_values in Hin as [Ha Hc].
  apply value_lookup in Ha as (ka & Ha). apply value_lookup in Hc as (kc & Hc).
  split; [exact (Hlen _ _ Ha)|exact (Hlen _ _ Hc)].
Qed.

(** The brute-force maximum is the distance the scan ends with. *)
Lemma scanned_maximum st :
  scanned (visits r) st -> maxPairDistance m = dist st.
Proof.
  intros Hst. unfold maxPairDistance. apply maximum_unique.
  - apply Forall_forall. intros d Hd.
    apply list_elem_of_omap in Hd as ([a c] & Hac & Hd). cbn in Hd.
    apply list_elem_of_In, in_prod_iff in Hac as [Ha Hc].
    apply list_elem_of_In in Ha, Hc.
    assert (Hvis : (a, c) ∈ visits r) by by apply visits_values.
    pose proof visits_lengths as Hl. rewrite Forall_forall in Hl.
    destruct (Hl _ Hvis) as [La Lc]. cbn in La, Lc.
    rewrite distance_xorDistance in Hd by congruence. injection Hd as <-.
    destruct Hst as [[-> Hall]|(pre & post & A & C & Hv & Hne & -> & Hpre & Hpost)].
    + rewrite Forall_forall in Hall. specialize (Hall _ Hvis). cbn in Hall.
      subst c. rewrite xorDistance_diag. cbn. lia.
    + cbn. rewrite Hv in Hvis.
      apply elem_of_app in Hvis as [Hin|Hin].
      * rewrite Forall_forall in Hpre. specialize (Hpre _ Hin). cbn in Hpre. lia.
      * apply elem_of_cons in Hin as [[= -> ->]|Hin]; [lia|].
        rewrite Forall_forall in Hpost. by specialize (Hpost _ Hin).
  - destruct Hst as [[-> Hall]|(pre & post & A & C & Hv & Hne & -> & Hpre & Hpost)];
      [by left|right]. cbn.
    assert (Hvis : (A, C) ∈ visits r).
    { rewrite Hv. apply elem_of_app. right. by left. }
    pose proof visits_lengths as Hl. rewrite Forall_forall in Hl.
    destruct (Hl _ Hvis) as [La Lc]. cbn in La, Lc.
    apply visits_values in Hvis as [HA HC].
    apply list_elem_of_omap. exists (A, C). split.
    + apply list_elem_of_In, in_prod_iff. by rewrite <- !list_elem_of_In.
    + cbn. by rewrite distance_xorDistance by congruence.
Qed.

End Snapshot.

Lemma tieNested1_enumerates : enumerates_nested tieSnapshot tieNested1.
Proof.
  split; [|repeat (apply Forall_cons; split); [..|by apply Forall_nil]];
    unfold enumerates; vm_compute; solve_Permutation.
Qed.

Lemma tieNested2_enumerates : enumerates_nested tieSnapshot tieNested2.
Proof.
  split; [|repeat (apply Forall_cons; split); [..|by apply Forall_nil]];
    unfold enumerates; vm_compute; solve_Permutation.
Qed.

(** C4, as the code has it.  On a snapshot whose addresses all have one
    length, [findFarthestNodes] returns without error a pair whose XOR
    distance is the largest pairwise distance of the snapshot, as the
    brute-force reference computes it.  When the snapshot holds two
    different addresses, both results are addresses of its nodes, and the
    pair is the first one at that distance which the two nested ranges
    reach: the tie-break is the enumeration order of the map, chosen by
    the runtime and not by the snapshot. *)
Theorem findFarthestNodes_max (m : gmap string Address)
    (r : NestedRange Address) (n : nat) :
  enumerates_nested m r ->
  map_Forall (fun _ a => length a = n) m ->
  exists A C,
    findFarthestNodes r = Ok (A, C) /\
    distance A C = Ok (maxPairDistance m) /\
    ((exists k1 k2 a1 a2, m !! k1 = Some a1 /\ m !! k2 = Some a2 /\ a1 <> a2) ->
     (exists kA, m !! kA = Some A) /\
     (exists kC, m !! kC = Some C) /\
     exists pre post,
       visits r = pre ++ (A, C) :: post /\
       Forall (fun ac => distance ac.1 ac.2 <> Ok (maxPairDistance m)) pre).
Proof.
  intros Hr Hlen.
  pose proof (visits_lengths m r Hr n Hlen) as Hl.
  destruct (farthest_scan n _ Hl) as (st & Hrun & Hst).
  pose proof (scanned_maximum m r Hr n Hlen st Hst) as Hmax.
  exists (overlayA st), (overlayC st).
  unfold findFarthestNodes. rewrite foldM_outer_flat, Hrun.
  split; [done|].
  destruct Hst as [[-> Hall]|(pre & post & A & C & Hv & Hne & -> & Hpre & Hpost)].
  - split; [by rewrite Hmax|].
    intros (k1 & k2 & a1 & a2 & H1 & H2 & Hne). exfalso. apply Hne.
    assert (Hvis : (a1, a2) ∈ visits r).
    { apply (visits_values m r Hr). split; apply value_lookup; eauto. }
    rewrite Forall_forall in Hall. exact (Hall _ Hvis).
  - cbn [overlayA overlayC dist] in *.
    assert (Hvis : (A, C) ∈ visits r).
    { rewrite Hv. apply elem_of_app. right. by left. }
    rewrite Forall_forall in Hl. destruct (Hl _ Hvis) as [La Lc]. cbn in La, Lc.
    split; [rewrite Hmax; apply distance_xorDistance; congruence|].
    intros _. apply (visits_values m r Hr) in Hvis as [HA HC].
    apply value_lookup in HA, HC. repeat split; [done..|].
    exists pre, post. split; [done|].
    apply Forall_forall. intros [a c] Hin. cbn.
    rewrite Forall_forall in Hpre. specialize (Hpre _ Hin). cbn in Hpre.
    assert (Hin' : (a, c) ∈ visits r) by (rewrite Hv; apply elem_of_app; by left).
    destruct (Hl _ Hin') as [La' Lc']. cbn in La', Lc'.
    rewrite distance_xorDistance by congruence. rewrite Hmax.
    intros [= E]. lia.
Qed.

Lemma findFarthestNodes_max_witness :
  exists A C,
    findFarthestNodes tieNested2 = Ok (A, C) /\
    distance A C = Ok (maxPairDistance tieSnapshot) /\
    ((exists k1 k2 a1 a2,
         tieSnapshot !! k1 = Some a1 /\ tieSnapshot !! k2 = Some a2 /\ a1 <> a2) ->
     (exists kA, tieSnapshot !! kA = Some A) /\
     (exists kC, tieSnapshot !! kC = Some C) /\
     exists pre post,
       visits tieNested2 = pre ++ (A, C) :: post /\
       Forall (fun ac => distance ac.1 ac.2 <> Ok (maxPairDistance tieSnapshot)) pre).
Proof.
  apply (findFarthestNodes_max tieSnapshot tieNested2 1).
  - exact tieNested2_enumerates.
  - apply map_Forall_to_list. vm_compute. repeat constructor.
Defined.

(** C4, as stated, fails: the same snapshot does not always yield the same
    pair.  [tieSnapshot] enumerated in two orders gives two different
    pairs, both at the largest distance. *)
Lemma findFarthestNodes_not_fixed_by_snapshot :
  ~ (forall (m : gmap string Address) (r1 r2 : NestedRange Address),
        enumerates_nested m r1 -> enumerates_nested m r2 ->
        findFarthestNodes r1 = findFarthestNodes r2).
Proof.
  intros H.
  specialize (H tieSnapshot tieNested1 tieNested2
                tieNested1_enumerates tieNested2_enumerates).
  vm_compute in H. discriminate H.
Qed.

(** C10, first half.  When all addresses of the overlay map are equal
    (a single entry included) the comparison [a.Equal(c)] skips every
    pair, and the function returns the zero address twice with no
    error. *)
Lemma findFarthestNodes_no_distinct_pair (m : gmap string Address)
    (r : NestedRange Address) :
  enumerates_nested m r ->
  (forall k1 k2 a1 a2, m !! k1 = Some a1 -> m !! k2 = Some a2 -> a1 = a2) ->
  findFarthestNodes r = Ok (ZeroAddress, ZeroAddress).
Proof.
  intros Hr Heq. unfold findFarthestNodes. rewrite foldM_outer_flat.
  assert (Hall : Forall (fun ac : Address * Address => ac.1 = ac.2) (visits r)).
  { apply Forall_forall. intros [a c] Hin.
    apply (visits_values m r Hr) in Hin as [Ha Hc].
    apply value_lookup in Ha as (ka & Ha). apply value_lookup in Hc as (kc & Hc).
    exact (Heq _ _ _ _ Ha Hc). }
  assert (E : foldM farthest_step (visits r) farthest_init = Ok farthest_init).
  { induction Hall as [|[a c] vis Hac _ IH]; [done|].
    cbn [foldM]. unfold farthest_step at 1, farthest_inner. cbn in Hac |- *.
    by rewrite bool_decide_true. }
  by rewrite E.
Qed.

(** The fold of [closest] ends on a candidate no other candidate beats. *)
Lemma closer_fold (target : Address) (rest : Range Address) (best : string * Address) :
  length best.2 = length target ->
  Forall (fun ka : string * Address => length ka.2 = length target) rest ->
  exists ka,
    foldM (closer target) rest best = Ok ka /\
    ka ∈ best :: rest /\
    forall ka', ka' ∈ best :: rest ->
      (xorDistance ka.2 target <= xorDistance ka'.2 target)%N.
Proof.
  intros Hbest Hrest. revert best Hbest.
  induction Hrest as [|cand rest Hcand _ IH]; intros best Hbest.
  - exists best. split; [done|]. split; [by left|].
    intros ka' Hin. apply list_elem_of_singleton in Hin as ->. lia.
  - cbn [foldM]. unfold closer at 1.
    rewrite !distance_xorDistance by done.
    set (best' := if (_ <? _)%N then cand else best).
    assert (Hb' : length best'.2 = length target).
    { unfold best'. by destruct (_ <? _)%N. }
    destruct (IH best' Hb') as (ka & Hrun & Hin & Hmin).
    exists ka. split; [done|].
    assert (Hle : (xorDistance best'.2 target <= xorDistance best.2 target)%N /\
                  (xorDistance best'.2 target <= xorDistance cand.2 target)%N /\
                  (best' = best \/ best' = cand)).
    { unfold best'. destruct (N.ltb_spec (xorDistance cand.2 target)
                                (xorDistance best.2 target)); repeat split; try lia;
        auto. }
    destruct Hle as (Hle1 & Hle2 & Hcase).
    pose proof (Hmin best' ltac:(by left)) as Hkb.
    split.
    + apply elem_of_cons in Hin as [->|Hin].
      * destruct Hcase as [->| ->]; [by left|right; by left].
      * by do 2 right.
    + intros ka' Hin'.
      apply elem_of_cons in Hin' as [->|Hin']; [lia|].
      apply elem_of_cons in Hin' as [->|Hin']; [lia|].
      apply Hmin. by right.
Qed.

(** What the modelled [closest] answers on a snapshot whose addresses
    have the length of the target. *)
Lemma closest_spec (snapshot : Range Address) (target : Address)
    (excluded : list Address) :
  Forall (fun ka : string * Address => length ka.2 = length target) snapshot ->
  match closest snapshot target excluded with
  | Ok ka =>
      ka ∈ snapshot /\ (ka.2 ∉ excluded) /\
      forall ka', ka' ∈ snapshot -> ka'.2 ∉ excluded ->
        (xorDistance ka.2 target <= xorDistance ka'.2 target)%N
  | Err e =>
      e = errEmptyCandidateSet /\ forall ka, ka ∈ snapshot -> ka.2 ∈ excluded
  end.
Proof.
  intros Hlen. unfold closest.
  destruct (filter _ snapshot) as [|first rest] eqn:Hf.
  - split; [done|]. intros ka Hin.
    destruct (decide (ka.2 ∈ excluded)) as [|Hout]; [done|].
    assert (Hka : ka ∈ filter (fun ka : string * Address => ka.2 ∉ excluded) snapshot)
      by by apply list_elem_of_filter.
    rewrite Hf in Hka. by apply elem_of_nil in Hka.
  - assert (Hsub : forall ka, ka ∈ first :: rest -> (ka.2 ∉ excluded) /\ ka ∈ snapshot).
    { intros ka Hin. rewrite <- Hf in Hin. by apply list_elem_of_filter in Hin. }
    rewrite Forall_forall in Hlen.
    assert (Hfirst : length first.2 = length target).
    { apply Hlen, Hsub. by left. }
    rewrite distance_xorDistance by done.
    destruct (closer_fold target rest first Hfirst) as (ka & -> & Hin & Hmin).
    { apply Forall_forall. intros ka Hin. apply Hlen, Hsub. by right. }
    destruct (Hsub _ Hin) as [Hout Hsnap]. repeat split; try done.
    intros ka' Hin' Hout'. apply Hmin. rewrite <- Hf. by apply list_elem_of_filter.
Qed.

Lemma xorDistance_inj_l x y t :
  length x = length t -> length y = length t ->
  xorDistance x t = xorDistance y t -> x = y.
Proof.
  intros Hx Hy H. apply (distance_inj_l x y t (xorDistance x t)); try done.
  - by apply distance_xorDistance.
  - rewrite H. by apply distance_xorDistance.
Qed.

End TopologyFacts.

(** ** Reasoning about runs *)

Module EffectsFacts.
Import Effects.

Section Rules.
Context {W E R : Type}.

Lemma bind_Next {A B} (m : M W E R A) (f : A -> M W E R B) w a w1 t1 :
  m w = (Next a, w1, t1) ->
  bind m f w = ((f a w1).1.1, (f a w1).1.2, t1 ++ (f a w1).2).
Proof. intros H. unfold bind. rewrite H. by destruct (f a w1) as [[o w2] t2]. Qed.

Lemma bind_Return {A B} (m : M W E R A) (f : A -> M W E R B) w r w1 t1 :
  m w = (Return r, w1, t1) -> bind m f w = (Return r, w1, t1).
Proof. intros H. unfold bind. by rewrite H. Qed.

Lemma bind_Panic {A B} (m : M W E R A) (f : A -> M W E R B) w msg w1 t1 :
  m w = (Panic msg, w1, t1) -> bind m f w = (Panic msg, w1, t1).
Proof. intros H. unfold bind. by rewrite H. Qed.

Lemma bind_Running {A B} (m : M W E R A) (f : A -> M W E R B) w w1 t1 :
  m w = (Running, w1, t1) -> bind m f w = (Running, w1, t1).
Proof. intros H. unfold bind. by rewrite H. Qed.

Lemma bind_ret_l {A B} (a : A) (f : A -> M W E R B) w :
  bind (ret a) f w = f a w.
Proof. unfold bind, ret. by destruct (f a w) as [[o w2] t2]. Qed.

Lemma bind_call {A B} (oracle : W -> A * W) (ev : A -> E) (f : A -> M W E R B) w :
  bind (call oracle ev) f w =
  ((f (oracle w).1 (oracle w).2).1.1,
   (f (oracle w).1 (oracle w).2).1.2,
   ev (oracle w).1 :: (f (oracle w).1 (oracle w).2).2).
Proof.
  unfold bind, call. destruct (oracle w) as [a w1]. cbn.
  by destruct (f a w1) as [[o w2] t2].
Qed.

Lemma bind_ask {A B} (oracle : W -> A * W) (f : A -> M W E R B) w :
  bind (ask oracle) f w = f (oracle w).1 (oracle w).2.
Proof.
  unfold bind, ask. destruct (oracle w) as [a w1]. cbn.
  by destruct (f a w1) as [[o w2] t2].
Qed.

Lemma bind_emit {B} (e : E) (f : unit -> M W E R B) w :
  bind (emit e) f w = ((f tt w).1.1, (f tt w).1.2, e :: (f tt w).2).
Proof. unfold bind, emit. by destruct (f tt w) as [[o w2] t2]. Qed.

Lemma bind_returns {A B} (r : R) (f : A -> M W E R B) w :
  bind (returns r) f w = (Return r, w, []).
Proof. done. Qed.

Lemma bind_panic {A B} (msg : string) (f : A -> M W E R B) w :
  bind (panic msg) f w = (Panic msg, w, []).
Proof. done. Qed.

(** Sequencing rule: the continuation is only met after a fall-through. *)
Lemma meets_bind {A B} (m : M W E R A) (f : A -> M W E R B)
    (Q1 : flow R A -> list E -> Prop) (Q : flow R B -> list E -> Prop) :
  meets m Q1 ->
  (forall a t1, Q1 (Next a) t1 -> meets (f a) (fun o t2 => Q o (t1 ++ t2))) ->
  (forall r t, Q1 (Return r) t -> Q (Return r) t) ->
  (forall msg t, Q1 (Panic msg) t -> Q (Panic msg) t) ->
  (forall t, Q1 Running t -> Q Running t) ->
  meets (bind m f) Q.
Proof.
  intros Hm Hf Hr Hp Hs w. specialize (Hm w). unfold bind.
  destruct (m w) as [[[a|r|msg|] w1] t1]; cbn in *; auto.
  specialize (Hf a t1 Hm w1). by destruct (f a w1) as [[o w2] t2].
Qed.

Lemma meets_weaken {A} (m : M W E R A) (Q Q' : flow R A -> list E -> Prop) :
  meets m Q -> (forall o t, Q o t -> Q' o t) -> meets m Q'.
Proof. intros Hm HQ w. apply HQ, Hm. Qed.

Lemma meets_ret {A} (a : A) (Q : flow R A -> list E -> Prop) :
  Q (Next a) [] -> meets (ret a : M W E R A) Q.
Proof. by intros H w. Qed.


Lemma meets_call {A} (oracle : W -> A * W) (ev : A -> E)
    (Q : flow R A -> list E -> Prop) :
  (forall a, Q (Next a) [ev a]) -> meets (call oracle ev : M W E R A) Q.
Proof. intros H w. unfold call. destruct (oracle w) as [a w']. apply H. Qed.

Section Quiet.
Variable P : E -> Prop.

Lemma quiet_ret {A} (a : A) : quiet P (ret a : M W E R A).
Proof. intros w. constructor. Qed.

Lemma quiet_returns {A} (r : R) : quiet P (returns r : M W E R A).
Proof. intros w. constructor. Qed.

Lemma quiet_panic {A} msg : quiet P (panic msg : M W E R A).
Proof. intros w. constructor. Qed.

Lemma quiet_running {A} : quiet P (running : M W E R A).
Proof. intros w. constructor. Qed.

Lemma quiet_ask {A} (oracle : W -> A * W) : quiet P (ask oracle : M W E R A).
Proof. intros w. unfold ask. destruct (oracle w). constructor. Qed.

Lemma quiet_call {A} (oracle : W -> A * W) (ev : A -> E) :
  (forall a, P (ev a)) -> quiet P (call oracle ev : M W E R A).
Proof. intros H w. unfold call. destruct (oracle w). cbn. by repeat constructor. Qed.

Lemma quiet_emit (e : E) : P e -> quiet P (emit e : M W E R unit).
Proof. intros H w. cbn. by repeat constructor. Qed.

Lemma quiet_bind {A B} (m : M W E R A) (f : A -> M W E R B) :
  quiet P m -> (forall a, quiet P (f a)) -> quiet P (bind m f).
Proof.
  intros Hm Hf w. specialize (Hm w). unfold bind.
  destruct (m w) as [[[a|r|msg|] w1] t1]; cbn in *; auto.
  specialize (Hf a w1). destruct (f a w1) as [[o w2] t2]. cbn in *.
  by apply Forall_app.
Qed.

Lemma quiet_forEach {A} (l : list A) (body : A -> M W E R unit) :
  (forall x, quiet P (body x)) -> quiet P (forEach l body).
Proof.
  intros Hb. induction l as [|x l IH]; cbn [forEach].
  - apply quiet_ret.
  - apply quiet_bind; [apply Hb|]. intros _. apply IH.
Qed.

End Quiet.

Lemma app_split (t1 t2 pre post : list E) (e : E) :
  t1 ++ t2 = pre ++ e :: post ->
  (exists post1, t1 = pre ++ e :: post1 /\ post = post1 ++ t2) \/
  (exists pre2, pre = t1 ++ pre2 /\ t2 = pre2 ++ e :: post).
Proof.
  revert pre. induction t1 as [|x t1 IH]; intros pre Heq.
  - right. by exists pre.
  - destruct pre as [|y pre]; cbn in Heq; injection Heq as -> Heq.
    + left. by exists t1.
    + destruct (IH _ Heq) as [(post1 & -> & ->)|(pre2 & -> & ->)].
      * left. by exists post1.
      * right. by exists pre2.
Qed.

Lemma meets_invoke {R' : Type} (body : M W E R' R')
    (Q' : flow R' R' -> list E -> Prop) (Q : flow R R' -> list E -> Prop) :
  meets body Q' ->
  (forall r t, Q' (Next r) t -> Q (Next r) t) ->
  (forall r t, Q' (Return r) t -> Q (Next r) t) ->
  (forall msg t, Q' (Panic msg) t -> Q (Panic msg) t) ->
  (forall t, Q' Running t -> Q Running t) ->
  meets (invoke body) Q.
Proof.
  intros Hb H1 H2 H3 H4 w. specialize (Hb w). unfold invoke.
  destruct (body w) as [[[a|r|msg|] w1] t1]; cbn in *; auto.
Qed.

Lemma meets_emit (e : E) (Q : flow R unit -> list E -> Prop) :
  Q (Next tt) [e] -> meets (emit e : M W E R unit) Q.
Proof. by intros H w. Qed.

Lemma meets_ask {A} (oracle : W -> A * W) (Q : flow R A -> list E -> Prop) :
  (forall w, Q (Next (oracle w).1) []) -> meets (ask oracle : M W E R A) Q.
Proof. intros H w. unfold ask. specialize (H w). by destruct (oracle w). Qed.

Lemma meets_quiet {A} (P : E -> Prop) (m : M W E R A) :
  quiet P m -> meets m (fun _ t => Forall P t).
Proof. done. Qed.

Lemma bind_assoc {A B C} (m : M W E R A) (f : A -> M W E R B)
    (g : B -> M W E R C) w :
  bind (bind m f) g w = bind m (fun a => bind (f a) g) w.
Proof.
  unfold bind. destruct (m w) as [[[a|r|msg|] w1] t1]; try done.
  destruct (f a w1) as [[[b|r|msg|] w2] t2]; try done.
  destruct (g b w2) as [[o w3] t3]. by rewrite app_assoc.
Qed.

Lemma starts_bind {A B} (e : E) (P : E -> Prop) (m : M W E R A)
    (f : A -> M W E R B) :
  meets m (fun _ t => starts e P t) ->
  (forall a, quiet P (f a)) ->
  meets (bind m f) (fun _ t => starts e P t).
Proof.
  intros Hm Hf. eapply meets_bind; [exact Hm| |done..].
  intros a t1 (t' & -> & Ht') w. exists (t' ++ (f a w).2). split; [done|].
  apply Forall_app. split; [done|apply Hf].
Qed.

Lemma starts_emit_bind {B} (e : E) (P : E -> Prop) (f : unit -> M W E R B) :
  (forall a, quiet P (f a)) ->
  meets (bind (emit e) f) (fun _ t => starts e P t).
Proof.
  intros Hf w. rewrite bind_emit. cbn. exists (f tt w).2. split; [done|apply Hf].
Qed.

Lemma quiet_impl {A} (P Q : E -> Prop) (m : M W E R A) :
  (forall e, P e -> Q e) -> quiet P m -> quiet Q m.
Proof. intros H Hm w. eapply Forall_impl; [apply Hm|done]. Qed.

(** After a part that leaves only events of [P], an event outside [P]
    belongs to what follows. *)
Lemma split_after (P : E -> Prop) (t1 t2 pre post : list E) (e : E) :
  Forall P t1 -> ~ P e ->
  t1 ++ t2 = pre ++ e :: post ->
  exists pre', pre = t1 ++ pre' /\ t2 = pre' ++ e :: post.
Proof.
  intros H1 He. revert pre. induction H1 as [|x t1 Hx _ IH]; intros pre Heq.
  - by exists pre.
  - destruct pre as [|y pre]; cbn in Heq; injection Heq as -> Heq.
    + done.
    + destruct (IH _ Heq) as (pre' & -> & ->). by exists pre'.
Qed.

Section Projection.
Context {X : Type}.
Variable g : E -> option X.
Variable Phi : list X -> Prop.




End Projection.


Section Keeps.
Variable I : status R -> list E -> Prop.
Hypothesis HI : sequential I.

Lemma keeps_ret {A} (a : A) : keeps I (ret a : M W E R A).
Proof. intros w. apply HI. Qed.

Lemma keeps_ask {A} (oracle : W -> A * W) : keeps I (ask oracle : M W E R A).
Proof. intros w. unfold ask. destruct (oracle w). apply HI. Qed.

Lemma keeps_bind {A B} (m : M W E R A) (f : A -> M W E R B) :
  keeps I m -> (forall a, keeps I (f a)) -> keeps I (bind m f).
Proof.
  intros Hm Hf w. specialize (Hm w). unfold bind.
  destruct (m w) as [[[a|r|msg|] w1] t1]; cbn in *; auto.
  specialize (Hf a w1). destruct (f a w1) as [[o w2] t2]. cbn in *.
  by apply HI.
Qed.

Lemma keeps_forEach {A} (l : list A) (body : A -> M W E R unit) :
  (forall x, keeps I (body x)) -> keeps I (forEach l body).
Proof.
  intros Hb. induction l as [|x l IH]; cbn [forEach].
  - apply keeps_ret.
  - apply keeps_bind; [apply Hb|]. intros _. apply IH.
Qed.

End Keeps.
End Rules.

(** A callee that only appends harmless events stays harmless when its
    [return] becomes a value of the caller. *)
Lemma starts_invoke {W E R R'} (e : E) (P : E -> Prop) (body : M W E R' R') :
  meets body (fun _ t => starts e P t) ->
  meets (invoke body : M W E R R') (fun _ t => starts e P t).
Proof. intros Hb. by eapply meets_invoke. Qed.

Lemma quiet_invoke {W E R R'} (P : E -> Prop) (body : M W E R' R') :
  quiet P body -> quiet P (invoke body : M W E R R').
Proof.
  intros Hb w. specialize (Hb w). unfold invoke.
  by destruct (body w) as [[[a|r|msg|] w1] t1].
Qed.

Lemma sequential_Forall {E R} (P : E -> Prop) :
  sequential (fun (_ : status R) t => Forall P t).
Proof. split; [constructor|]. intros t1 s t2 H1 H2. by apply Forall_app. Qed.

End EffectsFacts.

(** ** Facts about the chunk-repair check *)

Module ChunkRepairFacts.
Import AddressSpace Topology Effects Bee ChunkRepair EffectsFacts Lab.

Section Polling.
Context {W : Type}.
Variable env : Env W.
Variable b : Client.
Variable ref : Address.

(** While node B answers "not present" without an error, a round of the
    loop neither sleeps nor counts: the loop is still running after any
    number of rounds. *)
Lemma pollPresentOnB_absent :
  (forall w, (hasChunk env b ref w).1 = Ok false) ->
  forall fuel count w,
    (count <= maxIterations)%nat ->
    outcome (pollPresentOnB env fuel (Some b) ref count w) = Running /\
    countEvents isHasChunk (trace (pollPresentOnB env fuel (Some b) ref count w)) = fuel.
Proof.
  intros Habsent. induction fuel as [|fuel IH]; intros count w Hc; [done|].
  cbn [pollPresentOnB deref].
  rewrite (proj2 (Nat.ltb_ge _ _) Hc), bind_ret_l, bind_call, Habsent.
  destruct (IH count (hasChunk env b ref w).2 Hc) as [Ho Ht].
  unfold outcome, trace in *. cbn. by rewrite Ho, Ht.
Qed.

(** While [HasChunk] fails, the loop sleeps and counts; it gives up when
    the count has passed [maxIterations], that is after one call more
    than [maxIterations]. *)
Lemma pollPresentOnB_failing :
  (forall w, exists e, (hasChunk env b ref w).1 = Err e) ->
  forall fuel count w,
    (count <= S maxIterations)%nat ->
    (S maxIterations - count < fuel)%nat ->
    outcome (pollPresentOnB env fuel (Some b) ref count w) =
      Return (Some "could not get chunk even after several attempts") /\
    countEvents isHasChunk (trace (pollPresentOnB env fuel (Some b) ref count w)) =
      (S maxIterations - count)%nat /\
    countEvents (isSleep (100 * Millisecond))
      (trace (pollPresentOnB env fuel (Some b) ref count w)) =
      (S maxIterations - count)%nat.
Proof.
  intros Hfail. induction fuel as [|fuel IH]; intros count w Hc Hf; [lia|].
  cbn [pollPresentOnB deref].
  destruct (Nat.ltb_spec maxIterations count) as [Hgt|Hle].
  - replace (S maxIterations - count)%nat with 0%nat by lia. done.
  - rewrite bind_ret_l, bind_call. destruct (Hfail w) as [e ->].
    unfold pause. rewrite bind_call.
    set (w2 := (sleep env (100 * Millisecond) (hasChunk env b ref w).2).2).
    destruct (IH (S count) w2 ltac:(lia) ltac:(lia)) as (Ho & Ht & Hs).
    unfold outcome, trace in *. cbn. rewrite Ho, Ht, Hs, Z.eqb_refl.
    repeat split; lia.
Qed.

End Polling.

(** C1.  The loop that waits for the chunk on node B is not bounded by
    ten attempts.  If [HasChunk] keeps answering "not present" without an
    error, the loop is still running after any number of calls; if it
    keeps failing, the loop makes eleven calls, each followed by a sleep
    of 100ms, before [Run] returns the error. *)
Theorem pollPresentOnB_exceeds_bound {W : Type} (env : Env W) (b : Client)
    (ref : Address) :
  ((forall w, (hasChunk env b ref w).1 = Ok false) ->
   forall fuel w,
     outcome (pollPresentOnB env fuel (Some b) ref 0 w) = Running /\
     countEvents isHasChunk (trace (pollPresentOnB env fuel (Some b) ref 0 w)) = fuel) /\
  ((forall w, exists e, (hasChunk env b ref w).1 = Err e) ->
   forall fuel w,
     (11 < fuel)%nat ->
     outcome (pollPresentOnB env fuel (Some b) ref 0 w) =
       Return (Some "could not get chunk even after several attempts") /\
     countEvents isHasChunk (trace (pollPresentOnB env fuel (Some b) ref 0 w)) = 11%nat /\
     countEvents (isSleep (100 * Millisecond))
       (trace (pollPresentOnB env fuel (Some b) ref 0 w)) = 11%nat).
Proof.
  split.
  - intros H fuel w. apply pollPresentOnB_absent; [done|]. unfold maxIterations. lia.
  - intros H fuel w Hf.
    apply (pollPresentOnB_failing env b ref H fuel 0 w); unfold maxIterations; lia.
Qed.

Lemma pollPresentOnB_exceeds_bound_witness :
  (outcome (pollPresentOnB neverOnB 1000 (Some "bee-1") [x81] 0 0%nat) = Running /\
   countEvents isHasChunk
     (trace (pollPresentOnB neverOnB 1000 (Some "bee-1") [x81] 0 0%nat)) = 1000%nat) /\
  (outcome (pollPresentOnB hasChunkFails 12 (Some "bee-1") [x81] 0 0%nat) =
     Return (Some "could not get chunk even after several attempts") /\
   countEvents isHasChunk
     (trace (pollPresentOnB hasChunkFails 12 (Some "bee-1") [x81] 0 0%nat)) = 11%nat /\
   countEvents (isSleep (100 * Millisecond))
     (trace (pollPresentOnB hasChunkFails 12 (Some "bee-1") [x81] 0 0%nat)) = 11%nat).
Proof.
  split.
  - apply (pollPresentOnB_exceeds_bound neverOnB "bee-1" [x81]). reflexivity.
  - apply (pollPresentOnB_exceeds_bound hasChunkFails "bee-1" [x81]).
    + intros w. eexists. reflexivity.
    + lia.
Defined.

Ltac quiet_step :=
  first
    [ apply quiet_ret | apply quiet_returns | apply quiet_panic
    | apply quiet_running | apply quiet_ask
    | apply quiet_call; intros; done
    | apply quiet_emit; done
    | apply quiet_bind; [|intros]
    | apply quiet_invoke
    | match goal with
      | |- quiet _ (match ?x with _ => _ end) => destruct x
      end ].

Ltac quiet_auto := repeat quiet_step.

Section Stages.
Context {W : Type}.
Variable env : Env W.
Variable Rand : Type.
Variable PseudoGenerators : Z -> Z -> list Rand.
Variable NewRandomChunk : Rand -> result Chunk * Rand.
Variable SetAddress : Chunk -> result Chunk.
Variable MinimumBatchDepth : Z.

Lemma deref_quiet {R} (P : Event -> Prop) (c : option Client) :
  quiet P (deref c : M W Event R Client).
Proof. unfold deref. quiet_auto. Qed.

Lemma pollPresentOnB_quiet fuel nodeB ref count :
  quiet (fun e => verifyEvent e = true) (pollPresentOnB env fuel nodeB ref count).
Proof.
  revert count. induction fuel as [|fuel IH]; intros count; cbn [pollPresentOnB].
  - quiet_auto.
  - unfold pause. quiet_auto; try apply deref_quiet; apply IH.
Qed.

Lemma uploadAndVerify_quiet fuel o roles :
  quiet (fun e => verifyEvent e = true)
    (uploadAndVerify env MinimumBatchDepth fuel o roles).
Proof.
  destruct roles as [[[nodeA nodeB] nodeC] chunk]. unfold uploadAndVerify.
  quiet_auto; try apply deref_quiet; try apply pollPresentOnB_quiet.
Qed.

Lemma pollRepaired_quiet fuel nodeC chunk count :
  quiet (fun e => pollEvent e = true) (pollRepaired env fuel nodeC chunk count).
Proof.
  revert count. induction fuel as [|fuel IH]; intros count; cbn [pollRepaired].
  - quiet_auto.
  - unfold pause. quiet_auto; try apply deref_quiet; apply IH.
Qed.

Lemma triggerPolicy_sequential : sequential triggerPolicy.
Proof.
  split.
  - intros pre node a targets r post Heq. by destruct pre.
  - intros t1 s t2 H1 H2 pre node a targets r post Heq Hne.
    apply app_split in Heq as [(post1 & -> & ->)|(pre2 & -> & ->)].
    + specialize (H1 _ _ _ _ _ _ eq_refl Hne).
      destruct r as [d|e]; [|case_bool_decide].
      * destruct H1 as (post' & ->). by eexists.
      * destruct H1 as (post' & ->). by eexists.
      * by destruct H1 as [_ ?].
    + exact (H2 _ _ _ _ _ _ eq_refl Hne).
Qed.

Lemma quiet_triggerPolicy {A} (m : M W Event (option string) A) :
  quiet (fun e => isTrigger e = false) m -> keeps triggerPolicy m.
Proof.
  intros Hq w pre node a targets r post Heq Hne. exfalso.
  specialize (Hq w). rewrite Heq in Hq.
  apply Forall_app in Hq as [_ Hq]. apply Forall_cons in Hq as [Hq _].
  cbn in Hq. by rewrite bool_decide_false in Hq.
Qed.

Lemma uploadAndPinChunkToNode_starts nodeA chunk :
  meets (uploadAndPinChunkToNode env nodeA chunk)
    (fun _ t => starts enterReupload (fun e => pinEvent e = true) t).
Proof.
  unfold uploadAndPinChunkToNode. apply starts_emit_bind. intros _.
  quiet_auto. apply deref_quiet.
Qed.

(** From the call of [uploadAndPinChunkToNode] to the end of the round. *)
Lemma reupload_starts fuel nodeA nodeC chunk :
  meets (let* _ := reupload env nodeA chunk in pollRepaired env fuel nodeC chunk 0)
    (fun _ t => starts enterReupload
                  (fun e => pinEvent e = true \/ pollEvent e = true) t).
Proof.
  apply starts_bind.
  - unfold reupload. apply starts_bind.
    + apply starts_invoke.
      eapply meets_weaken; [apply uploadAndPinChunkToNode_starts|].
      intros _ t (t' & -> & Ht'). exists t'. split; [done|].
      eapply Forall_impl; [exact Ht'|]. by left.
    + intros a. quiet_auto.
  - intros _. eapply quiet_impl; [|apply pollRepaired_quiet]. by right.
Qed.

Lemma triggerRecovery_policy fuel nodeA nodeC chunk addressA :
  keeps triggerPolicy
    (let* _ := triggerRecovery env nodeC chunk addressA in
     let* _ := reupload env nodeA chunk in
     pollRepaired env fuel nodeC chunk 0).
Proof.
  intros w. unfold triggerRecovery, targetsPrefix.
  destruct (String.length (hex addressA) <? 2)%nat.
  { rewrite bind_assoc, bind_panic. cbn. intros pre ? ? ? ? ? Heq. by destruct pre. }
  rewrite bind_assoc, bind_ret_l.
  destruct nodeC as [c|]; cbn [deref].
  2:{ rewrite bind_assoc, bind_panic. cbn. intros pre ? ? ? ? ? Heq. by destruct pre. }
  rewrite bind_assoc, bind_ret_l, bind_assoc, bind_call.
  set (targets := substring 0 2 (hex addressA)).
  destruct (downloadChunk env c (ChunkAddress chunk) targets w) as [r w1].
  cbn [fst snd].
  assert (Hgo : forall w',
    exists post', ((let* _ := reupload env nodeA chunk in
                    pollRepaired env fuel (Some c) chunk 0) w').2
                  = enterReupload :: post' /\
                  Forall (fun e => isTrigger e = false) post').
  { intros w'. destruct (reupload_starts fuel nodeA (Some c) chunk w') as (t' & Ht & HP).
    exists t'. split; [done|]. eapply Forall_impl; [exact HP|].
    intros e [He|He]; destruct e; try done; cbn in *; by rewrite He. }
  assert (Hone : forall t',
    Forall (fun e => isTrigger e = false) t' ->
    forall pre node a tg r' post,
      EDownloadChunk c (ChunkAddress chunk) targets r :: t'
        = pre ++ EDownloadChunk node a tg r' :: post ->
      tg <> "" ->
      pre = [] /\ node = c /\ a = ChunkAddress chunk /\ r' = r /\ post = t').
  { intros t' Ht' pre node a tg r' post Heq Hne.
    destruct pre as [|x pre]; cbn in Heq; injection Heq as; [by subst|].
    subst. exfalso. apply Forall_app in Ht' as [_ Ht'].
    apply Forall_cons in Ht' as [Ht' _]. cbn in Ht'.
    by rewrite bool_decide_false in Ht'. }
  destruct r as [d|e]; [|case_bool_decide as Hbad].
  - rewrite bind_ret_l. destruct (Hgo w1) as (post' & Ht & HP).
    cbn. rewrite Ht. intros pre node a tg r' post Heq Hne.
    destruct (Hone (enterReupload :: post') ltac:(by constructor) _ _ _ _ _ _ Heq Hne)
      as (-> & -> & -> & -> & ->).
    by eexists.
  - rewrite bind_returns. cbn. intros pre node a tg r' post Heq Hne.
    destruct (Hone [] ltac:(constructor) _ _ _ _ _ _ Heq Hne)
      as (-> & -> & -> & -> & ->).
    by rewrite bool_decide_false.
  - rewrite bind_ret_l. destruct (Hgo w1) as (post' & Ht & HP).
    cbn. rewrite Ht. intros pre node a tg r' post Heq Hne.
    destruct (Hone (enterReupload :: post') ltac:(by constructor) _ _ _ _ _ _ Heq Hne)
      as (-> & -> & -> & -> & ->).
    rewrite bool_decide_true; [by eexists|].
    destruct (decide (e = errMessage (ChunkAddress chunk))); [done|].
    by destruct Hbad.
Qed.

Lemma deleteEverywhere_quiet chunk :
  quiet (fun e => deleteEvent e = true) (deleteEverywhere env chunk).
Proof.
  unfold deleteEverywhere, deleteChunkFromAllNodes, range.
  quiet_auto. apply quiet_forEach. intros kn. quiet_auto.
Qed.

Lemma getRandomChunkAndClosestNode_quiet overlays rnd :
  quiet (fun e => getNodesEvent e = true)
    (getRandomChunkAndClosestNode env Rand NewRandomChunk SetAddress overlays rnd).
Proof. unfold getRandomChunkAndClosestNode, range. quiet_auto. Qed.

Lemma pickB_quiet fuel overlays overlayA overlayC rnd :
  quiet (fun e => getNodesEvent e = true)
    (pickB env Rand NewRandomChunk SetAddress fuel overlays overlayA overlayC rnd).
Proof.
  revert rnd. induction fuel as [|fuel IH]; intros rnd; cbn [pickB].
  - quiet_auto.
  - quiet_auto; try apply getRandomChunkAndClosestNode_quiet; apply IH.
Qed.

Lemma findClients_quiet (P : Event -> Prop) nodes overlayA overlayB overlayC
    nodeA nodeB nodeC :
  (forall node r, P (EAddresses node r)) ->
  quiet P (findClients env nodes overlayA overlayB overlayC nodeA nodeB nodeC).
Proof.
  intros HP. revert nodeA nodeB nodeC.
  induction nodes as [|[k node] nodes IH]; intros nodeA nodeB nodeC;
    cbn [findClients]; quiet_auto; apply IH.
Qed.

Lemma rounds_quiet {R V} (P : Event -> Prop) (m : gmap string V) outer :
  quiet P (rounds env m outer : M W Event R (NestedRange V)).
Proof.
  induction outer as [|ka outer IH]; cbn [rounds]; unfold range; quiet_auto.
  apply IH.
Qed.

Lemma getNodes_quiet fuel rnd :
  quiet (fun e => getNodesEvent e = true)
    (getNodes env Rand NewRandomChunk SetAddress fuel rnd).
Proof.
  unfold getNodes, assignRoles, nestedRange, range.
  quiet_auto; try apply rounds_quiet; try apply pickB_quiet;
    by apply findClients_quiet.
Qed.

(** The loop of [deleteChunkFromAllNodes]: it either removes the chunk
    from every client it was given, or stops at the first failure. *)
Lemma remove_loop (a : Address) (nodes : Range Client) w :
  let body := fun kn : string * Client =>
    let* e := call (removeChunk env kn.2 a) (ERemoveChunk kn.2 a) in
    match e with
    | Some e => returns (Some e)
    | None => ret tt
    end in
  let x := forEach nodes body w : flow (option string) unit * W * list Event in
  (x.1.1 = Next tt /\ x.2 = map (removed a) nodes) \/
  (exists e done node,
      x.1.1 = Return (Some e) /\
      x.2 = map (removed a) done ++ [ERemoveChunk node a (Some e)]).
Proof.
  cbn zeta. revert w. induction nodes as [|kn nodes IH]; intros w.
  - left. done.
  - cbn [forEach]. rewrite bind_assoc, bind_call.
    destruct (removeChunk env kn.2 a w) as [[e|] w1]; cbn [fst snd].
    + right. exists e, [], kn.2. done.
    + rewrite bind_ret_l.
      destruct (IH w1) as [[Ho Ht]|(e & done & node & Ho & Ht)].
      * left. cbn. by rewrite Ho, Ht.
      * right. exists e, (kn :: done), node. cbn. by rewrite Ho, Ht.
Qed.

Lemma removed_not_failed a (nodes : Range Client) pre node a' e post :
  map (removed a) nodes = pre ++ ERemoveChunk node a' (Some e) :: post -> False.
Proof.
  intros Heq.
  assert (H : ERemoveChunk node a' (Some e) ∈ map (removed a) nodes).
  { rewrite Heq. apply elem_of_app. right. by left. }
  apply list_elem_of_fmap in H as (kn & Hkn & _). done.
Qed.




Hypothesis Hfair : fair_ranges env.

(** What [deleteChunkFromAllNodes] leaves, by what it returns. *)
Lemma deleteChunkFromAllNodes_spec chunk :
  meets (deleteChunkFromAllNodes env chunk)
    (fun o t =>
       match o with
       | Return None =>
           exists clients nodes,
             enumerates clients nodes /\
             t = EEnter "deleteChunkFromAllNodes" :: ENodesClients (Ok clients)
                   :: map (removed (ChunkAddress chunk)) nodes
       | Return (Some err) =>
           forall pre node a e post,
             t = pre ++ ERemoveChunk node a (Some e) :: post ->
             post = [] /\ e = err
       | _ => False
       end).
Proof.
  intros w. unfold deleteChunkFromAllNodes. rewrite bind_emit, bind_call.
  destruct (nodesClients env w) as [[clients|err] w1]; cbn [fst snd].
  2:{ cbn. intros pre node a e post Heq.
      destruct pre as [|? [|? [|? pre]]]; done. }
  unfold range. rewrite bind_ask.
  pose proof (Hfair _ clients w1) as Henum.
  destruct (rangeMap env clients w1) as [nodes w2]. cbn [fst snd] in *.
  pose proof (remove_loop (ChunkAddress chunk) nodes w2) as Hloop.
  cbn zeta in Hloop.
  match goal with
  | |- context [bind (forEach ?l ?body) _ ?w0] =>
      destruct (forEach l body w0) as [[o w3] t3] eqn:E
  end.
  cbn [fst snd] in Hloop.
  destruct Hloop as [[-> ->]|(e & done & node & -> & ->)].
  - rewrite (bind_Next _ _ _ _ _ _ E). cbn.
    exists clients, nodes. split; [done|]. by rewrite app_nil_r.
  - rewrite (bind_Return _ _ _ _ _ _ E). cbn.
    intros pre node' a e' post Heq.
    destruct pre as [|? [|? pre]]; try done. cbn in Heq.
    injection Heq as _ _ Heq.
    apply app_split in Heq as [(post1 & Heq & ->)|(pre2 & -> & Heq)].
    + by apply removed_not_failed in Heq.
    + destruct pre2 as [|? [|? ?]]; cbn in Heq; try done.
      by injection Heq as <- <- <- <-.
Qed.

Lemma removalPolicy_sequential : sequential removalPolicy.
Proof.
  split.
  - split; intros pre *; by destruct pre.
  - intros t1 s t2 [H1a H1b] [H2a H2b]. split.
    + intros pre post Heq.
      apply app_split in Heq as [(post1 & -> & ->)|(pre2 & -> & ->)].
      * exact (H1a _ _ eq_refl).
      * destruct (H2a _ _ eq_refl) as (before & clients & nodes & a & after & -> & Hen & Hafter).
        exists (t1 ++ before), clients, nodes, a, after.
        by rewrite <- app_assoc.
    + intros pre node a e post Heq.
      apply app_split in Heq as [(post1 & -> & ->)|(pre2 & -> & ->)].
      * by destruct (H1b _ _ _ _ _ eq_refl) as [_ ?].
      * exact (H2b _ _ _ _ _ eq_refl).
Qed.

Lemma quiet_removalPolicy {A} (m : M W Event (option string) A) :
  quiet (fun e => e <> enterReupload /\ isRemoveChunk e = false) m ->
  keeps removalPolicy m.
Proof.
  intros Hq w. specialize (Hq w). split.
  - intros pre post Heq. exfalso. rewrite Heq in Hq.
    apply Forall_app in Hq as [_ Hq]. apply Forall_cons in Hq as [[Hq _] _]. done.
  - intros pre node a e post Heq. exfalso. rewrite Heq in Hq.
    apply Forall_app in Hq as [_ Hq]. apply Forall_cons in Hq as [[_ Hq] _]. done.
Qed.

Lemma deleteEverywhere_spec chunk :
  meets (deleteEverywhere env chunk)
    (fun o t =>
       match o with
       | Next _ =>
           exists clients nodes,
             enumerates clients nodes /\
             t = EEnter "deleteChunkFromAllNodes" :: ENodesClients (Ok clients)
                   :: map (removed (ChunkAddress chunk)) nodes
       | Return (Some err) =>
           Forall (fun e => deleteEvent e = true) t /\
           forall pre node a e post,
             t = pre ++ ERemoveChunk node a (Some e) :: post ->
             post = [] /\ e = err
       | _ => False
       end).
Proof.
  intros w. pose proof (deleteEverywhere_quiet chunk w) as Hq. revert Hq.
  unfold deleteEverywhere.
  pose proof (deleteChunkFromAllNodes_spec chunk w) as Hb.
  unfold bind, invoke.
  destruct (deleteChunkFromAllNodes env chunk w) as [[[r|[e|]|msg|] w1] t1];
    cbn in *; try done.
  - rewrite app_nil_r. done.
  - by rewrite app_nil_r.
Qed.

Lemma tail_quiet fuel nodeA nodeC chunk addressA :
  quiet (fun e => tailEvent e = true)
    (let* _ := triggerRecovery env nodeC chunk addressA in
     let* _ := reupload env nodeA chunk in
     pollRepaired env fuel nodeC chunk 0).
Proof.
  unfold triggerRecovery, targetsPrefix, reupload, uploadAndPinChunkToNode.
  quiet_auto; try apply deref_quiet.
  all: eapply quiet_impl; [|apply pollRepaired_quiet].
  all: by intros [].
Qed.

Lemma tail_calm fuel nodeA nodeC chunk addressA :
  quiet calm
    (let* _ := triggerRecovery env nodeC chunk addressA in
     let* _ := reupload env nodeA chunk in
     pollRepaired env fuel nodeC chunk 0).
Proof.
  eapply quiet_impl; [|apply tail_quiet].
  intros [] H; cbn in H; try done. split; [done|].
  apply bool_decide_eq_true in H. by subst.
Qed.


Lemma deleteEverywhere_policy chunk (rest : M W Event (option string) unit) :
  quiet calm rest ->
  keeps removalPolicy (let* _ := deleteEverywhere env chunk in rest).
Proof.
  intros Hrest.
  apply (meets_bind (deleteEverywhere env chunk) (fun _ => rest) _
           (fun o t => removalPolicy (status_of o) t) (deleteEverywhere_spec chunk)).
  - intros [] t1 (clients & nodes & Henum & ->) w.
    specialize (Hrest w). set (t2 := (rest w).2) in *. split.
    + intros pre post Heq.
      change (EEnter "deleteChunkFromAllNodes" :: ENodesClients (Ok clients)
                :: map (removed (ChunkAddress chunk)) nodes)
        with ([EEnter "deleteChunkFromAllNodes"] ++ ENodesClients (Ok clients)
                :: map (removed (ChunkAddress chunk)) nodes) in Heq.
      rewrite <- app_assoc in Heq.
      apply (split_after (fun e => e <> enterReupload)) in Heq
        as (pre1 & -> & Heq); [|by repeat constructor|by intros ?].
      change (ENodesClients (Ok clients) :: map (removed (ChunkAddress chunk)) nodes)
        with ([ENodesClients (Ok clients)] ++ map (removed (ChunkAddress chunk)) nodes)
        in Heq.
      rewrite <- app_assoc in Heq.
      apply (split_after (fun e => e <> enterReupload)) in Heq
        as (pre2 & -> & Heq); [|by repeat constructor|by intros ?].
      apply (split_after (fun e => e <> enterReupload)) in Heq
        as (pre3 & -> & Heq).
      * exists [EEnter "deleteChunkFromAllNodes"], clients, nodes,
          (ChunkAddress chunk), pre3.
        split; [done|]. split; [done|].
        rewrite Heq in Hrest. by apply Forall_app in Hrest as [? _].
      * apply Forall_forall. intros e He.
        apply list_elem_of_fmap in He as (kn & -> & _). done.
      * by intros ?.
    + intros pre node a e post Heq. exfalso.
      assert (Hall : Forall (fun ev => forall n a' e', ev <> ERemoveChunk n a' (Some e'))
                (EEnter "deleteChunkFromAllNodes" :: ENodesClients (Ok clients)
                   :: map (removed (ChunkAddress chunk)) nodes ++ t2)).
      { repeat constructor; try done. apply Forall_app. split.
        - apply Forall_forall. intros ev He.
          apply list_elem_of_fmap in He as (kn & -> & _). done.
        - eapply Forall_impl; [exact Hrest|]. intros ev [Hev _] n a' e' ->. done. }
      cbn in Heq. rewrite Heq in Hall.
      apply Forall_app in Hall as [_ Hall]. apply Forall_cons in Hall as [Hall _].
      by eapply Hall.
  - intros [err|] t; [|done]. intros [Hq Hsplit]. split.
    + intros pre post Heq. exfalso. rewrite Heq in Hq.
      apply Forall_app in Hq as [_ Hq]. by apply Forall_cons in Hq as [? _].
    + intros pre node a e post Heq.
      destruct (Hsplit _ _ _ _ _ Heq) as [-> ->]. done.
  - done.
  - done.
Qed.

Lemma repair_triggerPolicy fuel o roles :
  keeps triggerPolicy (repair env MinimumBatchDepth fuel o roles).
Proof.
  unfold repair.
  apply keeps_bind; [apply triggerPolicy_sequential| |intros addressA].
  { apply quiet_triggerPolicy.
    eapply quiet_impl; [|apply uploadAndVerify_quiet].
    intros []; try done. cbn. by intros ->. }
  apply keeps_bind; [apply triggerPolicy_sequential| |intros _].
  { apply quiet_triggerPolicy.
    eapply quiet_impl; [|apply deleteEverywhere_quiet]. by intros []. }
  apply triggerRecovery_policy.
Qed.

Lemma repair_removalPolicy fuel o roles :
  keeps removalPolicy (repair env MinimumBatchDepth fuel o roles).
Proof.
  unfold repair.
  apply keeps_bind; [apply removalPolicy_sequential| |intros addressA].
  { apply quiet_removalPolicy.
    eapply quiet_impl; [|apply uploadAndVerify_quiet]. by intros []. }
  apply deleteEverywhere_policy, tail_calm.
Qed.

(** An invariant of [repair] that the events of [getNodes] and of
    [cluster.NodeGroup] cannot break holds of [Run]. *)
Lemma Run_keeps (I : status (option string) -> list Event -> Prop)
    (P : Event -> Prop) fuel o :
  sequential I ->
  (forall A (m : M W Event (option string) A), quiet P m -> keeps I m) ->
  (forall e, getNodesEvent e = true -> P e) ->
  (forall name err, P (ENodeGroup name err)) ->
  (forall roles, keeps I (repair env MinimumBatchDepth fuel o roles)) ->
  keeps I (Run env Rand PseudoGenerators NewRandomChunk SetAddress
             MinimumBatchDepth fuel o).
Proof.
  intros Hseq Hquiet Hget Hng Hrepair. unfold Run.
  apply keeps_bind; [done| |intros [e|]].
  { apply Hquiet. by apply quiet_call. }
  { apply Hquiet. apply quiet_returns. }
  apply keeps_bind; [done| |intros _].
  2:{ apply Hquiet. apply quiet_returns. }
  apply keeps_forEach; [done|]. intros i. unfold iteration.
  destruct (_ !! i) as [rnd|]; [|apply Hquiet, quiet_panic].
  apply keeps_bind; [done| |intros [roles|e]].
  - apply Hquiet, quiet_invoke.
    eapply quiet_impl; [exact Hget|apply getNodes_quiet].
  - apply Hrepair.
  - apply Hquiet, quiet_returns.
Qed.

(** Under fair enumeration [nestedRange] leaves no event and hands back
    an enumeration of the map by two nested ranges. *)
Lemma rounds_enumerates {R V} (m : gmap string V) outer w :
  exists nr w',
    (rounds env m outer : M W Event R (NestedRange V)) w = (Next nr, w', []) /\
    nr.*1 = outer /\ Forall (fun round => enumerates m round.2) nr.
Proof.
  revert w. induction outer as [|ka outer IH]; intros w; cbn [rounds].
  - exists [], w. by repeat split.
  - unfold range. rewrite bind_ask.
    pose proof (Hfair _ m w) as Hinner.
    destruct (rangeMap env m w) as [inner w1]. cbn [fst snd] in *.
    destruct (IH w1) as (nr & w' & Hrun & Hfst & Hall).
    rewrite (bind_Next _ _ _ _ _ _ Hrun). cbn.
    exists ((ka, inner) :: nr), w'. repeat split; [by cbn; rewrite Hfst|].
    by constructor.
Qed.

Lemma nestedRange_enumerates {R V} (m : gmap string V) w :
  exists nr w',
    (nestedRange env m : M W Event R (NestedRange V)) w = (Next nr, w', []) /\
    enumerates_nested m nr.
Proof.
  unfold nestedRange, range. rewrite bind_ask.
  pose proof (Hfair _ m w) as Houter.
  destruct (rangeMap env m w) as [outer w1]. cbn [fst snd] in *.
  destruct (rounds_enumerates (R:=R) m outer w1) as (nr & w' & Hrun & Hfst & Hall).
  exists nr, w'. split; [done|]. split; [by rewrite Hfst|done].
Qed.


End Stages.

(** C6.  In a run of the chunk-repair check, take any download that
    passes targets.  If it returned an error other than the expected
    "try again later" message for its address, it is the last thing the
    run does and [Run] returns that error wrapped as "chunk recovery not
    triggered"; if it succeeded or returned that one message, the next
    thing is the call of [uploadAndPinChunkToNode].  The download that is
    meant to trigger the repair is such a download: when it is reached it
    is made on node C, for the address of the chunk, with the first two
    characters of A's address as targets. *)
Theorem trigger_download_policy {W : Type} (env : Env W) (Rand : Type)
    (PseudoGenerators : Z -> Z -> list Rand)
    (NewRandomChunk : Rand -> result Chunk * Rand)
    (SetAddress : Chunk -> result Chunk) (MinimumBatchDepth : Z)
    (fuel : nat) (o : Options) (w : W)
    (pre : list Event) (node : Client) (a : Address) (targets : string)
    (r : result Bytes) (post : list Event) :
  let run := Run env Rand PseudoGenerators NewRandomChunk SetAddress
               MinimumBatchDepth fuel o w in
  trace run = pre ++ EDownloadChunk node a targets r :: post ->
  targets <> "" ->
  (forall e, r = Err e -> e <> errMessage a ->
     post = [] /\
     outcome run = Return (Some ("chunk recovery not triggered: " +:+ e))) /\
  ((exists d, r = Ok d) \/ r = Err (errMessage a) ->
     exists post', post = enterReupload :: post') /\
  (forall nodeC chunk addressA w',
     let t := trace (triggerRecovery env nodeC chunk addressA w') in
     t = [] \/
     exists c tg r',
       nodeC = Some c /\ t = [EDownloadChunk c (ChunkAddress chunk) tg r'] /\
       tg = substring 0 2 (hex addressA) /\ tg <> "").
Proof.
  intros run Hsplit Hne.
  assert (Hpol : triggerPolicy (status_of (outcome run)) (trace run)).
  { apply (Run_keeps env Rand PseudoGenerators NewRandomChunk SetAddress
             MinimumBatchDepth triggerPolicy (fun e => isTrigger e = false)).
    - apply triggerPolicy_sequential.
    - intros A m. apply quiet_triggerPolicy.
    - by intros [].
    - done.
    - intros roles. apply repair_triggerPolicy. }
  specialize (Hpol _ _ _ _ _ _ Hsplit Hne).
  split; [|split].
  - intros e -> Hbad. rewrite bool_decide_false in Hpol by done.
    destruct Hpol as [-> Hs]. split; [done|].
    destruct (outcome run); cbn in Hs; congruence.
  - intros [[d ->]| ->]; [done|]. by rewrite bool_decide_true in Hpol.
  - intros nodeC chunk addressA w'. cbn zeta.
    unfold triggerRecovery, targetsPrefix.
    destruct (Nat.ltb_spec (String.length (hex addressA)) 2) as [Hshort|Hlong].
    { left. done. }
    rewrite bind_ret_l. destruct nodeC as [c|]; [|by left].
    cbn [deref]. rewrite bind_ret_l, bind_call.
    right. eexists c, (substring 0 2 (hex addressA)), _.
    split; [done|]. split.
    + unfold trace. cbn [snd]. f_equal.
      by destruct (downloadChunk env c _ _ w').1 as [d|e]; [|case_bool_decide].
    + split; [done|].
      destruct (hex addressA) as [|c1 [|c2 rest]]; cbn in *; [lia|lia|done].
Qed.

Lemma trigger_download_policy_witness :
  let run := labRepair repairNotTriggered 30 in
  trace run =
    take 20 (trace run)
      ++ EDownloadChunk "bee-0" [x81] "ff" (Err "context deadline exceeded")
      :: [] /\
  "ff" <> "" /\
  outcome run =
    Return (Some "chunk recovery not triggered: context deadline exceeded").
Proof.
  cbn zeta. split; [by vm_compute|]. split; [done|].
  refine (proj2 (proj1 (trigger_download_policy repairNotTriggered labRand
            labPseudoGenerators labNewRandomChunk labSetAddress 17 30 labOptions
            0%nat (take 20 (trace (labRepair repairNotTriggered 30)))
            "bee-0" [x81] "ff" (Err "context deadline exceeded") [] _ _)
            "context deadline exceeded" eq_refl _)).
  - by vm_compute.
  - done.
  - by vm_compute.
Defined.

Lemma healthy_fair deadline : fair_ranges (healthy deadline).
Proof. intros V m w. unfold enumerates. done. Qed.

Lemma sameOverlayEnv_fair : fair_ranges sameOverlayEnv.
Proof. intros V m w. unfold enumerates. done. Qed.

Lemma sameOverlays_equal k1 k2 a1 a2 :
  sameOverlays !! k1 = Some a1 -> sameOverlays !! k2 = Some a2 -> a1 = a2.
Proof.
  assert (H : map_Forall (fun _ a => a = [x00]) sameOverlays).
  { apply map_Forall_to_list. vm_compute. repeat constructor. }
  intros H1 H2. by rewrite (H _ _ H1), (H _ _ H2).
Qed.

(** C10.  When all addresses of the overlay map are equal (a map with one
    entry included), [findFarthestNodes] returns the zero address twice
    and no error.  The check in [getNodes] that precedes it compares only
    the size of the node group with [minNodesRequired]: with a size of
    at least three and such a map, [getNodes] goes on to choose node B
    with the zero address for both A and C. *)
Theorem findFarthestNodes_equal_addresses :
  (forall (m : gmap string Address) (r : NestedRange Address),
      enumerates_nested m r ->
      (forall k1 k2 a1 a2, m !! k1 = Some a1 -> m !! k2 = Some a2 -> a1 = a2) ->
      findFarthestNodes r = Ok (ZeroAddress, ZeroAddress)) /\
  (forall (W : Type) (env : Env W) (Rand : Type)
          (NewRandomChunk : Rand -> result Chunk * Rand)
          (SetAddress : Chunk -> result Chunk)
          (fuel : nat) (rnd : Rand) (overlays : gmap string Address),
      fair_ranges env ->
      (forall w, (ngOverlays env w).1 = Ok overlays) ->
      (forall w, (minNodesRequired <= (ngSize env w).1)%Z) ->
      (forall k1 k2 a1 a2,
          overlays !! k1 = Some a1 -> overlays !! k2 = Some a2 -> a1 = a2) ->
      forall w, exists w' n,
        (minNodesRequired <= n)%Z /\
        outcome (getNodes env Rand NewRandomChunk SetAddress fuel rnd w) =
          outcome (assignRoles env Rand NewRandomChunk SetAddress fuel overlays
                     ZeroAddress ZeroAddress rnd w') /\
        trace (getNodes env Rand NewRandomChunk SetAddress fuel rnd w) =
          EEnter "getNodes" :: EOverlays (Ok overlays) :: ESize n
            :: trace (assignRoles env Rand NewRandomChunk SetAddress fuel overlays
                        ZeroAddress ZeroAddress rnd w')).
Proof.
  split; [exact TopologyFacts.findFarthestNodes_no_distinct_pair|].
  intros W env Rand NewRandomChunk SetAddress fuel rnd overlays
    Hfair Hov Hsize Heq w.
  unfold getNodes. rewrite bind_emit, bind_call, Hov, bind_call.
  set (w1 := (ngOverlays env w).2).
  specialize (Hsize w1).
  rewrite (proj2 (Z.ltb_ge _ _) Hsize).
  set (w2 := (ngSize env w1).2).
  destruct (nestedRange_enumerates env Hfair (R:=result Roles) overlays w2)
    as (nr & w' & Hrun & Hnr).
  rewrite (bind_Next _ _ _ _ _ _ Hrun).
  rewrite (TopologyFacts.findFarthestNodes_no_distinct_pair overlays nr Hnr Heq).
  exists w', (ngSize env w1).1. done.
Qed.

Lemma findFarthestNodes_equal_addresses_witness :
  findFarthestNodes (map (fun ka => (ka, map_to_list sameOverlays))
                       (map_to_list sameOverlays))
    = Ok (ZeroAddress, ZeroAddress) /\
  exists w' n,
    (minNodesRequired <= n)%Z /\
    outcome (getNodes sameOverlayEnv labRand labNewRandomChunk labSetAddress
               5 [[x01]] 0%nat) =
      outcome (assignRoles sameOverlayEnv labRand labNewRandomChunk labSetAddress
                 5 sameOverlays ZeroAddress ZeroAddress [[x01]] w') /\
    trace (getNodes sameOverlayEnv labRand labNewRandomChunk labSetAddress
             5 [[x01]] 0%nat) =
      EEnter "getNodes" :: EOverlays (Ok sameOverlays) :: ESize n
        :: trace (assignRoles sameOverlayEnv labRand labNewRandomChunk labSetAddress
                    5 sameOverlays ZeroAddress ZeroAddress [[x01]] w').
Proof.
  split.
  - apply (proj1 findFarthestNodes_equal_addresses sameOverlays).
    + split.
      * unfold enumerates. rewrite <- list_fmap_compose. cbn.
        by rewrite list_fmap_id.
      * apply Forall_forall. intros round Hin.
        apply list_elem_of_fmap in Hin as (ka & -> & _).
        unfold enumerates. done.
    + exact sameOverlays_equal.
  - apply (proj2 findFarthestNodes_equal_addresses nat sameOverlayEnv labRand
             labNewRandomChunk labSetAddress 5 [[x01]] sameOverlays).
    + exact sameOverlayEnv_fair.
    + done.
    + intros w. cbn. unfold minNodesRequired. lia.
    + exact sameOverlays_equal.
Defined.

End ChunkRepairFacts.

(** ** Facts about the smoke check *)

Module SmokeFacts.
Import AddressSpace Topology Effects Bee Smoke EffectsFacts Lab.

Lemma insert_snoc_Permutation {A} (l : list A) (j : nat) (x y : A) :
  l !! j = Some x -> <[j:=y]> l ++ [x] ≡ₚ l ++ [y].
Proof.
  revert j. induction l as [|a l IH]; intros [|j] Hj; cbn in *; try done.
  - injection Hj as ->. solve_Permutation.
  - by rewrite (IH j Hj).
Qed.

Section Generator.
Variable Rand : Type.
Variable Intn : Rand -> nat -> nat * Rand.
Hypothesis Intn_range : forall r n, (0 < n)%nat -> ((Intn r n).1 < n)%nat.

(** One round of the loop of [Perm] extends a permutation of [0..i) in
    the first [i] cells to one of [0..i] in the first [i+1]. *)
Lemma permLoop_Permutation k i m r :
  (i + k = length m)%nat ->
  take i m ≡ₚ seq 0 i ->
  (permLoop Rand Intn k i m r).1 ≡ₚ seq 0 (i + k).
Proof.
  revert i m r. induction k as [|k IH]; intros i m r Hlen Hperm.
  - cbn. rewrite Nat.add_0_r in *. by rewrite <- Hperm, take_ge by lia.
  - cbn [permLoop].
    pose proof (Intn_range r (i + 1) ltac:(lia)) as Hj.
    destruct (Intn r (i + 1)) as [j r']. cbn [fst] in Hj.
    replace (i + S k)%nat with (S i + k)%nat by lia.
    apply IH.
    + rewrite !length_insert. lia.
    + destruct (decide (j = i)) as [->|Hne].
      * destruct (lookup_lt_is_Some_2 m i ltac:(lia)) as [x Hx].
        rewrite Hx. cbn [default from_option id]. rewrite (list_insert_id m i x Hx).
        rewrite (take_S_r _ _ i) by (apply list_lookup_insert_eq; lia).
        rewrite take_insert_ge by lia.
        rewrite Hperm. by rewrite seq_S.
      * assert (Hlt : (j < i)%nat) by lia.
        destruct (lookup_lt_is_Some_2 m j ltac:(lia)) as [x Hx].
        rewrite Hx. cbn [default from_option id].
        rewrite (take_S_r _ _ x).
        2:{ rewrite list_lookup_insert_ne by done.
            apply list_lookup_insert_eq. lia. }
        rewrite take_insert_lt by lia.
        rewrite take_insert_ge by lia.
        rewrite insert_snoc_Permutation.
        -- rewrite Hperm. by rewrite seq_S.
        -- by rewrite lookup_take_lt.
Qed.

Lemma Perm_Permutation r n : (Perm Rand Intn r n).1 ≡ₚ seq 0 n.
Proof.
  unfold Perm. apply (permLoop_Permutation n 0 (replicate n 0%nat) r).
  - by rewrite length_replicate.
  - done.
Qed.

Lemma Perm_first_two r n :
  (2 <= n)%nat ->
  exists txIdx rxIdx,
    (Perm Rand Intn r n).1 !! 0%nat = Some txIdx /\
    (Perm Rand Intn r n).1 !! 1%nat = Some rxIdx /\
    txIdx <> rxIdx /\ (txIdx < n)%nat /\ (rxIdx < n)%nat.
Proof.
  intros Hn. pose proof (Perm_Permutation r n) as Hperm.
  assert (Hlen : length (Perm Rand Intn r n).1 = n).
  { by rewrite Hperm, length_seq. }
  assert (Hnd : NoDup (Perm Rand Intn r n).1).
  { rewrite Hperm. apply NoDup_seq. }
  destruct (Perm Rand Intn r n).1 as [|tx [|rx rest]]; cbn in Hlen; try lia.
  exists tx, rx. repeat split; try done.
  - apply NoDup_cons in Hnd as [Hnd _]. intros ->. apply Hnd. by left.
  - assert (Hin : tx ∈ seq 0 n) by (rewrite <- Hperm; by left).
    apply elem_of_seq in Hin. lia.
  - assert (Hin : rx ∈ seq 0 n) by (rewrite <- Hperm; right; by left).
    apply elem_of_seq in Hin. lia.
Qed.

End Generator.

Lemma guarded_app t1 t2 : guarded t1 -> guarded t2 -> guarded (t1 ++ t2).
Proof.
  intros H1 H2. induction H1; cbn; [done|by constructor|by constructor].
Qed.

Lemma guarded_passive t : Forall passive t -> guarded t.
Proof.
  induction 1 as [|e t [He _] _ IH]; [constructor|by constructor].
Qed.

Lemma guarded_opens cp t1 t2 :
  opens cp t1 -> guarded t2 -> guarded (ECtxDone cp false :: t1 ++ t2).
Proof.
  intros [->|(e & t' & -> & He & Ht')] H2.
  - by constructor.
  - cbn. apply guarded_checked; [done|]. by apply guarded_app; [apply guarded_passive|].
Qed.

(** In a guarded trace every event that needs a check has its check
    right before it. *)
Lemma guarded_checked_before t :
  guarded t ->
  forall pre e post cp,
    t = pre ++ e :: post -> needsCheck e = Some cp ->
    exists pre', pre = pre' ++ [ECtxDone cp false].
Proof.
  induction 1 as [|e0 t He0 _ IH|cp0 e0 t He0 _ IH]; intros pre e post cp Heq He.
  - by destruct pre.
  - destruct pre as [|x pre]; cbn in Heq; injection Heq as <- Heq.
    + congruence.
    + destruct (IH _ _ _ _ Heq He) as (pre' & ->). by exists (e0 :: pre').
  - destruct pre as [|x [|y pre]]; cbn in Heq.
    + injection Heq as <- _. done.
    + injection Heq as <- <- _. exists []. cbn. congruence.
    + injection Heq as <- <- Heq.
      destruct (IH _ _ _ _ Heq He) as (pre' & ->).
      by exists (ECtxDone cp0 false :: e0 :: pre').
Qed.

Lemma cancelPolicy_sequential : sequential cancelPolicy.
Proof.
  split.
  - split; [constructor|]. intros pre *. by destruct pre.
  - intros t1 s t2 [G1 H1] [G2 H2]. split; [by apply guarded_app|].
    intros pre cp post Heq.
    apply app_split in Heq as [(post1 & -> & ->)|(pre2 & -> & ->)].
    + by destruct (H1 _ _ _ eq_refl) as [_ ?].
    + exact (H2 _ _ _ eq_refl).
Qed.

Lemma exitPolicy_sequential : sequential exitPolicy.
Proof.
  split; [done|].
  intros t1 s t2 _ H2 r Hs. destruct (H2 r Hs) as (-> & pre & cp & ->).
  split; [done|]. exists (t1 ++ pre), cp. by rewrite app_assoc.
Qed.

Lemma passive_not_fired t pre cp post :
  Forall (fun e => ~ fired e) t -> t = pre ++ ECtxDone cp true :: post -> False.
Proof.
  intros Hall ->. apply Forall_app in Hall as [_ Hall].
  apply Forall_cons in Hall as [Hall _]. apply Hall. by exists cp.
Qed.

Section Check.
Context {W : Type}.
Variable env : Env W.
Variable Rand : Type.
Variable Intn : Rand -> nat -> nat * Rand.
Variable PseudoGenerator : Z -> Rand.
Variable Size : nat.
Variable NodeNames : list string.

Lemma quiet_cancelPolicy {A} (m : M W Event (option string) A) :
  quiet passive m -> keeps cancelPolicy m.
Proof.
  intros Hq w. specialize (Hq w). split; [by apply guarded_passive|].
  intros pre cp post Heq. exfalso.
  eapply passive_not_fired; [|exact Heq].
  eapply Forall_impl; [exact Hq|]. by intros e [_ ?].
Qed.

Lemma opens_not_fired cp t :
  opens cp t -> Forall (fun e => ~ fired e) (ECtxDone cp false :: t).
Proof.
  intros Hm. constructor; [by intros [? ?]|].
  destruct Hm as [->|(e & t' & -> & He & Ht')]; [constructor|].
  constructor; [intros [? ->]; done|].
  eapply Forall_impl; [exact Ht'|]. by intros ? [_ ?].
Qed.

(** A look at the context, then a step that opens with the event the
    look is for, then anything that keeps the policy. *)
Lemma keeps_guard {A B} (cp : CheckPoint) (look : W -> bool * W)
    (m : M W Event (option string) A)
    (f : A -> M W Event (option string) B) :
  meets m (fun _ t => opens cp t) ->
  (forall a, keeps cancelPolicy (f a)) ->
  keeps cancelPolicy
    (let* _ := (let* fired := call look (ECtxDone cp) in
                if fired then returns None else ret tt) in
     let* a := m in f a).
Proof.
  intros Hm Hf w. rewrite bind_assoc, bind_call.
  destruct (look w) as [[|] w1]; cbn [fst snd].
  - rewrite bind_returns. cbn. split; [by repeat constructor|].
    intros pre cp' post Heq.
    destruct pre as [|? [|? ?]]; cbn in Heq; try done.
    by injection Heq as _ <-.
  - rewrite bind_ret_l. specialize (Hm w1). unfold bind.
    destruct (m w1) as [[[a|r|msg|] w2] t1]; cbn in Hm |- *.
    2-4: split;
      [rewrite <- (app_nil_r t1); apply guarded_opens; [done|constructor]
      |intros pre cp' post Heq; exfalso;
       eapply passive_not_fired; [|exact Heq]; by apply opens_not_fired].
    specialize (Hf a w2). destruct (f a w2) as [[o w3] t2].
    cbn in Hf |- *. destruct Hf as [G2 H2]. split.
    + by apply guarded_opens.
    + intros pre cp' post Heq.
      change (ECtxDone cp false :: t1 ++ t2)
        with ((ECtxDone cp false :: t1) ++ t2) in Heq.
      apply (split_after (fun e => ~ fired e)) in Heq as (pre' & -> & Heq).
      * exact (H2 _ _ _ Heq).
      * by apply opens_not_fired.
      * intros H. apply H. by exists cp'.
Qed.

Lemma client_quiet {R} (P : Event -> Prop) (c : option Client) :
  quiet P (deref c : M W Event R Client).
Proof. unfold deref. destruct c; [apply quiet_ret|apply quiet_panic]. Qed.

Lemma upload_opens o clients cName data :
  meets (invoke (upload env o clients cName data)
           : M W Event (option string) (Address * Z * option string))
    (fun _ t => opens InUploadRetry t).
Proof.
  intros w. unfold invoke, upload.
  destruct (clients !! cName) as [client|]; cbn [deref]; [|by left].
  rewrite bind_ret_l, bind_call.
  destruct (getOrCreateBatch env client _ _ _ _ w) as [[batchID|e] w1];
    cbn [fst snd].
  - rewrite bind_ask, bind_call.
    destruct (uploadBytes env client data _ _) as [[addr|e] w2]; cbn [fst snd].
    + rewrite bind_ask. cbn. right. eexists _, _. split; [done|].
      split; [done|]. repeat constructor; by intros [? ?].
    + cbn. right. eexists _, _. split; [done|].
      split; [done|]. repeat constructor; by intros [? ?].
  - cbn. right. eexists _, _. split; [done|]. split; [done|]. constructor.
Qed.

Lemma download_opens clients cName addr :
  meets (invoke (download env clients cName addr)
           : M W Event (option string) (Bytes * Z * option string))
    (fun _ t => opens InDownloadRetry t).
Proof.
  intros w. unfold invoke, download.
  destruct (clients !! cName) as [client|]; cbn [deref]; [|by left].
  rewrite bind_ret_l, bind_ask, bind_call.
  destruct (downloadBytes env client addr _) as [[d|e] w2]; cbn [fst snd].
  - rewrite bind_ask. cbn. right. eexists _, _. split; [done|].
    split; [done|]. constructor.
  - cbn. right. eexists _, _. split; [done|]. split; [done|]. constructor.
Qed.

Lemma pause_passive {R} d : quiet passive (pause env d : M W Event R unit).
Proof. apply quiet_call. intros _. split; [done|]. by intros [? ?]. Qed.

Lemma uploadRetries_policy retries o clients txName txData address txDuration :
  keeps cancelPolicy
    (uploadRetries env retries o clients txName txData address txDuration).
Proof.
  revert address txDuration.
  induction retries as [|retries IH]; intros address txDuration;
    cbn [uploadRetries].
  - apply quiet_cancelPolicy, quiet_ret.
  - destruct (txDuration =? 0)%Z; [|apply quiet_cancelPolicy, quiet_ret].
    unfold checkDone. apply keeps_guard; [apply upload_opens|].
    intros [[address' txDuration'] err].
    apply keeps_bind; [apply cancelPolicy_sequential| |intros _; apply IH].
    destruct err; apply quiet_cancelPolicy; [apply pause_passive|apply quiet_ret].
Qed.

Lemma downloadRetries_policy retries o clients rxName address txData rxDuration :
  keeps cancelPolicy
    (downloadRetries env retries o clients rxName address txData rxDuration).
Proof.
  revert rxDuration.
  induction retries as [|retries IH]; intros rxDuration; cbn [downloadRetries].
  - apply quiet_cancelPolicy, quiet_ret.
  - destruct (rxDuration =? 0)%Z; [|apply quiet_cancelPolicy, quiet_ret].
    unfold checkDoneOrAfter. apply keeps_guard; [apply download_opens|].
    intros [[rxData rxDuration'] err].
    destruct err; [apply IH|].
    destruct (rxDuration' =? 0)%Z; [apply IH|].
    case_bool_decide; [apply quiet_cancelPolicy, quiet_ret|apply IH].
Qed.

Lemma index_quiet {R A} (P : Event -> Prop) (l : list A) i :
  quiet P (index l i : M W Event R A).
Proof. unfold index. destruct (l !! i); [apply quiet_ret|apply quiet_panic]. Qed.

(** What follows the draw of the permutation in a round. *)
Lemma iteration_policy o clients rnd :
  keeps cancelPolicy (iteration env Rand Intn Size NodeNames o clients rnd).
Proof.
  unfold iteration. destruct (Perm Rand Intn rnd Size) as [perm rnd'].
  unfold checkDone. apply keeps_guard.
  { intros w. right. exists (EPerm perm), []. by repeat split. }
  intros _.
  apply keeps_bind; [apply cancelPolicy_sequential| |intros txIdx].
  { apply quiet_cancelPolicy, index_quiet. }
  apply keeps_bind; [apply cancelPolicy_sequential| |intros rxIdx].
  { apply quiet_cancelPolicy, index_quiet. }
  destruct (txIdx =? rxIdx)%nat; [apply quiet_cancelPolicy, quiet_ret|].
  apply keeps_bind; [apply cancelPolicy_sequential| |intros txName].
  { apply quiet_cancelPolicy, index_quiet. }
  apply keeps_bind; [apply cancelPolicy_sequential| |intros rxName].
  { apply quiet_cancelPolicy, index_quiet. }
  destruct ((ContentSize o <? 0)%Z || (maxAlloc <? ContentSize o)%Z); [apply quiet_cancelPolicy, quiet_panic|].
  apply keeps_bind; [apply cancelPolicy_sequential| |intros [txData|e]].
  { apply quiet_cancelPolicy, quiet_call. intros r. split; [done|]. by intros [? ?]. }
  2:{ apply quiet_cancelPolicy, quiet_ret. }
  apply keeps_bind; [apply cancelPolicy_sequential| |intros [address txDuration]].
  { apply uploadRetries_policy. }
  destruct (txDuration =? 0)%Z; [apply quiet_cancelPolicy, quiet_ret|].
  apply keeps_bind; [apply cancelPolicy_sequential| |intros _].
  { apply quiet_cancelPolicy, pause_passive. }
  apply keeps_bind; [apply cancelPolicy_sequential| |intros _].
  { apply downloadRetries_policy. }
  apply quiet_cancelPolicy, quiet_ret.
Qed.

Lemma iterations_policy fuel o clients rnd :
  keeps cancelPolicy (iterations env Rand Intn Size NodeNames fuel o clients rnd).
Proof.
  revert rnd. induction fuel as [|fuel IH]; intros rnd; cbn [iterations].
  - apply quiet_cancelPolicy, quiet_running.
  - apply keeps_bind; [apply cancelPolicy_sequential|apply iteration_policy|].
    intros rnd'. apply IH.
Qed.

Lemma Run_policy fuel o :
  keeps cancelPolicy (Run env Rand Intn PseudoGenerator Size NodeNames fuel o).
Proof.
  unfold Run.
  apply keeps_bind; [apply cancelPolicy_sequential| |intros [clients|e]].
  { apply quiet_cancelPolicy, quiet_call. intros r. split; [done|]. by intros [? ?]. }
  2:{ apply quiet_cancelPolicy, quiet_returns. }
  apply keeps_bind; [apply cancelPolicy_sequential| |intros _].
  { apply quiet_cancelPolicy, pause_passive. }
  apply keeps_bind; [apply cancelPolicy_sequential| |intros _].
  { apply iterations_policy. }
  apply quiet_cancelPolicy, quiet_returns.
Qed.

Lemma exit_never {A} (m : M W Event (option string) A) :
  (forall w r, (m w).1.1 <> Return r) -> keeps exitPolicy m.
Proof.
  intros H w r Hs. specialize (H w).
  destruct ((m w).1.1) as [a|r'|msg|]; cbn in Hs; try done.
  by destruct (H r').
Qed.

Lemma exit_look (cp : CheckPoint) (look : W -> bool * W) :
  keeps exitPolicy
    (let* fired := call look (ECtxDone cp) in
     if fired then returns None else ret tt : M W Event (option string) unit).
Proof.
  intros w r. rewrite bind_call. destruct (look w) as [[|] w1]; cbn; [|done].
  intros [= <-]. split; [done|]. by exists [], cp.
Qed.

Lemma invoke_never {R R' : Type} (body : M W Event R' R') w r :
  ((invoke body : M W Event R R') w).1.1 <> Return r.
Proof. unfold invoke. by destruct (body w) as [[[]]]. Qed.

Lemma pause_never {R} d w r : ((pause env d : M W Event R unit) w).1.1 <> Return r.
Proof. unfold pause, call. by destruct (sleep env d w). Qed.

Lemma index_never {R A} (l : list A) i w r :
  ((index l i : M W Event R A) w).1.1 <> Return r.
Proof. unfold index. by destruct (l !! i). Qed.

Lemma uploadRetries_exit retries o clients txName txData address txDuration :
  keeps exitPolicy
    (uploadRetries env retries o clients txName txData address txDuration).
Proof.
  revert address txDuration.
  induction retries as [|retries IH]; intros address txDuration;
    cbn [uploadRetries]; [by apply exit_never|].
  destruct (txDuration =? 0)%Z; [|by apply exit_never].
  apply keeps_bind; [apply exitPolicy_sequential|apply exit_look|intros _].
  apply keeps_bind; [apply exitPolicy_sequential| |intros [[address' txDuration'] err]].
  { apply exit_never, invoke_never. }
  apply keeps_bind; [apply exitPolicy_sequential| |intros _; apply IH].
  destruct err; apply exit_never; [apply pause_never|done].
Qed.

Lemma downloadRetries_exit retries o clients rxName address txData rxDuration :
  keeps exitPolicy
    (downloadRetries env retries o clients rxName address txData rxDuration).
Proof.
  revert rxDuration.
  induction retries as [|retries IH]; intros rxDuration; cbn [downloadRetries];
    [by apply exit_never|].
  destruct (rxDuration =? 0)%Z; [|by apply exit_never].
  apply keeps_bind; [apply exitPolicy_sequential|apply exit_look|intros _].
  apply keeps_bind; [apply exitPolicy_sequential| |intros [[rxData rxDuration'] err]].
  { apply exit_never, invoke_never. }
  destruct err; [apply IH|].
  destruct (rxDuration' =? 0)%Z; [apply IH|].
  case_bool_decide; [by apply exit_never|apply IH].
Qed.

Lemma iteration_exit o clients rnd :
  keeps exitPolicy (iteration env Rand Intn Size NodeNames o clients rnd).
Proof.
  unfold iteration. destruct (Perm Rand Intn rnd Size) as [perm rnd'].
  apply keeps_bind; [apply exitPolicy_sequential|apply exit_look|intros _].
  apply keeps_bind; [apply exitPolicy_sequential|by apply exit_never|intros _].
  apply keeps_bind; [apply exitPolicy_sequential| |intros txIdx].
  { apply exit_never, index_never. }
  apply keeps_bind; [apply exitPolicy_sequential| |intros rxIdx].
  { apply exit_never, index_never. }
  destruct (txIdx =? rxIdx)%nat; [by apply exit_never|].
  apply keeps_bind; [apply exitPolicy_sequential| |intros txName].
  { apply exit_never, index_never. }
  apply keeps_bind; [apply exitPolicy_sequential| |intros rxName].
  { apply exit_never, index_never. }
  destruct ((ContentSize o <? 0)%Z || (maxAlloc <? ContentSize o)%Z);
    [by apply exit_never|].
  apply keeps_bind; [apply exitPolicy_sequential| |intros [txData|e]].
  { apply exit_never. intros w r. unfold call. by destruct (cryptoRead env _ w). }
  2:{ by apply exit_never. }
  apply keeps_bind; [apply exitPolicy_sequential| |intros [address txDuration]].
  { apply uploadRetries_exit. }
  destruct (txDuration =? 0)%Z; [by apply exit_never|].
  apply keeps_bind; [apply exitPolicy_sequential| |intros _].
  { apply exit_never, pause_never. }
  apply keeps_bind; [apply exitPolicy_sequential| |intros _].
  { apply downloadRetries_exit. }
  by apply exit_never.
Qed.

Lemma iterations_exit fuel o clients rnd :
  keeps exitPolicy (iterations env Rand Intn Size NodeNames fuel o clients rnd).
Proof.
  revert rnd. induction fuel as [|fuel IH]; intros rnd; cbn [iterations].
  - by apply exit_never.
  - apply keeps_bind; [apply exitPolicy_sequential|apply iteration_exit|].
    intros rnd'. apply IH.
Qed.

(** The loop has no [break]: it is never left by falling through. *)
Lemma iterations_loops fuel o clients rnd w a :
  (iterations env Rand Intn Size NodeNames fuel o clients rnd w).1.1 <> Next a.
Proof.
  revert rnd w. induction fuel as [|fuel IH]; intros rnd w; cbn [iterations]; [done|].
  unfold bind.
  destruct (iteration env Rand Intn Size NodeNames o clients rnd w)
    as [[[rnd'|r|msg|] w1] t1]; try done.
  specialize (IH rnd' w1).
  by destruct (iterations env Rand Intn Size NodeNames fuel o clients rnd' w1)
    as [[[]]].
Qed.

Lemma Run_exits fuel o w r :
  let run := Run env Rand Intn PseudoGenerator Size NodeNames fuel o w in
  outcome run = Return r ->
  (exists e, r = Some e /\ trace run = [ENodesClients (Err e)]) \/
  (r = None /\ exists pre cp, trace run = pre ++ [ECtxDone cp true]).
Proof.
  cbn zeta. unfold Run, outcome, trace. rewrite bind_call.
  destruct (nodesClients env w) as [[clients|e] w1]; cbn [fst snd].
  2:{ cbn. intros [= <-]. left. by exists e. }
  unfold pause. rewrite bind_call. cbn [fst snd].
  set (w2 := (sleep env (5 * Second) w1).2).
  pose proof (iterations_exit fuel o clients (PseudoGenerator (RndSeed o)) w2) as Hx.
  pose proof (iterations_loops fuel o clients (PseudoGenerator (RndSeed o)) w2) as Hl.
  unfold bind.
  destruct (iterations env Rand Intn Size NodeNames fuel o clients
              (PseudoGenerator (RndSeed o)) w2) as [[[a|r'|msg|] w3] t3];
    cbn in *; try done.
  - by destruct (Hl a).
  - intros [= <-]. destruct (Hx r' eq_refl) as (-> & pre & cp & ->).
    right. split; [done|].
    by exists (ENodesClients (Ok clients) :: ESleep (5 * Second) :: pre), cp.
Qed.

Lemma Run_first_look fuel o w clients rest :
  (0 < fuel)%nat ->
  trace (Run env Rand Intn PseudoGenerator Size NodeNames fuel o w)
    = ENodesClients (Ok clients) :: rest ->
  exists fired rest',
    rest = ESleep (5 * Second) :: ECtxDone AtIteration fired :: rest'.
Proof.
  intros Hfuel. destruct fuel as [|fuel]; [lia|].
  unfold Run, trace. rewrite bind_call.
  destruct (nodesClients env w) as [[clients'|e] w1]; cbn [fst snd]; [|done].
  unfold pause. rewrite bind_call. cbn [fst snd iterations].
  rewrite !bind_assoc. unfold iteration at 1.
  destruct (Perm Rand Intn (PseudoGenerator (RndSeed o)) Size) as [perm rnd'].
  unfold checkDone. rewrite !bind_assoc, bind_call.
  match goal with
  | |- context [ctxDoneOrDefault env ?w0] =>
      destruct (ctxDoneOrDefault env w0) as [fired w3]
  end.
  cbn [fst snd].
  match goal with
  | |- context [(?m w3).2] => generalize (m w3).2
  end.
  intros t [= <- <-]. by eexists _, _.
Qed.






End Check.

(** C8.  In a run of the smoke check, the draw of the permutation that
    opens a round, every upload attempt and every download attempt come
    right after a look at [ctx.Done()] at their own check point that
    found the context not done; and when a look finds it done, nothing
    else happens and [Run] returns nil.  The looks are made: once the
    clients are known, the warm-up sleep is followed by the look at the
    top of the first round.  They are the only way out: whenever [Run]
    returns, it either returns the error of [NodesClients], having done
    nothing else, or it returns nil and the last thing it did was a look
    that found the context done. *)
Theorem cancellation_checked {W : Type} (env : Env W) (Rand : Type)
    (Intn : Rand -> nat -> nat * Rand) (PseudoGenerator : Z -> Rand)
    (Size : nat) (NodeNames : list string) (fuel : nat) (o : Options) (w : W) :
  let run := Run env Rand Intn PseudoGenerator Size NodeNames fuel o w in
  (forall pre e post cp,
      trace run = pre ++ e :: post -> needsCheck e = Some cp ->
      exists pre', pre = pre' ++ [ECtxDone cp false]) /\
  (forall pre cp post,
      trace run = pre ++ ECtxDone cp true :: post ->
      post = [] /\ outcome run = Return None) /\
  (forall clients rest,
      (0 < fuel)%nat -> trace run = ENodesClients (Ok clients) :: rest ->
      exists fired rest',
        rest = ESleep (5 * Second) :: ECtxDone AtIteration fired :: rest') /\
  (forall r,
      outcome run = Return r ->
      (exists e, r = Some e /\ trace run = [ENodesClients (Err e)]) \/
      (r = None /\ exists pre cp, trace run = pre ++ [ECtxDone cp true])).
Proof.
  intros run.
  destruct (Run_policy env Rand Intn PseudoGenerator Size NodeNames fuel o w)
    as [G H].
  split; [|split; [|split]].
  - intros pre e post cp. by apply guarded_checked_before.
  - intros pre cp post Heq. destruct (H _ _ _ Heq) as [-> Hs].
    split; [done|]. fold run in Hs. unfold outcome.
    destruct (run.1.1); cbn in Hs; congruence.
  - intros clients rest Hfuel Heq. by eapply Run_first_look.
  - intros r. apply Run_exits.
Qed.

(** Three runs in the lab, in which the context is done at the top of
    the first round, inside the upload retry loop and inside the
    download retry loop. *)
Lemma cancellation_checked_witness :
  let run := fun deadline =>
    Run (healthy deadline) nat labIntn labPseudoGenerator 3 labNodeNames 10
      labSmokeOptions 0%nat in
  let up := {| Pin := false; BatchID := "batch-1"; Direct := false |} in
  let data := [x2a; x2a; x2a; x2a] in
  (trace (run 2%nat)
     = [ENodesClients (Ok labClients); ESleep (5 * Second)]
       ++ ECtxDone AtIteration true :: [] /\
   outcome (run 2%nat) = Return None) /\
  (trace (run 3%nat)
     = [ENodesClients (Ok labClients); ESleep (5 * Second);
        ECtxDone AtIteration false; EPerm [2; 0; 1]%nat; ECryptoRead 4 (Ok data)]
       ++ ECtxDone InUploadRetry true :: [] /\
   outcome (run 3%nat) = Return None) /\
  (trace (run 5%nat)
     = [ENodesClients (Ok labClients); ESleep (5 * Second);
        ECtxDone AtIteration false; EPerm [2; 0; 1]%nat; ECryptoRead 4 (Ok data);
        ECtxDone InUploadRetry false; EGetOrCreateBatch "bee-2" (Ok "batch-1");
        EUploadBytes "bee-2" data up (Ok data); ESleep (60 * Second)]
       ++ ECtxDone InDownloadRetry true :: [] /\
   outcome (run 5%nat) = Return None).
Proof.
  cbn zeta.
  assert (Hfired : forall deadline pre cp,
    trace (Run (healthy deadline) nat labIntn labPseudoGenerator 3 labNodeNames 10
             labSmokeOptions 0%nat) = pre ++ ECtxDone cp true :: [] ->
    trace (Run (healthy deadline) nat labIntn labPseudoGenerator 3 labNodeNames 10
             labSmokeOptions 0%nat) = pre ++ ECtxDone cp true :: [] /\
    outcome (Run (healthy deadline) nat labIntn labPseudoGenerator 3 labNodeNames 10
               labSmokeOptions 0%nat) = Return None).
  { intros deadline pre cp Heq. split; [exact Heq|].
    exact (proj2 (proj1 (proj2 (cancellation_checked (healthy deadline) nat labIntn
                                  labPseudoGenerator 3 labNodeNames 10
                                  labSmokeOptions 0%nat)) pre cp [] Heq)). }
  split; [|split]; apply Hfired; by vm_compute.
Defined.

(** C9.  With at least two nodes the first two entries of the permutation
    that math/rand's [Perm] builds are different indices below the cluster
    size, so a round never takes the branch for equal indices: whenever a
    round runs to its end it has got as far as reading the random
    content. *)
Theorem uploader_downloader_distinct (Rand : Type)
    (Intn : Rand -> nat -> nat * Rand) (Size : nat) (rnd : Rand) :
  (forall r n, (0 < n)%nat -> ((Intn r n).1 < n)%nat) ->
  (2 <= Size)%nat ->
  (exists txIdx rxIdx,
      (Perm Rand Intn rnd Size).1 !! 0%nat = Some txIdx /\
      (Perm Rand Intn rnd Size).1 !! 1%nat = Some rxIdx /\
      txIdx <> rxIdx /\ (txIdx < Size)%nat /\ (rxIdx < Size)%nat) /\
  (forall (W : Type) (env : Env W) (NodeNames : list string) (o : Options)
          (clients : gmap string Client) (w : W) (rnd' : Rand),
      outcome (iteration env Rand Intn Size NodeNames o clients rnd w) = Next rnd' ->
      exists n r,
        ECryptoRead n r ∈ trace (iteration env Rand Intn Size NodeNames o clients rnd w)).
Proof.
  intros Hrange Hsize.
  pose proof (Perm_first_two Rand Intn Hrange rnd Size Hsize)
    as (txIdx & rxIdx & H0 & H1 & Hne & Htx & Hrx).
  split; [by exists txIdx, rxIdx|].
  intros W env NodeNames o clients w rnd'. unfold iteration.
  destruct (Perm Rand Intn rnd Size) as [perm rnd1]. cbn [fst] in H0, H1.
  unfold checkDone. rewrite bind_assoc, bind_call.
  destruct (ctxDoneOrDefault env w) as [[|] w1]; cbn [fst snd].
  { rewrite bind_returns. done. }
  rewrite bind_ret_l, bind_emit. unfold index. rewrite H0, bind_ret_l.
  rewrite H1, bind_ret_l.
  rewrite (proj2 (Nat.eqb_neq _ _) Hne).
  destruct (NodeNames !! txIdx) as [txName|]; [|done].
  rewrite bind_ret_l.
  destruct (NodeNames !! rxIdx) as [rxName|]; [|done].
  rewrite bind_ret_l. destruct ((ContentSize o <? 0)%Z || (maxAlloc <? ContentSize o)%Z); [done|].
  rewrite bind_call. intros _.
  eexists _, _. unfold trace. cbn [snd].
  do 2 right. by left.
Qed.

Lemma labIntn_range r n : (0 < n)%nat -> ((labIntn r n).1 < n)%nat.
Proof. intros Hn. cbn. apply Nat.mod_upper_bound. lia. Qed.

Lemma uploader_downloader_distinct_witness :
  (exists txIdx rxIdx,
      (Perm nat labIntn 7 3).1 !! 0%nat = Some txIdx /\
      (Perm nat labIntn 7 3).1 !! 1%nat = Some rxIdx /\
      txIdx <> rxIdx /\ (txIdx < 3)%nat /\ (rxIdx < 3)%nat) /\
  (forall (W : Type) (env : Env W) (NodeNames : list string) (o : Options)
          (clients : gmap string Client) (w : W) (rnd' : nat),
      outcome (iteration env nat labIntn 3 NodeNames o clients 7 w) = Next rnd' ->
      exists n r,
        ECryptoRead n r ∈ trace (iteration env nat labIntn 3 NodeNames o clients 7 w)).
Proof.
  apply (uploader_downloader_distinct nat labIntn 3 7).
  - exact labIntn_range.
  - lia.
Defined.

End SmokeFacts.

(** ** Facts about the light-node pushsync check *)

Module PushsyncFacts.
Import AddressSpace Topology Effects Bee Pushsync EffectsFacts TopologyFacts Lab.

Section Draws.
Context {W : Type}.
Variable env : Env W.
Variable Rand : Type.
Variable NewRandomChunk : Rand -> result Chunk * Rand.

Ltac walk IH :=
  repeat first
    [ apply IH | apply quiet_ret | apply quiet_returns | apply quiet_panic
    | apply quiet_ask | apply quiet_call; intros; done
    | apply quiet_bind; [|intros]
    | match goal with
      | |- quiet _ (match ?x with _ => _ end) => destruct x
      end ].

Lemma uploadRetry_draws {R} n o uploader chunk batchID last :
  quiet (fun e => drawn e = None)
    (uploadRetry env n o uploader chunk batchID last : M W Event R (result Address)).
Proof.
  revert last. induction n as [|n IH]; intros last; cbn [uploadRetry];
    unfold pause; walk IH.
Qed.

Lemma pollClosest_draws {R} n o node ref synced :
  quiet (fun e => drawn e = None)
    (pollClosest env n o node ref synced : M W Event R bool).
Proof.
  revert synced. induction n as [|n IH]; intros synced; cbn [pollClosest];
    unfold pause, deref; walk IH.
Qed.

Lemma replicaScan_draws {R} n overlays clients chunk ref skipPeers :
  quiet (fun e => drawn e = None)
    (replicaScan env n overlays clients chunk ref skipPeers : M W Event R bool).
Proof.
  revert skipPeers. induction n as [|n IH]; intros skipPeers; cbn [replicaScan];
    unfold range, deref; walk IH.
Qed.




End Draws.

End PushsyncFacts.

(** ** What the seed determines *)

Module Determinism.
Import AddressSpace Topology Effects Bee EffectsFacts Lab.




End Determinism.

(** ** More facts about the metric *)

Module MetricFacts.
Import AddressSpace Topology AddressSpaceFacts TopologyFacts.

(** Every byte is one of the 256 values [Byte.of_N] reaches. *)
Lemma byte_enumerated (b : byte) :
  b ∈ omap Byte.of_N (map N.of_nat (seq 0 256)).
Proof.
  apply list_elem_of_omap. exists (Byte.to_N b). split; [|apply Byte.of_to_N].
  apply list_elem_of_fmap. exists (N.to_nat (Byte.to_N b)). split; [lia|].
  apply elem_of_seq. pose proof (Byte.to_N_bounded b). lia.
Qed.

Lemma byte_forall2 (P : byte -> byte -> bool) :
  forallb (fun a => forallb (P a) (omap Byte.of_N (map N.of_nat (seq 0 256))))
          (omap Byte.of_N (map N.of_nat (seq 0 256))) = true ->
  forall a b, P a b = true.
Proof.
  intros H a b. rewrite forallb_forall in H.
  specialize (H a). rewrite forallb_forall in H.
  apply H; apply list_elem_of_In, byte_enumerated.
Qed.

Lemma byte_xor_le a b :
  (Byte.to_N (byte_xor a b) <= Byte.to_N a + Byte.to_N b)%N.
Proof.
  apply N.leb_le.
  apply (byte_forall2 (fun a b => (Byte.to_N (byte_xor a b) <=? Byte.to_N a + Byte.to_N b)%N)).
  by vm_compute.
Qed.

Lemma xorb_cancel p q : xorb p (xorb p q) = q.
Proof. by destruct p, q. Qed.

Lemma xorb_through p q t : xorb (xorb p q) (xorb q t) = xorb p t.
Proof. by destruct p, q, t. Qed.

Lemma byte_xor_cancel a b : byte_xor a (byte_xor a b) = b.
Proof.
  unfold byte_xor. rewrite Byte.to_bits_of_bits.
  rewrite <- (Byte.of_bits_to_bits b) at 2. f_equal.
  destruct (Byte.to_bits a) as (p0&p1&p2&p3&p4&p5&p6&p7).
  destruct (Byte.to_bits b) as (q0&q1&q2&q3&q4&q5&q6&q7).
  cbn. by rewrite !xorb_cancel.
Qed.

Lemma byte_xor_through a b c : byte_xor (byte_xor a b) (byte_xor b c) = byte_xor a c.
Proof.
  unfold byte_xor. rewrite !Byte.to_bits_of_bits. f_equal.
  destruct (Byte.to_bits a) as (p0&p1&p2&p3&p4&p5&p6&p7).
  destruct (Byte.to_bits b) as (q0&q1&q2&q3&q4&q5&q6&q7).
  destruct (Byte.to_bits c) as (t0&t1&t2&t3&t4&t5&t6&t7).
  cbn. by rewrite !xorb_through.
Qed.

Lemma xor_bytes_cancel x y :
  length x = length y -> xor_bytes x (xor_bytes x y) = y.
Proof.
  revert y. induction x as [|a x IH]; intros [|b y] Hl; cbn in *; try done.
  rewrite byte_xor_cancel, IH; [done|lia].
Qed.

Lemma xor_bytes_through x y z :
  length x = length y -> length y = length z ->
  xor_bytes (xor_bytes x y) (xor_bytes y z) = xor_bytes x z.
Proof.
  revert y z. induction x as [|a x IH]; intros [|b y] [|c z] H1 H2; cbn in *; try done.
  rewrite byte_xor_through, IH; [done|lia|lia].
Qed.

Lemma SetBytes_xor_le p q :
  length p = length q ->
  (SetBytes (xor_bytes p q) <= SetBytes p + SetBytes q)%N.
Proof.
  revert q. induction p as [|a p IH]; intros [|b q] Hl; cbn [xor_bytes] in *; try done.
  rewrite !SetBytes_cons, xor_bytes_length by (cbn in Hl; lia).
  assert (Hq : length q = length p) by (cbn in Hl; lia). rewrite Hq.
  pose proof (byte_xor_le a b). pose proof (IH q (eq_sym Hq)). nia.
Qed.

Lemma distanceRaw_Ok x y c :
  distanceRaw x y = Ok c -> length x = length y /\ c = xor_bytes x y.
Proof.
  unfold distanceRaw. destruct (Nat.eqb_spec (length x) (length y)); [|done].
  by intros [= <-].
Qed.

Lemma distance_Ok_inv x y d :
  distance x y = Ok d -> length x = length y /\ d = xorDistance x y.
Proof.
  unfold distance. destruct (distanceRaw x y) as [c|e] eqn:E; [|done].
  intros [= <-]. apply distanceRaw_Ok in E as [Hl ->]. done.
Qed.

Lemma SetBytes_app u v :
  SetBytes (u ++ v) = (SetBytes u * 256 ^ N.of_nat (length v) + SetBytes v)%N.
Proof.
  unfold SetBytes at 1. rewrite fold_left_app.
  fold (SetBytes u). fold (setBytes_from (SetBytes u) v).
  apply setBytes_from_acc.
Qed.

Lemma xor_bytes_app p p' x y :
  length p = length p' ->
  xor_bytes (p ++ x) (p' ++ y) = xor_bytes p p' ++ xor_bytes x y.
Proof.
  revert p'. induction p as [|a p IH]; intros [|b p'] Hl; cbn in *; try done.
  rewrite IH; [done|lia].
Qed.

(** X1.  [distanceRaw] undoes itself: when it returns [c] for [x] and
    [y], then [c] is as long as [x], and [distanceRaw] of [x] and [c]
    gives back [y], and of [c] and [y] gives back [x]. *)
Theorem distanceRaw_round_trip (x y c : Bytes) :
  distanceRaw x y = Ok c ->
  length c = length x /\ distanceRaw x c = Ok y /\ distanceRaw c y = Ok x.
Proof.
  intros H. apply distanceRaw_Ok in H as [Hl ->].
  assert (Hc : length (xor_bytes x y) = length x) by by apply xor_bytes_length.
  split; [done|]. unfold distanceRaw. rewrite Hc, Nat.eqb_refl.
  rewrite Hl, Nat.eqb_refl. split.
  - by rewrite xor_bytes_cancel.
  - rewrite (xor_bytes_comm x y), (xor_bytes_comm (xor_bytes y x) y).
    rewrite xor_bytes_cancel; [done|lia].
Qed.

Lemma distanceRaw_round_trip_witness :
  distanceRaw [x12; x34] [x56; x78] = Ok [x44; x4c] /\
  length [x44; x4c] = length [x12; x34] /\
  distanceRaw [x12; x34] [x44; x4c] = Ok [x56; x78] /\
  distanceRaw [x44; x4c] [x56; x78] = Ok [x12; x34].
Proof.
  split; [reflexivity|].
  apply (distanceRaw_round_trip [x12; x34] [x56; x78] [x44; x4c]). reflexivity.
Defined.

(** X2.  [distance] satisfies the triangle inequality: when it is
    defined from [x] to [y] and from [y] to [z], it is defined from [x]
    to [z] and is at most the sum of the two. *)
Theorem distance_triangle (x y z : Bytes) (dxy dyz : N) :
  distance x y = Ok dxy -> distance y z = Ok dyz ->
  exists dxz, distance x z = Ok dxz /\ (dxz <= dxy + dyz)%N.
Proof.
  intros Hxy Hyz.
  apply distance_Ok_inv in Hxy as [H1 ->]. apply distance_Ok_inv in Hyz as [H2 ->].
  exists (xorDistance x z). split; [apply distance_xorDistance; lia|].
  unfold xorDistance. rewrite <- (xor_bytes_through x y z H1 H2).
  apply SetBytes_xor_le. rewrite !xor_bytes_length; lia.
Qed.

Lemma distance_triangle_witness :
  distance [x12; x34] [x56; x78] = Ok 17484%N /\
  distance [x56; x78] [x9a; xbc] = Ok 52420%N /\
  exists dxz, distance [x12; x34] [x9a; xbc] = Ok dxz /\ (dxz <= 17484 + 52420)%N.
Proof.
  split; [reflexivity|]. split; [reflexivity|].
  apply (distance_triangle [x12; x34] [x56; x78] [x9a; xbc] 17484 52420);
    reflexivity.
Defined.

(** X3.  [distance] reads the XOR as a big-endian number, so a longer
    common prefix means a smaller distance: if [y] agrees with [x] on the
    first [k] bytes and [z] does not, then [y] is strictly closer to [x]
    than [z] is. *)
Theorem distance_common_prefix (x y z : Bytes) (k : nat) (dxy dxz : N) :
  distance x y = Ok dxy -> distance x z = Ok dxz ->
  take k x = take k y -> take k x <> take k z ->
  (dxy < dxz)%N.
Proof.
  intros Hxy Hxz Hp Hq.
  apply distance_Ok_inv in Hxy as [H1 ->]. apply distance_Ok_inv in Hxz as [H2 ->].
  unfold xorDistance.
  assert (Hsplit : forall u, length x = length u ->
             xor_bytes x u = xor_bytes (take k x) (take k u)
                             ++ xor_bytes (drop k x) (drop k u)).
  { intros u Hu. rewrite <- xor_bytes_app by (rewrite !length_take; lia).
    by rewrite !take_drop. }
  rewrite (Hsplit y H1), (Hsplit z H2).
  rewrite !SetBytes_app.
  rewrite <- Hp, xor_bytes_diag, SetBytes_zeros.
  rewrite !xor_bytes_length by (rewrite !length_drop; lia).
  pose proof (SetBytes_bound (xor_bytes (drop k x) (drop k y))) as Hb.
  rewrite xor_bytes_length in Hb by (rewrite !length_drop; lia).
  assert (0 < SetBytes (xor_bytes (take k x) (take k z)))%N as Hpos.
  { apply N.neq_0_lt_0. intros H0. apply Hq.
    apply xor_bytes_zero; [rewrite !length_take; lia|].
    apply SetBytes_inj.
    - rewrite length_replicate. apply xor_bytes_length. rewrite !length_take; lia.
    - by rewrite SetBytes_zeros. }
  nia.
Qed.

Lemma distance_common_prefix_witness :
  distance [x12; x34] [x12; x00] = Ok 52%N /\
  distance [x12; x34] [x56; x78] = Ok 17484%N /\
  (52 < 17484)%N.
Proof.
  split; [reflexivity|]. split; [reflexivity|].
  apply (distance_common_prefix [x12; x34] [x12; x00] [x56; x78] 1 52 17484);
    [reflexivity|reflexivity|reflexivity|discriminate].
Defined.

End MetricFacts.

(** ** The farthest-pair query on addresses of different lengths *)

Module FarthestFacts.
Import AddressSpace Topology AddressSpaceFacts TopologyFacts Lab.

Lemma farthest_step_Err st ac e :
  farthest_step st ac = Err e ->
  length ac.1 <> length ac.2 /\ e = errAddressLength.
Proof.
  unfold farthest_step, farthest_inner. cbn [fst snd].
  destruct (bool_decide (ac.1 = ac.2)); [done|].
  destruct (decide (length ac.1 = length ac.2)) as [Hl|Hl].
  - rewrite (distance_Ok _ _ Hl). by destruct (_ <? _)%N.
  - rewrite (distance_Err _ _ Hl). by intros [= <-].
Qed.

Lemma farthest_step_mixed st ac :
  length ac.1 <> length ac.2 -> farthest_step st ac = Err errAddressLength.
Proof.
  intros Hl. unfold farthest_step, farthest_inner. cbn [fst snd].
  rewrite bool_decide_eq_false_2 by (intros E; by rewrite E in Hl).
  by rewrite (distance_Err _ _ Hl).
Qed.

Lemma farthest_fold_Err vis st e :
  foldM farthest_step vis st = Err e ->
  e = errAddressLength /\ exists ac, ac ∈ vis /\ length ac.1 <> length ac.2.
Proof.
  revert st. induction vis as [|ac vis IH]; intros st; cbn [foldM]; [done|].
  destruct (farthest_step st ac) as [st'|e'] eqn:E.
  - intros H. destruct (IH _ H) as (-> & ac' & Hin & Hl).
    split; [done|]. exists ac'. split; [by right|done].
  - intros [= <-]. apply farthest_step_Err in E as [Hl ->].
    split; [done|]. exists ac. split; [by left|done].
Qed.

Lemma farthest_fold_mixed vis st ac :
  ac ∈ vis -> length ac.1 <> length ac.2 ->
  foldM farthest_step vis st = Err errAddressLength.
Proof.
  intros Hin Hl. apply list_elem_of_split in Hin as (pre & post & ->).
  rewrite foldM_app.
  destruct (foldM farthest_step pre st) as [st'|e] eqn:E.
  - cbn [foldM]. by rewrite (farthest_step_mixed _ _ Hl).
  - by apply farthest_fold_Err in E as [-> _].
Qed.

(** X4.  Whatever order the runtime enumerates the overlay map in, the
    only error [findFarthestNodes] returns is "address length must
    match", and it returns it exactly when the map holds two addresses
    of different lengths. *)
Theorem findFarthestNodes_length_error (m : gmap string Address)
    (r : NestedRange Address) :
  enumerates_nested m r ->
  (forall e, findFarthestNodes r = Err e -> e = errAddressLength) /\
  (findFarthestNodes r = Err errAddressLength <->
   exists k1 k2 a1 a2,
     m !! k1 = Some a1 /\ m !! k2 = Some a2 /\ length a1 <> length a2).
Proof.
  intros Hr. unfold findFarthestNodes. rewrite foldM_outer_flat.
  split; [|split].
  - intros e. destruct (foldM farthest_step (visits r) farthest_init) eqn:E; [done|].
    intros [= <-]. by apply farthest_fold_Err in E as [-> _].
  - destruct (foldM farthest_step (visits r) farthest_init) eqn:E; [done|].
    intros _. apply farthest_fold_Err in E as (_ & [a c] & Hin & Hl).
    apply (visits_values m r Hr) in Hin as [Ha Hc].
    apply value_lookup in Ha as [k1 Hk1]. apply value_lookup in Hc as [k2 Hk2].
    by exists k1, k2, a, c.
  - intros (k1 & k2 & a1 & a2 & H1 & H2 & Hl).
    assert (Hin : (a1, a2) ∈ visits r).
    { apply (visits_values m r Hr). split; apply value_lookup; eauto. }
    by rewrite (farthest_fold_mixed _ _ _ Hin Hl).
Qed.

Lemma mixedNested_enumerates : enumerates_nested mixedOverlays mixedNested.
Proof.
  split.
  - unfold enumerates, mixedNested. rewrite <- list_fmap_compose. cbn.
    by rewrite list_fmap_id.
  - apply Forall_forall. intros round Hin.
    apply list_elem_of_fmap in Hin as (ka & -> & _). unfold enumerates. done.
Qed.

Lemma findFarthestNodes_length_error_witness :
  findFarthestNodes mixedNested = Err errAddressLength.
Proof.
  apply (proj2 (findFarthestNodes_length_error mixedOverlays mixedNested
                  mixedNested_enumerates)).
  exists "bee-0", "bee-1", [x00], [x80; x00].
  split; [reflexivity|]. split; [reflexivity|]. cbn. lia.
Defined.

End FarthestFacts.

(** ** Counting events *)

Module TallyFacts.
Import AddressSpace Topology Effects Bee EffectsFacts.

Lemma countEvents_app p t1 t2 :
  countEvents p (t1 ++ t2) = (countEvents p t1 + countEvents p t2)%nat.
Proof.
  induction t1 as [|e t1 IH]; cbn; [done|]. destruct (p e); cbn; by rewrite IH.
Qed.

Lemma countEvents_none p t :
  Forall (fun e => p e = false) t -> countEvents p t = 0%nat.
Proof. induction 1 as [|e t He _ IH]; cbn; [done|]. by rewrite He. Qed.

Section Tally.
Context {W R : Type}.
Variable p : Event -> bool.

Lemma tally_bind {A B} (m : M W Event R A) (f : A -> M W Event R B) (a b : nat) :
  meets m (fun _ t => (countEvents p t <= a)%nat) ->
  (forall x, meets (f x) (fun _ t => (countEvents p t <= b)%nat)) ->
  meets (bind m f) (fun _ t => (countEvents p t <= a + b)%nat).
Proof.
  intros Hm Hf w. specialize (Hm w). unfold bind.
  destruct (m w) as [[[x|r|msg|] w1] t1]; cbn in *; try lia.
  specialize (Hf x w1). destruct (f x w1) as [[o w2] t2]. cbn in *.
  rewrite countEvents_app. lia.
Qed.

Lemma tally_quiet {A} (m : M W Event R A) (n : nat) :
  quiet (fun e => p e = false) m ->
  meets m (fun _ t => (countEvents p t <= n)%nat).
Proof. intros Hq w. rewrite (countEvents_none _ _ (Hq w)). lia. Qed.

Lemma tally_call {A} (oracle : W -> A * W) (ev : A -> Event) :
  meets (call oracle ev : M W Event R A) (fun _ t => (countEvents p t <= 1)%nat).
Proof. intros w. unfold call. destruct (oracle w). cbn. destruct (p _); lia. Qed.

Lemma tally_le {A} (m : M W Event R A) (a b : nat) :
  (a <= b)%nat ->
  meets m (fun _ t => (countEvents p t <= a)%nat) ->
  meets m (fun _ t => (countEvents p t <= b)%nat).
Proof. intros Hab Hm w. specialize (Hm w). cbn in *. lia. Qed.

End Tally.

Lemma tally_invoke {W R R'} (p : Event -> bool) (body : M W Event R' R') (n : nat) :
  meets body (fun _ t => (countEvents p t <= n)%nat) ->
  meets (invoke body : M W Event R R') (fun _ t => (countEvents p t <= n)%nat).
Proof.
  intros Hb w. specialize (Hb w). unfold invoke.
  by destruct (body w) as [[[x|r|msg|] w1] t1].
Qed.

End TallyFacts.

(** ** More facts about the chunk-repair check *)

Module RepairRoundsFacts.
Import AddressSpace Topology Effects Bee ChunkRepair Observations RepairRounds.
Import EffectsFacts ChunkRepairFacts Lab.

Section Loops.
Context {W : Type}.
Variable env : Env W.

Lemma pollRepaired_run (c : Client) (chunk : Chunk) fuel count w :
  (count <= S maxIterations)%nat ->
  (S maxIterations - count < fuel)%nat ->
  exists errs tail,
    trace (pollRepaired env fuel (Some c) chunk count w)
      = failedDownloads c (ChunkAddress chunk) errs ++ tail /\
    ((length errs = (S maxIterations - count)%nat /\ tail = [] /\
      outcome (pollRepaired env fuel (Some c) chunk count w)
        = Return (Some "could not download even after several attempts")) \/
     ((count + length errs <= maxIterations)%nat /\
      exists data,
        tail = [EDownloadChunk c (ChunkAddress chunk) "" (Ok data)] /\
        outcome (pollRepaired env fuel (Some c) chunk count w)
          = if bool_decide (data = Data chunk) then Next tt
            else Return (Some errProperData))).
Proof.
  revert count w. induction fuel as [|fuel IH]; intros count w Hc Hf; [lia|].
  cbn [pollRepaired]. destruct (Nat.ltb_spec maxIterations count) as [Hgt|Hle].
  - exists [], []. unfold trace, outcome. cbn. split; [done|]. left.
    split; [unfold maxIterations in *; lia|done].
  - cbn [deref]. rewrite bind_ret_l, bind_call.
    destruct (downloadChunk env c (ChunkAddress chunk) "" w) as [[data|e] w1];
      cbn [fst snd].
    + exists [], [EDownloadChunk c (ChunkAddress chunk) "" (Ok data)].
      unfold trace, outcome. cbn [fst snd].
      destruct (bool_decide (data = Data chunk)) eqn:E; cbn.
      all: split; [done|]; right; split; [unfold maxIterations in *; lia|];
        exists data; by rewrite E.
    + unfold pause. rewrite bind_call. cbn [fst snd].
      destruct (IH (S count) (sleep env (1 * Second) w1).2) as (errs & tail & Ht & Ho);
        [unfold maxIterations in *; lia|unfold maxIterations in *; lia|].
      exists (e :: errs), tail. unfold trace, outcome in *. cbn [fst snd].
      split; [cbn; by rewrite Ht|].
      destruct Ho as [(Hl & -> & Ho)|(Hl & data & -> & Ho)].
      * left. split; [cbn [length]; unfold maxIterations in *; lia|done].
      * right. split; [cbn [length]; unfold maxIterations in *; lia|]. by exists data.
Qed.

Lemma findClients_run (nodes : Range Client) (oA oB oC : Address)
    (done : Range Client) (given : list (result Address)) w :
  length done = length given ->
  Forall (fun r => isOk r = true) given ->
  let run := findClients env nodes oA oB oC (reporting oA done given)
               (reporting oB done given) (reporting oC done given) w in
  exists answers : list (result Address),
    trace run = zip_with (fun kn r => EAddresses kn.2 r) nodes answers /\
    ((length answers = length nodes /\
      Forall (fun r => isOk r = true) answers /\
      outcome run = Next (reporting oA (done ++ nodes) (given ++ answers),
                          reporting oB (done ++ nodes) (given ++ answers),
                          reporting oC (done ++ nodes) (given ++ answers))) \/
     (exists pre e,
        answers = pre ++ [Err e] /\ (length pre < length nodes)%nat /\
        Forall (fun r => isOk r = true) pre /\
        outcome run = Return (Err e))).
Proof.
  revert done given w. induction nodes as [|[k node] nodes IH];
    intros done given w Hlen Hok run.
  - exists []. subst run. unfold trace, outcome. cbn. split; [done|]. left.
    by rewrite !app_nil_r.
  - subst run. cbn [findClients]. rewrite bind_call.
    destruct (nodeAddresses env node w) as [[overlay|e] w1]; cbn [fst snd].
    + assert (Hstep : forall o,
                (if bool_decide (overlay = o) then Some node
                 else reporting o done given)
                = reporting o (done ++ [(k, node)]) (given ++ [Ok overlay])).
      { intros o. unfold reporting.
        rewrite zip_with_app by done. cbn [zip_with]. rewrite omap_app. cbn.
        destruct (bool_decide (overlay = o)); cbn.
        - by rewrite last_snoc.
        - by rewrite app_nil_r. }
      rewrite !Hstep.
      destruct (IH (done ++ [(k, node)]) (given ++ [Ok overlay]) w1)
        as (answers & Ht & Ho).
      { rewrite !length_app. cbn. lia. }
      { apply Forall_app. split; [done|]. by constructor. }
      exists (Ok overlay :: answers). unfold trace, outcome in *. cbn [fst snd].
      split; [cbn; by rewrite Ht|].
      rewrite <- !(assoc_L (++)) in Ho. cbn in Ho.
      destruct Ho as [(Hl & Hall & Ho)|(pre & e & -> & Hl & Hall & Ho)].
      * left. split; [cbn; lia|]. split; [by constructor|done].
      * right. exists (Ok overlay :: pre), e.
        split; [done|]. split; [cbn; lia|]. split; [by constructor|done].
    + exists [Err e]. unfold trace, outcome. cbn. split; [by destruct nodes|]. right.
      exists [], e. split; [done|]. split; [cbn [length]; lia|]. by split.
Qed.

Lemma repairedPolicy_sequential : sequential repairedPolicy.
Proof.
  split.
  - intros _ pre post Heq. by destruct pre.
  - intros t1 s t2 H1 H2 Hs pre post Heq.
    apply app_split in Heq as [(post1 & -> & ->)|(pre2 & -> & ->)].
    + destruct (H1 (or_introl eq_refl) _ _ eq_refl)
        as (a & data & up & ref & c & addr & errs & post' & Hl & ->).
      exists a, data, up, ref, c, addr, errs, (post' ++ t2).
      split; [done|]. cbn. by rewrite <- app_assoc.
    + exact (H2 Hs _ _ eq_refl).
Qed.

Lemma quiet_repairedPolicy {A} (m : M W Event (option string) A) :
  quiet (fun e => e <> enterReupload) m -> keeps repairedPolicy m.
Proof.
  intros Hq w _ pre post Heq. exfalso. specialize (Hq w). rewrite Heq in Hq.
  apply Forall_app in Hq as [_ Hq]. by apply Forall_cons in Hq as [? _].
Qed.

Lemma pollRepaired_success (nodeC : option Client) (chunk : Chunk) fuel count w :
  (pollRepaired env fuel nodeC chunk count w).1.1 = Next tt ->
  exists c errs,
    nodeC = Some c /\ (count + length errs <= maxIterations)%nat /\
    (pollRepaired env fuel nodeC chunk count w).2
      = failedDownloads c (ChunkAddress chunk) errs
        ++ [EDownloadChunk c (ChunkAddress chunk) "" (Ok (Data chunk))].
Proof.
  revert count w. induction fuel as [|fuel IH]; intros count w; [done|].
  cbn [pollRepaired]. destruct (Nat.ltb_spec maxIterations count) as [Hgt|Hle];
    [done|].
  destruct nodeC as [c|]; [|done].
  cbn [deref]. rewrite bind_ret_l, bind_call.
  destruct (downloadChunk env c (ChunkAddress chunk) "" w) as [[data|e] w1];
    cbn [fst snd].
  - case_bool_decide as Hd; [|done]. intros _. subst data.
    exists c, []. split; [done|]. split; [cbn; lia|done].
  - unfold pause. rewrite bind_call. cbn [fst snd]. intros Ho.
    destruct (IH _ _ Ho) as (c' & errs & [= <-] & Hl & Ht).
    exists c, (e :: errs). split; [done|]. split; [cbn [length]; lia|].
    cbn. by rewrite Ht.
Qed.

Lemma pollRepaired_Return (nodeC : option Client) (chunk : Chunk) fuel count w r :
  (pollRepaired env fuel nodeC chunk count w).1.1 = Return r -> r <> None.
Proof.
  revert count w. induction fuel as [|fuel IH]; intros count w; [done|].
  cbn [pollRepaired]. destruct (maxIterations <? count)%nat; [by intros [= <-]|].
  destruct nodeC as [c|]; [|done].
  cbn [deref]. rewrite bind_ret_l, bind_call.
  destruct (downloadChunk env c (ChunkAddress chunk) "" w) as [[data|e] w1];
    cbn [fst snd].
  - case_bool_decide; [done|]. by intros [= <-].
  - unfold pause. rewrite bind_call. cbn [fst snd]. apply IH.
Qed.

Lemma head_split (e : Event) (rest pre post : list Event) :
  Forall (fun x => x <> e) rest ->
  e :: rest = pre ++ e :: post -> pre = [] /\ post = rest.
Proof.
  intros Hrest Heq. destruct pre as [|x pre]; cbn in Heq.
  - by injection Heq as <-.
  - injection Heq as <- Heq. rewrite Heq in Hrest.
    apply Forall_app in Hrest as [_ Hrest]. by apply Forall_cons in Hrest as [? _].
Qed.

Lemma failedDownloads_calm c a errs :
  Forall (fun x => x <> enterReupload) (failedDownloads c a errs).
Proof. induction errs as [|e errs IH]; cbn; by repeat constructor. Qed.

Lemma reupload_repairedPolicy fuel nodeA nodeC chunk :
  keeps repairedPolicy
    (let* _ := reupload env nodeA chunk in pollRepaired env fuel nodeC chunk 0).
Proof.
  intros w. unfold reupload, uploadAndPinChunkToNode.
  unfold bind, invoke, emit, call, deref, ret, returns, panic.
  destruct nodeA as [a|]; [|by intros [|]].
  destruct (uploadChunk env a (Data chunk) _ w) as [[ref|e] w1];
    [|by intros [|]].
  destruct (pinRootHash env a ref w1) as [[e|] w2]; [by intros [|]|].
  pose proof (pollRepaired_success nodeC chunk fuel 0 w2) as Hpoll.
  pose proof (pollRepaired_Return nodeC chunk fuel 0 w2) as Hret.
  destruct (pollRepaired env fuel nodeC chunk 0 w2) as [[[[]|[e|]|msg|] w3] t3];
    cbn [fst snd] in *; try by intros [|].
  - destruct (Hpoll eq_refl) as (c & errs & -> & Hl & ->).
    intros _ pre post Heq. cbn in Heq.
    apply head_split in Heq as [-> ->].
    2:{ repeat (constructor; [done|]). apply Forall_app.
        split; [apply failedDownloads_calm|by repeat constructor]. }
    exists a, (Data chunk), {| Pin := false; BatchID := ""; Direct := false |}, ref,
      c, (ChunkAddress chunk), errs, [].
    split; [cbn in Hl; lia|done].
  - by destruct (Hret None eq_refl).
Qed.

Lemma triggerRecovery_calm nodeC chunk addressA :
  quiet (fun e => e <> enterReupload) (triggerRecovery env nodeC chunk addressA).
Proof.
  unfold triggerRecovery, targetsPrefix. quiet_auto; apply deref_quiet.
Qed.

Lemma repair_repairedPolicy MinimumBatchDepth fuel o roles :
  keeps repairedPolicy (repair env MinimumBatchDepth fuel o roles).
Proof.
  unfold repair.
  apply keeps_bind; [apply repairedPolicy_sequential| |intros addressA].
  { apply quiet_repairedPolicy.
    eapply quiet_impl; [|apply uploadAndVerify_quiet]. by intros []. }
  apply keeps_bind; [apply repairedPolicy_sequential| |intros _].
  { apply quiet_repairedPolicy.
    eapply quiet_impl; [|apply deleteEverywhere_quiet].
    intros [] H; cbn in H; try done. apply bool_decide_eq_true in H. by subst. }
  apply keeps_bind; [apply repairedPolicy_sequential| |intros _].
  { apply quiet_repairedPolicy, triggerRecovery_calm. }
  apply reupload_repairedPolicy.
Qed.

Lemma verifiedPolicy_sequential : sequential verifiedPolicy.
Proof.
  split.
  - intros pre post Heq. by destruct pre.
  - intros t1 s t2 H1 H2 pre post Heq.
    apply app_split in Heq as [(post1 & -> & ->)|(pre2 & -> & ->)].
    + exact (H1 _ _ eq_refl).
    + destruct (H2 _ _ eq_refl)
        as (before & a & data & up & ref & b & waits & c & Hw & ->).
      exists (t1 ++ before), a, data, up, ref, b, waits, c.
      split; [done|]. by rewrite <- app_assoc.
Qed.

Lemma quiet_verifiedPolicy {A} (m : M W Event (option string) A) :
  quiet (fun e => e <> enterDelete) m -> keeps verifiedPolicy m.
Proof.
  intros Hq w pre post Heq. exfalso. specialize (Hq w). rewrite Heq in Hq.
  apply Forall_app in Hq as [_ Hq]. by apply Forall_cons in Hq as [? _].
Qed.

Lemma pollPresentOnB_run (nodeB : option Client) (ref : Address) fuel count w :
  (pollPresentOnB env fuel nodeB ref count w).1.1 = Next tt ->
  exists b waits,
    nodeB = Some b /\ Forall (fun r => r <> Ok true) waits /\
    (pollPresentOnB env fuel nodeB ref count w).2
      = waitingPolls b ref waits ++ [EHasChunk b ref (Ok true)].
Proof.
  revert count w. induction fuel as [|fuel IH]; intros count w; [done|].
  cbn [pollPresentOnB]. destruct (maxIterations <? count)%nat; [done|].
  destruct nodeB as [b|]; [|done]. cbn [deref]. rewrite bind_ret_l, bind_call.
  destruct (hasChunk env b ref w) as [[[|]|e] w1]; cbn [fst snd].
  - intros _. exists b, []. by repeat split.
  - intros Ho. destruct (IH _ _ Ho) as (b' & waits & [= <-] & Hw & Ht).
    exists b, (Ok false :: waits). split; [done|]. split; [by constructor|].
    cbn. by rewrite Ht.
  - unfold pause. rewrite bind_call. cbn [fst snd]. intros Ho.
    destruct (IH _ _ Ho) as (b' & waits & [= <-] & Hw & Ht).
    exists b, (Err e :: waits). split; [done|]. split; [by constructor|].
    cbn. by rewrite Ht.
Qed.

Lemma uploadAndVerify_run MinimumBatchDepth fuel o roles w addressA :
  (uploadAndVerify env MinimumBatchDepth fuel o roles w).1.1 = Next addressA ->
  exists before a up ref b waits c,
    Forall (fun r => r <> Ok true) waits /\
    (uploadAndVerify env MinimumBatchDepth fuel o roles w).2
      = before ++ EUploadChunk a (Data roles.2) up (Ok ref)
          :: waitingPolls b ref waits
          ++ [EHasChunk b ref (Ok true);
              EDownloadChunk c ref "" (Ok (Data roles.2))].
Proof.
  destruct roles as [[[nodeA nodeB] nodeC] chunk]. unfold uploadAndVerify.
  destruct nodeA as [a|]; [|done]. cbn [deref snd]. rewrite bind_ret_l, bind_call.
  destruct (nodeOverlay env a w) as [[addrA|e] w1]; cbn [fst snd]; [|done].
  rewrite bind_call.
  destruct (createPostageBatch env a _ _ _ _ _ w1) as [[batchID|e] w2];
    cbn [fst snd]; [|done].
  rewrite bind_call.
  destruct (uploadChunk env a (Data chunk) _ w2) as [[ref|e] w3];
    cbn [fst snd]; [|done].
  pose proof (pollPresentOnB_run nodeB ref fuel 0 w3) as Hpoll.
  destruct (pollPresentOnB env fuel nodeB ref 0 w3) as [[[[]|r|msg|] w4] t4] eqn:EP;
    cbn [fst snd] in Hpoll.
  2:{ by rewrite (bind_Return _ _ _ _ _ _ EP). }
  2:{ by rewrite (bind_Panic _ _ _ _ _ _ EP). }
  2:{ by rewrite (bind_Running _ _ _ _ _ EP). }
  destruct (Hpoll eq_refl) as (b & waits & -> & Hw & ->).
  rewrite (bind_Next _ _ _ _ _ _ EP). cbn [fst snd].
  destruct nodeC as [c|]; [|done]. cbn [deref]. rewrite bind_ret_l, bind_call.
  destruct (downloadChunk env c ref "" w4) as [[data1|e] w5]; cbn [fst snd];
    [|done].
  case_bool_decide as Hd; [done|]. subst data1.
  intros _.
  exists [EOverlay a (Ok addrA); ECreatePostageBatch a (Ok batchID)], a,
    {| Pin := false; BatchID := batchID; Direct := false |}, ref, b, waits, c.
  split; [done|]. cbn. by rewrite <- app_assoc.
Qed.

Lemma deleteEverywhere_starts chunk (rest : M W Event (option string) unit) :
  quiet (fun e => e <> enterDelete) rest ->
  meets (let* _ := deleteEverywhere env chunk in rest)
    (fun _ t => starts enterDelete (fun e => e <> enterDelete) t).
Proof.
  intros Hrest. apply starts_bind; [|intros _; exact Hrest].
  unfold deleteEverywhere. apply starts_bind.
  - apply starts_invoke. unfold deleteChunkFromAllNodes.
    apply starts_emit_bind. intros _. unfold range. quiet_auto.
    apply quiet_forEach. intros kn. quiet_auto.
  - intros [e|]; [apply quiet_returns|apply quiet_ret].
Qed.

Lemma repair_verifiedPolicy MinimumBatchDepth fuel o roles :
  keeps verifiedPolicy (repair env MinimumBatchDepth fuel o roles).
Proof.
  intros w. unfold repair.
  pose proof (uploadAndVerify_run MinimumBatchDepth fuel o roles w) as Hrun.
  pose proof (uploadAndVerify_quiet env MinimumBatchDepth fuel o roles w) as Hq.
  destruct (uploadAndVerify env MinimumBatchDepth fuel o roles w)
    as [[[addressA|r|msg|] w1] t1] eqn:EU; cbn [fst snd] in Hrun, Hq.
  2:{ rewrite (bind_Return _ _ _ _ _ _ EU). cbn. intros pre post Heq. exfalso.
      rewrite Heq in Hq. apply Forall_app in Hq as [_ Hq].
      by apply Forall_cons in Hq as [? _]. }
  2:{ rewrite (bind_Panic _ _ _ _ _ _ EU). cbn. intros pre post Heq. exfalso.
      rewrite Heq in Hq. apply Forall_app in Hq as [_ Hq].
      by apply Forall_cons in Hq as [? _]. }
  2:{ rewrite (bind_Running _ _ _ _ _ EU). cbn. intros pre post Heq. exfalso.
      rewrite Heq in Hq. apply Forall_app in Hq as [_ Hq].
      by apply Forall_cons in Hq as [? _]. }
  rewrite (bind_Next _ _ _ _ _ _ EU). cbn [fst snd].
  destruct (Hrun _ eq_refl) as (before & a & up & ref & b & waits & c & Hw & Ht).
  pose proof (deleteEverywhere_starts roles.2
                (let* _ := triggerRecovery env roles.1.2 roles.2 addressA in
                 let* _ := reupload env roles.1.1.1 roles.2 in
                 pollRepaired env fuel roles.1.2 roles.2 0)) as Hstart.
  assert (Htail : quiet (fun e => e <> enterDelete)
                    (let* _ := triggerRecovery env roles.1.2 roles.2 addressA in
                     let* _ := reupload env roles.1.1.1 roles.2 in
                     pollRepaired env fuel roles.1.2 roles.2 0)).
  { eapply quiet_impl; [|apply tail_quiet].
    intros [] H; cbn in H; try done. apply bool_decide_eq_true in H. by subst. }
  destruct (Hstart Htail w1) as (t' & Ht2 & Hcalm).
  rewrite Ht2. intros pre post Heq.
  apply (split_after (fun e => e <> enterDelete)) in Heq as (pre' & -> & Heq).
  2:{ eapply Forall_impl; [exact Hq|]. by intros []. }
  2:{ by intros ?. }
  apply head_split in Heq as [-> _]; [|done].
  rewrite app_nil_r.
  exists before, a, (Data roles.2), up, ref, b, waits, c. by split.
Qed.

End Loops.

(** X5.  The second polling loop of [Run], the one that downloads from
    node C until the chunk is repaired, always ends: it makes at most
    eleven downloads, sleeping one second after each failed one.  Either
    eleven downloads failed and [Run] returns "could not download even
    after several attempts", or after at most ten failures a download
    succeeded, and then the loop is left when the data is the data of
    the chunk and [Run] returns the "proper data" error when it is
    not. *)
Theorem pollRepaired_bounded {W : Type} (env : Env W) (c : Client)
    (chunk : Chunk) (fuel : nat) (w : W) :
  (11 < fuel)%nat ->
  let run := pollRepaired env fuel (Some c) chunk 0 w in
  exists errs tail,
    trace run = failedDownloads c (ChunkAddress chunk) errs ++ tail /\
    ((length errs = 11%nat /\ tail = [] /\
      outcome run = Return (Some "could not download even after several attempts")) \/
     ((length errs <= 10)%nat /\
      exists data,
        tail = [EDownloadChunk c (ChunkAddress chunk) "" (Ok data)] /\
        outcome run = if bool_decide (data = Data chunk) then Next tt
                      else Return (Some errProperData))).
Proof.
  intros Hf run.
  apply (pollRepaired_run env c chunk fuel 0 w); unfold maxIterations in *; lia.
Qed.


Lemma pollRepaired_bounded_witness :
  let run := pollRepaired downloadsFail 12 (Some "bee-0") labChunk 0 0%nat in
  exists errs tail,
    trace run = failedDownloads "bee-0" (ChunkAddress labChunk) errs ++ tail /\
    ((length errs = 11%nat /\ tail = [] /\
      outcome run = Return (Some "could not download even after several attempts")) \/
     ((length errs <= 10)%nat /\
      exists data,
        tail = [EDownloadChunk "bee-0" (ChunkAddress labChunk) "" (Ok data)] /\
        outcome run = if bool_decide (data = Data labChunk) then Next tt
                      else Return (Some errProperData))).
Proof.
  apply (pollRepaired_bounded downloadsFail "bee-0" labChunk 12 0%nat).
  unfold maxIterations. lia.
Defined.

(** X6.  When [Run] of the chunk-repair check returns nil, every call of
    [uploadAndPinChunkToNode] it made was followed by a successful
    upload, a successful pin of the reference that upload returned, at
    most ten failed downloads without targets, and then a download that
    returned exactly the data that had been uploaded. *)
Theorem repaired_data_matches {W : Type} (env : Env W) (Rand : Type)
    (PseudoGenerators : Z -> Z -> list Rand)
    (NewRandomChunk : Rand -> result Chunk * Rand)
    (SetAddress : Chunk -> result Chunk) (MinimumBatchDepth : Z)
    (fuel : nat) (o : Options) (w : W) (pre post : list Event) :
  let run := Run env Rand PseudoGenerators NewRandomChunk SetAddress
               MinimumBatchDepth fuel o w in
  outcome run = Return None ->
  trace run = pre ++ enterReupload :: post ->
  exists a data up ref c addr errs post',
    (length errs <= 10)%nat /\
    post = EUploadChunk a data up (Ok ref) :: EPinRootHash a ref None
             :: failedDownloads c addr errs
             ++ EDownloadChunk c addr "" (Ok data) :: post'.
Proof.
  intros run Hout Hsplit.
  assert (Hpol : repairedPolicy (status_of (outcome run)) (trace run)).
  { apply (Run_keeps env Rand PseudoGenerators NewRandomChunk SetAddress
             MinimumBatchDepth repairedPolicy (fun e => e <> enterReupload)).
    - apply repairedPolicy_sequential.
    - intros A m. apply quiet_repairedPolicy.
    - intros [] H; cbn in H; try done. apply bool_decide_eq_true in H. by subst.
    - done.
    - intros roles. apply repair_repairedPolicy. }
  rewrite Hout in Hpol. exact (Hpol (or_intror eq_refl) _ _ Hsplit).
Qed.

Lemma repaired_data_matches_witness :
  let run := labRepair (healthy 0) 30 in
  outcome run = Return None /\
  trace run = take 21 (trace run) ++ enterReupload :: drop 22 (trace run) /\
  exists a data up ref c addr errs post',
    (length errs <= 10)%nat /\
    drop 22 (trace run)
      = EUploadChunk a data up (Ok ref) :: EPinRootHash a ref None
          :: failedDownloads c addr errs
          ++ EDownloadChunk c addr "" (Ok data) :: post'.
Proof.
  cbn zeta. split; [by vm_compute|]. split; [by vm_compute|].
  apply (repaired_data_matches (healthy 0) labRand labPseudoGenerators
           labNewRandomChunk labSetAddress 17 30 labOptions 0%nat
           (take 21 (trace (labRepair (healthy 0) 30)))
           (drop 22 (trace (labRepair (healthy 0) 30)))).
  - by vm_compute.
  - by vm_compute.
Defined.

(** X7.  The loop of [getNodes] over the clients of the node group asks
    the nodes for their addresses in the order of the enumeration and
    stops at the first error, which [getNodes] returns.  When all
    answer, each of the three roles goes to the last enumerated node
    that reported the overlay of the role, and stays nil when no node
    reported it. *)
Theorem findClients_last_report {W : Type} (env : Env W) (nodes : Range Client)
    (oA oB oC : Address) (w : W) :
  let run := findClients env nodes oA oB oC None None None w in
  exists answers : list (result Address),
    trace run = zip_with (fun kn r => EAddresses kn.2 r) nodes answers /\
    ((length answers = length nodes /\
      Forall (fun r => isOk r = true) answers /\
      outcome run = Next (reporting oA nodes answers,
                          reporting oB nodes answers,
                          reporting oC nodes answers)) \/
     (exists pre e,
        answers = pre ++ [Err e] /\ (length pre < length nodes)%nat /\
        Forall (fun r => isOk r = true) pre /\
        outcome run = Return (Err e))).
Proof.
  intros run. by apply (findClients_run env nodes oA oB oC [] [] w).
Qed.

(** X8.  In a run of the chunk-repair check, whatever its outcome,
    [deleteChunkFromAllNodes] is only called on a chunk that was
    verified first: right before the call come the upload of the chunk,
    the polls of node B that did not find it (a failed one followed by
    the sleep of 100 ms), the poll in which B reported it present, and a
    download from node C, without targets, of the reference the upload
    returned, which gave back exactly the uploaded data. *)
Theorem removal_after_verification {W : Type} (env : Env W) (Rand : Type)
    (PseudoGenerators : Z -> Z -> list Rand)
    (NewRandomChunk : Rand -> result Chunk * Rand)
    (SetAddress : Chunk -> result Chunk) (MinimumBatchDepth : Z)
    (fuel : nat) (o : Options) (w : W) (pre post : list Event) :
  let run := Run env Rand PseudoGenerators NewRandomChunk SetAddress
               MinimumBatchDepth fuel o w in
  trace run = pre ++ enterDelete :: post ->
  exists before a data up ref b waits c,
    Forall (fun r => r <> Ok true) waits /\
    pre = before ++ EUploadChunk a data up (Ok ref)
            :: waitingPolls b ref waits
            ++ [EHasChunk b ref (Ok true); EDownloadChunk c ref "" (Ok data)].
Proof.
  intros run Hsplit.
  assert (Hpol : verifiedPolicy (status_of (outcome run)) (trace run)).
  { apply (Run_keeps env Rand PseudoGenerators NewRandomChunk SetAddress
             MinimumBatchDepth verifiedPolicy (fun e => e <> enterDelete)).
    - apply verifiedPolicy_sequential.
    - intros A m. apply quiet_verifiedPolicy.
    - intros [] H; cbn in H; try done. apply bool_decide_eq_true in H. by subst.
    - done.
    - intros roles. apply repair_verifiedPolicy. }
  exact (Hpol _ _ Hsplit).
Qed.

Lemma removal_after_verification_witness :
  let run := labRepair (healthy 0) 30 in
  trace run = take 15 (trace run) ++ enterDelete :: drop 16 (trace run) /\
  exists before a data up ref b waits c,
    Forall (fun r => r <> Ok true) waits /\
    take 15 (trace run)
      = before ++ EUploadChunk a data up (Ok ref)
          :: waitingPolls b ref waits
          ++ [EHasChunk b ref (Ok true); EDownloadChunk c ref "" (Ok data)].
Proof.
  cbn zeta. split; [by vm_compute|].
  apply (removal_after_verification (healthy 0) labRand labPseudoGenerators
           labNewRandomChunk labSetAddress 17 30 labOptions 0%nat
           (take 15 (trace (labRepair (healthy 0) 30)))
           (drop 16 (trace (labRepair (healthy 0) 30)))).
  by vm_compute.
Defined.

End RepairRoundsFacts.

(** ** Removal and re-upload in the chunk-repair check *)

Module RemovalFacts.
Import AddressSpace Topology Effects Bee ChunkRepair Observations RepairRounds.
Import EffectsFacts ChunkRepairFacts TallyFacts RepairRoundsFacts Lab.

Section Rounds.
Context {W : Type}.
Variable env : Env W.
Variable Rand : Type.
Variable PseudoGenerators : Z -> Z -> list Rand.
Variable NewRandomChunk : Rand -> result Chunk * Rand.
Variable SetAddress : Chunk -> result Chunk.
Variable MinimumBatchDepth : Z.

Lemma reuploadPolicy_sequential : sequential (reuploadPolicy SetAddress).
Proof.
  split.
  - intros pre post Heq. by destruct pre.
  - intros t1 s t2 H1 H2 pre post Heq.
    apply app_split in Heq as [(post1 & -> & ->)|(pre2 & -> & ->)].
    + destruct (H1 _ _ eq_refl)
        as (before & chunk0 & chunk & picked & a & b & c & addressA & batchID & ref
            & waits & clients & nodes & r & pin & post' & H).
      destruct H as (Hs & Hp & Hw & He & Hpre & ->).
      exists before, chunk0, chunk, picked, a, b, c, addressA, batchID, ref, waits,
        clients, nodes, r, pin, (post' ++ t2). done.
    + destruct (H2 _ _ eq_refl)
        as (before & chunk0 & chunk & picked & a & b & c & addressA & batchID & ref
            & waits & clients & nodes & r & pin & post' & H).
      destruct H as (Hs & Hp & Hw & He & -> & ->).
      exists (t1 ++ before), chunk0, chunk, picked, a, b, c, addressA, batchID, ref,
        waits, clients, nodes, r, pin, post'.
      by rewrite <- app_assoc.
Qed.

Lemma quiet_reuploadPolicy {A} (m : M W Event (option string) A) :
  quiet (fun e => e <> enterReupload) m -> keeps (reuploadPolicy SetAddress) m.
Proof.
  intros Hq w pre post Heq. exfalso. specialize (Hq w). rewrite Heq in Hq.
  apply Forall_app in Hq as [_ Hq]. by apply Forall_cons in Hq as [? _].
Qed.

Lemma draw_run overlays rnd w :
  exists r w1,
    (invoke (getRandomChunkAndClosestNode env Rand NewRandomChunk SetAddress
               overlays rnd)
       : M W Event (result Roles) (result (Address * Chunk) * Rand)) w
      = (Next (r, (NewRandomChunk rnd).2), w1,
         [ENewRandomChunk (NewRandomChunk rnd).1]) /\
    forall closestOverlay c,
      r = Ok (closestOverlay, c) ->
      exists chunk0, (NewRandomChunk rnd).1 = Ok chunk0 /\ SetAddress chunk0 = Ok c.
Proof.
  unfold invoke, getRandomChunkAndClosestNode. cbn zeta. rewrite bind_emit.
  destruct (NewRandomChunk rnd) as [[chunk0|e] rnd1]; cbn [fst snd].
  2:{ by eexists _, _. }
  destruct (SetAddress chunk0) as [chunk1|e] eqn:Es.
  2:{ by eexists _, _. }
  unfold range. rewrite bind_ask.
  destruct (rangeMap env overlays w) as [r w1]. cbn [fst snd].
  destruct (closest r (ChunkAddress chunk1) []) as [[name closestOverlay]|e]; cbn.
  - eexists _, _. split; [done|]. intros ? ? [= <- <-]. by exists chunk0.
  - by eexists _, _.
Qed.

(** The chunk [pickB] hands back is the last one drawn, with its address
    set. *)
Lemma pickB_chunk fuel overlays overlayA overlayC rnd w overlayB chunk :
  (pickB env Rand NewRandomChunk SetAddress fuel overlays overlayA overlayC rnd w).1.1
    = Next (overlayB, chunk) ->
  exists before chunk0,
    (pickB env Rand NewRandomChunk SetAddress fuel overlays overlayA overlayC rnd w).2
      = before ++ [ENewRandomChunk (Ok chunk0)] /\
    SetAddress chunk0 = Ok chunk.
Proof.
  revert rnd w. induction fuel as [|fuel IH]; intros rnd w; cbn [pickB]; [done|].
  destruct (draw_run overlays rnd w) as (r & w1 & E & Hr).
  rewrite (bind_Next _ _ _ _ _ _ E). cbn [fst snd].
  destruct r as [[closestOverlay c]|e]; [|done].
  destruct (Hr _ _ eq_refl) as (chunk0 & -> & Hs).
  assert (Hrec :
    (pickB env Rand NewRandomChunk SetAddress fuel overlays overlayA overlayC
       (NewRandomChunk rnd).2 w1).1.1 = Next (overlayB, chunk) ->
    exists before chunk0',
      [ENewRandomChunk (Ok chunk0)]
        ++ (pickB env Rand NewRandomChunk SetAddress fuel overlays overlayA
              overlayC (NewRandomChunk rnd).2 w1).2
      = before ++ [ENewRandomChunk (Ok chunk0')] /\
      SetAddress chunk0' = Ok chunk).
  { intros Ho. destruct (IH _ _ Ho) as (before & chunk0' & -> & Hs').
    by exists (ENewRandomChunk (Ok chunk0) :: before), chunk0'. }
  repeat case_bool_decide; try exact Hrec.
  cbn. intros [= <- <-]. by exists [], chunk0.
Qed.

Lemma pickB_Return fuel overlays overlayA overlayC rnd w r :
  (pickB env Rand NewRandomChunk SetAddress fuel overlays overlayA overlayC rnd w).1.1
    = Return r ->
  exists e, r = Err e.
Proof.
  revert rnd w. induction fuel as [|fuel IH]; intros rnd w; cbn [pickB]; [done|].
  destruct (draw_run overlays rnd w) as (x & w1 & E & _).
  rewrite (bind_Next _ _ _ _ _ _ E). cbn [fst snd].
  destruct x as [[closestOverlay c]|e]; [|intros [= <-]; by exists e].
  repeat case_bool_decide; try apply IH. done.
Qed.

Lemma rounds_run {R V} (m : gmap string V) outer w :
  exists nr w',
    (rounds env m outer : M W Event R (NestedRange V)) w = (Next nr, w', []).
Proof.
  revert w. induction outer as [|ka outer IH]; intros w; cbn [rounds].
  - by exists [], w.
  - unfold range. rewrite bind_ask.
    destruct (rangeMap env m w) as [inner w1]. cbn [fst snd].
    destruct (IH w1) as (nr & w' & Hrun).
    rewrite (bind_Next _ _ _ _ _ _ Hrun). cbn. by eexists _, _.
Qed.

Lemma getNodes_chunk fuel rnd w roles :
  (getNodes env Rand NewRandomChunk SetAddress fuel rnd w).1.1 = Return (Ok roles) ->
  exists before chunk0 picked,
    (getNodes env Rand NewRandomChunk SetAddress fuel rnd w).2
      = before ++ ENewRandomChunk (Ok chunk0) :: picked /\
    SetAddress chunk0 = Ok roles.2 /\
    Forall (fun e => isNewRandomChunk e = false) picked.
Proof.
  unfold getNodes. rewrite bind_emit, bind_call.
  destruct (ngOverlays env w) as [[overlays|e] w1]; cbn [fst snd]; [|done].
  rewrite bind_call. destruct (ngSize env w1) as [size w2]; cbn [fst snd].
  destruct (size <? minNodesRequired)%Z; [done|].
  unfold nestedRange, range. rewrite bind_assoc, bind_ask.
  match goal with
  | |- context [bind (rounds env overlays ?outer) _ ?w0] =>
      destruct (rounds_run (R:=result Roles) overlays outer w0) as (nr & w3 & ER)
  end.
  rewrite (bind_Next _ _ _ _ _ _ ER). cbn [fst snd app].
  destruct (findFarthestNodes nr) as [[overlayA overlayC]|e]; [|done].
  unfold assignRoles.
  pose proof (pickB_chunk fuel overlays overlayA overlayC rnd w3) as Hpick.
  destruct (pickB env Rand NewRandomChunk SetAddress fuel overlays overlayA overlayC
              rnd w3) as [[[[overlayB chunk]|r|msg|] w4] t4] eqn:EP; cbn [fst snd] in *.
  2:{ rewrite (bind_Return _ _ _ _ _ _ EP). cbn. intros [= ->].
      pose proof (pickB_Return fuel overlays overlayA overlayC rnd w3 (Ok roles))
        as Hret.
      rewrite EP in Hret. by destruct (Hret eq_refl). }
  2:{ by rewrite (bind_Panic _ _ _ _ _ _ EP). }
  2:{ by rewrite (bind_Running _ _ _ _ _ EP). }
  rewrite (bind_Next _ _ _ _ _ _ EP). cbn [fst snd].
  destruct (Hpick _ _ eq_refl) as (before & chunk0 & -> & Hs).
  rewrite bind_call.
  destruct (nodesClients env w4) as [[clients|e] w5]; cbn [fst snd]; [|done].
  unfold range. rewrite bind_ask.
  match goal with
  | |- context [bind (findClients env ?nodes ?a ?b ?c ?x ?y ?z) _ ?w0] =>
      pose proof (findClients_quiet env (fun e => isNewRandomChunk e = false)
                    nodes a b c x y z ltac:(done) w0) as Hfq;
      destruct (findClients env nodes a b c x y z w0)
        as [[[[[nodeA nodeB] nodeC]|r|msg|] w6] t6] eqn:EF
  end; cbn [snd] in Hfq.
  2:{ rewrite (bind_Return _ _ _ _ _ _ EF). cbn. intros [= ->].
      match type of EF with
      | findClients env ?nodes ?a ?b ?c _ _ _ ?w0 = _ =>
          destruct (findClients_run env nodes a b c [] [] w0 eq_refl
                      ltac:(constructor))
            as (answers & _ & [(_ & _ & Ho)|(? & ? & _ & _ & _ & Ho)])
      end; unfold outcome in Ho; cbn in Ho; rewrite EF in Ho; done. }
  2:{ by rewrite (bind_Panic _ _ _ _ _ _ EF). }
  2:{ by rewrite (bind_Running _ _ _ _ _ EF). }
  rewrite (bind_Next _ _ _ _ _ _ EF). cbn. intros [= <-]. cbn.
  exists (EEnter "getNodes" :: EOverlays (Ok overlays) :: ESize size :: before),
    chunk0, (ENodesClients (Ok clients) :: t6 ++ []).
  split; [by rewrite <- !app_assoc|]. split; [done|].
  constructor; [done|]. by rewrite app_nil_r.
Qed.


Lemma getNodes_returns fuel rnd w g :
  (getNodes env Rand NewRandomChunk SetAddress fuel rnd w).1.1 <> Next g.
Proof.
  unfold getNodes. rewrite bind_emit, bind_call.
  destruct (ngOverlays env w) as [[overlays|e] w1]; cbn [fst snd]; [|done].
  rewrite bind_call. destruct (ngSize env w1) as [size w2]; cbn [fst snd].
  destruct (size <? minNodesRequired)%Z; [done|].
  unfold nestedRange, range. rewrite bind_assoc, bind_ask.
  match goal with
  | |- context [bind (rounds env overlays ?outer) _ ?w0] =>
      destruct (rounds_run (R:=result Roles) overlays outer w0) as (nr & w3 & ER)
  end.
  rewrite (bind_Next _ _ _ _ _ _ ER). cbn [fst snd app].
  destruct (findFarthestNodes nr) as [[overlayA overlayC]|e]; [|done].
  unfold assignRoles.
  destruct (pickB env Rand NewRandomChunk SetAddress fuel overlays overlayA overlayC
              rnd w3) as [[[[overlayB chunk]|r|msg|] w4] t4] eqn:EP.
  2:{ by rewrite (bind_Return _ _ _ _ _ _ EP). }
  2:{ by rewrite (bind_Panic _ _ _ _ _ _ EP). }
  2:{ by rewrite (bind_Running _ _ _ _ _ EP). }
  rewrite (bind_Next _ _ _ _ _ _ EP). cbn [fst snd]. rewrite bind_call.
  destruct (nodesClients env w4) as [[clients|e] w5]; cbn [fst snd]; [|done].
  unfold range. rewrite bind_ask.
  match goal with
  | |- context [bind (findClients env ?nodes ?a ?b ?c ?x ?y ?z) _ ?w0] =>
      destruct (findClients env nodes a b c x y z w0)
        as [[[[[nodeA nodeB] nodeC]|r|msg|] w6] t6] eqn:EF
  end.
  - by rewrite (bind_Next _ _ _ _ _ _ EF).
  - by rewrite (bind_Return _ _ _ _ _ _ EF).
  - by rewrite (bind_Panic _ _ _ _ _ _ EF).
  - by rewrite (bind_Running _ _ _ _ _ EF).
Qed.

Lemma uploadAndVerify_shape fuel o roles w addressA :
  (uploadAndVerify env MinimumBatchDepth fuel o roles w).1.1 = Next addressA ->
  exists a b c batchID ref waits,
    roles.1.1.1 = Some a /\ roles.1.2 = Some c /\
    Forall (fun r => r <> Ok true) waits /\
    (uploadAndVerify env MinimumBatchDepth fuel o roles w).2
      = [EOverlay a (Ok addressA); ECreatePostageBatch a (Ok batchID);
         EUploadChunk a (Data roles.2)
           {| Pin := false; BatchID := batchID; Direct := false |} (Ok ref)]
        ++ waitingPolls b ref waits
        ++ [EHasChunk b ref (Ok true);
            EDownloadChunk c ref "" (Ok (Data roles.2))].
Proof.
  destruct roles as [[[nodeA nodeB] nodeC] chunk]. unfold uploadAndVerify.
  destruct nodeA as [a|]; [|done]. cbn [deref fst snd]. rewrite bind_ret_l, bind_call.
  destruct (nodeOverlay env a w) as [[addrA|e] w1]; cbn [fst snd]; [|done].
  rewrite bind_call.
  destruct (createPostageBatch env a _ _ _ _ _ w1) as [[batchID|e] w2];
    cbn [fst snd]; [|done].
  rewrite bind_call.
  destruct (uploadChunk env a (Data chunk) _ w2) as [[ref|e] w3];
    cbn [fst snd]; [|done].
  pose proof (pollPresentOnB_run env nodeB ref fuel 0 w3) as Hpoll.
  destruct (pollPresentOnB env fuel nodeB ref 0 w3) as [[[[]|r|msg|] w4] t4] eqn:EP;
    cbn [fst snd] in Hpoll.
  2:{ by rewrite (bind_Return _ _ _ _ _ _ EP). }
  2:{ by rewrite (bind_Panic _ _ _ _ _ _ EP). }
  2:{ by rewrite (bind_Running _ _ _ _ _ EP). }
  destruct (Hpoll eq_refl) as (b & waits & -> & Hw & ->).
  rewrite (bind_Next _ _ _ _ _ _ EP). cbn [fst snd].
  destruct nodeC as [c|]; [|done]. cbn [deref]. rewrite bind_ret_l, bind_call.
  destruct (downloadChunk env c ref "" w4) as [[data1|e] w5]; cbn [fst snd];
    [|done].
  case_bool_decide as Hd; [done|]. subst data1.
  intros [= <-].
  exists a, b, c, batchID, ref, waits. do 3 (split; [done|]).
  cbn. by rewrite <- app_assoc.
Qed.

Lemma isReupload_enter e : isReupload e = false <-> e <> enterReupload.
Proof.
  destruct e; cbn; try done. unfold enterReupload.
  case_bool_decide; split; try done; try congruence.
Qed.

(** From the call of [uploadAndPinChunkToNode] on: the upload goes to
    the given node and carries the data of the chunk. *)
Lemma reupload_shape fuel a nodeC chunk w :
  exists pin rest,
    ((let* _ := reupload env (Some a) chunk in
      pollRepaired env fuel nodeC chunk 0) w).2
      = enterReupload :: EUploadChunk a (Data chunk) pinOptions pin :: rest /\
    Forall (fun e => isReupload e = false) rest.
Proof.
  pose proof (pollRepaired_quiet env fuel nodeC chunk 0) as Hq.
  assert (Hq' : forall w', Forall (fun e => isReupload e = false)
                             (pollRepaired env fuel nodeC chunk 0 w').2).
  { intros w'. eapply Forall_impl; [apply Hq|]. by intros []. }
  unfold reupload, uploadAndPinChunkToNode.
  unfold bind, invoke, emit, call, deref, ret, returns, panic.
  destruct (uploadChunk env a (Data chunk) _ w) as [[ref|e] w1].
  2:{ cbn. by eexists _, _. }
  destruct (pinRootHash env a ref w1) as [[e|] w2].
  { cbn. eexists _, _. split; [done|]. by repeat constructor. }
  specialize (Hq' w2).
  destruct (pollRepaired env fuel nodeC chunk 0 w2) as [[o3 w3] t3].
  cbn in *. eexists _, _. split; [done|]. by constructor.
Qed.

Lemma tail_shape fuel a c chunk addressA w :
  let x := (let* _ := triggerRecovery env (Some c) chunk addressA in
            let* _ := reupload env (Some a) chunk in
            pollRepaired env fuel (Some c) chunk 0) w in
  (Forall (fun e => isReupload e = false) x.2 /\ forall u, x.1.1 <> Next u) \/
  (exists r pin rest,
     x.2 = EDownloadChunk c (ChunkAddress chunk) (substring 0 2 (hex addressA)) r
           :: enterReupload :: EUploadChunk a (Data chunk) pinOptions pin :: rest /\
     Forall (fun e => isReupload e = false) rest).
Proof.
  cbn zeta. unfold triggerRecovery, targetsPrefix.
  destruct (String.length (hex addressA) <? 2)%nat.
  { rewrite bind_assoc, bind_panic. left. by split. }
  rewrite bind_assoc, bind_ret_l. cbn [deref].
  rewrite bind_assoc, bind_ret_l, bind_assoc, bind_call.
  destruct (downloadChunk env c (ChunkAddress chunk) _ w) as [r w1]. cbn [fst snd].
  destruct (reupload_shape fuel a (Some c) chunk w1) as (pin & rest & Ht & Hrest).
  destruct r as [d|e]; [|case_bool_decide].
  - rewrite bind_ret_l. right. exists (Ok d), pin, rest. cbn [snd]. by rewrite Ht.
  - rewrite bind_returns. left. cbn. split; [by repeat constructor|done].
  - rewrite bind_ret_l. right. exists (Err e), pin, rest. cbn [snd]. by rewrite Ht.
Qed.

Hypothesis Hfair : fair_ranges env.

(** A round from [getNodes] on, cut at the call of
    [uploadAndPinChunkToNode]. *)
Lemma repair_reupload fuel o roles w pre post :
  (repair env MinimumBatchDepth fuel o roles w).2 = pre ++ enterReupload :: post ->
  exists a b c addressA batchID ref waits clients nodes r pin post',
    Forall (fun x => x <> Ok true) waits /\
    enumerates clients nodes /\
    pre = removedEverywhere roles.2 a b c addressA batchID ref waits clients nodes r /\
    post = EUploadChunk a (Data roles.2) pinOptions pin :: post'.
Proof.
  unfold repair.
  pose proof (uploadAndVerify_shape fuel o roles w) as Hrun.
  pose proof (uploadAndVerify_quiet env MinimumBatchDepth fuel o roles w) as Hq.
  assert (HqU : Forall (fun e => e <> enterReupload)
                  (uploadAndVerify env MinimumBatchDepth fuel o roles w).2).
  { eapply Forall_impl; [exact Hq|]. by intros []. }
  clear Hq.
  destruct (uploadAndVerify env MinimumBatchDepth fuel o roles w)
    as [[[addressA|r|msg|] w1] tU] eqn:EU; cbn [fst snd] in Hrun, HqU.
  2:{ rewrite (bind_Return _ _ _ _ _ _ EU). cbn. intros Heq. exfalso.
      rewrite Heq in HqU. apply Forall_app in HqU as [_ HqU].
      by apply Forall_cons in HqU as [? _]. }
  2:{ rewrite (bind_Panic _ _ _ _ _ _ EU). cbn. intros Heq. exfalso.
      rewrite Heq in HqU. apply Forall_app in HqU as [_ HqU].
      by apply Forall_cons in HqU as [? _]. }
  2:{ rewrite (bind_Running _ _ _ _ _ EU). cbn. intros Heq. exfalso.
      rewrite Heq in HqU. apply Forall_app in HqU as [_ HqU].
      by apply Forall_cons in HqU as [? _]. }
  rewrite (bind_Next _ _ _ _ _ _ EU). cbn [fst snd].
  destruct (Hrun _ eq_refl) as (a & b & c & batchID & ref & waits & Ha & Hc & Hw & ->).
  rewrite Ha, Hc.
  pose proof (deleteEverywhere_spec env Hfair roles.2 w1) as Hdel.
  pose proof (deleteEverywhere_quiet env roles.2 w1) as HqD.
  destruct (deleteEverywhere env roles.2 w1) as [[oD w2] tD] eqn:ED.
  cbn [fst snd] in Hdel, HqD.
  assert (HqD' : Forall (fun e => e <> enterReupload) tD).
  { eapply Forall_impl; [exact HqD|].
    intros [] H; cbn in H; try done. apply bool_decide_eq_true in H. by subst. }
  destruct oD as [[]|[err|]|msg|]; try done.
  2:{ rewrite (bind_Return _ _ _ _ _ _ ED). cbn [snd]. intros Heq. exfalso.
      apply (split_after (fun e => e <> enterReupload)) in Heq
        as (pre' & _ & Heq); [|done|by intros ?].
      rewrite Heq in HqD'. apply Forall_app in HqD' as [_ HqD'].
      by apply Forall_cons in HqD' as [? _]. }
  destruct Hdel as (clients & nodes & Henum & ->).
  rewrite (bind_Next _ _ _ _ _ _ ED). cbn [fst snd].
  destruct (tail_shape fuel a c roles.2 addressA w2)
    as [[Hquiet _]|(r & pin & rest & -> & Hrest)].
  - intros Heq. exfalso.
    apply (split_after (fun e => e <> enterReupload)) in Heq
      as (pre' & _ & Heq); [|done|by intros ?].
    apply (split_after (fun e => e <> enterReupload)) in Heq
      as (pre'' & _ & Heq); [|done|by intros ?].
    rewrite Heq in Hquiet. apply Forall_app in Hquiet as [_ Hquiet].
    by apply Forall_cons in Hquiet as [? _].
  - intros Heq.
    apply (split_after (fun e => e <> enterReupload)) in Heq
      as (pre' & -> & Heq); [|done|by intros ?].
    apply (split_after (fun e => e <> enterReupload)) in Heq
      as (pre'' & -> & Heq); [|done|by intros ?].
    change (?d :: enterReupload :: ?u :: rest)
      with ([d] ++ enterReupload :: u :: rest) in Heq.
    apply (split_after (fun e => e <> enterReupload)) in Heq
      as (pre3 & -> & Heq); [|by repeat constructor|by intros ?].
    apply head_split in Heq as [-> ->].
    2:{ constructor; [done|]. eapply Forall_impl; [exact Hrest|].
        intros e. apply isReupload_enter. }
    exists a, b, c, addressA, batchID, ref, waits, clients, nodes, r, pin, rest.
    split; [done|]. split; [done|]. split; [|done].
    unfold removedEverywhere, enterDelete. cbn.
    do 3 f_equal. rewrite <- ?app_assoc. cbn. by rewrite <- ?app_assoc.
Qed.

Lemma iteration_reuploadPolicy fuel o rnds i :
  keeps (reuploadPolicy SetAddress)
    (iteration env Rand NewRandomChunk SetAddress MinimumBatchDepth fuel o rnds i).
Proof.
  intros w. unfold iteration.
  destruct (rnds !! i) as [rnd|]; [|intros pre post Heq; by destruct pre].
  pose proof (getNodes_chunk fuel rnd w) as Hchunk.
  pose proof (getNodes_returns fuel rnd w) as Hret.
  pose proof (getNodes_quiet env Rand NewRandomChunk SetAddress fuel rnd w) as Hq.
  assert (Hq' : Forall (fun e => e <> enterReupload)
                  (getNodes env Rand NewRandomChunk SetAddress fuel rnd w).2).
  { eapply Forall_impl; [exact Hq|].
    intros [] H; cbn in H; try done. apply bool_decide_eq_true in H. by subst. }
  clear Hq. unfold bind, invoke.
  destruct (getNodes env Rand NewRandomChunk SetAddress fuel rnd w)
    as [[[g|g|msg|] w1] t1]; cbn [fst snd] in *.
  3,4: intros pre post Heq; exfalso; cbn in Heq; rewrite Heq in Hq';
    apply Forall_app in Hq' as [_ Hq']; by apply Forall_cons in Hq' as [? _].
  all: destruct g as [roles|e].
  2,4: intros pre post Heq; exfalso; cbn in Heq; rewrite app_nil_r in Heq;
    rewrite Heq in Hq'; apply Forall_app in Hq' as [_ Hq'];
    by apply Forall_cons in Hq' as [? _].
  - by destruct (Hret (Ok roles)).
  - pose proof (repair_reupload fuel o roles w1) as Hrep.
    destruct (repair env MinimumBatchDepth fuel o roles w1) as [[o2 w2] t2].
    cbn [fst snd] in *. intros pre post Heq.
    apply (split_after (fun e => e <> enterReupload)) in Heq
      as (pre' & -> & Heq); [|done|by intros ?].
    destruct (Hrep _ _ Heq)
      as (a & b & c & addressA & batchID & ref & waits & clients & nodes & r & pin
          & post' & Hw & Henum & -> & ->).
    destruct (Hchunk roles eq_refl) as (before & chunk0 & picked & -> & Hs & Hp).
    exists before, chunk0, roles.2, picked, a, b, c, addressA, batchID, ref, waits,
      clients, nodes, r, pin, post'.
    do 4 (split; [done|]). split; [|done].
    by rewrite <- app_assoc.
Qed.

Lemma Run_keeps_rounds (I : status (option string) -> list Event -> Prop)
    (P : Event -> Prop) fuel o :
  sequential I ->
  (forall A (m : M W Event (option string) A), quiet P m -> keeps I m) ->
  (forall name err, P (ENodeGroup name err)) ->
  (forall rnds i,
     keeps I (iteration env Rand NewRandomChunk SetAddress MinimumBatchDepth fuel o
                rnds i)) ->
  keeps I (Run env Rand PseudoGenerators NewRandomChunk SetAddress
             MinimumBatchDepth fuel o).
Proof.
  intros Hseq Hquiet Hng Hround. unfold Run.
  apply keeps_bind; [done| |intros [e|]].
  { apply Hquiet. by apply quiet_call. }
  { apply Hquiet. apply quiet_returns. }
  apply keeps_bind; [done| |intros _].
  2:{ apply Hquiet. apply quiet_returns. }
  apply keeps_forEach; [done|]. intros i. apply Hround.
Qed.

Lemma notNil_sequential : sequential notNil.
Proof. split; [done|]. by intros t1 s t2 _ H. Qed.

Lemma notNil_never {A} (m : M W Event (option string) A) :
  (forall w, (m w).1.1 <> Return None) -> keeps notNil m.
Proof.
  intros H w Hs. specialize (H w).
  destruct ((m w).1.1) as [a|[r|]|msg|]; cbn in Hs; done.
Qed.

Lemma notNil_call {A} (oracle : W -> A * W) (ev : A -> Event) :
  keeps notNil (call oracle ev : M W Event (option string) A).
Proof. apply notNil_never. intros w. unfold call. by destruct (oracle w). Qed.

Lemma notNil_deref (c : option Client) :
  keeps notNil (deref c : M W Event (option string) Client).
Proof. apply notNil_never. intros w. by destruct c. Qed.

Lemma notNil_invoke {R' : Type} (body : M W Event R' R') :
  keeps notNil (invoke body : M W Event (option string) R').
Proof. apply notNil_never. intros w. unfold invoke. by destruct (body w) as [[[]]]. Qed.

Ltac notnil IH :=
  repeat first
    [ apply IH | apply notNil_call | apply notNil_deref | apply notNil_invoke
    | apply notNil_never; intros ?; done
    | apply keeps_bind; [apply notNil_sequential| |intros]
    | match goal with
      | |- keeps _ (match ?x with _ => _ end) => destruct x
      end ].

Lemma pollPresentOnB_notNil fuel nodeB ref count :
  keeps notNil (pollPresentOnB env fuel nodeB ref count).
Proof.
  revert count. induction fuel as [|fuel IH]; intros count; cbn [pollPresentOnB];
    unfold pause; notnil IH.
Qed.

Lemma pollRepaired_notNil fuel nodeC chunk count :
  keeps notNil (pollRepaired env fuel nodeC chunk count).
Proof.
  revert count. induction fuel as [|fuel IH]; intros count; cbn [pollRepaired];
    unfold pause; notnil IH.
Qed.

Lemma repair_notNil fuel o roles :
  keeps notNil (repair env MinimumBatchDepth fuel o roles).
Proof.
  destruct roles as [[[nodeA nodeB] nodeC] chunk].
  unfold repair, uploadAndVerify, deleteEverywhere, triggerRecovery, targetsPrefix,
    reupload.
  notnil pollPresentOnB_notNil; apply pollRepaired_notNil.
Qed.

Lemma iteration_notNil fuel o rnds i :
  keeps notNil
    (iteration env Rand NewRandomChunk SetAddress MinimumBatchDepth fuel o rnds i).
Proof. unfold iteration. notnil repair_notNil. Qed.

Lemma repair_count fuel o roles w :
  (repair env MinimumBatchDepth fuel o roles w).1.1 = Next tt ->
  countEvents isReupload (repair env MinimumBatchDepth fuel o roles w).2 = 1%nat.
Proof.
  unfold repair.
  pose proof (uploadAndVerify_shape fuel o roles w) as Hrun.
  pose proof (uploadAndVerify_quiet env MinimumBatchDepth fuel o roles w) as Hq.
  destruct (uploadAndVerify env MinimumBatchDepth fuel o roles w)
    as [[[addressA|r|msg|] w1] tU] eqn:EU; cbn [fst snd] in Hrun, Hq.
  2:{ by rewrite (bind_Return _ _ _ _ _ _ EU). }
  2:{ by rewrite (bind_Panic _ _ _ _ _ _ EU). }
  2:{ by rewrite (bind_Running _ _ _ _ _ EU). }
  rewrite (bind_Next _ _ _ _ _ _ EU). cbn [fst snd].
  destruct (Hrun _ eq_refl) as (a & b & c & batchID & ref & waits & Ha & Hc & _ & _).
  rewrite Ha, Hc.
  pose proof (deleteEverywhere_quiet env roles.2 w1) as HqD.
  destruct (deleteEverywhere env roles.2 w1) as [[[[]|r|msg|] w2] tD] eqn:ED;
    cbn [fst snd] in HqD.
  2:{ by rewrite (bind_Return _ _ _ _ _ _ ED). }
  2:{ by rewrite (bind_Panic _ _ _ _ _ _ ED). }
  2:{ by rewrite (bind_Running _ _ _ _ _ ED). }
  rewrite (bind_Next _ _ _ _ _ _ ED). cbn [fst snd].
  rewrite !countEvents_app.
  rewrite (countEvents_none isReupload tU).
  2:{ eapply Forall_impl; [exact Hq|]. by intros []. }
  rewrite (countEvents_none isReupload tD).
  2:{ eapply Forall_impl; [exact HqD|]. intros [] H; cbn in H |- *; try done.
      apply bool_decide_eq_true in H. by subst. }
  destruct (tail_shape fuel a c roles.2 addressA w2)
    as [[_ Hnot]|(r & pin & rest & -> & Hrest)].
  - intros Ho. by destruct (Hnot tt).
  - intros _. cbn. by rewrite (countEvents_none _ _ Hrest).
Qed.

Lemma iteration_count fuel o rnds i w :
  (iteration env Rand NewRandomChunk SetAddress MinimumBatchDepth fuel o rnds i w).1.1
    = Next tt ->
  countEvents isReupload
    (iteration env Rand NewRandomChunk SetAddress MinimumBatchDepth fuel o rnds i w).2
    = 1%nat.
Proof.
  unfold iteration. destruct (rnds !! i) as [rnd|]; [|done].
  pose proof (getNodes_quiet env Rand NewRandomChunk SetAddress fuel rnd w) as Hq.
  unfold bind, invoke.
  destruct (getNodes env Rand NewRandomChunk SetAddress fuel rnd w)
    as [[[g|g|msg|] w1] t1]; cbn [fst snd] in *; try done.
  all: destruct g as [roles|e]; [|done].
  all: pose proof (repair_count fuel o roles w1) as Hrep;
    destruct (repair env MinimumBatchDepth fuel o roles w1) as [[o2 w2] t2];
    cbn [fst snd] in *; intros Ho;
    rewrite countEvents_app, (Hrep Ho), (countEvents_none isReupload t1); [done|];
    eapply Forall_impl; [exact Hq|]; intros [] H; cbn in H |- *; try done;
    apply bool_decide_eq_true in H; by subst.
Qed.

Lemma forEach_count {A} (p : Event -> bool) (l : list A)
    (body : A -> M W Event (option string) unit) w :
  (forall x w', (body x w').1.1 = Next tt -> countEvents p (body x w').2 = 1%nat) ->
  (forEach l body w).1.1 = Next tt ->
  countEvents p (forEach l body w).2 = length l.
Proof.
  intros Hbody. revert w. induction l as [|x l IH]; intros w; cbn [forEach]; [done|].
  unfold bind. specialize (Hbody x w).
  destruct (body x w) as [[[[]|r|msg|] w1] t1]; cbn [fst snd] in *; try done.
  specialize (IH w1). destruct (forEach l body w1) as [[o2 w2] t2].
  cbn [fst snd] in *. intros Ho.
  by rewrite countEvents_app, Hbody, IH.
Qed.

Lemma forEach_Return {A} (l : list A) (body : A -> M W Event (option string) unit)
    w r :
  (forEach l body w).1.1 = Return r -> exists x w', (body x w').1.1 = Return r.
Proof.
  revert w. induction l as [|x l IH]; intros w; cbn [forEach]; [done|].
  unfold bind.
  destruct (body x w) as [[[[]|r'|msg|] w1] t1] eqn:E; cbn [fst snd]; try done.
  - specialize (IH w1). destruct (forEach l body w1) as [[o2 w2] t2].
    cbn [fst snd] in *. exact IH.
  - intros [= ->]. exists x, w. by rewrite E.
Qed.

Lemma Run_count fuel o w :
  let run := Run env Rand PseudoGenerators NewRandomChunk SetAddress
               MinimumBatchDepth fuel o w in
  outcome run = Return None ->
  countEvents isReupload (trace run) = Z.to_nat (NumberOfChunksToRepair o).
Proof.
  cbn zeta. unfold Run, outcome, trace. rewrite bind_call.
  destruct (clusterNodeGroup env (NodeGroup o) w) as [[e|] w1]; cbn [fst snd]; [done|].
  match goal with
  | |- context [bind (forEach ?l ?body) _ ?w0] =>
      pose proof (forEach_count isReupload l body w0
                    (iteration_count fuel o _)) as Hcount;
      pose proof (forEach_Return l body w0) as Hret;
      destruct (forEach l body w0) as [[[[]|r|msg|] w2] t2] eqn:EF
  end; cbn [fst snd] in *.
  - rewrite (bind_Next _ _ _ _ _ _ EF). cbn. intros _.
    by rewrite app_nil_r, (Hcount eq_refl), length_seq.
  - rewrite (bind_Return _ _ _ _ _ _ EF). cbn. intros [= ->].
    destruct (Hret None eq_refl) as (i & w' & Hi).
    pose proof (iteration_notNil fuel o
                  (PseudoGenerators (Seed o) (NumberOfChunksToRepair o)) i w') as Hn.
    rewrite Hi in Hn. by destruct Hn.
  - by rewrite (bind_Panic _ _ _ _ _ _ EF).
  - by rewrite (bind_Running _ _ _ _ _ EF).
Qed.

End Rounds.

(** C7.  In a run of the chunk-repair check under a runtime that
    enumerates maps fairly.  Every call of [uploadAndPinChunkToNode]
    comes at the end of this part of its round: the chunk of the round,
    the last one [getNodes] drew, was uploaded to node A, seen on node B
    and downloaded from node C; then the clients of the node group were
    fetched and [RemoveChunk] was called for the address of that chunk on
    every one of them, each call returning no error; then the download
    with targets was made; and the call uploads the data of that same
    chunk to node A, the node of the first upload.  A [RemoveChunk] that
    fails is the last thing the run does, [Run] returning its error, so
    that no re-upload follows it.  A run that returns nil has made one
    such call in each of its [NumberOfChunksToRepair] rounds. *)
Theorem reupload_after_removal {W : Type} (env : Env W) (Rand : Type)
    (PseudoGenerators : Z -> Z -> list Rand)
    (NewRandomChunk : Rand -> result Chunk * Rand)
    (SetAddress : Chunk -> result Chunk) (MinimumBatchDepth : Z)
    (fuel : nat) (o : Options) (w : W) :
  fair_ranges env ->
  let run := Run env Rand PseudoGenerators NewRandomChunk SetAddress
               MinimumBatchDepth fuel o w in
  (forall pre post,
      trace run = pre ++ enterReupload :: post ->
      exists before chunk0 chunk picked a b c addressA batchID ref waits clients
             nodes r pin post',
        SetAddress chunk0 = Ok chunk /\
        Forall (fun e => isNewRandomChunk e = false) picked /\
        Forall (fun x => x <> Ok true) waits /\
        enumerates clients nodes /\
        pre = before ++ ENewRandomChunk (Ok chunk0) :: picked
                ++ removedEverywhere chunk a b c addressA batchID ref waits
                     clients nodes r /\
        post = EUploadChunk a (Data chunk) pinOptions pin :: post') /\
  (forall pre node a e post,
      trace run = pre ++ ERemoveChunk node a (Some e) :: post ->
      post = [] /\ outcome run = Return (Some e)) /\
  (outcome run = Return None ->
   countEvents isReupload (trace run) = Z.to_nat (NumberOfChunksToRepair o)).
Proof.
  intros Hfair run. split; [|split].
  - assert (Hpol : reuploadPolicy SetAddress (status_of (outcome run)) (trace run)).
    { apply (Run_keeps_rounds env Rand PseudoGenerators NewRandomChunk SetAddress
               MinimumBatchDepth (reuploadPolicy SetAddress)
               (fun e => e <> enterReupload)).
      - apply reuploadPolicy_sequential.
      - intros A m. apply quiet_reuploadPolicy.
      - done.
      - intros rnds i. by apply iteration_reuploadPolicy. }
    exact Hpol.
  - assert (Hpol : removalPolicy (status_of (outcome run)) (trace run)).
    { apply (Run_keeps env Rand PseudoGenerators NewRandomChunk SetAddress
               MinimumBatchDepth removalPolicy
               (fun e => e <> enterReupload /\ isRemoveChunk e = false)).
      - apply removalPolicy_sequential.
      - intros A m. apply quiet_removalPolicy.
      - intros [] H; cbn in H; try done.
        apply bool_decide_eq_true in H. by subst.
      - done.
      - intros roles. by apply repair_removalPolicy. }
    destruct Hpol as [_ Hb].
    intros pre node a e post Heq. destruct (Hb _ _ _ _ _ Heq) as [-> Hs].
    split; [done|]. destruct (outcome run); cbn in Hs; congruence.
  - apply Run_count.
Qed.

(** Two runs in the lab: one in which every call succeeds, and one in
    which [RemoveChunk] fails on the second node. *)
Lemma reupload_after_removal_witness :
  let run := labRepair (healthy 0) 30 in
  let failing := labRepair (removeFailsOn "bee-2") 30 in
  (outcome run = Return None /\
   drop 15 (trace run)
     = [enterDelete; ENodesClients (Ok labClients);
        ERemoveChunk "bee-1" [x81] None; ERemoveChunk "bee-2" [x81] None;
        ERemoveChunk "bee-0" [x81] None;
        EDownloadChunk "bee-0" [x81] "ff" (Ok [x81]);
        enterReupload; EUploadChunk "bee-2" [x81] pinOptions (Ok [x81]);
        EPinRootHash "bee-2" [x81] None;
        EDownloadChunk "bee-0" [x81] "" (Ok [x81])] /\
   countEvents isReupload (trace run) = 1%nat) /\
  (trace failing
     = take 18 (trace failing)
       ++ ERemoveChunk "bee-2" [x81] (Some "remove failed") :: [] /\
   outcome failing = Return (Some "remove failed") /\
   countEvents isReupload (trace failing) = 0%nat).
Proof.
  cbn zeta. split.
  - assert (Hout : outcome (labRepair (healthy 0) 30) = Return None) by by vm_compute.
    split; [exact Hout|]. split; [by vm_compute|].
    exact (proj2 (proj2 (reupload_after_removal (healthy 0) labRand
                           labPseudoGenerators labNewRandomChunk labSetAddress 17
                           30 labOptions 0%nat (healthy_fair 0))) Hout).
  - assert (Hsplit : trace (labRepair (removeFailsOn "bee-2") 30)
                     = take 18 (trace (labRepair (removeFailsOn "bee-2") 30))
                       ++ ERemoveChunk "bee-2" [x81] (Some "remove failed") :: [])
      by by vm_compute.
    split; [exact Hsplit|]. split; [|by vm_compute].
    refine (proj2 (proj1 (proj2 (reupload_after_removal (removeFailsOn "bee-2")
                                   labRand labPseudoGenerators labNewRandomChunk
                                   labSetAddress 17 30 labOptions 0%nat _))
                    _ _ _ _ _ Hsplit)).
    intros V m w. unfold enumerates. done.
Defined.

End RemovalFacts.

(** ** More facts about the smoke check *)

Module SmokeRoundsFacts.
Import AddressSpace Topology Effects Bee Smoke Observations SmokeRounds.
Import EffectsFacts SmokeFacts TallyFacts Lab.

Section Check.
Context {W : Type}.
Variable env : Env W.
Variable Rand : Type.
Variable Intn : Rand -> nat -> nat * Rand.
Variable PseudoGenerator : Z -> Rand.
Variable Size : nat.
Variable NodeNames : list string.

(** What one call of [test.upload] leaves and hands back: with an error
    comes a zero duration; without one the call ended with a successful
    [UploadBytes] of the data that returned the address handed back. *)
Lemma upload_result o clients cName data :
  meets (invoke (upload env o clients cName data)
           : M W Event (option string) (Address * Z * option string))
    (fun out t =>
       (t = [] \/ (exists n r, t = [EGetOrCreateBatch n r]) \/
        (exists n b up r, t = [EGetOrCreateBatch n (Ok b); EUploadBytes n data up r])) /\
       forall a d err, out = Next (a, d, err) ->
         (exists e, err = Some e /\ d = 0%Z) \/
         (err = None /\
          exists n b up, t = [EGetOrCreateBatch n (Ok b); EUploadBytes n data up (Ok a)])).
Proof.
  intros w. unfold invoke, upload.
  destruct (clients !! cName) as [client|]; cbn [deref].
  2:{ cbn. split; [by left|done]. }
  rewrite bind_ret_l, bind_call.
  destruct (getOrCreateBatch env client _ _ _ _ w) as [[batchID|e] w1];
    cbn [fst snd].
  - rewrite bind_ask, bind_call.
    destruct (uploadBytes env client data _ _) as [[addr|e] w2]; cbn [fst snd].
    + rewrite bind_ask. cbn. split; [right; right; by eexists _, _, _, _|].
      intros a d err [= <- <- <-]. right. split; [done|]. by eexists _, _, _.
    + cbn. split; [right; right; by eexists _, _, _, _|].
      intros a d err [= <- <- <-]. left. by eexists.
  - cbn. split; [right; left; by eexists _, _|].
    intros a d err [= <- <- <-]. left. by eexists.
Qed.

Lemma download_result clients cName addr :
  meets (invoke (download env clients cName addr)
           : M W Event (option string) (Bytes * Z * option string))
    (fun _ t => t = [] \/ exists n r, t = [EDownloadBytes n addr r]).
Proof.
  intros w. unfold invoke, download.
  destruct (clients !! cName) as [client|]; cbn [deref]; [|by left].
  rewrite bind_ret_l, bind_ask, bind_call.
  destruct (downloadBytes env client addr _) as [[d|e] w2]; cbn [fst snd].
  - rewrite bind_ask. cbn. right. by eexists _, _.
  - cbn. right. by eexists _, _.
Qed.

Section Bounds.
Variable p : Event -> bool.
Variable u : nat.
Variable d : nat.
Hypothesis p_ctx : forall cp b, p (ECtxDone cp b) = false.
Hypothesis p_sleep : forall x, p (ESleep x) = false.
Hypothesis p_perm : forall x, p (EPerm x) = false.
Hypothesis p_read : forall n r, p (ECryptoRead n r) = false.
Hypothesis p_upload : forall o clients cName data,
  meets (invoke (upload env o clients cName data)
           : M W Event (option string) (Address * Z * option string))
    (fun _ t => (countEvents p t <= u)%nat).
Hypothesis p_download : forall clients cName addr,
  meets (invoke (download env clients cName addr)
           : M W Event (option string) (Bytes * Z * option string))
    (fun _ t => (countEvents p t <= d)%nat).

Lemma checkDone_tally cp :
  meets (checkDone env cp) (fun _ t => (countEvents p t <= 0)%nat).
Proof.
  apply tally_quiet. unfold checkDone.
  apply quiet_bind; [by apply quiet_call|]. intros [|]; [apply quiet_returns|apply quiet_ret].
Qed.

Lemma checkDoneOrAfter_tally cp x :
  meets (checkDoneOrAfter env cp x) (fun _ t => (countEvents p t <= 0)%nat).
Proof.
  apply tally_quiet. unfold checkDoneOrAfter.
  apply quiet_bind; [by apply quiet_call|]. intros [|]; [apply quiet_returns|apply quiet_ret].
Qed.

Lemma uploadRetries_tally retries o clients txName txData address txDuration :
  meets (uploadRetries env retries o clients txName txData address txDuration)
    (fun _ t => (countEvents p t <= retries * u)%nat).
Proof.
  revert address txDuration.
  induction retries as [|retries IH]; intros address txDuration; cbn [uploadRetries].
  - apply tally_quiet, quiet_ret.
  - destruct (txDuration =? 0)%Z; [|apply tally_quiet, quiet_ret].
    apply (tally_le p _ (0 + (u + (0 + retries * u)))); [lia|].
    apply tally_bind; [apply checkDone_tally|intros _].
    apply tally_bind; [apply p_upload|intros [[address' txDuration'] err]].
    apply tally_bind; [|intros _; apply IH].
    apply tally_quiet. destruct err; [by apply quiet_call|apply quiet_ret].
Qed.

Lemma downloadRetries_tally retries o clients rxName address txData rxDuration :
  meets (downloadRetries env retries o clients rxName address txData rxDuration)
    (fun _ t => (countEvents p t <= retries * d)%nat).
Proof.
  revert rxDuration.
  induction retries as [|retries IH]; intros rxDuration; cbn [downloadRetries].
  - apply tally_quiet, quiet_ret.
  - destruct (rxDuration =? 0)%Z; [|apply tally_quiet, quiet_ret].
    apply (tally_le p _ (0 + (d + retries * d))); [lia|].
    apply tally_bind; [apply checkDoneOrAfter_tally|intros _].
    apply tally_bind; [apply p_download|intros [[rxData rxDuration'] err]].
    destruct err; [apply IH|].
    destruct (rxDuration' =? 0)%Z; [apply IH|].
    case_bool_decide; [apply tally_quiet, quiet_ret|apply IH].
Qed.

Lemma iteration_tally o clients rnd :
  meets (iteration env Rand Intn Size NodeNames o clients rnd)
    (fun _ t => (countEvents p t <= 3 * u + 3 * d)%nat).
Proof.
  unfold iteration. destruct (Perm Rand Intn rnd Size) as [perm rnd'].
  apply (tally_le p _ (0 + (0 + (0 + (0 + (0 + (0 + (0 + (3 * u + (0 + (3 * d + 0))))))))))); [lia|].
  apply tally_bind; [apply checkDone_tally|intros _].
  apply tally_bind; [by apply tally_quiet, quiet_emit|intros _].
  apply tally_bind; [apply tally_quiet, index_quiet|intros txIdx].
  apply tally_bind; [apply tally_quiet, index_quiet|intros rxIdx].
  destruct (txIdx =? rxIdx)%nat; [apply tally_quiet, quiet_ret|].
  apply tally_bind; [apply tally_quiet, index_quiet|intros txName].
  apply tally_bind; [apply tally_quiet, index_quiet|intros rxName].
  destruct ((ContentSize o <? 0)%Z || (maxAlloc <? ContentSize o)%Z); [apply tally_quiet, quiet_panic|].
  apply tally_bind; [by apply tally_quiet, quiet_call|intros [txData|e]].
  2:{ apply tally_quiet, quiet_ret. }
  apply tally_bind; [apply uploadRetries_tally|intros [address txDuration]].
  destruct (txDuration =? 0)%Z; [apply tally_quiet, quiet_ret|].
  apply tally_bind; [by apply tally_quiet, quiet_call|intros _].
  apply tally_bind; [apply downloadRetries_tally|intros _].
  apply tally_quiet, quiet_ret.
Qed.

End Bounds.


(** Nothing in a round returns an error out of [Run]. *)
Lemma noFailure_sequential : sequential noFailure.
Proof. split; [done|]. intros t1 s t2 _ H. exact H. Qed.

Lemma noFailure_falls {A} (m : M W Event (option string) A) :
  (forall w r, (m w).1.1 = Return r -> r = None) -> keeps noFailure m.
Proof.
  intros H w e Hs. specialize (H w).
  destruct ((m w).1.1) as [a|r|msg|]; cbn in Hs; try done.
  injection Hs as ->. by specialize (H _ eq_refl).
Qed.

Lemma noFailure_quiet_ret {A} (a : A) :
  keeps noFailure (ret a : M W Event (option string) A).
Proof. by apply noFailure_falls. Qed.

Lemma noFailure_call {A} (oracle : W -> A * W) (ev : A -> Event) :
  keeps noFailure (call oracle ev : M W Event (option string) A).
Proof. apply noFailure_falls. intros w r. unfold call. by destruct (oracle w). Qed.

Lemma noFailure_invoke {R' : Type} (body : M W Event R' R') :
  keeps noFailure (invoke body : M W Event (option string) R').
Proof.
  apply noFailure_falls. intros w r. unfold invoke.
  by destruct (body w) as [[[x|r'|msg|] w1] t1].
Qed.

Lemma noFailure_index {A} (l : list A) i :
  keeps noFailure (index l i : M W Event (option string) A).
Proof. apply noFailure_falls. intros w r. unfold index. by destruct (l !! i). Qed.

Lemma noFailure_checkDone cp : keeps noFailure (checkDone env cp).
Proof.
  apply noFailure_falls. intros w r. unfold checkDone. rewrite bind_call.
  destruct (ctxDoneOrDefault env w) as [[|] w1]; cbn; [by intros [= <-]|done].
Qed.

Lemma noFailure_checkDoneOrAfter cp x : keeps noFailure (checkDoneOrAfter env cp x).
Proof.
  apply noFailure_falls. intros w r. unfold checkDoneOrAfter. rewrite bind_call.
  destruct (ctxDoneOrAfter env x w) as [[|] w1]; cbn; [by intros [= <-]|done].
Qed.

Lemma uploadRetries_noFailure retries o clients txName txData address txDuration :
  keeps noFailure
    (uploadRetries env retries o clients txName txData address txDuration).
Proof.
  revert address txDuration.
  induction retries as [|retries IH]; intros address txDuration;
    cbn [uploadRetries]; [apply noFailure_quiet_ret|].
  destruct (txDuration =? 0)%Z; [|apply noFailure_quiet_ret].
  apply keeps_bind; [apply noFailure_sequential|apply noFailure_checkDone|intros _].
  apply keeps_bind; [apply noFailure_sequential|apply noFailure_invoke|].
  intros [[address' txDuration'] err].
  apply keeps_bind; [apply noFailure_sequential| |intros _; apply IH].
  destruct err; [apply noFailure_call|apply noFailure_quiet_ret].
Qed.

Lemma downloadRetries_noFailure retries o clients rxName address txData rxDuration :
  keeps noFailure
    (downloadRetries env retries o clients rxName address txData rxDuration).
Proof.
  revert rxDuration.
  induction retries as [|retries IH]; intros rxDuration;
    cbn [downloadRetries]; [apply noFailure_quiet_ret|].
  destruct (rxDuration =? 0)%Z; [|apply noFailure_quiet_ret].
  apply keeps_bind;
    [apply noFailure_sequential|apply noFailure_checkDoneOrAfter|intros _].
  apply keeps_bind; [apply noFailure_sequential|apply noFailure_invoke|].
  intros [[rxData rxDuration'] err].
  destruct err; [apply IH|].
  destruct (rxDuration' =? 0)%Z; [apply IH|].
  case_bool_decide; [apply noFailure_quiet_ret|apply IH].
Qed.

Lemma iteration_noFailure o clients rnd :
  keeps noFailure (iteration env Rand Intn Size NodeNames o clients rnd).
Proof.
  unfold iteration. destruct (Perm Rand Intn rnd Size) as [perm rnd'].
  apply keeps_bind; [apply noFailure_sequential|apply noFailure_checkDone|intros _].
  apply keeps_bind; [apply noFailure_sequential|by apply noFailure_falls|intros _].
  apply keeps_bind; [apply noFailure_sequential|apply noFailure_index|intros txIdx].
  apply keeps_bind; [apply noFailure_sequential|apply noFailure_index|intros rxIdx].
  destruct (txIdx =? rxIdx)%nat; [apply noFailure_quiet_ret|].
  apply keeps_bind; [apply noFailure_sequential|apply noFailure_index|intros txName].
  apply keeps_bind; [apply noFailure_sequential|apply noFailure_index|intros rxName].
  destruct ((ContentSize o <? 0)%Z || (maxAlloc <? ContentSize o)%Z); [by apply noFailure_falls|].
  apply keeps_bind; [apply noFailure_sequential|apply noFailure_call|intros [txData|e]].
  2:{ apply noFailure_quiet_ret. }
  apply keeps_bind;
    [apply noFailure_sequential|apply uploadRetries_noFailure|intros [address txDuration]].
  destruct (txDuration =? 0)%Z; [apply noFailure_quiet_ret|].
  apply keeps_bind; [apply noFailure_sequential|apply noFailure_call|intros _].
  apply keeps_bind;
    [apply noFailure_sequential|apply downloadRetries_noFailure|intros _].
  apply noFailure_quiet_ret.
Qed.

Lemma iterations_noFailure fuel o clients rnd :
  keeps noFailure (iterations env Rand Intn Size NodeNames fuel o clients rnd).
Proof.
  revert rnd. induction fuel as [|fuel IH]; intros rnd; cbn [iterations].
  - by apply noFailure_falls.
  - apply keeps_bind; [apply noFailure_sequential|apply iteration_noFailure|].
    intros rnd'. apply IH.
Qed.

(** The upload loop started with no duration: if it hands back a
    duration other than zero, the last thing it did was a successful
    [UploadBytes] that returned the address it hands back. *)
Lemma uploadRetries_last retries o clients txName txData address txDuration :
  meets (uploadRetries env retries o clients txName txData address txDuration)
    (fun out t =>
       Forall (fun e => isDownloadBytes e = false) t /\
       forall a x, out = Next (a, x) -> x <> 0%Z ->
         (t = [] /\ a = address /\ x = txDuration) \/
         exists t' n up, t = t' ++ [EUploadBytes n txData up (Ok a)]).
Proof.
  revert address txDuration.
  induction retries as [|retries IH]; intros address txDuration w;
    cbn [uploadRetries].
  { cbn. split; [constructor|]. intros a x [= <- <-] _. by left. }
  destruct (txDuration =? 0)%Z.
  2:{ cbn. split; [constructor|]. intros a x [= <- <-] _. by left. }
  unfold checkDone. rewrite bind_assoc, bind_call.
  destruct (ctxDoneOrDefault env w) as [[|] w1]; cbn [fst snd].
  { rewrite bind_returns. cbn. split; [by repeat constructor|done]. }
  rewrite bind_ret_l.
  pose proof (upload_result o clients txName txData w1) as [Hshape Hres].
  destruct (invoke (upload env o clients txName txData) w1)
    as [[[[[address' txDuration'] err]|r|msg|] w2] t1] eqn:E; cbn [fst snd] in *.
  2:{ rewrite (bind_Return _ _ _ _ _ _ E). cbn. split; [|done].
      constructor; [done|].
      destruct Hshape as [->|[(n & r0 & ->)|(n & b & up & r0 & ->)]];
        by repeat constructor. }
  2:{ rewrite (bind_Panic _ _ _ _ _ _ E). cbn. split; [|done].
      constructor; [done|].
      destruct Hshape as [->|[(n & r0 & ->)|(n & b & up & r0 & ->)]];
        by repeat constructor. }
  2:{ rewrite (bind_Running _ _ _ _ _ E). cbn. split; [|done].
      constructor; [done|].
      destruct Hshape as [->|[(n & r0 & ->)|(n & b & up & r0 & ->)]];
        by repeat constructor. }
  rewrite (bind_Next _ _ _ _ _ _ E). cbn [fst snd].
  assert (Ht1 : Forall (fun e => isDownloadBytes e = false) t1).
  { destruct Hshape as [->|[(n & r0 & ->)|(n & b & up & r0 & ->)]];
      by repeat constructor. }
  specialize (Hres _ _ _ eq_refl).
  destruct Hres as [(e & -> & ->)|(-> & n & b & up & ->)].
  - unfold pause. rewrite bind_call. cbn [fst snd].
    destruct (IH address' 0%Z (sleep env (TxOnErrWait o) w2).2) as [Hq Hlast].
    split.
    + constructor; [done|]. apply Forall_app. split; [done|]. by constructor.
    + intros a x Hout Hx. destruct (Hlast a x Hout Hx) as [(_ & _ & ->)|(t' & n & up & Heq)];
        [done|].
      right. exists (ECtxDone InUploadRetry false :: t1 ++ ESleep (TxOnErrWait o) :: t'), n, up.
      cbn. rewrite Heq. by rewrite <- !app_assoc.
  - rewrite bind_ret_l.
    destruct (IH address' txDuration' w2) as [Hq Hlast].
    split.
    + constructor; [done|]. apply Forall_app. split; [done|done].
    + intros a x Hout Hx.
      destruct (Hlast a x Hout Hx) as [(Hnil & -> & ->)|(t' & n' & up' & Heq)].
      * right. rewrite Hnil.
        exists [ECtxDone InUploadRetry false; EGetOrCreateBatch n (Ok b)], n, up.
        done.
      * right.
        exists (ECtxDone InUploadRetry false
                  :: [EGetOrCreateBatch n (Ok b); EUploadBytes n txData up (Ok address')]
                  ++ t'), n', up'.
        cbn. by rewrite Heq.
Qed.

Lemma downloadRetries_events retries o clients rxName address txData rxDuration :
  quiet (downloadEvent address)
    (downloadRetries env retries o clients rxName address txData rxDuration).
Proof.
  revert rxDuration.
  induction retries as [|retries IH]; intros rxDuration;
    cbn [downloadRetries]; [apply quiet_ret|].
  destruct (rxDuration =? 0)%Z; [|apply quiet_ret].
  unfold checkDoneOrAfter, download.
  repeat first
    [ apply IH | apply client_quiet | apply quiet_ret | apply quiet_returns
    | apply quiet_ask | apply quiet_call; intros; done
    | apply quiet_bind; [|intros] | apply quiet_invoke
    | match goal with
      | |- quiet _ (match ?x with _ => _ end) => destruct x
      end ].
Qed.

(** A round either downloads nothing, or its downloads all come after a
    successful upload and the wait for the nodes to sync, and ask for the
    address that upload returned. *)
Lemma iteration_transfer o clients rnd :
  meets (iteration env Rand Intn Size NodeNames o clients rnd)
    (fun _ t =>
       Forall (fun e => isDownloadBytes e = false) t \/
       exists tU n data up a tD,
         t = tU ++ EUploadBytes n data up (Ok a) :: ESleep (NodesSyncWait o) :: tD /\
         Forall (fun e => isDownloadBytes e = false) tU /\
         Forall (downloadEvent a) tD).
Proof.
  intros w. unfold iteration.
  destruct (Perm Rand Intn rnd Size) as [perm rnd1].
  unfold checkDone. rewrite bind_assoc, bind_call.
  destruct (ctxDoneOrDefault env w) as [[|] w1]; cbn [fst snd].
  { rewrite bind_returns. left. by repeat constructor. }
  rewrite bind_ret_l, bind_emit. cbn [fst snd]. unfold index.
  destruct (perm !! 0%nat) as [txIdx|]; [|left; by repeat constructor].
  rewrite bind_ret_l.
  destruct (perm !! 1%nat) as [rxIdx|]; [|left; by repeat constructor].
  rewrite bind_ret_l.
  destruct (txIdx =? rxIdx)%nat; [left; by repeat constructor|].
  destruct (NodeNames !! txIdx) as [txName|]; [|left; by repeat constructor].
  rewrite bind_ret_l.
  destruct (NodeNames !! rxIdx) as [rxName|]; [|left; by repeat constructor].
  rewrite bind_ret_l.
  destruct ((ContentSize o <? 0)%Z || (maxAlloc <? ContentSize o)%Z); [left; by repeat constructor|].
  rewrite bind_call.
  destruct (cryptoRead env (ContentSize o) w1) as [[txData|e] w2]; cbn [fst snd].
  2:{ left. by repeat constructor. }
  pose proof (uploadRetries_last 3 o clients txName txData ZeroAddress 0 w2)
    as [Hq Hlast].
  destruct (uploadRetries env 3 o clients txName txData ZeroAddress 0 w2)
    as [[[[address txDuration]|r|msg|] w3] t1] eqn:E; cbn [fst snd] in *.
  2:{ rewrite (bind_Return _ _ _ _ _ _ E). left. by repeat constructor. }
  2:{ rewrite (bind_Panic _ _ _ _ _ _ E). left. by repeat constructor. }
  2:{ rewrite (bind_Running _ _ _ _ _ E). left. by repeat constructor. }
  rewrite (bind_Next _ _ _ _ _ _ E). cbn [fst snd].
  destruct (Z.eqb_spec txDuration 0) as [->|Hne].
  { left. cbn. rewrite app_nil_r. by repeat constructor. }
  destruct (Hlast _ _ eq_refl Hne) as [(_ & _ & Hx)|(t' & n & up & ->)];
    [by rewrite Hx in Hne|].
  unfold pause. rewrite bind_call. cbn [fst snd].
  pose proof (downloadRetries_events 3 o clients rxName address txData 0
                (sleep env (NodesSyncWait o) w3).2) as Hd.
  match goal with
  | |- context [bind ?m _ ?w0] => destruct (m w0) as [[oD w4] tD] eqn:ED
  end.
  cbn [snd] in Hd.
  right.
  exists (ECtxDone AtIteration false :: EPerm perm
            :: ECryptoRead (ContentSize o) (Ok txData) :: t'), n, txData, up, address.
  exists tD. split.
  - destruct oD as [[]|r|msg|].
    + rewrite (bind_Next _ _ _ _ _ _ ED). cbn.
      rewrite app_nil_r, <- !app_assoc. done.
    + rewrite (bind_Return _ _ _ _ _ _ ED). cbn. by rewrite <- !app_assoc.
    + rewrite (bind_Panic _ _ _ _ _ _ ED). cbn. by rewrite <- !app_assoc.
    + rewrite (bind_Running _ _ _ _ _ ED). cbn. by rewrite <- !app_assoc.
  - split; [|done]. repeat (constructor; [done|]).
    by apply Forall_app in Hq as [? _].
Qed.

Lemma quiet_bind_ret {R A B} (P : Event -> Prop) (a : A)
    (f : A -> M W Event R B) :
  quiet P (f a) -> quiet P (bind (ret a) f).
Proof. intros H w. rewrite bind_ret_l. apply H. Qed.

Lemma quiet_bind_panic {R A B} (P : Event -> Prop) msg
    (f : A -> M W Event R B) :
  quiet P (bind (panic msg) f).
Proof. intros w. rewrite bind_panic. constructor. Qed.

Lemma uploadRetries_roles (P : Event -> Prop) retries o clients txName txData
    address txDuration :
  (forall cp b, P (ECtxDone cp b)) ->
  (forall d, P (ESleep d)) ->
  (forall n r, clients !! txName = Some n -> P (EGetOrCreateBatch n r)) ->
  (forall n data up r, clients !! txName = Some n -> P (EUploadBytes n data up r)) ->
  quiet P (uploadRetries env retries o clients txName txData address txDuration).
Proof.
  intros Hc Hs Hb Hu. revert address txDuration.
  induction retries as [|retries IH]; intros address txDuration;
    cbn [uploadRetries]; [apply quiet_ret|].
  destruct (txDuration =? 0)%Z; [|apply quiet_ret].
  unfold checkDone, upload, pause.
  destruct (clients !! txName) as [client|] eqn:Ec; cbn [deref].
  all: repeat first
    [ apply IH | apply quiet_bind_ret | apply quiet_ret | apply quiet_returns | apply quiet_panic
    | apply quiet_ask
    | apply quiet_call; intros; first [apply Hc|apply Hs|by apply Hb|by apply Hu]
    | apply quiet_bind; [|intros] | apply quiet_invoke
    | match goal with
      | |- quiet _ (match ?x with _ => _ end) => destruct x
      end ].
Qed.

Lemma downloadRetries_roles (P : Event -> Prop) retries o clients rxName address
    txData rxDuration :
  (forall cp b, P (ECtxDone cp b)) ->
  (forall n a r, clients !! rxName = Some n -> P (EDownloadBytes n a r)) ->
  quiet P (downloadRetries env retries o clients rxName address txData rxDuration).
Proof.
  intros Hc Hd. revert rxDuration.
  induction retries as [|retries IH]; intros rxDuration;
    cbn [downloadRetries]; [apply quiet_ret|].
  destruct (rxDuration =? 0)%Z; [|apply quiet_ret].
  unfold checkDoneOrAfter, download.
  destruct (clients !! rxName) as [client|] eqn:Ec; cbn [deref].
  all: repeat first
    [ apply IH | apply quiet_bind_ret | apply quiet_ret | apply quiet_returns | apply quiet_panic
    | apply quiet_ask
    | apply quiet_call; intros; first [apply Hc|by apply Hd]
    | apply quiet_bind; [|intros] | apply quiet_invoke
    | match goal with
      | |- quiet _ (match ?x with _ => _ end) => destruct x
      end ].
Qed.

Lemma permLoop_length k i m r :
  length (permLoop Rand Intn k i m r).1 = length m.
Proof.
  revert i m r. induction k as [|k IH]; intros i m r; cbn [permLoop]; [done|].
  destruct (Intn r (i + 1)) as [j r']. by rewrite IH, !length_insert.
Qed.

Lemma Perm_length r n : length (Perm Rand Intn r n).1 = n.
Proof. unfold Perm. by rewrite permLoop_length, length_replicate. Qed.

End Check.

(** X9.  One round of the smoke check asks for a postage batch at most
    three times, uploads at most three times and downloads at most three
    times. *)
Theorem round_attempts_bounded {W : Type} (env : Env W) (Rand : Type)
    (Intn : Rand -> nat -> nat * Rand) (Size : nat) (NodeNames : list string)
    (o : Options) (clients : gmap string Client) (rnd : Rand) (w : W) :
  let t := trace (iteration env Rand Intn Size NodeNames o clients rnd w) in
  (countEvents isGetOrCreateBatch t <= 3)%nat /\
  (countEvents isUploadBytes t <= 3)%nat /\
  (countEvents isDownloadBytes t <= 3)%nat.
Proof.
  cbn zeta. split; [|split].
  - apply (iteration_tally env Rand Intn Size NodeNames isGetOrCreateBatch 1 0);
      try done.
    + intros o' cl c data w'. 
      destruct (upload_result env o' cl c data w') as [[->|[(n & r & ->)|(n & b & up & r & ->)]] _];
        cbn; lia.
    + intros cl c addr w'.
      destruct (download_result env cl c addr w') as [->|(n & r & ->)]; cbn; lia.
  - apply (iteration_tally env Rand Intn Size NodeNames isUploadBytes 1 0);
      try done.
    + intros o' cl c data w'. 
      destruct (upload_result env o' cl c data w') as [[->|[(n & r & ->)|(n & b & up & r & ->)]] _];
        cbn; lia.
    + intros cl c addr w'.
      destruct (download_result env cl c addr w') as [->|(n & r & ->)]; cbn; lia.
  - apply (iteration_tally env Rand Intn Size NodeNames isDownloadBytes 0 1);
      try done.
    + intros o' cl c data w'. 
      destruct (upload_result env o' cl c data w') as [[->|[(n & r & ->)|(n & b & up & r & ->)]] _];
        cbn; lia.
    + intros cl c addr w'.
      destruct (download_result env cl c addr w') as [->|(n & r & ->)]; cbn; lia.
Qed.

(** X10.  [Run] of the smoke check returns an error only when
    [cluster.NodesClients] fails, and then it is that error and nothing
    else was done.  Failed uploads and downloads never make it return an
    error: once the clients are known the run ends by returning nil, or
    panics, or is still going when the budget of rounds is used up. *)
Theorem Run_failure_only_from_lookup {W : Type} (env : Env W) (Rand : Type)
    (Intn : Rand -> nat -> nat * Rand) (PseudoGenerator : Z -> Rand)
    (Size : nat) (NodeNames : list string) (fuel : nat) (o : Options) (w : W) :
  let run := Run env Rand Intn PseudoGenerator Size NodeNames fuel o w in
  outcome run = Return None \/
  (exists e, outcome run = Return (Some e) /\ trace run = [ENodesClients (Err e)]) \/
  (exists msg, outcome run = Panic msg) \/
  outcome run = Running.
Proof.
  cbn zeta. unfold Run. rewrite bind_call.
  destruct (nodesClients env w) as [[clients|e] w1]; cbn [fst snd].
  2:{ right. left. by exists e. }
  unfold pause. rewrite bind_call. cbn [fst snd].
  pose proof (iterations_noFailure env Rand Intn Size NodeNames fuel o clients
                (PseudoGenerator (RndSeed o)) (sleep env (5 * Second) w1).2) as Hk.
  unfold noFailure in Hk.
  match goal with
  | |- context [bind ?m _ ?w0] => destruct (m w0) as [[oI w2] tI] eqn:EI
  end.
  cbn [fst] in Hk. unfold outcome.
  destruct oI as [[]|[e|]|msg|].
  - rewrite (bind_Next _ _ _ _ _ _ EI). by left.
  - by destruct (Hk e).
  - rewrite (bind_Return _ _ _ _ _ _ EI). by left.
  - rewrite (bind_Panic _ _ _ _ _ _ EI). right. right. left. by exists msg.
  - rewrite (bind_Running _ _ _ _ _ EI). by do 3 right.
Qed.

(** X11.  In a round of the smoke check every download asks for the
    address that the last upload of the round returned: before the
    download come a successful [UploadBytes] that returned this address,
    directly followed by the sleep of [NodesSyncWait], and no further
    upload. *)
Theorem downloads_follow_upload {W : Type} (env : Env W) (Rand : Type)
    (Intn : Rand -> nat -> nat * Rand) (Size : nat) (NodeNames : list string)
    (o : Options) (clients : gmap string Client) (rnd : Rand) (w : W)
    (pre post : list Event) (node : Client) (a : Address) (r : result Bytes) :
  trace (iteration env Rand Intn Size NodeNames o clients rnd w)
    = pre ++ EDownloadBytes node a r :: post ->
  exists pre1 pre2 uploader data up,
    pre = pre1 ++ EUploadBytes uploader data up (Ok a)
            :: ESleep (NodesSyncWait o) :: pre2 /\
    Forall (fun e => isUploadBytes e = false) pre2.
Proof.
  intros Heq.
  destruct (iteration_transfer env Rand Intn Size NodeNames o clients rnd w)
    as [Hnone|(tU & n & data & up & a' & tD & Ht & HU & HD)].
  - exfalso. unfold trace in Heq. rewrite Heq in Hnone.
    apply Forall_app in Hnone as [_ Hnone]. by apply Forall_cons in Hnone as [? _].
  - unfold trace in Heq. rewrite Ht in Heq.
    change (tU ++ EUploadBytes n data up (Ok a') :: ESleep (NodesSyncWait o) :: tD)
      with (tU ++ [EUploadBytes n data up (Ok a'); ESleep (NodesSyncWait o)] ++ tD)
      in Heq.
    rewrite app_assoc in Heq.
    apply (split_after (fun e => isDownloadBytes e = false)) in Heq
      as (pre2 & -> & Heq); [| |done].
    2:{ apply Forall_app. split; [done|]. by repeat constructor. }
    rewrite Heq in HD. apply Forall_app in HD as [Hpre2 HD].
    apply Forall_cons in HD as [Ha _]. cbn in Ha. subst a'.
    exists tU, pre2, n, data, up. split; [by rewrite <- app_assoc|].
    eapply Forall_impl; [exact Hpre2|]. by intros [].
Qed.

Lemma downloads_follow_upload_witness :
  let t := trace (iteration (healthy 20) nat labIntn 3 labNodeNames
                    labSmokeOptions labClients 7 0%nat) in
  t = take 8 t ++ EDownloadBytes "bee-0" [x2a; x2a; x2a; x2a]
                    (Ok [x2a; x2a; x2a; x2a]) :: [] /\
  exists pre1 pre2 uploader data up,
    take 8 t = pre1 ++ EUploadBytes uploader data up (Ok [x2a; x2a; x2a; x2a])
                 :: ESleep (NodesSyncWait labSmokeOptions) :: pre2 /\
    Forall (fun e => isUploadBytes e = false) pre2.
Proof.
  cbn zeta. split; [by vm_compute|].
  apply (downloads_follow_upload (healthy 20) nat labIntn 3 labNodeNames
           labSmokeOptions labClients 7 0%nat _ [] "bee-0" [x2a; x2a; x2a; x2a]
           (Ok [x2a; x2a; x2a; x2a])).
  by vm_compute.
Defined.

(** X12.  On a cluster of fewer than two nodes the first round of the
    smoke check panics: when [cluster.NodesClients] succeeded and the
    context is not done at the start of the round, [Run] draws a
    permutation of the cluster size and panics on [perm[0]] or
    [perm[1]], before any node is contacted. *)
Theorem too_few_nodes_panics {W : Type} (env : Env W) (Rand : Type)
    (Intn : Rand -> nat -> nat * Rand) (PseudoGenerator : Z -> Rand)
    (Size : nat) (NodeNames : list string) (fuel : nat) (o : Options) (w : W)
    (clients : gmap string Client) :
  (Size < 2)%nat ->
  (nodesClients env w).1 = Ok clients ->
  (ctxDoneOrDefault env
     (sleep env (5 * Second) (nodesClients env w).2).2).1 = false ->
  let run := Run env Rand Intn PseudoGenerator Size NodeNames (S fuel) o w in
  outcome run = Panic "index out of range" /\
  trace run = [ENodesClients (Ok clients); ESleep (5 * Second);
               ECtxDone AtIteration false;
               EPerm (Perm Rand Intn (PseudoGenerator (RndSeed o)) Size).1].
Proof.
  intros Hsize Hc Hctx. cbn zeta. unfold Run. rewrite bind_call, Hc.
  unfold pause. rewrite bind_call. cbn [fst snd iterations].
  rewrite bind_assoc. unfold iteration.
  pose proof (Perm_length Rand Intn (PseudoGenerator (RndSeed o)) Size) as Hlen.
  destruct (Perm Rand Intn (PseudoGenerator (RndSeed o)) Size) as [perm rnd1].
  cbn [fst] in *.
  unfold checkDone. rewrite !bind_assoc, bind_call, Hctx, bind_ret_l.
  rewrite bind_assoc, bind_emit. unfold index.
  destruct perm as [|tx [|rx perm]]; cbn in Hlen; [| |lia].
  - cbn. done.
  - cbn. done.
Qed.

Lemma too_few_nodes_panics_witness :
  let run := Run (healthy 20) nat labIntn labPseudoGenerator 1 ["bee-0"] 5
               labSmokeOptions 0%nat in
  outcome run = Panic "index out of range" /\
  trace run = [ENodesClients (Ok labClients); ESleep (5 * Second);
               ECtxDone AtIteration false;
               EPerm (Perm nat labIntn
                        (labPseudoGenerator (RndSeed labSmokeOptions)) 1).1].
Proof.
  apply (too_few_nodes_panics (healthy 20) nat labIntn labPseudoGenerator 1
           ["bee-0"] 4 labSmokeOptions 0%nat labClients).
  - lia.
  - reflexivity.
  - reflexivity.
Defined.

(** X13.  In a round of the smoke check every postage-batch request and
    every upload goes to the client registered under the node name at
    index [perm[0]], and every download to the client registered under
    the node name at index [perm[1]], for the permutation drawn in that
    round. *)
Theorem round_uses_selected_nodes {W : Type} (env : Env W) (Rand : Type)
    (Intn : Rand -> nat -> nat * Rand) (Size : nat) (NodeNames : list string)
    (o : Options) (clients : gmap string Client) (rnd : Rand) (w : W) :
  Forall (roleEvent clients NodeNames (Perm Rand Intn rnd Size).1)
    (trace (iteration env Rand Intn Size NodeNames o clients rnd w)).
Proof.
  unfold trace. revert w.
  change (quiet (roleEvent clients NodeNames (Perm Rand Intn rnd Size).1)
            (iteration env Rand Intn Size NodeNames o clients rnd)).
  unfold iteration. destruct (Perm Rand Intn rnd Size) as [perm rnd']. cbn [fst].
  unfold checkDone.
  apply quiet_bind.
  { apply quiet_bind; [by apply quiet_call|].
    intros [|]; [apply quiet_returns|apply quiet_ret]. }
  intros _. apply quiet_bind; [by apply quiet_emit|intros _].
  unfold index.
  destruct (perm !! 0%nat) as [txIdx|] eqn:E0;
    [|apply quiet_bind_panic].
  apply quiet_bind_ret.
  destruct (perm !! 1%nat) as [rxIdx|] eqn:E1;
    [|apply quiet_bind_panic].
  apply quiet_bind_ret.
  destruct (txIdx =? rxIdx)%nat; [apply quiet_ret|].
  destruct (NodeNames !! txIdx) as [txName|] eqn:Etx;
    [|apply quiet_bind_panic].
  apply quiet_bind_ret.
  destruct (NodeNames !! rxIdx) as [rxName|] eqn:Erx;
    [|apply quiet_bind_panic].
  apply quiet_bind_ret.
  destruct ((ContentSize o <? 0)%Z || (maxAlloc <? ContentSize o)%Z); [apply quiet_panic|].
  apply quiet_bind; [by apply quiet_call|intros [txData|e]]; [|apply quiet_ret].
  apply quiet_bind; [|intros [address txDuration]].
  { apply uploadRetries_roles; try done.
    - intros n r Hn. by exists txIdx, txName.
    - intros n data up r Hn. by exists txIdx, txName. }
  destruct (txDuration =? 0)%Z; [apply quiet_ret|].
  apply quiet_bind; [by apply quiet_call|intros _].
  apply quiet_bind; [|intros _; apply quiet_ret].
  apply downloadRetries_roles; try done.
  intros n a r Hn. by exists rxIdx, rxName.
Qed.

End SmokeRoundsFacts.

(** ** More facts about the light-node pushsync check *)

Module LightNodesFacts.
Import AddressSpace Topology Effects Bee Pushsync Observations LightNodes.
Import EffectsFacts TopologyFacts PushsyncFacts TallyFacts Lab.

Section Check.
Context {W : Type}.
Variable env : Env W.
Variable Rand : Type.
Variable PseudoGenerators : Z -> Z -> list Rand.
Variable NewRandomChunk : Rand -> result Chunk * Rand.
Variable LightNodeNames : list string.

Lemma uploadRetry_run {R} n o uploader chunk batchID (last0 : result Address) w :
  let up := {| Pin := false; BatchID := batchID; Direct := false |} in
  let run := (uploadRetry env n o uploader chunk batchID last0
                : M W Event R (result Address)) w in
  exists errs,
    (length errs = n /\
     trace run = failedUploads uploader (Data chunk) up (RetryDelay o) errs /\
     outcome run = Next (match last errs with Some e => Err e | None => last0 end)) \/
    ((length errs < n)%nat /\
     exists ref,
       trace run = failedUploads uploader (Data chunk) up (RetryDelay o) errs
                   ++ [EUploadChunk uploader (Data chunk) up (Ok ref)] /\
       outcome run = Next (Ok ref)).
Proof.
  cbn zeta. revert last0 w. induction n as [|n IH]; intros last0 w; cbn [uploadRetry].
  { exists []. left. done. }
  rewrite bind_call.
  destruct (uploadChunk env uploader (Data chunk) _ w) as [[ref|e] w1]; cbn [fst snd].
  - exists []. right. split; [cbn; lia|]. exists ref. done.
  - unfold pause. rewrite bind_call. cbn [fst snd].
    destruct (IH (Err e) (sleep env (RetryDelay o) w1).2)
      as [errs [(Hl & Ht & Ho)|(Hl & ref & Ht & Ho)]].
    + exists (e :: errs). left. unfold trace, outcome in *. cbn [fst snd].
      split; [cbn; lia|]. split; [cbn; by rewrite Ht|].
      rewrite Ho. destruct errs as [|e' errs]; [done|].
      change (last (e :: e' :: errs)) with (last (e' :: errs)).
      destruct (last (e' :: errs)) eqn:El; [done|]. by apply last_None in El.
    + exists (e :: errs). right. unfold trace, outcome in *. cbn [fst snd].
      split; [cbn; lia|]. exists ref. split; [cbn; by rewrite Ht|done].
Qed.

Lemma namesNode_sequential names : sequential (namesNode names).
Proof. split; [done|]. intros t1 s t2 _ H. exact H. Qed.

Lemma namesNode_mono names names' s t :
  names ⊆ names' -> namesNode names s t -> namesNode names' s t.
Proof.
  intros Hsub H e He. destruct (H e He) as (n & rest & Hin & ->).
  exists n, rest. split; [by apply Hsub|done].
Qed.

Lemma namesNode_falls {A} names (m : M W Event (option string) A) :
  (forall w e, (m w).1.1 = Return (Some e) ->
     exists nodeName rest, nodeName ∈ names /\ e = "node " +:+ nodeName +:+ rest) ->
  keeps (namesNode names) m.
Proof.
  intros H w e Hs. specialize (H w).
  destruct ((m w).1.1) as [a|r|msg|]; cbn in Hs; try done.
  injection Hs as ->. by apply H.
Qed.

Lemma namesNode_quiet {A} names (m : M W Event (option string) A) :
  (forall w r, (m w).1.1 <> Return r) -> keeps (namesNode names) m.
Proof. intros H. apply namesNode_falls. intros w e He. by destruct (H w (Some e)). Qed.

Lemma fallsThrough_sequential {R} : sequential (@fallsThrough R).
Proof. split; [done|]. intros t1 s t2 _ H. exact H. Qed.

Lemma fallsThrough_ret {R A} (a : A) : keeps fallsThrough (ret a : M W Event R A).
Proof. by intros w r. Qed.

Lemma fallsThrough_panic {R A} msg : keeps fallsThrough (panic msg : M W Event R A).
Proof. by intros w r. Qed.

Lemma fallsThrough_emit {R} e : keeps fallsThrough (emit e : M W Event R unit).
Proof. by intros w r. Qed.

Lemma fallsThrough_call {R A} (oracle : W -> A * W) (ev : A -> Event) :
  keeps fallsThrough (call oracle ev : M W Event R A).
Proof. intros w r. unfold call. by destruct (oracle w). Qed.

Lemma fallsThrough_ask {R A} (oracle : W -> A * W) :
  keeps fallsThrough (ask oracle : M W Event R A).
Proof. intros w r. unfold ask. by destruct (oracle w). Qed.

Ltac falls IH :=
  repeat first
    [ apply IH | apply fallsThrough_ret | apply fallsThrough_panic
    | apply fallsThrough_emit | apply fallsThrough_call | apply fallsThrough_ask
    | apply keeps_bind; [apply fallsThrough_sequential| |intros]
    | match goal with
      | |- keeps _ (match ?x with _ => _ end) => destruct x
      end ].

Lemma uploadRetry_falls {R} n o uploader chunk batchID last :
  keeps fallsThrough
    (uploadRetry env n o uploader chunk batchID last : M W Event R (result Address)).
Proof.
  revert last. induction n as [|n IH]; intros last; cbn [uploadRetry];
    unfold pause; falls IH.
Qed.

Lemma pollClosest_falls {R} n o node ref synced :
  keeps fallsThrough (pollClosest env n o node ref synced : M W Event R bool).
Proof.
  revert synced. induction n as [|n IH]; intros synced; cbn [pollClosest];
    unfold pause, deref; falls IH.
Qed.

Lemma replicaScan_falls {R} n overlays clients chunk ref skipPeers :
  keeps fallsThrough
    (replicaScan env n overlays clients chunk ref skipPeers : M W Event R bool).
Proof.
  revert skipPeers. induction n as [|n IH]; intros skipPeers; cbn [replicaScan];
    unfold range, deref; falls IH.
Qed.

Lemma namesNode_fallsThrough {A} names (m : M W Event (option string) A) :
  keeps fallsThrough m -> keeps (namesNode names) m.
Proof. intros H w e He. by destruct (H w (Some e)). Qed.

Lemma namesNode_returns {A} names nodeName rest :
  nodeName ∈ names ->
  keeps (namesNode names)
    (returns (Some ("node " +:+ nodeName +:+ rest)) : M W Event (option string) A).
Proof. intros Hin w e [= <-]. by exists nodeName, rest. Qed.

Lemma testCase_namesNode o overlays clients nodeName uploader batchID rnd :
  keeps (namesNode [nodeName])
    (testCase env Rand NewRandomChunk o overlays clients nodeName uploader
       batchID rnd).
Proof.
  assert (Hin : nodeName ∈ [nodeName]) by by left.
  unfold testCase. cbn zeta.
  apply keeps_bind; [apply namesNode_sequential| |intros _].
  { apply namesNode_fallsThrough, fallsThrough_emit. }
  destruct (NewRandomChunk rnd).1 as [chunk|e]; [|by apply namesNode_returns].
  apply keeps_bind; [apply namesNode_sequential| |intros [ref|e]].
  { apply namesNode_fallsThrough, uploadRetry_falls. }
  2:{ by apply namesNode_returns. }
  apply keeps_bind; [apply namesNode_sequential| |intros _].
  { apply namesNode_fallsThrough, fallsThrough_call. }
  apply keeps_bind; [apply namesNode_sequential| |intros r].
  { apply namesNode_fallsThrough, fallsThrough_ask. }
  destruct (ClosestNodeFromMap r chunk []) as [[closestName closestAddress] [e|]];
    [by apply namesNode_returns|].
  apply keeps_bind; [apply namesNode_sequential| |intros synced].
  { apply namesNode_fallsThrough, pollClosest_falls. }
  destruct (negb synced).
  { by apply namesNode_returns. }
  apply keeps_bind; [apply namesNode_sequential| |intros _].
  2:{ apply namesNode_fallsThrough, fallsThrough_ret. }
  unfold checkReplicated.
  apply keeps_bind; [apply namesNode_sequential| |intros []].
  - apply namesNode_fallsThrough, replicaScan_falls.
  - apply namesNode_fallsThrough, fallsThrough_ret.
  - by apply namesNode_returns.
Qed.

Lemma testCases_namesNode n o overlays clients nodeName uploader batchID rnd :
  keeps (namesNode [nodeName])
    (testCases env Rand NewRandomChunk n o overlays clients nodeName uploader
       batchID rnd).
Proof.
  revert rnd. induction n as [|n IH]; intros rnd; cbn [testCases].
  - apply namesNode_fallsThrough, fallsThrough_ret.
  - apply keeps_bind; [apply namesNode_sequential|apply testCase_namesNode|].
    intros rnd'. apply IH.
Qed.

Lemma uploadNode_namesNode o rnds overlays clients i nodeName :
  keeps (namesNode [nodeName])
    (uploadNode env Rand NewRandomChunk o rnds overlays clients i nodeName).
Proof.
  assert (Hin : nodeName ∈ [nodeName]) by by left.
  unfold uploadNode.
  apply keeps_bind; [apply namesNode_sequential| |intros uploader].
  { apply namesNode_fallsThrough. unfold deref. falls I. }
  apply keeps_bind; [apply namesNode_sequential| |intros [batchID|e]].
  { apply namesNode_fallsThrough, fallsThrough_call. }
  2:{ by apply namesNode_returns. }
  destruct (rnds !! i) as [rnd|]; [apply testCases_namesNode|].
  apply namesNode_fallsThrough. falls I.
Qed.

Lemma namesNode_weaken {A} names names' (m : M W Event (option string) A) :
  names ⊆ names' -> keeps (namesNode names) m -> keeps (namesNode names') m.
Proof. intros Hsub H w. eapply namesNode_mono; [exact Hsub|apply H]. Qed.

Lemma uploadNodes_namesNode o rnds overlays clients i names :
  keeps (namesNode names)
    (uploadNodes env Rand NewRandomChunk o rnds overlays clients i names).
Proof.
  revert i. induction names as [|nodeName names IH]; intros i; cbn [uploadNodes].
  - apply namesNode_fallsThrough, fallsThrough_ret.
  - destruct (UploadNodeCount o <=? Z.of_nat i)%Z.
    { apply namesNode_fallsThrough, fallsThrough_ret. }
    apply keeps_bind; [apply namesNode_sequential| |intros _].
    + eapply namesNode_weaken; [|apply uploadNode_namesNode].
      intros x Hx. apply list_elem_of_singleton in Hx as ->. by left.
    + eapply namesNode_weaken; [|apply IH]. intros x Hx. by right.
Qed.

Section Bounds.
Variable p : Event -> bool.
Variable b : nat.
Variable g : nat.
Variable u : nat.
Hypothesis p_sleep : forall x, p (ESleep x) = false.
Hypothesis p_has : forall n a r, p (EHasChunk n a r) = false.
Hypothesis p_batch : forall n r, (countEvents p [EGetOrCreateBatch n r] <= b)%nat.
Hypothesis p_chunk : forall r, (countEvents p [ENewRandomChunk r] <= g)%nat.
Hypothesis p_upload : forall n data up r,
  (countEvents p [EUploadChunk n data up r] <= u)%nat.

Lemma uploadRetry_tally {R} n o uploader chunk batchID last :
  meets (uploadRetry env n o uploader chunk batchID last
           : M W Event R (result Address))
    (fun _ t => (countEvents p t <= n * u)%nat).
Proof.
  revert last. induction n as [|n IH]; intros last; cbn [uploadRetry].
  - apply tally_quiet, quiet_ret.
  - apply (tally_le p _ (u + (0 + n * u))); [lia|].
    apply tally_bind.
    { intros w. unfold call. destruct (uploadChunk env _ _ _ w). apply p_upload. }
    intros [ref|e]; [apply tally_quiet, quiet_ret|].
    apply tally_bind; [by apply tally_quiet, quiet_call|intros _; apply IH].
Qed.

Ltac hush IH :=
  repeat first
    [ apply IH | apply quiet_ret | apply quiet_returns | apply quiet_panic
    | apply quiet_ask | apply quiet_call; intros; done
    | apply quiet_bind; [|intros]
    | match goal with
      | |- quiet _ (match ?x with _ => _ end) => destruct x
      end ].

Lemma pollClosest_hush {R} n o node ref synced :
  quiet (fun e => p e = false)
    (pollClosest env n o node ref synced : M W Event R bool).
Proof.
  revert synced. induction n as [|n IH]; intros synced; cbn [pollClosest];
    unfold pause, deref; hush IH.
Qed.

Lemma replicaScan_hush {R} n overlays clients chunk ref skipPeers :
  quiet (fun e => p e = false)
    (replicaScan env n overlays clients chunk ref skipPeers : M W Event R bool).
Proof.
  revert skipPeers. induction n as [|n IH]; intros skipPeers; cbn [replicaScan];
    unfold range, deref; hush IH.
Qed.

Lemma testCase_tally o overlays clients nodeName uploader batchID rnd :
  meets (testCase env Rand NewRandomChunk o overlays clients nodeName uploader
           batchID rnd)
    (fun _ t => (countEvents p t <= g + 3 * u)%nat).
Proof.
  unfold testCase. cbn zeta.
  apply (tally_le p _ (g + (3 * u + 0))); [lia|].
  apply tally_bind; [intros w; apply p_chunk|intros _].
  destruct (NewRandomChunk rnd).1 as [chunk|e]; [|apply tally_quiet, quiet_returns].
  apply tally_bind; [apply uploadRetry_tally|intros [ref|e]].
  2:{ apply tally_quiet, quiet_returns. }
  apply tally_quiet.
  apply quiet_bind; [by apply quiet_call|intros _].
  apply quiet_bind; [apply quiet_ask|intros r].
  destruct (ClosestNodeFromMap r chunk []) as [[closestName closestAddress] [e|]];
    [apply quiet_returns|].
  apply quiet_bind; [apply pollClosest_hush|intros synced].
  destruct (negb synced); [apply quiet_returns|].
  apply quiet_bind; [|intros _; apply quiet_ret].
  unfold checkReplicated.
  apply quiet_bind; [apply replicaScan_hush|intros []];
    [apply quiet_ret|apply quiet_returns].
Qed.

Lemma testCases_tally n o overlays clients nodeName uploader batchID rnd :
  meets (testCases env Rand NewRandomChunk n o overlays clients nodeName uploader
           batchID rnd)
    (fun _ t => (countEvents p t <= n * (g + 3 * u))%nat).
Proof.
  revert rnd. induction n as [|n IH]; intros rnd; cbn [testCases].
  - apply tally_quiet, quiet_ret.
  - apply (tally_le p _ ((g + 3 * u) + n * (g + 3 * u))); [lia|].
    apply tally_bind; [apply testCase_tally|intros rnd'; apply IH].
Qed.

Lemma uploadNode_tally o rnds overlays clients i nodeName :
  meets (uploadNode env Rand NewRandomChunk o rnds overlays clients i nodeName)
    (fun _ t =>
       (countEvents p t <= b + Z.to_nat (ChunksPerNode o) * (g + 3 * u))%nat).
Proof.
  unfold uploadNode.
  apply (tally_le p _ (0 + (b + Z.to_nat (ChunksPerNode o) * (g + 3 * u)))); [lia|].
  apply tally_bind.
  { apply tally_quiet. unfold deref. destruct (clients !! nodeName);
      [apply quiet_ret|apply quiet_panic]. }
  intros uploader. apply tally_bind.
  { intros w. unfold call. destruct (getOrCreateBatch env _ _ _ _ _ w). apply p_batch. }
  intros [batchID|e]; [|apply tally_quiet, quiet_returns].
  destruct (rnds !! i) as [rnd|]; [apply testCases_tally|].
  apply tally_quiet. destruct (0 <? ChunksPerNode o)%Z;
    [apply quiet_panic|apply quiet_ret].
Qed.

Lemma uploadNodes_tally o rnds overlays clients i names :
  meets (uploadNodes env Rand NewRandomChunk o rnds overlays clients i names)
    (fun _ t =>
       (countEvents p t
        <= (length names `min` Z.to_nat (UploadNodeCount o - Z.of_nat i))
           * (b + Z.to_nat (ChunksPerNode o) * (g + 3 * u)))%nat).
Proof.
  revert i. induction names as [|nodeName names IH]; intros i; cbn [uploadNodes].
  - apply tally_quiet, quiet_ret.
  - destruct (Z.leb_spec (UploadNodeCount o) (Z.of_nat i)) as [Hle|Hgt].
    { apply tally_quiet, quiet_ret. }
    set (per := (b + Z.to_nat (ChunksPerNode o) * (g + 3 * u))%nat).
    apply (tally_le p _
             (per + (length names `min` Z.to_nat (UploadNodeCount o - Z.of_nat (S i)))
                    * per)).
    { cbn [length]. 
      replace (Z.to_nat (UploadNodeCount o - Z.of_nat i))
        with (S (Z.to_nat (UploadNodeCount o - Z.of_nat (S i)))) by lia.
      rewrite <- Nat.succ_min_distr. lia. }
    apply tally_bind; [apply uploadNode_tally|intros _; apply IH].
Qed.

Lemma checkLightChunks_tally o :
  (forall r, p (EOverlays r) = false) ->
  (forall r, p (ENodesClients r) = false) ->
  meets (checkLightChunks env Rand PseudoGenerators NewRandomChunk LightNodeNames o)
    (fun _ t =>
       (countEvents p t
        <= (length LightNodeNames `min` Z.to_nat (UploadNodeCount o))
           * (b + Z.to_nat (ChunksPerNode o) * (g + 3 * u)))%nat).
Proof.
  intros Hov Hcl. unfold checkLightChunks. cbn zeta.
  set (per := (b + Z.to_nat (ChunksPerNode o) * (g + 3 * u))%nat).
  apply (tally_le p _
           (0 + (0 + ((length LightNodeNames
                       `min` Z.to_nat (UploadNodeCount o - Z.of_nat 0)) * per + 0)))).
  { replace (UploadNodeCount o - Z.of_nat 0)%Z with (UploadNodeCount o) by lia. lia. }
  apply tally_bind; [by apply tally_quiet, quiet_call|].
  intros [overlays|e]; [|apply tally_quiet, quiet_returns].
  apply tally_bind; [by apply tally_quiet, quiet_call|].
  intros [clients|e]; [|apply tally_quiet, quiet_returns].
  apply tally_bind; [apply uploadNodes_tally|intros _].
  apply tally_quiet, quiet_returns.
Qed.

End Bounds.

Lemma list_calm (P : Event -> Prop) (e x : Event) (rest pre post : list Event) :
  Forall P rest -> ~ P e ->
  x :: rest = pre ++ e :: post -> pre = [] /\ x = e /\ post = rest.
Proof.
  intros Hrest He Heq. destruct pre as [|y pre]; cbn in Heq.
  - by injection Heq as -> ->.
  - injection Heq as _ Heq. rewrite Heq in Hrest.
    apply Forall_app in Hrest as [_ Hrest]. by apply Forall_cons in Hrest as [? _].
Qed.

End Check.

Lemma filter_none_excluded (snapshot : list (string * Address)) :
  filter (fun ka : string * Address => ka.2 ∉ []) snapshot = snapshot.
Proof.
  induction snapshot as [|ka l IH]; [done|].
  rewrite filter_cons. destruct (decide _) as [|H]; [by rewrite IH|].
  destruct H. apply not_elem_of_nil.
Qed.

Lemma distance_Ok_length x y d : distance x y = Ok d -> length x = length y.
Proof.
  intros H. destruct (decide (length x = length y)) as [|Hne]; [done|].
  by rewrite (AddressSpaceFacts.distance_Err _ _ Hne) in H.
Qed.

Lemma closer_fold_lengths target rest best ka :
  foldM (closer target) rest best = Ok ka ->
  Forall (fun kb : string * Address => length kb.2 = length target) rest.
Proof.
  revert best. induction rest as [|cand rest IH]; intros best; [by constructor|].
  cbn [foldM]. unfold closer at 1.
  destruct (distance cand.2 target) as [dc|e] eqn:Ec; [|done].
  destruct (distance best.2 target) as [db|e]; [|done].
  intros H. constructor; [by eapply distance_Ok_length|]. by eapply IH.
Qed.

(** When [closest] answers on the whole snapshot, every address of the
    snapshot has the length of the target. *)
Lemma closest_lengths (snapshot : Range Address) (target : Address) ka :
  closest snapshot target [] = Ok ka ->
  Forall (fun kb : string * Address => length kb.2 = length target) snapshot.
Proof.
  unfold closest, Range. rewrite filter_none_excluded.
  destruct snapshot as [|first rest]; [done|].
  destruct (distance first.2 target) as [d|e] eqn:Ef; [|done].
  intros H. constructor; [by eapply distance_Ok_length|].
  by eapply closer_fold_lengths.
Qed.

Section Scan.
Context {W : Type}.
Variable env : Env W.
Variable overlays : gmap string Address.
Variable clients : gmap string Client.
Variable chunk : Chunk.
Variable ref : Address.

Hypothesis Hfair : fair_ranges env.
Hypothesis Hlen :
  map_Forall (fun _ a => length a = length (ChunkAddress chunk)) overlays.

Abbreviation target := (ChunkAddress chunk).

Lemma farther_strict k a k' a' :
  overlays !! k = Some a -> overlays !! k' = Some a' -> a' <> a ->
  (xorDistance a target <= xorDistance a' target)%N ->
  (xorDistance a target < xorDistance a' target)%N.
Proof.
  intros Hk Hk' Hne Hle.
  destruct (decide (xorDistance a target = xorDistance a' target)) as [Heq|]; [|lia].
  apply xorDistance_inj_l in Heq; [|exact (Hlen _ _ Hk)|exact (Hlen _ _ Hk')].
  by subst a'.
Qed.

Lemma range_all_lengths (r : Range Address) :
  enumerates overlays r ->
  Forall (fun ka : string * Address => length ka.2 = length target) r.
Proof.
  intros Hr. apply Forall_forall. intros [k a] Hin.
  unfold enumerates in Hr. rewrite Hr in Hin.
  apply elem_of_map_to_list in Hin. exact (Hlen _ _ Hin).
Qed.

Lemma candidates_lookup skip k a :
  (k, a) ∈ candidates overlays skip <-> overlays !! k = Some a /\ a ∉ skip.
Proof.
  unfold candidates. rewrite list_elem_of_filter, elem_of_map_to_list. cbn. tauto.
Qed.

Lemma candidates_fewer skip k a :
  overlays !! k = Some a -> a ∉ skip ->
  (length (candidates overlays (skip ++ [a])) < length (candidates overlays skip))%nat.
Proof.
  intros Hk Ha. unfold candidates.
  rewrite <- (list_filter_filter_l
                (fun ka : string * Address => ka.2 ∉ skip ++ [a])
                (fun ka : string * Address => ka.2 ∉ skip)).
  - apply (length_filter_lt _ _ (k, a)).
    + by apply candidates_lookup.
    + cbn. intros H. apply H. apply elem_of_app. right. by left.
  - intros ka H Hin. apply H. apply elem_of_app. by left.
Qed.

Lemma not_in_snoc (skip : list Address) a x :
  x ∉ skip ++ [a] <-> (x ∉ skip) /\ x <> a.
Proof.
  rewrite elem_of_app, list_elem_of_singleton. tauto.
Qed.

(** The nearest candidate is asked and the scan goes on without it. *)
Lemma scanOrder_cons skip k a node ans vs :
  overlays !! k = Some a -> clients !! k = Some node -> a ∉ skip ->
  (forall k' a', overlays !! k' = Some a' -> a' ∉ skip ->
     (xorDistance a target <= xorDistance a' target)%N) ->
  scanOrder overlays clients target (skip ++ [a]) vs ->
  scanOrder overlays clients target skip
    ({| vName := k; vAddress := a; vClient := node; vAnswer := ans |} :: vs).
Proof.
  intros Hk Hc Ha Hmin (Hsort & Hall & Hfar).
  set (v0 := {| vName := k; vAddress := a; vClient := node; vAnswer := ans |}).
  rewrite Forall_forall in Hall.
  assert (Hnear : forall v, v ∈ vs ->
            (xorDistance a target < xorDistance (vAddress v) target)%N).
  { intros v Hv. destruct (Hall _ Hv) as (Hov & _ & Hout).
    apply not_in_snoc in Hout as [Hout Hne].
    eapply farther_strict; [exact Hk|exact Hov|done|]. by eapply Hmin. }
  split; [|split].
  - constructor; [done|]. by apply Forall_forall.
  - constructor; [done|]. apply Forall_forall. intros v Hv.
    destruct (Hall _ Hv) as (? & ? & Hout). by apply not_in_snoc in Hout as [? _].
  - intros k' a' Hk' Ha' Hnot v Hv.
    assert (Hne : a' <> a) by (intros ->; by apply (Hnot v0 ltac:(by left))).
    apply elem_of_cons in Hv as [->|Hv].
    + eapply farther_strict; [exact Hk|exact Hk'|done|by eapply Hmin].
    + apply (Hfar k' a' Hk'); [by apply not_in_snoc|intros u Hu; apply Hnot; by right
                              |done].
Qed.

Lemma scanResult_cons {R} skip k a node ans vs (out : flow R bool) :
  overlays !! k = Some a -> a ∉ skip -> ans <> Ok true ->
  scanResult overlays clients (skip ++ [a]) vs out ->
  scanResult overlays clients skip
    ({| vName := k; vAddress := a; vClient := node; vAnswer := ans |} :: vs) out.
Proof.
  intros Hk Ha Hans. set (v0 := {| vName := k |}).
  destruct out as [[|]|r|msg|]; cbn; try done.
  - intros (done & v & -> & Hv & Hdone). exists (v0 :: done), v.
    repeat split; try done. by constructor.
  - intros [Hnone Hcover]. split; [by constructor|].
    intros k' a' Hk' Ha'.
    destruct (decide (a' = a)) as [->|Hne]; [exists v0; split; [by left|done]|].
    destruct (Hcover k' a' Hk') as (v & Hv & Hva); [by apply not_in_snoc|].
    exists v. split; [by right|done].
  - intros (-> & Hnone & k' & a' & Hk' & Ha' & Hc). split; [done|].
    split; [by constructor|]. exists k', a'.
    by apply not_in_snoc in Ha' as [? _].
Qed.

(** The loop [for range overlays] with at least as many rounds left as
    there are candidates. *)
Lemma replicaScan_full {R} n :
  forall skip w,
    (length (candidates overlays skip) <= n)%nat ->
    let x := (replicaScan env n overlays clients chunk ref skip
                : M W Event R bool) w in
    exists vs,
      x.2 = map (asked ref) vs /\
      scanOrder overlays clients target skip vs /\
      scanResult overlays clients skip vs x.1.1.
Proof.
  induction n as [|n IH]; intros skip w Hn; cbn zeta.
  - exists []. split; [done|]. split.
    { split; [constructor|]. split; [constructor|].
      intros ? ? ? ? ? v Hv. by apply elem_of_nil in Hv. }
    cbn. split; [constructor|]. intros k a Hk Ha. exfalso.
    assert (Hin : (k, a) ∈ candidates overlays skip) by by apply candidates_lookup.
    destruct (candidates overlays skip); [by apply elem_of_nil in Hin|cbn in Hn; lia].
  - cbn [replicaScan]. unfold range. rewrite bind_ask.
    pose proof (Hfair _ overlays w) as Hr.
    destruct (rangeMap env overlays w) as [r w1]. cbn [fst snd] in *.
    unfold ClosestNodeFromMap.
    pose proof (closest_spec r target skip (range_all_lengths r Hr)) as Hc.
    destruct (closest r target skip) as [[k a]|e].
    + destruct Hc as (Hin & Hout & Hmin). cbn in Hout.
      unfold enumerates in Hr. rewrite Hr in Hin.
      apply elem_of_map_to_list in Hin.
      assert (Hmin' : forall k' a', overlays !! k' = Some a' -> a' ∉ skip ->
                (xorDistance a target <= xorDistance a' target)%N).
      { intros k' a' Hk' Ha'. apply (Hmin (k', a')); [|done].
        rewrite Hr. by apply elem_of_map_to_list. }
      destruct (clients !! k) as [node|] eqn:Hnode; cbn [deref].
      2:{ rewrite bind_panic. exists []. split; [done|]. split.
          { split; [constructor|]. split; [constructor|].
            intros ? ? ? ? ? v Hv. by apply elem_of_nil in Hv. }
          cbn. split; [done|]. split; [constructor|]. by exists k, a. }
      rewrite bind_ret_l, bind_call.
      destruct (hasChunk env node ref w1) as [ans w2]. cbn [fst snd].
      assert (Hsmall : (length (candidates overlays (skip ++ [a])) <= n)%nat).
      { pose proof (candidates_fewer skip k a Hin Hout). lia. }
      set (v0 := {| vName := k; vAddress := a; vClient := node; vAnswer := ans |}).
      assert (Hfound : ans = Ok true ->
        scanOrder overlays clients target skip [v0] /\
        scanResult (R:=R) overlays clients skip [v0] (Next true)).
      { intros ->. split.
        - apply scanOrder_cons; try done.
          split; [constructor|]. split; [constructor|].
          intros ? ? ? ? ? v Hv. by apply elem_of_nil in Hv.
        - exists [], v0. by repeat split. }
      assert (Hgo : ans <> Ok true ->
        exists vs,
          EHasChunk node ref ans
            :: ((replicaScan env n overlays clients chunk ref (skip ++ [a])
                   : M W Event R bool) w2).2 = map (asked ref) vs /\
          scanOrder overlays clients target skip vs /\
          scanResult overlays clients skip vs
            ((replicaScan env n overlays clients chunk ref (skip ++ [a])
                : M W Event R bool) w2).1.1).
      { intros Hans. destruct (IH (skip ++ [a]) w2 Hsmall) as (vs & Ht & Ho & Hres).
        exists (v0 :: vs). split; [cbn; by rewrite Ht|].
        split; [by apply scanOrder_cons|by apply scanResult_cons]. }
      destruct ans as [[|]|e].
      * exists [v0]. destruct (Hfound eq_refl). by split.
      * by apply Hgo.
      * by apply Hgo.
    + destruct Hc as [_ Hnone].
      assert (Hnone' : forall k a, overlays !! k = Some a -> a ∈ skip).
      { intros k a Hk. apply (Hnone (k, a)). unfold enumerates in Hr.
        rewrite Hr. by apply elem_of_map_to_list. }
      assert (Hsmall : (length (candidates overlays (skip ++ [ZeroAddress])) <= n)%nat).
      { destruct (candidates overlays (skip ++ [ZeroAddress])) as [|[k a] l] eqn:Hcand;
          [cbn; lia|].
        assert (Hka : (k, a) ∈ candidates overlays (skip ++ [ZeroAddress]))
          by (rewrite Hcand; by left).
        apply candidates_lookup in Hka as [Hk Ha]. exfalso.
        apply Ha, elem_of_app. left. by eapply Hnone'. }
      destruct (IH (skip ++ [ZeroAddress]) w1 Hsmall) as (vs & Ht & Ho & Hres).
      destruct vs as [|v vs].
      2:{ destruct Ho as (_ & Hall & _).
          apply Forall_cons in Hall as [(Hov & _ & Hout) _]. exfalso.
          apply Hout, elem_of_app. left. by eapply Hnone'. }
      exists []. split; [done|]. split.
      { split; [constructor|]. split; [constructor|].
        intros ? ? ? ? ? v Hv. by apply elem_of_nil in Hv. }
      destruct ((replicaScan env n overlays clients chunk ref
                   (skip ++ [ZeroAddress]) : M W Event R bool) w1).1.1
        as [[|]|r0|msg|]; cbn in Hres |- *.
      * destruct Hres as (done & v & Heq & _). by destruct done.
      * split; [constructor|]. intros k a Hk Ha. by destruct Ha; eapply Hnone'.
      * done.
      * destruct Hres as (_ & _ & k & a & Hk & Ha & _). exfalso.
        apply Ha, elem_of_app. left. by eapply Hnone'.
      * done.
Qed.

End Scan.

Lemma scanPolicy_sequential overlays clients delay :
  sequential (scanPolicy overlays clients delay).
Proof.
  split.
  - split; [done|]. intros pre chunk post Heq. by destruct pre.
  - intros t1 s t2 [N1 H1] [N2 H2]. split.
    { intros e He Hnil. apply app_eq_nil in Hnil as [_ ->]. by apply (N2 e). }
    intros pre chunk post Heq.
    apply app_split in Heq as [(post1 & -> & ->)|(pre2 & -> & ->)].
    + destruct (H1 _ _ _ eq_refl) as [(_ & Hs & _)|H]; [done|]. right.
      destruct H as (uploader & up & errs & ref & closestName & closestAddress & c
                     & misses & vs & post' & Hb & Hc & -> & Ho & Hend).
      exists uploader, up, errs, ref, closestName, closestAddress, c, misses, vs,
        (post' ++ t2).
      split; [done|]. split; [done|]. split.
      { rewrite <- !app_assoc. cbn. rewrite <- !app_assoc. cbn.
        by rewrite <- !app_assoc. }
      split; [done|].
      destruct Hend as [[Hfound _]|[(_ & _ & _ & ? & ?)|(_ & _ & _ & ?)]];
        [|done|done].
      left. split; [done|]. intros Hnil e He.
      apply app_eq_nil in Hnil as [_ ->]. by apply (N2 e).
    + destruct (H2 _ _ _ eq_refl) as [(Hq & Hs)|H]; [by left|]. by right.
Qed.

Lemma quiet_scanPolicy {W A} overlays clients delay
    (m : M W Event (option string) A) :
  quiet (fun e => drawn e = None) m ->
  (forall w e, (m w).1.1 = Return (Some e) -> (m w).2 <> []) ->
  keeps (scanPolicy overlays clients delay) m.
Proof.
  intros Hq Hn w. split.
  - intros e He. apply (Hn w e).
    destruct ((m w).1.1) as [a|r|msg|]; cbn in He; congruence.
  - intros pre chunk post Heq. exfalso. specialize (Hq w). rewrite Heq in Hq.
    apply Forall_app in Hq as [_ Hq]. by apply Forall_cons in Hq as [? _].
Qed.

Section Cases.
Context {W : Type}.
Variable env : Env W.
Variable Rand : Type.
Variable PseudoGenerators : Z -> Z -> list Rand.
Variable NewRandomChunk : Rand -> result Chunk * Rand.
Variable LightNodeNames : list string.

Lemma pollClosest_full {R} n o node ref w :
  let x := (pollClosest env n o node ref false : M W Event R bool) w in
  (exists c misses,
     node = Some c /\ (length misses < n)%nat /\
     Forall (fun r => r <> Ok true) misses /\
     x.2 = failedPolls c ref (RetryDelay o) misses ++ [EHasChunk c ref (Ok true)] /\
     x.1.1 = Next true) \/
  (Forall (fun e => ~ confirms e) x.2 /\
   (x.1.1 = Next false \/ exists msg, x.1.1 = Panic msg)).
Proof.
  cbn zeta. revert w. induction n as [|n IH]; intros w; cbn [pollClosest].
  { right. split; [constructor|by left]. }
  destruct node as [c|]; cbn [deref].
  2:{ rewrite bind_panic. right. split; [constructor|right; by eexists]. }
  rewrite bind_ret_l, bind_call.
  destruct (hasChunk env c ref w) as [r w1]; cbn [fst snd].
  assert (Hmiss : r <> Ok true ->
    let x := (pollClosest env n o (Some c) ref false : M W Event R bool)
               (sleep env (RetryDelay o) w1).2 in
    (exists c0 misses,
       Some c = Some c0 /\ (length misses < S n)%nat /\
       Forall (fun r => r <> Ok true) misses /\
       EHasChunk c ref r :: ESleep (RetryDelay o) :: x.2
         = failedPolls c0 ref (RetryDelay o) misses ++ [EHasChunk c0 ref (Ok true)] /\
       x.1.1 = Next true) \/
    (Forall (fun e => ~ confirms e)
       (EHasChunk c ref r :: ESleep (RetryDelay o) :: x.2) /\
     (x.1.1 = Next false \/ exists msg, x.1.1 = Panic msg))).
  { intros Hr. cbn zeta.
    destruct (IH (sleep env (RetryDelay o) w1).2)
      as [(c0 & misses & [= <-] & Hl & Hm & Ht & Ho)|[Hq Ho]].
    - left. exists c, (r :: misses). split; [done|]. split; [cbn; lia|].
      split; [by constructor|]. split; [cbn; by rewrite Ht|done].
    - right. split; [|done]. constructor.
      { intros (n0 & a0 & [= _ _ ->]). done. }
      constructor; [by intros (? & ? & ?)|done]. }
  destruct r as [[|]|e]; cbn [fst snd].
  - left. exists c, []. split; [done|]. split; [cbn; lia|]. by split.
  - unfold pause. rewrite bind_call. cbn [fst snd]. by apply Hmiss.
  - unfold pause. rewrite bind_call. cbn [fst snd]. by apply Hmiss.
Qed.

Lemma failedUploads_silent uploader data up delay errs :
  Forall (fun e => ~ confirms e) (failedUploads uploader data up delay errs).
Proof.
  induction errs as [|e errs IH]; cbn; [constructor|].
  constructor; [by intros (? & ? & ?)|]. constructor; [by intros (? & ? & ?)|done].
Qed.

Hypothesis Hfair : fair_ranges env.

Lemma testCase_scan o overlays clients nodeName uploader batchID rnd :
  keeps (scanPolicy overlays clients (RetryDelay o))
    (testCase env Rand NewRandomChunk o overlays clients nodeName uploader
       batchID rnd).
Proof.
  intros w. unfold testCase. cbn zeta. rewrite bind_emit. cbn [fst snd].
  destruct (NewRandomChunk rnd) as [[chunk|e] rnd1]; cbn [fst snd].
  2:{ cbn. split; [done|]. intros pre chunk post Heq.
      destruct pre as [|? [|? ?]]; done. }
  match goal with
  | |- scanPolicy _ _ _ (status_of (?rest w).1.1) _ =>
      set (x := rest w);
      assert (Hx :
        Forall (fun e => drawn e = None) x.2 /\
        ((Forall (fun e => ~ confirms e) x.2 /\
          status_of x.1.1 <> SNext /\ status_of x.1.1 <> SReturn None) \/
         exists up errs ref closestName closestAddress c misses vs,
           ((length errs < 3)%nat /\ (length misses < 3)%nat /\
            Forall (fun r => r <> Ok true) misses) /\
           (overlays !! closestName = Some closestAddress /\
            clients !! closestName = Some c /\
            forall k a, overlays !! k = Some a ->
              (xorDistance closestAddress (ChunkAddress chunk)
               <= xorDistance a (ChunkAddress chunk))%N) /\
           x.2 = failedUploads uploader (Data chunk) up (RetryDelay o) errs
                 ++ EUploadChunk uploader (Data chunk) up (Ok ref)
                 :: ESleep (RetryDelay o)
                 :: failedPolls c ref (RetryDelay o) misses
                 ++ EHasChunk c ref (Ok true) :: map (asked ref) vs ++ [] /\
           scanOrder overlays clients (ChunkAddress chunk) [closestAddress] vs /\
           match x.1.1 with
           | Next _ =>
               exists done v,
                 vs = done ++ [v] /\ vAnswer v = Ok true /\
                 Forall (fun u => vAnswer u <> Ok true) done
           | Return r =>
               r = Some (notReplicated nodeName ref) /\
               Forall (fun u => vAnswer u <> Ok true) vs /\
               forall k a, overlays !! k = Some a -> a <> closestAddress ->
                 exists v, v ∈ vs /\ vAddress v = a
           | Panic msg =>
               msg = errNilClient /\
               Forall (fun u => vAnswer u <> Ok true) vs /\
               exists k a,
                 overlays !! k = Some a /\ a <> closestAddress /\
                 clients !! k = None
           | Running => False
           end))
  end.
  2:{ destruct Hx as [Hq Hx]. split; [done|].
      intros pre chunk' post Heq.
      apply (list_calm (fun e => drawn e = None)) in Heq
        as (-> & [= <-] & ->); [|done|done].
      destruct Hx as [Hx|Hx]; [by left|right].
      destruct Hx as (up & errs & ref & closestName & closestAddress & c & misses
                      & vs & Hb & Hc & Ht & Ho & Hend).
      exists uploader, up, errs, ref, closestName, closestAddress, c, misses, vs, [].
      do 4 (split; [done|]).
      destruct (x.1.1) as [a|r|msg|]; cbn [status_of]; [| | |done].
      - left. split; [done|]. by intros _ e.
      - right. left. destruct Hend as (-> & Hn & Hcov).
        split; [done|]. split; [done|]. split; [done|]. by exists nodeName.
      - right. right. destruct Hend as (-> & Hn & Hk). by repeat split. }
  unfold x. clear x.
  pose proof (uploadRetry_run env (R:=option string) 3 o uploader chunk batchID
                (Ok ZeroAddress) w) as Hup.
  pose proof (uploadRetry_draws env (R:=option string) 3 o uploader chunk batchID
                (Ok ZeroAddress) w) as HqU.
  cbn zeta in Hup. unfold trace, outcome in Hup.
  destruct (uploadRetry env 3 o uploader chunk batchID (Ok ZeroAddress) w)
    as [[oU w1] tU] eqn:EU. cbn [fst snd] in Hup, HqU.
  destruct Hup as [errs [(Hl & Ht & Ho)|(Hl & ref & Ht & Ho)]]; subst oU.
  { destruct (last errs) as [e|] eqn:El.
    - rewrite (bind_Next _ _ _ _ _ _ EU). cbn. rewrite app_nil_r.
      split; [done|]. left. subst tU. split; [apply failedUploads_silent|done].
    - apply last_None in El. by subst errs. }
  rewrite (bind_Next _ _ _ _ _ _ EU). cbn [fst snd].
  unfold pause. rewrite bind_call. cbn [fst snd].
  unfold range. rewrite bind_ask.
  set (w2 := (sleep env (RetryDelay o) w1).2).
  pose proof (Hfair _ overlays w2) as Hr.
  destruct (rangeMap env overlays w2) as [r w3]. cbn [fst snd] in *.
  assert (HsilentU : Forall (fun e => ~ confirms e) (tU ++ [ESleep (RetryDelay o)])).
  { subst tU. rewrite <- app_assoc. apply Forall_app.
    split; [apply failedUploads_silent|].
    constructor; [by intros (? & ? & ?)|].
    constructor; [by intros (? & ? & ?)|constructor]. }
  unfold ClosestNodeFromMap.
  destruct (closest r (ChunkAddress chunk) []) as [[closestName closestAddress]|e]
    eqn:Ecl.
  2:{ cbn. split; [apply Forall_app; split; [done|by repeat constructor]|].
      left. by split. }
  assert (Hlen : map_Forall (fun _ a => length a = length (ChunkAddress chunk))
                   overlays).
  { pose proof (closest_lengths _ _ _ Ecl) as Hall. rewrite Forall_forall in Hall.
    intros k a Hk. apply (Hall (k, a)). unfold enumerates in Hr. rewrite Hr.
    by apply elem_of_map_to_list. }
  pose proof (closest_spec r (ChunkAddress chunk) []
                (range_all_lengths overlays chunk Hlen r Hr)) as Hc.
  rewrite Ecl in Hc. destruct Hc as (Hin & _ & Hmin). cbn in Hmin.
  unfold enumerates in Hr. rewrite Hr in Hin. apply elem_of_map_to_list in Hin.
  assert (Hnearest : forall k a, overlays !! k = Some a ->
            (xorDistance closestAddress (ChunkAddress chunk)
             <= xorDistance a (ChunkAddress chunk))%N).
  { intros k a Hk. apply (Hmin (k, a)); [|apply not_elem_of_nil].
    rewrite Hr. by apply elem_of_map_to_list. }
  pose proof (pollClosest_full (R:=option string) 3 o (clients !! closestName) ref
                w3) as Hpoll.
  pose proof (pollClosest_draws env (R:=option string) 3 o (clients !! closestName)
                ref false w3) as HqP.
  cbn zeta in Hpoll.
  destruct (pollClosest env 3 o (clients !! closestName) ref false w3)
    as [[oP w4] tP] eqn:EP. cbn [fst snd] in Hpoll, HqP.
  destruct Hpoll as [(c & misses & Hcl & Hlm & Hm & -> & ->)|[HsilentP Ho]].
  2:{ assert (Hsilent : Forall (fun e => ~ confirms e)
                          (tU ++ ESleep (RetryDelay o) :: tP)).
      { apply Forall_app in HsilentU as [? ?]. apply Forall_app. split; [done|].
        constructor; [by intros (? & ? & ?)|done]. }
      assert (Hdrawn : Forall (fun e => drawn e = None)
                         (tU ++ ESleep (RetryDelay o) :: tP)).
      { apply Forall_app. split; [done|]. by constructor. }
      destruct Ho as [->|[msg ->]].
      - rewrite (bind_Next _ _ _ _ _ _ EP). cbn. rewrite app_nil_r.
        split; [done|]. by left.
      - rewrite (bind_Panic _ _ _ _ _ _ EP). cbn. split; [done|]. by left. }
  rewrite (bind_Next _ _ _ _ _ _ EP). cbn [fst snd negb].
  unfold checkReplicated. rewrite bind_assoc.
  pose proof (replicaScan_full env overlays clients chunk ref Hfair Hlen
                (R:=option string) (size overlays) [closestAddress] w4) as Hscan.
  pose proof (replicaScan_draws env (R:=option string) (size overlays) overlays
                clients chunk ref [closestAddress] w4) as HqS.
  cbn zeta in Hscan.
  destruct (replicaScan env (size overlays) overlays clients chunk ref
              [closestAddress] w4) as [[oS w5] tS] eqn:ES.
  cbn [fst snd] in Hscan, HqS.
  destruct Hscan as (vs & -> & Hord & Hres).
  { unfold candidates. etrans; [apply length_filter|].
    by rewrite length_map_to_list. }
  assert (Hdrawn : forall tail, Forall (fun e => drawn e = None) tail ->
            Forall (fun e => drawn e = None)
              (tU ++ ESleep (RetryDelay o)
                 :: (failedPolls c ref (RetryDelay o) misses
                       ++ [EHasChunk c ref (Ok true)])
                 ++ map (asked ref) vs ++ tail)).
  { intros tail Htail. apply Forall_app. split; [done|]. constructor; [done|].
    apply Forall_app. split; [done|]. by apply Forall_app. }
  assert (Hshape : forall tail,
            tU ++ ESleep (RetryDelay o)
               :: (failedPolls c ref (RetryDelay o) misses
                     ++ [EHasChunk c ref (Ok true)])
               ++ map (asked ref) vs ++ tail
            = failedUploads uploader (Data chunk)
                {| Pin := false; BatchID := batchID; Direct := false |}
                (RetryDelay o) errs
              ++ EUploadChunk uploader (Data chunk)
                   {| Pin := false; BatchID := batchID; Direct := false |} (Ok ref)
              :: ESleep (RetryDelay o)
              :: failedPolls c ref (RetryDelay o) misses
              ++ EHasChunk c ref (Ok true) :: map (asked ref) vs ++ tail).
  { intros tail. subst tU. rewrite <- ?app_assoc. cbn. by rewrite <- ?app_assoc. }
  assert (Hnot : forall a : Address, a <> closestAddress -> a ∉ [closestAddress]).
  { intros a Hne Hx. by apply list_elem_of_singleton in Hx. }
  assert (Hnot' : forall a : Address, a ∉ [closestAddress] -> a <> closestAddress).
  { intros a Hx ->. apply Hx. by left. }
  destruct oS as [[|]|r0|msg|]; cbn in Hres; [| |done| |done].
  - rewrite (bind_Next _ _ _ _ _ _ ES). cbn. rewrite !app_nil_r.
    split; [rewrite <- (app_nil_r (map _ vs)); by apply Hdrawn|]. right.
    exists {| Pin := false; BatchID := batchID; Direct := false |}, errs, ref,
      closestName, closestAddress, c, misses, vs.
    split; [done|]. split; [done|]. split; [|done].
    rewrite <- (Hshape []). by rewrite !app_nil_r.
  - rewrite (bind_Next _ _ _ _ _ _ ES). cbn. rewrite !app_nil_r.
    split; [rewrite <- (app_nil_r (map _ vs)); by apply Hdrawn|]. right.
    exists {| Pin := false; BatchID := batchID; Direct := false |}, errs, ref,
      closestName, closestAddress, c, misses, vs.
    split; [done|]. split; [done|].
    split; [rewrite <- (Hshape []); by rewrite !app_nil_r|]. split; [done|].
    destruct Hres as [Hn Hcov]. split; [done|]. split; [done|].
    intros k a Hk Ha. by apply (Hcov k a Hk), Hnot.
  - rewrite (bind_Panic _ _ _ _ _ _ ES). cbn.
    split; [rewrite <- (app_nil_r (map _ vs)); by apply Hdrawn|]. right.
    exists {| Pin := false; BatchID := batchID; Direct := false |}, errs, ref,
      closestName, closestAddress, c, misses, vs.
    split; [done|]. split; [done|].
    split; [rewrite <- (Hshape []); by rewrite ?app_nil_r|]. split; [done|].
    destruct Hres as (-> & Hn & k & a & Hk & Ha & Hc). split; [done|].
    split; [done|]. exists k, a. split; [done|]. split; [by apply Hnot'|done].
Qed.

Lemma testCases_scan n o overlays clients nodeName uploader batchID rnd :
  keeps (scanPolicy overlays clients (RetryDelay o))
    (testCases env Rand NewRandomChunk n o overlays clients nodeName uploader
       batchID rnd).
Proof.
  revert rnd. induction n as [|n IH]; intros rnd; cbn [testCases].
  - apply quiet_scanPolicy; [apply quiet_ret|done].
  - apply keeps_bind; [apply scanPolicy_sequential|apply testCase_scan|].
    intros rnd'. apply IH.
Qed.

Lemma scanPolicy_after overlays clients delay (e : Event) s t :
  drawn e = None ->
  scanPolicy overlays clients delay s t ->
  scanPolicy overlays clients delay s (e :: t).
Proof.
  intros He H.
  apply (proj2 (scanPolicy_sequential overlays clients delay) [e] s t); [|done].
  split; [done|]. intros pre chunk post Heq.
  destruct pre as [|? [|? ?]]; cbn in Heq; [|done..].
  injection Heq as -> _. done.
Qed.

Lemma uploadNode_scan o rnds overlays clients i nodeName :
  keeps (scanPolicy overlays clients (RetryDelay o))
    (uploadNode env Rand NewRandomChunk o rnds overlays clients i nodeName).
Proof.
  intros w. unfold uploadNode.
  destruct (clients !! nodeName) as [uploader|]; cbn [deref].
  2:{ rewrite bind_panic. cbn. split; [done|]. intros pre ? ? Heq. by destruct pre. }
  rewrite bind_ret_l, bind_call.
  destruct (getOrCreateBatch env uploader _ _ _ _ w) as [[batchID|e] w1];
    cbn [fst snd].
  2:{ cbn. split; [done|]. intros pre ? ? Heq. destruct pre as [|? [|? ?]]; done. }
  apply scanPolicy_after; [done|].
  destruct (rnds !! i) as [rnd|]; [apply testCases_scan|].
  destruct (0 <? ChunksPerNode o)%Z; cbn; (split; [done|]);
    intros pre ? ? Heq; by destruct pre.
Qed.

Lemma uploadNodes_scan o rnds overlays clients i names :
  keeps (scanPolicy overlays clients (RetryDelay o))
    (uploadNodes env Rand NewRandomChunk o rnds overlays clients i names).
Proof.
  revert i. induction names as [|nodeName names IH]; intros i; cbn [uploadNodes].
  - apply quiet_scanPolicy; [apply quiet_ret|done].
  - destruct (UploadNodeCount o <=? Z.of_nat i)%Z.
    { apply quiet_scanPolicy; [apply quiet_ret|done]. }
    apply keeps_bind; [apply scanPolicy_sequential|apply uploadNode_scan|].
    intros _. apply IH.
Qed.

(** The run of [checkLightChunks] once the overlays and the clients are
    known. *)
Lemma checkLightChunks_scan o w overlays clients rest :
  let run := checkLightChunks env Rand PseudoGenerators NewRandomChunk
               LightNodeNames o w in
  trace run = EOverlays (Ok overlays) :: ENodesClients (Ok clients) :: rest ->
  scanPolicy overlays clients (RetryDelay o) (status_of (outcome run)) rest.
Proof.
  cbn zeta. unfold checkLightChunks, trace, outcome. rewrite bind_call.
  destruct (flattenOverlays env (ExcludeNodeGroups o) w) as [[overlays'|e] w1];
    cbn [fst snd]; [|done].
  rewrite bind_call.
  destruct (nodesClients env w1) as [[clients'|e] w2]; cbn [fst snd]; [|done].
  pose proof (uploadNodes_scan o (PseudoGenerators (Seed o) (UploadNodeCount o))
                overlays' clients' 0 LightNodeNames w2) as Hpol.
  match goal with
  | |- context [bind ?m _ ?w0] => destruct (m w0) as [[oU w3] tU] eqn:EU
  end.
  cbn [fst snd] in Hpol.
  destruct oU as [[]|r|msg|].
  - rewrite (bind_Next _ _ _ _ _ _ EU). cbn. rewrite app_nil_r.
    intros [= <- <- <-]. destruct Hpol as [_ Hpol]. split; [done|].
    intros pre chunk post Heq.
    destruct (Hpol _ _ _ Heq) as [(_ & Hs & _)|H]; [done|]. right.
    destruct H as (uploader & up & errs & ref & closestName & closestAddress & c
                   & misses & vs & post' & Hb & Hc & -> & Ho & Hend).
    exists uploader, up, errs, ref, closestName, closestAddress, c, misses, vs, post'.
    do 4 (split; [done|]).
    destruct Hend as [[Hfound _]|[(_ & _ & _ & ? & ?)|(_ & _ & _ & ?)]];
      [|done|done].
    left. split; [done|]. by intros _ e.
  - rewrite (bind_Return _ _ _ _ _ _ EU). cbn. by intros [= <- <- <-].
  - rewrite (bind_Panic _ _ _ _ _ _ EU). cbn. by intros [= <- <- <-].
  - rewrite (bind_Running _ _ _ _ _ EU). cbn. by intros [= <- <- <-].
Qed.

End Cases.

(** X14.  The upload of a chunk from a light node is tried at most
    three times, with a sleep of [RetryDelay] after every failure, the
    last one included.  The first success ends the loop with the
    reference it returned; after three failures the loop ends with the
    error of the third. *)
Theorem uploadRetry_attempts {W : Type} (env : Env W) (R : Type) (o : Options)
    (uploader : Client) (chunk : Chunk) (batchID : string) (w : W) :
  let up := {| Pin := false; BatchID := batchID; Direct := false |} in
  let run := (uploadRetry env 3 o uploader chunk batchID (Ok ZeroAddress)
                : M W Event R (result Address)) w in
  exists errs,
    (exists e,
       length errs = 3%nat /\ last errs = Some e /\
       trace run = failedUploads uploader (Data chunk) up (RetryDelay o) errs /\
       outcome run = Next (Err e)) \/
    ((length errs < 3)%nat /\
     exists ref,
       trace run = failedUploads uploader (Data chunk) up (RetryDelay o) errs
                   ++ [EUploadChunk uploader (Data chunk) up (Ok ref)] /\
       outcome run = Next (Ok ref)).
Proof.
  cbn zeta.
  destruct (uploadRetry_run env (R:=R) 3 o uploader chunk batchID (Ok ZeroAddress) w)
    as [errs [(Hl & Ht & Ho)|H]]; exists errs; [left|by right].
  destruct (last errs) as [e|] eqn:El.
  - by exists e.
  - apply last_None in El. by subst errs.
Qed.

(** X15.  [checkLightChunks] uses at most [UploadNodeCount] light nodes
    and no more than there are: it asks for at most that many postage
    batches, generates at most [ChunksPerNode] chunks for each of these
    nodes, and makes at most three upload calls for each chunk. *)
Theorem light_node_uploads_bounded {W : Type} (env : Env W) (Rand : Type)
    (PseudoGenerators : Z -> Z -> list Rand)
    (NewRandomChunk : Rand -> result Chunk * Rand)
    (LightNodeNames : list string) (o : Options) (w : W) :
  let t := trace (checkLightChunks env Rand PseudoGenerators NewRandomChunk
                    LightNodeNames o w) in
  let nodes := (length LightNodeNames `min` Z.to_nat (UploadNodeCount o))%nat in
  let chunks := Z.to_nat (ChunksPerNode o) in
  (countEvents isGetOrCreateBatch t <= nodes)%nat /\
  (countEvents isNewRandomChunk t <= nodes * chunks)%nat /\
  (countEvents isUploadChunk t <= nodes * chunks * 3)%nat.
Proof.
  cbn zeta. split; [|split].
  - pose proof (checkLightChunks_tally env Rand PseudoGenerators NewRandomChunk
                  LightNodeNames isGetOrCreateBatch 1 0 0) as H.
    etrans; [apply H; try done; intros; cbn; lia|]. lia.
  - pose proof (checkLightChunks_tally env Rand PseudoGenerators NewRandomChunk
                  LightNodeNames isNewRandomChunk 0 1 0) as H.
    etrans; [apply H; try done; intros; cbn; lia|]. lia.
  - pose proof (checkLightChunks_tally env Rand PseudoGenerators NewRandomChunk
                  LightNodeNames isUploadChunk 0 0 1) as H.
    etrans; [apply H; try done; intros; cbn; lia|]. lia.
Qed.

(** X16.  Whenever [checkLightChunks] returns an error, it is the error
    of [cluster.FlattenOverlays], returned before anything else was
    done, or the error of [cluster.NodesClients], returned right after
    the overlays were fetched, or a message that starts with "node "
    followed by the name of one of the light nodes. *)
Theorem failures_name_the_node {W : Type} (env : Env W) (Rand : Type)
    (PseudoGenerators : Z -> Z -> list Rand)
    (NewRandomChunk : Rand -> result Chunk * Rand)
    (LightNodeNames : list string) (o : Options) (w : W) (e : string) :
  let run := checkLightChunks env Rand PseudoGenerators NewRandomChunk
               LightNodeNames o w in
  outcome run = Return (Some e) ->
  trace run = [EOverlays (Err e)] \/
  (exists overlays, trace run = [EOverlays (Ok overlays); ENodesClients (Err e)]) \/
  exists nodeName rest,
    nodeName ∈ LightNodeNames /\ e = "node " +:+ nodeName +:+ rest.
Proof.
  cbn zeta. unfold checkLightChunks. rewrite bind_call.
  destruct (flattenOverlays env (ExcludeNodeGroups o) w) as [[overlays|e'] w1];
    cbn [fst snd].
  2:{ intros [= <-]. by left. }
  rewrite bind_call.
  destruct (nodesClients env w1) as [[clients|e'] w2]; cbn [fst snd].
  2:{ intros [= <-]. right. left. by exists overlays. }
  pose proof (uploadNodes_namesNode env Rand NewRandomChunk o
                (PseudoGenerators (Seed o) (UploadNodeCount o)) overlays clients 0
                LightNodeNames w2) as Hk.
  match goal with
  | |- context [bind ?m _ ?w0] => destruct (m w0) as [[oU w3] tU] eqn:EU
  end.
  cbn [fst] in Hk. unfold outcome, trace.
  destruct oU as [[]|[e'|]|msg|].
  - by rewrite (bind_Next _ _ _ _ _ _ EU).
  - rewrite (bind_Return _ _ _ _ _ _ EU). intros [= <-].
    right. right. by apply Hk.
  - by rewrite (bind_Return _ _ _ _ _ _ EU).
  - by rewrite (bind_Panic _ _ _ _ _ _ EU).
  - by rewrite (bind_Running _ _ _ _ _ EU).
Qed.

Lemma failures_name_the_node_witness :
  let run := checkLightChunks neverOnB labRand labPseudoGenerators
               labNewRandomChunk ["bee-0"] labPushsyncOptions 0%nat in
  outcome run
    = Return (Some "node bee-0 chunk 01 not found in the closest node 00") /\
  (trace run
     = [EOverlays (Err "node bee-0 chunk 01 not found in the closest node 00")] \/
   (exists overlays,
      trace run
        = [EOverlays (Ok overlays);
           ENodesClients
             (Err "node bee-0 chunk 01 not found in the closest node 00")]) \/
   exists nodeName rest,
     nodeName ∈ ["bee-0"] /\
     "node bee-0 chunk 01 not found in the closest node 00"
       = "node " +:+ nodeName +:+ rest).
Proof.
  cbn zeta. split; [by vm_compute|].
  apply (failures_name_the_node neverOnB labRand labPseudoGenerators
           labNewRandomChunk ["bee-0"] labPushsyncOptions 0%nat).
  by vm_compute.
Defined.

(** C3.  In a run of [checkLightChunks] under a runtime that enumerates
    maps fairly, with [closest] as the specification describes it, take
    any chunk the run generated.  Either no [HasChunk] call after it
    reported a chunk present and the run did not return nil; or the
    chunk was uploaded and the node that confirmed possession is the
    closest one: the polls went to the client of the node whose overlay
    is nearest to the chunk address among all overlays.  The scan that
    follows excludes the overlay of that very node.  It asks nodes with
    other overlays, each through its own client, in strictly ascending
    XOR distance from the chunk address, leaving out no nearer overlay.
    It ends in one of three ways.  At the first answer "true" the test
    case is over, and no error is returned at this point.  When every
    overlay other than the closest one has been asked for and none
    answered "true", the run returns the "not replicated" error then
    and there; in a cluster whose overlays are pairwise distinct, every
    node other than the closest one has then been asked.  When the
    nearest node not yet asked has no client, the run panics.  So the
    error is returned exactly when all other candidates were asked and
    none reported possession. *)
Theorem replica_scan_ascending {W : Type} (env : Env W) (Rand : Type)
    (PseudoGenerators : Z -> Z -> list Rand)
    (NewRandomChunk : Rand -> result Chunk * Rand)
    (LightNodeNames : list string) (o : Options) (w : W)
    (overlays : gmap string Address) (clients : gmap string Client)
    (rest pre post : list Event) (chunk : Chunk) :
  fair_ranges env ->
  let run := checkLightChunks env Rand PseudoGenerators NewRandomChunk
               LightNodeNames o w in
  trace run = EOverlays (Ok overlays) :: ENodesClients (Ok clients) :: rest ->
  rest = pre ++ ENewRandomChunk (Ok chunk) :: post ->
  (Forall (fun e => ~ confirms e) post /\ outcome run <> Return None) \/
  exists uploader up errs ref closestName closestAddress c misses vs post',
    ((length errs < 3)%nat /\ (length misses < 3)%nat /\
     Forall (fun r => r <> Ok true) misses) /\
    (overlays !! closestName = Some closestAddress /\
     clients !! closestName = Some c /\
     forall k a, overlays !! k = Some a ->
       (xorDistance closestAddress (ChunkAddress chunk)
        <= xorDistance a (ChunkAddress chunk))%N) /\
    post = failedUploads uploader (Data chunk) up (RetryDelay o) errs
           ++ EUploadChunk uploader (Data chunk) up (Ok ref)
           :: ESleep (RetryDelay o)
           :: failedPolls c ref (RetryDelay o) misses
           ++ EHasChunk c ref (Ok true) :: map (asked ref) vs ++ post' /\
    scanOrder overlays clients (ChunkAddress chunk) [closestAddress] vs /\
    (((exists done v,
         vs = done ++ [v] /\ vAnswer v = Ok true /\
         Forall (fun u => vAnswer u <> Ok true) done) /\
      (post' = [] -> forall e, outcome run <> Return (Some e))) \/
     (Forall (fun u => vAnswer u <> Ok true) vs /\
      (forall k a, overlays !! k = Some a -> a <> closestAddress ->
         exists v, v ∈ vs /\ vAddress v = a) /\
      ((forall k1 k2 a,
          overlays !! k1 = Some a -> overlays !! k2 = Some a -> k1 = k2) ->
       forall k, is_Some (overlays !! k) -> k <> closestName ->
         exists v, v ∈ vs /\ vName v = k) /\
      post' = [] /\
      exists nodeName, outcome run = Return (Some (notReplicated nodeName ref))) \/
     (Forall (fun u => vAnswer u <> Ok true) vs /\
      (exists k a,
         overlays !! k = Some a /\ a <> closestAddress /\ clients !! k = None) /\
      post' = [] /\ outcome run = Panic errNilClient)).
Proof.
  intros Hfair run Htrace Hsplit.
  pose proof (checkLightChunks_scan env Rand PseudoGenerators NewRandomChunk
                LightNodeNames Hfair o w overlays clients rest Htrace) as [_ Hpol].
  fold run in Hpol.
  destruct (Hpol _ _ _ Hsplit) as [(Hq & _ & Hs)|H].
  { left. split; [done|]. intros Ho. apply Hs. by rewrite Ho. }
  right.
  destruct H as (uploader & up & errs & ref & closestName & closestAddress & c
                 & misses & vs & post' & Hb & Hc & Hpost & Ho & Hend).
  exists uploader, up, errs, ref, closestName, closestAddress, c, misses, vs, post'.
  do 4 (split; [done|]).
  destruct Hend as [[Hfound Hgo]|[(Hn & Hcov & Hnil & nodeName & Hs)
                                 |(Hn & Hk & Hnil & Hs)]].
  - left. split; [done|]. intros Hnil e He. apply (Hgo Hnil e). by rewrite He.
  - right. left. split; [done|]. split; [done|]. split.
    { intros Hinj k [a Hk] Hne.
      destruct Hc as (Hcl & _ & _).
      destruct (Hcov k a Hk) as (v & Hv & Hva).
      { intros ->. apply Hne. by eapply Hinj. }
      exists v. split; [done|].
      destruct Ho as (_ & Hall & _). rewrite Forall_forall in Hall.
      destruct (Hall _ Hv) as (Hov & _ & _). rewrite Hva in Hov. by eapply Hinj. }
    split; [done|]. exists nodeName.
    destruct (outcome run); cbn in Hs; congruence.
  - right. right. split; [done|]. split; [done|]. split; [done|].
    destruct (outcome run); cbn in Hs; congruence.
Qed.

Lemma holds_fair holder : fair_ranges (holds holder).
Proof. intros V m w. unfold enumerates. done. Qed.

(** A run in the lab in which only the closest node holds the chunk,
    and one in which every node holds it. *)
Lemma replica_scan_ascending_witness :
  let alone := checkLightChunks (holds "bee-0") labRand labPseudoGenerators
                 labNewRandomChunk ["bee-0"] labPushsyncOptions 0%nat in
  let run := checkLightChunks (healthy 0) labRand labPseudoGenerators
               labNewRandomChunk ["bee-0"] labPushsyncOptions 0%nat in
  let chunk := {| Data := [x01]; ChunkAddress := [x01] |} in
  let up := {| Pin := false; BatchID := "batch-1"; Direct := false |} in
  let batch := [EGetOrCreateBatch "bee-0" (Ok "batch-1")] in
  let post :=
    [EUploadChunk "bee-0" [x01] up (Ok [x01]); ESleep Second;
     EHasChunk "bee-0" [x01] (Ok true);
     EHasChunk "bee-1" [x01] (Ok false); EHasChunk "bee-2" [x01] (Ok false)] in
  (trace alone
     = EOverlays (Ok labOverlays) :: ENodesClients (Ok labClients)
       :: batch ++ ENewRandomChunk (Ok chunk) :: post /\
   outcome alone = Return (Some (notReplicated "bee-0" [x01])) /\
   ((Forall (fun e => ~ confirms e) post /\ outcome alone <> Return None) \/
    exists uploader up errs ref closestName closestAddress c misses vs post',
      ((length errs < 3)%nat /\ (length misses < 3)%nat /\
       Forall (fun r => r <> Ok true) misses) /\
      (labOverlays !! closestName = Some closestAddress /\
       labClients !! closestName = Some c /\
       forall k a, labOverlays !! k = Some a ->
         (xorDistance closestAddress (ChunkAddress chunk)
          <= xorDistance a (ChunkAddress chunk))%N) /\
      post = failedUploads uploader (Data chunk) up
               (RetryDelay labPushsyncOptions) errs
             ++ EUploadChunk uploader (Data chunk) up (Ok ref)
             :: ESleep (RetryDelay labPushsyncOptions)
             :: failedPolls c ref (RetryDelay labPushsyncOptions) misses
             ++ EHasChunk c ref (Ok true) :: map (asked ref) vs ++ post' /\
      scanOrder labOverlays labClients (ChunkAddress chunk) [closestAddress] vs /\
      (((exists done v,
           vs = done ++ [v] /\ vAnswer v = Ok true /\
           Forall (fun u => vAnswer u <> Ok true) done) /\
        (post' = [] -> forall e, outcome alone <> Return (Some e))) \/
       (Forall (fun u => vAnswer u <> Ok true) vs /\
        (forall k a, labOverlays !! k = Some a -> a <> closestAddress ->
           exists v, v ∈ vs /\ vAddress v = a) /\
        ((forall k1 k2 a,
            labOverlays !! k1 = Some a -> labOverlays !! k2 = Some a -> k1 = k2) ->
         forall k, is_Some (labOverlays !! k) -> k <> closestName ->
           exists v, v ∈ vs /\ vName v = k) /\
        post' = [] /\
        exists nodeName,
          outcome alone = Return (Some (notReplicated nodeName ref))) \/
       (Forall (fun u => vAnswer u <> Ok true) vs /\
        (exists k a,
           labOverlays !! k = Some a /\ a <> closestAddress /\
           labClients !! k = None) /\
        post' = [] /\ outcome alone = Panic errNilClient)))) /\
  (drop 4 (trace run)
     = [EUploadChunk "bee-0" [x01] up (Ok [x01]); ESleep Second;
        EHasChunk "bee-0" [x01] (Ok true); EHasChunk "bee-1" [x01] (Ok true);
        ENewRandomChunk (Ok {| Data := [x81]; ChunkAddress := [x81] |});
        EUploadChunk "bee-0" [x81] up (Ok [x81]); ESleep Second;
        EHasChunk "bee-1" [x81] (Ok true); EHasChunk "bee-2" [x81] (Ok true)] /\
   outcome run = Return None).
Proof.
  cbn zeta. split; [|split; by vm_compute].
  split; [by vm_compute|]. split; [by vm_compute|].
  apply (replica_scan_ascending (holds "bee-0") labRand labPseudoGenerators
           labNewRandomChunk ["bee-0"] labPushsyncOptions 0%nat labOverlays
           labClients
           ([EGetOrCreateBatch "bee-0" (Ok "batch-1")]
              ++ ENewRandomChunk (Ok {| Data := [x01]; ChunkAddress := [x01] |})
              :: [EUploadChunk "bee-0" [x01]
                    {| Pin := false; BatchID := "batch-1"; Direct := false |}
                    (Ok [x01]);
                  ESleep Second; EHasChunk "bee-0" [x01] (Ok true);
                  EHasChunk "bee-1" [x01] (Ok false);
                  EHasChunk "bee-2" [x01] (Ok false)])
           [EGetOrCreateBatch "bee-0" (Ok "batch-1")]).
  - apply holds_fair.
  - by vm_compute.
  - done.
Defined.

(** X17.  When [checkLightChunks] returns nil under a runtime that
    enumerates maps fairly, every chunk it generated was uploaded
    successfully within three attempts, then, after the retry delay,
    reported present within three polls by the client of the node whose
    overlay is nearest to the chunk address, and then reported present
    by a node with another name and another overlay, asked through its
    own client by the scan for a second holder, all calls of the scan
    before that one having failed or answered no. *)
Theorem passing_check_saw_replicas {W : Type} (env : Env W) (Rand : Type)
    (PseudoGenerators : Z -> Z -> list Rand)
    (NewRandomChunk : Rand -> result Chunk * Rand)
    (LightNodeNames : list string) (o : Options) (w : W)
    (pre post : list Event) (chunk : Chunk) :
  fair_ranges env ->
  let run := checkLightChunks env Rand PseudoGenerators NewRandomChunk
               LightNodeNames o w in
  outcome run = Return None ->
  trace run = pre ++ ENewRandomChunk (Ok chunk) :: post ->
  exists overlays clients before uploader up errs ref closestName closestAddress c
         misses others v post',
    pre = EOverlays (Ok overlays) :: ENodesClients (Ok clients) :: before /\
    ((length errs < 3)%nat /\ (length misses < 3)%nat /\
     Forall (fun r => r <> Ok true) misses /\
     Forall (fun u => vAnswer u <> Ok true) others) /\
    (overlays !! closestName = Some closestAddress /\
     clients !! closestName = Some c /\
     forall k a, overlays !! k = Some a ->
       (xorDistance closestAddress (ChunkAddress chunk)
        <= xorDistance a (ChunkAddress chunk))%N) /\
    (overlays !! vName v = Some (vAddress v) /\
     clients !! vName v = Some (vClient v) /\
     vName v <> closestName /\ vAddress v <> closestAddress) /\
    post = failedUploads uploader (Data chunk) up (RetryDelay o) errs
           ++ EUploadChunk uploader (Data chunk) up (Ok ref)
           :: ESleep (RetryDelay o)
           :: failedPolls c ref (RetryDelay o) misses
           ++ EHasChunk c ref (Ok true)
           :: map (asked ref) others ++ EHasChunk (vClient v) ref (Ok true) :: post'.
Proof.
  intros Hfair run Hout Hsplit.
  assert (Hhead : exists overlays clients rest,
            trace run = EOverlays (Ok overlays) :: ENodesClients (Ok clients) :: rest).
  { revert Hout. unfold run, checkLightChunks, trace, outcome. rewrite bind_call.
    destruct (flattenOverlays env (ExcludeNodeGroups o) w) as [[overlays|e] w1];
      cbn [fst snd]; [|done].
    rewrite bind_call.
    destruct (nodesClients env w1) as [[clients|e] w2]; cbn [fst snd]; [|done].
    intros _. by eexists _, _, _. }
  destruct Hhead as (overlays & clients & rest & Htrace).
  pose proof (checkLightChunks_scan env Rand PseudoGenerators NewRandomChunk
                LightNodeNames Hfair o w overlays clients rest Htrace) as [_ Hpol].
  fold run in Hpol. rewrite Hout in Hpol. cbn [status_of] in Hpol.
  rewrite Htrace in Hsplit.
  destruct pre as [|e1 [|e2 before]]; cbn in Hsplit; [done|done|].
  injection Hsplit as <- <- ->.
  destruct (Hpol _ _ _ eq_refl) as [(_ & _ & Hs)|H]; [done|].
  destruct H as (uploader & up & errs & ref & closestName & closestAddress & c
                 & misses & vs & post' & (Hl1 & Hl2 & Hm) & Hc & -> & Ho & Hend).
  destruct Hend as [[(others & v & -> & Hv & Hothers) _]
                   |[(_ & _ & _ & ? & ?)|(_ & _ & _ & ?)]]; [|done|done].
  exists overlays, clients, before, uploader, up, errs, ref, closestName,
    closestAddress, c, misses, others, v, post'.
  split; [done|]. split; [done|]. split; [done|].
  destruct Ho as (_ & Hall & _). rewrite Forall_forall in Hall.
  destruct (Hall v) as (Hov & Hcv & Hout'); [apply elem_of_app; right; by left|].
  assert (Hne : vAddress v <> closestAddress).
  { intros Heq. apply Hout'. rewrite Heq. by left. }
  split.
  { split; [done|]. split; [done|]. split; [|done].
    intros Heq. destruct Hc as (Hcl & _ & _). rewrite Heq, Hcl in Hov.
    injection Hov as Hov. by apply Hne. }
  rewrite map_app. cbn. unfold asked at 2. rewrite Hv.
  by rewrite <- !app_assoc.
Qed.

Lemma passing_check_saw_replicas_witness :
  let run := checkLightChunks (healthy 0) labRand labPseudoGenerators
               labNewRandomChunk ["bee-0"] labPushsyncOptions 0%nat in
  let chunk := {| Data := [x01]; ChunkAddress := [x01] |} in
  let delay := RetryDelay labPushsyncOptions in
  outcome run = Return None /\
  trace run = take 3 (trace run) ++ ENewRandomChunk (Ok chunk)
                :: drop 4 (trace run) /\
  exists overlays clients before uploader up errs ref closestName closestAddress c
         misses others v post',
    take 3 (trace run)
      = EOverlays (Ok overlays) :: ENodesClients (Ok clients) :: before /\
    ((length errs < 3)%nat /\ (length misses < 3)%nat /\
     Forall (fun r => r <> Ok true) misses /\
     Forall (fun u => vAnswer u <> Ok true) others) /\
    (overlays !! closestName = Some closestAddress /\
     clients !! closestName = Some c /\
     forall k a, overlays !! k = Some a ->
       (xorDistance closestAddress (ChunkAddress chunk)
        <= xorDistance a (ChunkAddress chunk))%N) /\
    (overlays !! vName v = Some (vAddress v) /\
     clients !! vName v = Some (vClient v) /\
     vName v <> closestName /\ vAddress v <> closestAddress) /\
    drop 4 (trace run)
      = failedUploads uploader (Data chunk) up delay errs
        ++ EUploadChunk uploader (Data chunk) up (Ok ref)
        :: ESleep delay
        :: failedPolls c ref delay misses
        ++ EHasChunk c ref (Ok true)
        :: map (asked ref) others ++ EHasChunk (vClient v) ref (Ok true) :: post'.
Proof.
  cbn zeta. split; [by vm_compute|]. split; [by vm_compute|].
  apply (passing_check_saw_replicas (healthy 0) labRand labPseudoGenerators
           labNewRandomChunk ["bee-0"] labPushsyncOptions 0%nat
           (take 3 (trace (checkLightChunks (healthy 0) labRand labPseudoGenerators
                             labNewRandomChunk ["bee-0"] labPushsyncOptions 0%nat)))).
  - intros V m w. unfold enumerates. done.
  - by vm_compute.
  - by vm_compute.
Defined.

End LightNodesFacts.

(** ** Facts about the Loki hook *)

Module LokiFacts.
Import AddressSpace Effects EffectsFacts Loki.

Section Hook.
Context {W : Type}.
Variable Request : Type.
Variable clientDo : Request -> W -> result Response * W.
Variable readAll : Response -> W -> result Bytes * W.
Variable bodyClose : Response -> W -> unit * W.
Variable NewRequest : string -> string -> Bytes -> result Request.
Variable HeaderSet : Request -> string -> string -> Request.
Variable Stream : Type.
Variable Batch : Type.
Variable Timestamp : Type.
Variable NewStream : Stream.
Variable AddEntry : Stream -> Timestamp -> string -> Stream.
Variable AddLabel : Stream -> string -> string -> Stream.
Variable NewBatch : Batch.
Variable AddStream : Batch -> Stream -> Batch.
Variable Marshal : Batch -> result Bytes.
Variable Entry : Type.
Variable Logger : Type.
Variable Formatter : Type.
Variable EntryTime : Entry -> Timestamp.
Variable EntryLogger : Entry -> option Logger.
Variable LoggerFormatter : Logger -> option Formatter.
Variable Format : Formatter -> Entry -> result Bytes.

(** X18.  [executeHTTPRequest] sends nothing when the batch cannot be
    marshalled or the request cannot be built, and returns that error.
    Otherwise it sends one POST request to the endpoint of the hook with
    the marshalled batch as body and the JSON content type.  When the
    request fails its error is returned and no body is closed.  When a
    response arrives its body is closed exactly once, as the last thing
    done: right after the response when the status is 200 or 204, the
    result then being nil, and after one read of the body otherwise, the
    result then being an error that quotes the status. *)
Theorem executeHTTPRequest_closes_body (l : LokiHook) (batch : Batch) (w : W) :
  let run := executeHTTPRequest Request clientDo readAll bodyClose NewRequest
               HeaderSet Batch Marshal l batch w in
  (exists e,
     (Marshal batch = Err e \/
      exists data, Marshal batch = Ok data /\
                   NewRequest "POST" (lokiEndpoint l) data = Err e) /\
     trace run = [] /\ outcome run = Return (Some e)) \/
  exists data req0,
    Marshal batch = Ok data /\
    NewRequest "POST" (lokiEndpoint l) data = Ok req0 /\
    let req := HeaderSet req0 "Content-Type" "application/json" in
    (exists e, trace run = [EDo req (Err e)] /\ outcome run = Return (Some e)) \/
    (exists resp,
       trace run = [EDo req (Ok resp); EClose resp] /\
       (StatusCode resp = StatusOK \/ StatusCode resp = StatusNoContent) /\
       outcome run = Return None) \/
    (exists resp r,
       trace run = [EDo req (Ok resp); EReadAll resp r; EClose resp] /\
       StatusCode resp <> StatusOK /\ StatusCode resp <> StatusNoContent /\
       outcome run =
         Return (Some match r with
                      | Err e => "error reading response (" +:+ Status resp
                                 +:+ "): " +:+ e
                      | Ok body => "error posting loki batch (" +:+ Status resp
                                   +:+ "): " +:+ string_of_list_byte body
                      end)).
Proof.
  cbn zeta. unfold executeHTTPRequest, trace, outcome.
  destruct (Marshal batch) as [data|e]; [|left; exists e; split; [by left|done]].
  destruct (NewRequest "POST" (lokiEndpoint l) data) as [req|e] eqn:Ereq.
  2:{ left. exists e. split; [right; by exists data|done]. }
  right. exists data, req. split; [done|]. split; [done|].
  rewrite bind_call.
  destruct (clientDo _ w) as [[resp|e] w1]; cbn [fst snd].
  2:{ left. by exists e. }
  right. unfold deferred, checkResponse.
  destruct (Z.eqb_spec (StatusCode resp) StatusOK) as [H1|H1]; cbn [negb andb].
  { cbn. unfold call. destruct (bodyClose resp w1). cbn. left.
    exists resp. split; [done|]. split; [by left|done]. }
  destruct (Z.eqb_spec (StatusCode resp) StatusNoContent) as [H2|H2]; cbn [negb andb].
  { cbn. unfold call. destruct (bodyClose resp w1). cbn. left.
    exists resp. split; [done|]. split; [by right|done]. }
  rewrite bind_call.
  destruct (readAll resp w1) as [[d|e] w2]; cbn [fst snd].
  - cbn. unfold call. destruct (bodyClose resp w2). cbn. right.
    by exists resp, (Ok d).
  - cbn. unfold call. destruct (bodyClose resp w2). cbn. right.
    by exists resp, (Err e).
Qed.

(** The ways [executeHTTPRequest] can end, without what was sent. *)
Lemma executeHTTPRequest_ends (l : LokiHook) (batch : Batch) (w : W) :
  let run := executeHTTPRequest Request clientDo readAll bodyClose NewRequest
               HeaderSet Batch Marshal l batch w in
  (exists e, trace run = [] /\ outcome run = Return (Some e)) \/
  (exists req e, trace run = [EDo req (Err e)] /\ outcome run = Return (Some e)) \/
  (exists data req0 resp,
     Marshal batch = Ok data /\
     NewRequest "POST" (lokiEndpoint l) data = Ok req0 /\
     trace run = [EDo (HeaderSet req0 "Content-Type" "application/json") (Ok resp);
                  EClose resp] /\
     (StatusCode resp = StatusOK \/ StatusCode resp = StatusNoContent) /\
     outcome run = Return None) \/
  (exists req resp r e,
     trace run = [EDo req (Ok resp); EReadAll resp r; EClose resp] /\
     StatusCode resp <> StatusOK /\ StatusCode resp <> StatusNoContent /\
     outcome run = Return (Some e)).
Proof.
  cbn zeta. unfold executeHTTPRequest, trace, outcome.
  destruct (Marshal batch) as [data|e]; [|left; by exists e].
  destruct (NewRequest "POST" (lokiEndpoint l) data) as [req|e] eqn:Ereq;
    [|left; by exists e].
  rewrite bind_call.
  destruct (clientDo _ w) as [[resp|e] w1]; cbn [fst snd].
  2:{ right. left. by eexists _, e. }
  unfold deferred, checkResponse.
  destruct (Z.eqb_spec (StatusCode resp) StatusOK) as [H1|H1]; cbn [negb andb].
  { cbn. unfold call. destruct (bodyClose resp w1). cbn. right. right. left.
    exists data, req, resp. split; [done|]. split; [done|]. split; [done|].
    split; [by left|done]. }
  destruct (Z.eqb_spec (StatusCode resp) StatusNoContent) as [H2|H2]; cbn [negb andb].
  { cbn. unfold call. destruct (bodyClose resp w1). cbn. right. right. left.
    exists data, req, resp. split; [done|]. split; [done|]. split; [done|].
    split; [by right|done]. }
  rewrite bind_call.
  destruct (readAll resp w1) as [[d|e] w2]; cbn [fst snd].
  - cbn. unfold call. destruct (bodyClose resp w2). cbn. do 3 right.
    by eexists _, resp, (Ok d), _.
  - cbn. unfold call. destruct (bodyClose resp w2). cbn. do 3 right.
    by eexists _, resp, (Err e), _.
Qed.

(** X19.  [Fire] panics on a nil dereference, before anything is sent,
    exactly when the entry, the logger of the entry or the formatter of
    that logger is nil.  Otherwise it returns nil in one case only: the
    formatter produced the line, the batch that holds one stream with
    this line and the label "hostname" was marshalled and posted, and
    Loki answered 200 or 204; the body of the answer was then closed.
    When the formatter fails nothing is sent and the error is "loki
    format failed: " followed by its message.  Every other failure is
    reported as "loki request failed: " followed by its message, and a
    body that was obtained has been closed. *)
Theorem Fire_reports (l : LokiHook) (entry : option Entry) (w : W) :
  let run := Fire Request clientDo readAll bodyClose NewRequest HeaderSet
               Stream Batch Timestamp NewStream AddEntry AddLabel NewBatch
               AddStream Marshal Entry Logger Formatter EntryTime EntryLogger
               LoggerFormatter Format l entry w in
  ((entry = None \/
    (exists en, entry = Some en /\ EntryLogger en = None) \/
    (exists en logger,
       entry = Some en /\ EntryLogger en = Some logger /\
       LoggerFormatter logger = None)) /\
   trace run = [] /\ outcome run = Panic errNilDereference) \/
  exists en logger formatter,
    entry = Some en /\ EntryLogger en = Some logger /\
    LoggerFormatter logger = Some formatter /\
    ((exists msg data req0 resp,
        Format formatter en = Ok msg /\
        Marshal (AddStream NewBatch
                   (AddLabel (AddEntry NewStream (EntryTime en)
                                (string_of_list_byte msg))
                      "hostname" (hostname l))) = Ok data /\
        NewRequest "POST" (lokiEndpoint l) data = Ok req0 /\
        trace run = [EDo (HeaderSet req0 "Content-Type" "application/json") (Ok resp);
                     EClose resp] /\
        (StatusCode resp = StatusOK \/ StatusCode resp = StatusNoContent) /\
        outcome run = Return None) \/
     (exists e,
        Format formatter en = Err e /\ trace run = [] /\
        outcome run = Return (Some ("loki format failed: " +:+ e))) \/
     (exists msg e,
        Format formatter en = Ok msg /\
        outcome run = Return (Some ("loki request failed: " +:+ e)) /\
        (trace run = [] \/
         (exists req, trace run = [EDo req (Err e)]) \/
         exists req resp r,
           trace run = [EDo req (Ok resp); EReadAll resp r; EClose resp] /\
           StatusCode resp <> StatusOK /\ StatusCode resp <> StatusNoContent))).
Proof.
  cbn zeta. unfold Fire, entryFormatter.
  destruct entry as [en|]; [|left; split; [by left|done]].
  destruct (EntryLogger en) as [logger|] eqn:El.
  2:{ left. split; [right; left; by exists en|done]. }
  destruct (LoggerFormatter logger) as [formatter|] eqn:Ef.
  2:{ left. split; [right; right; by exists en, logger|done]. }
  right. exists en, logger, formatter. do 3 (split; [done|]).
  rewrite bind_ret_l.
  destruct (Format formatter en) as [msg|e]; [|right; left; by exists e].
  pose proof (executeHTTPRequest_ends l
                (batchOf Stream Batch Timestamp NewStream AddEntry AddLabel
                   NewBatch AddStream Entry EntryTime l en msg) w) as Hrun.
  cbn zeta in Hrun. unfold bind, invoke, trace, outcome in *.
  destruct (executeHTTPRequest _ _ _ _ _ _ _ _ l _ w) as [[o w1] t1].
  cbn [fst snd] in Hrun.
  destruct Hrun as [(e & -> & ->)|[(req & e & -> & ->)|
    [(data & req0 & resp & Hm & Hr & -> & Hs & ->)
    |(req & resp & r & e & -> & H1 & H2 & ->)]]]; cbn.
  - right. right. exists msg, e. split; [done|]. split; [done|]. by left.
  - right. right. exists msg, e. split; [done|]. split; [done|].
    right. left. by exists req.
  - left. by exists msg, data, req0, resp.
  - right. right. exists msg, e. split; [done|]. split; [done|].
    right. right. by exists req, resp, r.
Qed.

End Hook.
End LokiFacts.
